(** * Synth: symbolic core of configuration synthesis

    A shallow embedding of [synth/synthesis/classes.py],
    [synth/synthesis/serialization.py] and the query wrapper of
    [synth/synthesis/knowledge_base.py], with the properties of the
    specification stated and proved over it.

    Conventions.
    - A Python [str] is a [string]; its characters are the code points
      below 256.
    - A Python [dict] is an association list in insertion order whose keys
      are compared with the key type's [__eq__]; a [set] or [frozenset] is
      a list without repetition for the element type's [__eq__].  No
      statement depends on the iteration order of a set.
    - A call that may raise returns a [result]. *)

From Stdlib Require Import List String Ascii ZArith NArith Bool Lia Arith.
From Stdlib Require Import Permutation DecimalString OrdersEx Sorted RelationClasses.
Import ListNotations.

Local Open Scope string_scope.
Local Open Scope list_scope.

(** ** Exceptions and results

    [NotEmbedded] is not an exception of the program: the embedding
    answers with it where the program goes on with data that the
    embedding does not represent. *)

Inductive Exc : Type :=
| MatchingException
| TypeError
| ValueError
| KeyError
| AttributeError
| OperationalError
| TimeoutError
| RuntimeError
| NotEmbedded.

Inductive result (A : Type) : Type :=
| Ok (a : A)
| Raise (e : Exc).

Arguments Ok {A} a.
Arguments Raise {A} e.

Definition bind {A B : Type} (r : result A) (k : A -> result B) : result B :=
  match r with
  | Ok a => k a
  | Raise e => Raise e
  end.

Notation "'do' x <- r ; k" := (bind r (fun x => k))
  (at level 10, x name, r at level 100, k at level 200).

Fixpoint mapM {A B : Type} (f : A -> result B) (l : list A) : result (list B) :=
  match l with
  | [] => Ok []
  | x :: l' => do y <- f x; do ys <- mapM f l'; Ok (y :: ys)
  end.

(** ** Python leaf values

    The values that reach [original_value]: strings from shell words and
    image diffs, and the scalars of a parsed playbook. *)

Inductive PyType : Type := TStr | TInt | TBool | TNone.

Inductive PyVal : Type :=
| PStr (s : string)
| PInt (z : Z)
| PBool (b : bool)
| PNone.

Definition type_of (v : PyVal) : PyType :=
  match v with
  | PStr _ => TStr
  | PInt _ => TInt
  | PBool _ => TBool
  | PNone => TNone
  end.

Definition pytype_eqb (t u : PyType) : bool :=
  match t, u with
  | TStr, TStr | TInt, TInt | TBool, TBool | TNone, TNone => true
  | _, _ => false
  end.

(** [issubclass(t, u)]: [bool] is a subclass of [int]. *)
Definition issubclass (t u : PyType) : bool :=
  match t, u with
  | TBool, TInt => true
  | _, _ => pytype_eqb t u
  end.

(** [str(v)]. *)
Definition py_str (v : PyVal) : string :=
  match v with
  | PStr s => s
  | PInt z => NilZero.string_of_int (Z.to_int z)
  | PBool true => "True"
  | PBool false => "False"
  | PNone => "None"
  end.

(** [v == w] on leaf values: a [bool] compares as the integer 0 or 1. *)
Definition py_eqb (v w : PyVal) : bool :=
  match v, w with
  | PStr s, PStr t => String.eqb s t
  | PInt a, PInt b => Z.eqb a b
  | PBool a, PBool b => Bool.eqb a b
  | PInt a, PBool b | PBool b, PInt a => Z.eqb a (if b then 1 else 0)
  | PNone, PNone => true
  | _, _ => false
  end.

(** ** Configuration task arguments *)

Definition _identity (value : string) : string := value.

Fixpoint replace_char (old new : ascii) (s : string) : string :=
  match s with
  | EmptyString => EmptyString
  | String c s' =>
      String (if Ascii.eqb c old then new else c) (replace_char old new s')
  end.

Definition _undo_path_replacement (value : string) : string :=
  replace_char "/"%char "."%char value.

(** [value] and [original_type] are computed from [original_value] by
    [__init__]; they are functions of it here. *)
Record ConfigurationTaskArgument : Type := mkArg {
  arg_original_value : PyVal;
  arg_transformer : string -> string;
  arg_pre_transform_value : option string
}.

Definition arg_value (a : ConfigurationTaskArgument) : string :=
  py_str (arg_original_value a).

Definition arg_original_type (a : ConfigurationTaskArgument) : PyType :=
  type_of (arg_original_value a).

(** [ConfigurationTaskArgument(original_value=v)]. *)
Definition Arg (v : PyVal) : ConfigurationTaskArgument :=
  mkArg v _identity None.

(** The generated [__eq__]: the tuples [(value, original_type,
    original_value)] are compared; [transformer] and [pre_transform_value]
    are declared with [compare=False]. *)
Definition arg_eqb (a b : ConfigurationTaskArgument) : bool :=
  String.eqb (arg_value a) (arg_value b)
  && pytype_eqb (arg_original_type a) (arg_original_type b)
  && py_eqb (arg_original_value a) (arg_original_value b).

Definition ArgumentPair : Type :=
  (ConfigurationTaskArgument * ConfigurationTaskArgument)%type.

(** ** Dictionaries keyed by arguments *)

Definition ArgDict : Type := list ArgumentPair.

Fixpoint dict_get (d : ArgDict) (k : ConfigurationTaskArgument)
  : option ConfigurationTaskArgument :=
  match d with
  | [] => None
  | (k', v) :: d' => if arg_eqb k' k then Some v else dict_get d' k
  end.

(** [d[k] = v]: an equal key keeps its place and its key object. *)
Fixpoint dict_set (d : ArgDict) (k v : ConfigurationTaskArgument) : ArgDict :=
  match d with
  | [] => [(k, v)]
  | (k', v') :: d' =>
      if arg_eqb k' k then (k', v) :: d' else (k', v') :: dict_set d' k v
  end.

Definition dict_mem (d : ArgDict) (k : ConfigurationTaskArgument) : bool :=
  match dict_get d k with
  | Some _ => true
  | None => false
  end.

(** [d1 == d2] for dictionaries. *)
Definition dict_eqb (d1 d2 : ArgDict) : bool :=
  Nat.eqb (List.length d1) (List.length d2)
  && forallb (fun kv =>
                match dict_get d2 (fst kv) with
                | Some v => arg_eqb (snd kv) v
                | None => false
                end) d1.

(** ** Argument mappings *)

Record ConfigurationTaskArgumentMapping : Type := mkMapping {
  source_arguments : ArgDict;
  target_arguments : ArgDict
}.

Definition empty_mapping : ConfigurationTaskArgumentMapping :=
  mkMapping [] [].

Definition add_pair (self : ConfigurationTaskArgumentMapping)
    (p : ArgumentPair) : result ConfigurationTaskArgumentMapping :=
  let '(a, b) := p in
  let a_map := dict_get (source_arguments self) a in
  let b_map := dict_get (target_arguments self) b in
  if (match a_map with Some x => negb (arg_eqb x b) | None => false end)
     || (match b_map with Some y => negb (arg_eqb y a) | None => false end)
  then Raise MatchingException
  else Ok (mkMapping (dict_set (source_arguments self) a b)
                     (dict_set (target_arguments self) b a)).

Fixpoint add_pairs (self : ConfigurationTaskArgumentMapping)
    (mapping : list ArgumentPair) : result ConfigurationTaskArgumentMapping :=
  match mapping with
  | [] => Ok self
  | p :: rest => do self' <- add_pair self p; add_pairs self' rest
  end.

(** [ConfigurationTaskArgumentMapping(mapping)]. *)
Definition new_mapping (mapping : list ArgumentPair)
  : result ConfigurationTaskArgumentMapping :=
  add_pairs empty_mapping mapping.

Definition mapping_eqb (m1 m2 : ConfigurationTaskArgumentMapping) : bool :=
  dict_eqb (source_arguments m1) (source_arguments m2)
  && dict_eqb (target_arguments m1) (target_arguments m2).

Definition invert (self : ConfigurationTaskArgumentMapping)
  : result ConfigurationTaskArgumentMapping :=
  new_mapping (map (fun ab => (snd ab, fst ab)) (source_arguments self)).

Definition merge (self other : ConfigurationTaskArgumentMapping)
  : result ConfigurationTaskArgumentMapping :=
  new_mapping (source_arguments self ++ source_arguments other).

Definition merge_all (mappings : list ConfigurationTaskArgumentMapping)
  : result ConfigurationTaskArgumentMapping :=
  new_mapping (List.concat (map source_arguments mappings)).

(** [itertools.product] of the listed iterables. *)
Fixpoint product {A : Type} (iterables : list (list A)) : list (list A) :=
  match iterables with
  | [] => [[]]
  | l :: rest => flat_map (fun x => map (cons x) (product rest)) l
  end.

(** [s.add(m)] for a set of mappings. *)
Definition mset_add (m : ConfigurationTaskArgumentMapping)
    (s : list ConfigurationTaskArgumentMapping)
  : list ConfigurationTaskArgumentMapping :=
  if existsb (mapping_eqb m) s then s else s ++ [m].

Definition mset_of_list (l : list ConfigurationTaskArgumentMapping)
  : list ConfigurationTaskArgumentMapping :=
  fold_left (fun s m => mset_add m s) l [].

Definition all_combinations
    (mappings : list (list ConfigurationTaskArgumentMapping))
  : list ConfigurationTaskArgumentMapping :=
  match mappings with
  | [] => []
  | _ =>
      fold_left
        (fun merged_mappings elements =>
           match merge_all elements with
           | Ok mapping => mset_add mapping merged_mappings
           | Raise _ => merged_mappings (* only MatchingException arises *)
           end)
        (product mappings) []
  end.

(** ** The specification's reading of [all_combinations]

    The set written in the specification: take each tuple of the Cartesian
    product, merge all its elements with [merge], keep the result when no
    merge raises. *)

(** [t] is a tuple of the Cartesian product of [L]: one element from each
    collection, in order. *)
Definition in_cartesian {A : Type} (t : list A) (L : list (list A)) : Prop :=
  Forall2 (@In A) t L.

Definition merge_tuple (t : list ConfigurationTaskArgumentMapping)
  : result ConfigurationTaskArgumentMapping :=
  fold_left (fun acc m => do a <- acc; merge a m) t (Ok empty_mapping).

(** Membership in a set of mappings, for the [__eq__] of mappings. *)
Definition mset_In (m : ConfigurationTaskArgumentMapping)
    (s : list ConfigurationTaskArgumentMapping) : Prop :=
  exists m', In m' s /\ mapping_eqb m' m = true.

Definition spec_all_combinations
    (L : list (list ConfigurationTaskArgumentMapping))
    (m : ConfigurationTaskArgumentMapping) : Prop :=
  exists t m',
    in_cartesian t L /\ merge_tuple t = Ok m' /\ mapping_eqb m' m = true.

(** ** Strings *)

(** [sub in s]. *)
Fixpoint str_contains (sub s : string) : bool :=
  String.prefix sub s
  || match s with
     | EmptyString => false
     | String _ s' => str_contains sub s'
     end.

Fixpoint str_drop (n : nat) (s : string) : string :=
  match n, s with
  | O, _ => s
  | S n', String _ s' => str_drop n' s'
  | S _, EmptyString => EmptyString
  end.

(** [s.str_partition(sep)] for a non-empty [sep]: the text before the first
    occurrence, the separator, the text after it; [s] and two empty strings when [sep]
    does not occur. *)
Fixpoint str_partition (sep s : string) : string * string * string :=
  match s with
  | EmptyString => (EmptyString, EmptyString, EmptyString)
  | String c s' =>
      if String.prefix sep s
      then (EmptyString, sep, str_drop (String.length sep) s)
      else let '(before, sep', after) := str_partition sep s' in
           (String c before, sep', after)
  end.

Definition str_nonempty (s : string) : bool :=
  match s with
  | EmptyString => false
  | String _ _ => true
  end.

(** ** Regular expressions, matched by backtracking as [re] does:
    alternatives in order, repetitions greedy. *)

Inductive regex : Type :=
| Eps
| Chr (p : ascii -> bool)
| Seq (r1 r2 : regex)
| Alt (r1 r2 : regex)
| Star (r : regex).

Definition Opt (r : regex) : regex := Alt r Eps.
Definition Plus (r : regex) : regex := Seq r (Star r).

(** [rmatch r s k]: match [r] at the start of [s] and pass what is left to
    [k]; the first success wins.  A repetition only iterates on a body
    match that consumed input, as every repeated body of [VERSION_REGEX]
    does. *)
Fixpoint rmatch (r : regex) (s : string) (k : string -> option string)
  : option string :=
  match r with
  | Eps => k s
  | Chr p =>
      match s with
      | String c s' => if p c then k s' else None
      | EmptyString => None
      end
  | Seq r1 r2 => rmatch r1 s (fun s' => rmatch r2 s' k)
  | Alt r1 r2 =>
      match rmatch r1 s k with
      | Some x => Some x
      | None => rmatch r2 s k
      end
  | Star r' =>
      (fix star (n : nat) (s : string) {struct n} : option string :=
         match n with
         | O => k s
         | S n' =>
             match rmatch r' s
                     (fun s' =>
                        if Nat.ltb (String.length s') (String.length s)
                        then star n' s' else None) with
             | Some x => Some x
             | None => k s
             end
         end) (String.length s) s
  end.

(** [pattern.findall(s)] for a pattern without groups that matches no
    empty string: the matches found scanning from left to right, each
    search resuming where the previous match ended.  [skip] counts the
    characters of the last match still to be passed. *)
Fixpoint findall_from (r : regex) (skip : nat) (s : string) : list string :=
  match s with
  | EmptyString => []
  | String _ s' =>
      match skip with
      | S skip' => findall_from r skip' s'
      | O =>
          match rmatch r s Some with
          | Some rest =>
              let n := String.length s - String.length rest in
              match n with
              | O => findall_from r 0 s'
              | S n' => String.substring 0 n s :: findall_from r n' s'
              end
          | None => findall_from r 0 s'
          end
      end
  end.

Definition findall (r : regex) (s : string) : list string :=
  findall_from r 0 s.

Definition in_range (lo hi c : ascii) : bool :=
  (N.leb (N_of_ascii lo) (N_of_ascii c))
  && (N.leb (N_of_ascii c) (N_of_ascii hi)).

Definition is_char (x c : ascii) : bool := Ascii.eqb c x.

(** A decimal digit. *)
Definition re_digit : regex := Chr (in_range "0" "9").
(** A digit, a letter or a hyphen. *)
Definition re_alnum_hyphen : regex :=
  Chr (fun c => in_range "0" "9" c || in_range "a" "z" c
                || in_range "A" "Z" c || is_char "-" c).
(** A letter or a hyphen. *)
Definition re_alpha_hyphen : regex :=
  Chr (fun c => in_range "a" "z" c || in_range "A" "Z" c || is_char "-" c).
(** A numeric identifier: 0, or a digit from 1 to 9 followed by digits. *)
Definition re_number : regex :=
  Alt (Chr (is_char "0")) (Seq (Chr (in_range "1" "9")) (Star re_digit)).
(** A pre-release identifier: a numeric identifier, or digits followed by
    a letter or hyphen and then digits, letters and hyphens. *)
Definition re_identifier : regex :=
  Alt (Chr (is_char "0"))
      (Alt (Seq (Chr (in_range "1" "9")) (Star re_digit))
           (Seq (Star re_digit) (Seq re_alpha_hyphen (Star re_alnum_hyphen)))).
Definition re_dot : regex := Chr (is_char ".").

Definition VERSION_REGEX : regex :=
  Seq re_number
  (Seq re_dot
  (Seq re_number
  (Seq (Opt (Seq re_dot re_number))
  (Seq (Opt (Seq (Chr (is_char "-"))
                 (Seq re_identifier (Star (Seq re_dot re_identifier)))))
       (Opt (Seq (Chr (is_char "+"))
                 (Seq (Plus re_alnum_hyphen)
                      (Star (Seq re_dot (Plus re_alnum_hyphen)))))))))).

(** ** Synthetic values *)

Inductive Part : Type :=
| Lit (s : string)
| ArgPart (a : ConfigurationTaskArgument).

Record SyntheticValue : Type := mkSV {
  sv_original_value : PyVal;
  sv_original_type : PyType;
  sv_arguments : list ConfigurationTaskArgument;
  sv_parts : list Part
}.

(** [s.add(a)] for a set of arguments. *)
Definition aset_add (a : ConfigurationTaskArgument)
    (s : list ConfigurationTaskArgument) : list ConfigurationTaskArgument :=
  if existsb (fun b => arg_eqb b a) s then s else s ++ [a].

Definition aset_of_list (l : list ConfigurationTaskArgument)
  : list ConfigurationTaskArgument :=
  fold_left (fun s a => aset_add a s) l [].

(** The arguments created for the common substitution of [.] by [/]. *)
Definition path_replacements (ov_str : string)
    (arguments : list ConfigurationTaskArgument)
  : list ConfigurationTaskArgument :=
  fold_left
    (fun new_args arg =>
       match arg_original_value arg with
       | PStr original =>
           if str_contains "." original
           then let replacement := replace_char "."%char "/"%char original in
                if str_contains replacement ov_str
                then aset_add (mkArg (PStr replacement)
                                     _undo_path_replacement
                                     (Some original)) new_args
                else new_args
           else new_args
       | _ => new_args
       end)
    arguments [].

(** [sorted(arguments, key=lambda a: len(a.value), reverse=True)]: the
    sort is stable, also in reverse. *)
Fixpoint insert_by_length (x : ConfigurationTaskArgument)
    (l : list ConfigurationTaskArgument) : list ConfigurationTaskArgument :=
  match l with
  | [] => [x]
  | y :: l' =>
      if Nat.leb (String.length (arg_value y)) (String.length (arg_value x))
      then x :: y :: l'
      else y :: insert_by_length x l'
  end.

Definition sort_by_length_desc (l : list ConfigurationTaskArgument)
  : list ConfigurationTaskArgument :=
  fold_right insert_by_length [] l.

(** The [while sep:] loop that splits one literal part on every occurrence
    of the argument's value.  [fuel] bounds the iterations; each one
    shortens [after], so the length of the part is enough. *)
Fixpoint split_loop (fuel : nat) (argument : ConfigurationTaskArgument)
    (sep after : string) (new_parts : list Part) : list Part :=
  match fuel with
  | O => new_parts
  | S fuel' =>
      if str_nonempty sep
      then let new_parts := new_parts ++ [ArgPart argument] in
           let '(before, sep', after') :=
             str_partition (arg_value argument) after in
           split_loop fuel' argument sep' after' (new_parts ++ [Lit before])
      else new_parts
  end.

(** The body of [for part in parts]. *)
Definition split_part (argument : ConfigurationTaskArgument)
    (new_parts : list Part) (part : Part) : list Part :=
  match part with
  | ArgPart _ => new_parts ++ [part]
  | Lit s =>
      let '(before, sep, after) := str_partition (arg_value argument) s in
      split_loop (String.length s) argument sep after
                 (new_parts ++ [Lit before])
  end.

(** [filter(lambda p: p, new_parts)]: an empty string is false, an
    argument is true. *)
Definition part_truthy (p : Part) : bool :=
  match p with
  | Lit s => str_nonempty s
  | ArgPart _ => true
  end.

(** The body of [for argument in arguments]. *)
Definition split_on_argument (parts : list Part)
    (argument : ConfigurationTaskArgument) : list Part :=
  if str_nonempty (arg_value argument)
  then filter part_truthy (fold_left (split_part argument) parts [])
  else parts.

Definition part_arguments (parts : list Part)
  : list ConfigurationTaskArgument :=
  flat_map (fun p => match p with ArgPart a => [a] | Lit _ => [] end) parts.

(** [SyntheticValue(original_value, arguments)]. *)
Definition new_SyntheticValue (original_value : PyVal)
    (arguments : list ConfigurationTaskArgument) : SyntheticValue :=
  let ov_str := py_str original_value in
  let arguments := aset_of_list arguments in
  let versions := findall VERSION_REGEX ov_str in
  let arguments :=
    fold_left (fun s version => aset_add (Arg (PStr version)) s)
              versions arguments in
  let new_args := path_replacements ov_str arguments in
  let arguments := fold_left (fun s a => aset_add a s) new_args arguments in
  let arguments := sort_by_length_desc arguments in
  let parts := if str_nonempty ov_str then [Lit ov_str] else [] in
  let parts := fold_left split_on_argument arguments parts in
  let used_arguments := aset_of_list (part_arguments parts) in
  mkSV original_value (type_of original_value) used_arguments parts.

(** [str(part)] and the text joined by [from_mapping]. *)
Definition part_str (p : Part) : string :=
  match p with
  | Lit s => s
  | ArgPart a => arg_value a
  end.

Definition parts_str (parts : list Part) : string :=
  String.concat EmptyString (map part_str parts).

(** No two adjacent parts are both literals. *)
Fixpoint no_adjacent_literals (parts : list Part) : Prop :=
  match parts with
  | [] => True
  | p :: rest =>
      match p, rest with
      | Lit _, Lit _ :: _ => False
      | _, _ => no_adjacent_literals rest
      end
  end.

(** Membership in a set of arguments, for the [__eq__] of arguments. *)
Definition aset_In (a : ConfigurationTaskArgument)
    (s : list ConfigurationTaskArgument) : Prop :=
  exists b, In b s /\ arg_eqb b a = true.

(** A list is a set of arguments when no two of its elements are equal. *)
Definition aset_NoDup (s : list ConfigurationTaskArgument) : Prop :=
  ForallOrdPairs (fun a b => arg_eqb a b = false) s.

(** *** [int(s)] and calling a type on a string *)

(** The white space that [int] strips, among the code points below 256:
    tab to carriage return and the space, and the two spaces above 127,
    which [int] turns into spaces first.  The separators 28 to 31 are
    white space for [str.strip] and not for [int]. *)
Definition is_space (c : ascii) : bool :=
  let n := N_of_ascii c in
  (N.leb 9 n && N.leb n 13) || N.eqb n 32
  || N.eqb n 133 || N.eqb n 160.

Fixpoint lstrip (s : string) : string :=
  match s with
  | String c s' => if is_space c then lstrip s' else s
  | EmptyString => EmptyString
  end.

Fixpoint str_rev_onto (s acc : string) : string :=
  match s with
  | EmptyString => acc
  | String c s' => str_rev_onto s' (String c acc)
  end.

Definition str_rev (s : string) : string := str_rev_onto s EmptyString.

Definition strip (s : string) : string :=
  str_rev (lstrip (str_rev (lstrip s))).

(** Decimal digits with single underscores between them.  [sep] tells that
    a digit must come next: at the start and after an underscore. *)
Fixpoint parse_digits (acc : Z) (sep : bool) (s : string) : option Z :=
  match s with
  | EmptyString => if sep then None else Some acc
  | String c s' =>
      if in_range "0" "9" c
      then parse_digits (10 * acc + Z.of_N (N_of_ascii c - 48)) false s'
      else if is_char "_" c
           then if sep then None else parse_digits acc true s'
           else None
  end.

(** [int(s)] in base 10; [None] stands for [ValueError]. *)
Definition py_int (s : string) : option Z :=
  match strip s with
  | String "-" s' => option_map Z.opp (parse_digits 0 true s')
  | String "+" s' => parse_digits 0 true s'
  | s' => parse_digits 0 true s'
  end.

(** [t(s)] for a type [t] and a string [s]. *)
Definition py_construct (t : PyType) (s : string) : result PyVal :=
  match t with
  | TStr => Ok (PStr s)
  | TInt =>
      match py_int s with
      | Some z => Ok (PInt z)
      | None => Raise ValueError
      end
  | TBool => Ok (PBool (str_nonempty s))
  | TNone => Raise TypeError
  end.

(** [''.join(...)]: every joined item must be a string. *)
Fixpoint str_join (items : list PyVal) : result string :=
  match items with
  | [] => Ok EmptyString
  | PStr s :: rest => do t <- str_join rest; Ok (s ++ t)%string
  | _ :: _ => Raise TypeError
  end.

(** *** [SyntheticValue.from_mapping] *)

Definition map_part (mapping : ConfigurationTaskArgumentMapping)
    (part : Part) : Part :=
  match part with
  | ArgPart a =>
      match dict_get (source_arguments mapping) a with
      | Some b => ArgPart b
      | None => part
      end
  | Lit _ => part
  end.

Definition part_original_value (part : Part) : PyVal :=
  match part with
  | ArgPart a => arg_original_value a
  | Lit s => PStr s
  end.

Definition sv_from_mapping (self : SyntheticValue)
    (mapping : ConfigurationTaskArgumentMapping) : result SyntheticValue :=
  let parts := map (map_part mapping) (sv_parts self) in
  let arguments := aset_of_list (part_arguments parts) in
  do joined <- str_join (map part_original_value parts);
  do original_value <- py_construct (sv_original_type self) joined;
  Ok (mkSV original_value (sv_original_type self) arguments parts).

(** *** Equality of synthetic values: the generated [__eq__] compares the
    tuples [(original_value, original_type, arguments, parts)]. *)

Definition aset_eqb (s1 s2 : list ConfigurationTaskArgument) : bool :=
  Nat.eqb (List.length s1) (List.length s2)
  && forallb (fun a => existsb (arg_eqb a) s2) s1.

Definition part_eqb (p q : Part) : bool :=
  match p, q with
  | Lit s, Lit t => String.eqb s t
  | ArgPart a, ArgPart b => arg_eqb a b
  | _, _ => false
  end.

Fixpoint parts_eqb (l1 l2 : list Part) : bool :=
  match l1, l2 with
  | [], [] => true
  | p :: l1', q :: l2' => part_eqb p q && parts_eqb l1' l2'
  | _, _ => false
  end.

Definition sv_eqb (v w : SyntheticValue) : bool :=
  py_eqb (sv_original_value v) (sv_original_value w)
  && pytype_eqb (sv_original_type v) (sv_original_type w)
  && aset_eqb (sv_arguments v) (sv_arguments w)
  && parts_eqb (sv_parts v) (sv_parts w).

(** The synthetic values that the program can build. *)
Inductive sv_built : SyntheticValue -> Prop :=
| sv_built_new original_value arguments :
    sv_built (new_SyntheticValue original_value arguments)
| sv_built_from_mapping v mapping v' :
    sv_built v -> sv_from_mapping v mapping = Ok v' -> sv_built v'.

Definition is_str (a : ConfigurationTaskArgument) : Prop :=
  exists s, arg_original_value a = PStr s.

(** The round trip of a synthetic value through a mapping and its
    inverse, [v.from_mapping(m).from_mapping(m.invert())]. *)
Definition sv_round_trip (v : SyntheticValue)
    (m : ConfigurationTaskArgumentMapping) : result SyntheticValue :=
  do v1 <- sv_from_mapping v m;
  do m' <- invert m;
  sv_from_mapping v1 m'.

(** The source arguments of [m] cover the arguments of [v]. *)
Definition covers (m : ConfigurationTaskArgumentMapping)
    (v : SyntheticValue) : Prop :=
  forall a, aset_In a (sv_arguments v) ->
            dict_mem (source_arguments m) a = true.

(** *** [SyntheticValue.map_to_primitive] *)

(** An element of [self_sequence]: a character of a literal part, or an
    argument. *)
Inductive Token : Type :=
| TChar (c : ascii)
| TArg (a : ConfigurationTaskArgument).

Definition part_tokens (part : Part) : list Token :=
  match part with
  | Lit s => map TChar (list_ascii_of_string s)
  | ArgPart a => [TArg a]
  end.

(** A search state [(self_idx, other_idx, mapping)]. *)
Definition SearchState : Type :=
  (nat * nat * ConfigurationTaskArgumentMapping)%type.

(** The inner [while]: advance both indices while the sequences agree.
    [ss] and [os] are the sequences from the two indices on; an argument
    never equals a character. *)
Fixpoint advance (ss : list Token) (os : list ascii) (self_idx other_idx : nat)
  : nat * nat :=
  match ss, os with
  | TChar c :: ss', d :: os' =>
      if Ascii.eqb c d then advance ss' os' (S self_idx) (S other_idx)
      else (self_idx, other_idx)
  | _, _ => (self_idx, other_idx)
  end.

(** [other_sequence.rindex(c, start)]; [None] stands for [ValueError]. *)
Definition rindex (os : list ascii) (c : ascii) (start : nat) : option nat :=
  fold_left
    (fun found k =>
       match nth_error os k with
       | Some d => if Ascii.eqb d c then Some k else found
       | None => found
       end)
    (seq start (List.length os - start)) None.

(** The first element that is not an argument, from [next_idx] on. *)
Fixpoint next_literal (ss : list Token) : option ascii :=
  match ss with
  | TArg _ :: ss' => next_literal ss'
  | TChar c :: _ => Some c
  | [] => None
  end.

(** [range(a, b)]. *)
Definition range (a b : nat) : list nat := seq a (b - a).

Definition str_slice (s : list ascii) (i j : nat) : string :=
  string_of_list_ascii (firstn (j - i) (skipn i s)).

(** The candidate indices for the next state; [None] when the search
    abandons the state. *)
Definition candidate_indices (self_sequence : list Token) (os : list ascii)
    (self_idx other_idx : nat) : option (list nat) :=
  let self_len := List.length self_sequence in
  let other_len := List.length os in
  if Nat.eqb (self_idx + 1) self_len then Some [other_len]
  else match nth_error self_sequence (self_idx + 1) with
       | Some (TArg _) =>
           match next_literal (skipn (self_idx + 1) self_sequence) with
           | Some c =>
               match rindex os c other_idx with
               | Some k => Some (range other_idx (1 + k))
               | None => None
               end
           | None => Some (range other_idx (other_len + 1))
           end
       | Some (TChar c) =>
           Some (filter (fun k => match nth_error os k with
                                  | Some d => Ascii.eqb d c
                                  | None => false
                                  end)
                        (range other_idx other_len))
       | None => None
       end.

(** One turn of the outer [while states:] loop on the popped state:
    the states it appends, in order, and the mapping it saves, if any. *)
Definition visit_state (self_sequence : list Token) (other : PyVal)
    (st : SearchState)
  : result (list SearchState * option ConfigurationTaskArgumentMapping) :=
  let os := list_ascii_of_string (py_str other) in
  let self_len := List.length self_sequence in
  let other_len := List.length os in
  let '(self_idx0, other_idx0, mapping) := st in
  let '(self_idx, other_idx) :=
    advance (skipn self_idx0 self_sequence) (skipn other_idx0 os)
            self_idx0 other_idx0 in
  if Nat.eqb self_idx self_len && Nat.eqb other_idx other_len
  then Ok ([], Some mapping)
  else if Nat.eqb self_idx self_len || Nat.eqb other_idx other_len
  then Ok ([], None)
  else
    match nth_error self_sequence self_idx with
    | Some (TArg arg) =>
        match dict_get (source_arguments mapping) arg with
        | Some mapped =>
            match other with
            | PStr o =>
                let n := String.length (arg_value mapped) in
                let other_value := String.substring other_idx n o in
                if String.eqb (arg_value mapped) other_value
                then Ok ([(self_idx + 1, other_idx + n, mapping)], None)
                else Ok ([], None)
            | _ => Raise TypeError
            end
        | None =>
            match candidate_indices self_sequence os self_idx other_idx with
            | None => Ok ([], None)
            | Some indices =>
                Ok (flat_map
                      (fun idx =>
                         let target :=
                           Arg (PStr (str_slice os other_idx idx)) in
                         match merge mapping (mkMapping [(arg, target)]
                                                        [(target, arg)]) with
                         | Ok merged => [(self_idx + 1, idx, merged)]
                         | Raise _ => []
                         end)
                      indices, None)
            end
        end
    | _ => Ok ([], None)
    end.

(** The state of the search: the stack of states (top first) and the set
    of mappings found. *)
Definition Search : Type :=
  (list SearchState * list ConfigurationTaskArgumentMapping)%type.

Definition search_step (self_sequence : list Token) (other : PyVal)
    (s : Search) : result Search :=
  match fst s with
  | [] => Ok s
  | st :: states =>
      do r <- visit_state self_sequence other st;
      Ok (rev (fst r) ++ states,
          match snd r with
          | Some mapping => mset_add mapping (snd s)
          | None => snd s
          end)
  end.

(** The outer loop, run for at most [fuel] turns and stopped as soon as
    the stack is empty. *)
Fixpoint search_loop (self_sequence : list Token) (other : PyVal)
    (fuel : positive) (s : Search) : result Search :=
  let again p s' :=
    match fst s' with
    | [] => Ok s'
    | _ :: _ => search_loop self_sequence other p s'
    end in
  match fuel with
  | xH => search_step self_sequence other s
  | xO p => do s' <- search_loop self_sequence other p s; again p s'
  | xI p =>
      do s1 <- search_step self_sequence other s;
      do s' <- again p s1;
      again p s'
  end.

(** The search of [map_to_primitive], from the start state.  Every state
    has at most [other_len + 1] successors, each further in
    [self_sequence], so the bound on the turns is never reached. *)
Definition map_to_primitive_search (self : SyntheticValue) (other : PyVal)
  : result Search :=
  let self_sequence := flat_map part_tokens (sv_parts self) in
  let other_len := String.length (py_str other) in
  search_loop self_sequence other
    (Pos.pow (Pos.of_nat (other_len + 2))
             (Pos.of_nat (List.length self_sequence + 1)))
    ([(0, 0, empty_mapping)], []).

Definition map_to_primitive (self : SyntheticValue) (other : PyVal)
  : result (list ConfigurationTaskArgumentMapping) :=
  if negb (issubclass (type_of other) (sv_original_type self))
  then Raise ValueError
  else if py_eqb (sv_original_value self) other
  then do m <- new_mapping (map (fun a => (a, a)) (sv_arguments self));
       Ok [m]
  else match sv_arguments self with
       | [] => Ok []
       | _ :: _ =>
           do final <- map_to_primitive_search self other;
           Ok (snd final)
       end.

(** ** Configuration changes *)

Inductive FileContentChangeType : Type := ADDITION | DELETION.

Definition fcct_eqb (a b : FileContentChangeType) : bool :=
  match a, b with
  | ADDITION, ADDITION | DELETION, DELETION => true
  | _, _ => false
  end.

(** The value of the enumeration, a string. *)
Definition fcct_value (a : FileContentChangeType) : string :=
  match a with
  | ADDITION => "addition"
  | DELETION => "deletion"
  end.

Record FileContentChange : Type := mkFileContentChange {
  change_type : FileContentChangeType;
  content : SyntheticValue
}.

Inductive ConfigurationChange : Type :=
| DirectoryAdd (path : SyntheticValue)
| DirectoryDelete (path : SyntheticValue)
| EnvSet (key value : SyntheticValue)
| EnvUnset (key : SyntheticValue)
| FileAdd (path : SyntheticValue)
| FileDelete (path : SyntheticValue)
| FileChange (path : SyntheticValue) (changes : list FileContentChange)
| ServiceStart (name : SyntheticValue)
| ServiceStop (name : SyntheticValue)
| SymbolicLink (path link : SyntheticValue)
| WorkingDirectorySet (path : SyntheticValue).

(** [type(change)], by its class name. *)
Inductive ChangeClass : Type :=
| CDirectoryAdd | CDirectoryDelete | CEnvSet | CEnvUnset | CFileAdd
| CFileDelete | CFileChange | CServiceStart | CServiceStop | CSymbolicLink
| CWorkingDirectorySet.

Definition class_of (c : ConfigurationChange) : ChangeClass :=
  match c with
  | DirectoryAdd _ => CDirectoryAdd
  | DirectoryDelete _ => CDirectoryDelete
  | EnvSet _ _ => CEnvSet
  | EnvUnset _ => CEnvUnset
  | FileAdd _ => CFileAdd
  | FileDelete _ => CFileDelete
  | FileChange _ _ => CFileChange
  | ServiceStart _ => CServiceStart
  | ServiceStop _ => CServiceStop
  | SymbolicLink _ _ => CSymbolicLink
  | WorkingDirectorySet _ => CWorkingDirectorySet
  end.

Definition class_name (k : ChangeClass) : string :=
  match k with
  | CDirectoryAdd => "DirectoryAdd"
  | CDirectoryDelete => "DirectoryDelete"
  | CEnvSet => "EnvSet"
  | CEnvUnset => "EnvUnset"
  | CFileAdd => "FileAdd"
  | CFileDelete => "FileDelete"
  | CFileChange => "FileChange"
  | CServiceStart => "ServiceStart"
  | CServiceStop => "ServiceStop"
  | CSymbolicLink => "SymbolicLink"
  | CWorkingDirectorySet => "WorkingDirectorySet"
  end.

Definition class_eqb (k l : ChangeClass) : bool :=
  String.eqb (class_name k) (class_name l).

(** The fields of a dataclass, in declaration order: a synthetic value, a
    tuple of content changes, or a plain object. *)
Inductive FieldValue : Type :=
| FSynthetic (v : SyntheticValue)
| FSequence (items : list FileContentChange)
| FPrimitive (name : string).

Definition fcc_fields (c : FileContentChange) : list FieldValue :=
  [FPrimitive (fcct_value (change_type c)); FSynthetic (content c)].

Definition change_fields (c : ConfigurationChange) : list FieldValue :=
  match c with
  | DirectoryAdd p | DirectoryDelete p | FileAdd p | FileDelete p
  | WorkingDirectorySet p => [FSynthetic p]
  | EnvSet k v => [FSynthetic k; FSynthetic v]
  | EnvUnset k => [FSynthetic k]
  | FileChange p cs => [FSynthetic p; FSequence cs]
  | ServiceStart n | ServiceStop n => [FSynthetic n]
  | SymbolicLink p l => [FSynthetic p; FSynthetic l]
  end.

(** The generated [__eq__] of a dataclass: same class and equal field
    tuples. *)
Definition fcc_eqb (c d : FileContentChange) : bool :=
  fcct_eqb (change_type c) (change_type d) && sv_eqb (content c) (content d).

Fixpoint fccs_eqb (l1 l2 : list FileContentChange) : bool :=
  match l1, l2 with
  | [], [] => true
  | c :: l1', d :: l2' => fcc_eqb c d && fccs_eqb l1' l2'
  | _, _ => false
  end.

Definition field_eqb (f g : FieldValue) : bool :=
  match f, g with
  | FSynthetic v, FSynthetic w => sv_eqb v w
  | FSequence l1, FSequence l2 => fccs_eqb l1 l2
  | FPrimitive a, FPrimitive b => String.eqb a b
  | _, _ => false
  end.

Fixpoint fields_eqb (l1 l2 : list FieldValue) : bool :=
  match l1, l2 with
  | [], [] => true
  | f :: l1', g :: l2' => field_eqb f g && fields_eqb l1' l2'
  | _, _ => false
  end.

Definition change_eqb (c d : ConfigurationChange) : bool :=
  class_eqb (class_of c) (class_of d)
  && fields_eqb (change_fields c) (change_fields d).

(** Sets of changes. *)
Definition cset_add (c : ConfigurationChange) (s : list ConfigurationChange)
  : list ConfigurationChange :=
  if existsb (fun d => change_eqb d c) s then s else s ++ [c].

Definition cset_of_list (l : list ConfigurationChange)
  : list ConfigurationChange :=
  fold_left (fun s c => cset_add c s) l [].

Definition cset_In (c : ConfigurationChange) (s : list ConfigurationChange)
  : Prop :=
  exists d, In d s /\ change_eqb d c = true.

(** [s & t].  The interpreter walks over the smaller operand, the right
    one when the two have the same size, and keeps each of its elements
    that the other operand holds: the result is made of objects of the
    operand it walked over. *)
Definition cset_inter (s t : list ConfigurationChange)
  : list ConfigurationChange :=
  if Nat.ltb (List.length s) (List.length t)
  then filter (fun c => existsb (fun d => change_eqb d c) t) s
  else filter (fun d => existsb (fun c => change_eqb c d) s) t.

(** *** [from_mapping] on changes *)

Definition fcc_from_mapping (c : FileContentChange)
    (mapping : ConfigurationTaskArgumentMapping) : result FileContentChange :=
  do v <- sv_from_mapping (content c) mapping;
  Ok (mkFileContentChange (change_type c) v).

Definition change_from_mapping (c : ConfigurationChange)
    (mapping : ConfigurationTaskArgumentMapping) : result ConfigurationChange :=
  let f v := sv_from_mapping v mapping in
  match c with
  | DirectoryAdd p => do p' <- f p; Ok (DirectoryAdd p')
  | DirectoryDelete p => do p' <- f p; Ok (DirectoryDelete p')
  | EnvSet k v => do k' <- f k; do v' <- f v; Ok (EnvSet k' v')
  | EnvUnset k => do k' <- f k; Ok (EnvUnset k')
  | FileAdd p => do p' <- f p; Ok (FileAdd p')
  | FileDelete p => do p' <- f p; Ok (FileDelete p')
  | FileChange p cs =>
      do p' <- f p;
      do cs' <- mapM (fun c => fcc_from_mapping c mapping) cs;
      Ok (FileChange p' cs')
  | ServiceStart n => do n' <- f n; Ok (ServiceStart n')
  | ServiceStop n => do n' <- f n; Ok (ServiceStop n')
  | SymbolicLink p l => do p' <- f p; do l' <- f l; Ok (SymbolicLink p' l')
  | WorkingDirectorySet p => do p' <- f p; Ok (WorkingDirectorySet p')
  end.

(** *** [from_primitives] and [from_arguments] on changes *)

Definition fcc_from_arguments (c : FileContentChange)
    (arguments : list ConfigurationTaskArgument) : FileContentChange :=
  mkFileContentChange
    (change_type c)
    (new_SyntheticValue (sv_original_value (content c)) arguments).

Definition change_from_arguments (c : ConfigurationChange)
    (arguments : list ConfigurationTaskArgument) : ConfigurationChange :=
  let f v := new_SyntheticValue (sv_original_value v) arguments in
  match c with
  | DirectoryAdd p => DirectoryAdd (f p)
  | DirectoryDelete p => DirectoryDelete (f p)
  | EnvSet k v => EnvSet (f k) (f v)
  | EnvUnset k => EnvUnset (f k)
  | FileAdd p => FileAdd (f p)
  | FileDelete p => FileDelete (f p)
  | FileChange p cs =>
      FileChange (f p) (map (fun c => fcc_from_arguments c arguments) cs)
  | ServiceStart n => ServiceStart (f n)
  | ServiceStop n => ServiceStop (f n)
  | SymbolicLink p l => SymbolicLink (f p) (f l)
  | WorkingDirectorySet p => WorkingDirectorySet (f p)
  end.

(** *** [map_to_other] *)

(** The generic body of [map_to_other] on the paired fields of two
    instances of one class; [item_map] maps the items of a sequence field.
    The iterables given to [all_combinations] are evaluated in order, so
    the first exception wins. *)
Definition fields_map_to_other
    (item_map : FileContentChange -> FileContentChange ->
                result (list ConfigurationTaskArgumentMapping))
    (self_fields other_fields : list FieldValue)
  : result (list ConfigurationTaskArgumentMapping) :=
  let records := combine self_fields other_fields in
  let primitive_differs r :=
    match r with
    | (FPrimitive a, FPrimitive b) => negb (String.eqb a b)
    | _ => false
    end in
  let length_differs r :=
    match r with
    | (FSequence l1, FSequence l2) =>
        negb (Nat.eqb (List.length l1) (List.length l2))
    | _ => false
    end in
  if existsb primitive_differs records then Ok []
  else if existsb length_differs records then Ok []
  else
    do synthetic <-
      mapM (fun r => match r with
                     | (FSynthetic v, FSynthetic w) =>
                         do ms <- map_to_primitive v (sv_original_value w);
                         Ok [ms]
                     | _ => Ok []
                     end) records;
    do sequences <-
      mapM (fun r => match r with
                     | (FSequence l1, FSequence l2) =>
                         do items <- mapM (fun cd => item_map (fst cd) (snd cd))
                                          (combine l1 l2);
                         Ok [all_combinations items]
                     | _ => Ok []
                     end) records;
    Ok (all_combinations (List.concat synthetic ++ List.concat sequences)).

Definition fcc_map_to_other (self other : FileContentChange)
  : result (list ConfigurationTaskArgumentMapping) :=
  fields_map_to_other (fun _ _ => Ok []) (fcc_fields self) (fcc_fields other).

Definition map_to_other (self other : ConfigurationChange)
  : result (list ConfigurationTaskArgumentMapping) :=
  if negb (class_eqb (class_of self) (class_of other)) then Raise TypeError
  else fields_map_to_other fcc_map_to_other
         (change_fields self) (change_fields other).

(** *** [change_intersection] *)

(** The three tables of the mapping mode, keyed by mapping: the counter
    and the source and target changes of each mapping. *)
Record MappingRow : Type := mkRow {
  row_mapping : ConfigurationTaskArgumentMapping;
  row_count : N;
  row_source_changes : list ConfigurationChange;
  row_target_changes : list ConfigurationChange
}.

Fixpoint record_mapping (rows : list MappingRow)
    (mapping : ConfigurationTaskArgumentMapping)
    (source_change target_change : ConfigurationChange) : list MappingRow :=
  match rows with
  | [] => [mkRow mapping 1 [source_change] [target_change]]
  | r :: rows' =>
      if mapping_eqb (row_mapping r) mapping
      then mkRow (row_mapping r) (row_count r + 1)
                 (cset_add source_change (row_source_changes r))
                 (cset_add target_change (row_target_changes r)) :: rows'
      else r :: record_mapping rows' mapping source_change target_change
  end.

(** [sorted(counter.items(), key=lambda item: item[1], reverse=True)]. *)
Fixpoint insert_by_count (x : MappingRow) (l : list MappingRow)
  : list MappingRow :=
  match l with
  | [] => [x]
  | y :: l' =>
      if N.leb (row_count y) (row_count x) then x :: y :: l'
      else y :: insert_by_count x l'
  end.

Definition sort_by_count_desc (l : list MappingRow) : list MappingRow :=
  fold_right insert_by_count [] l.

(** A weighted graph on mappings, as the program builds it. *)
Record Graph : Type := mkGraph {
  nodes : list (ConfigurationTaskArgumentMapping * N);
  edges : list (ConfigurationTaskArgumentMapping
                * ConfigurationTaskArgumentMapping)
}.

Definition add_node (g : list (ConfigurationTaskArgumentMapping * N))
    (m : ConfigurationTaskArgumentMapping) (weight : N) :=
  if existsb (fun n => mapping_eqb (fst n) m) g
  then map (fun n => if mapping_eqb (fst n) m then (fst n, weight) else n) g
  else g ++ [(m, weight)].

(** The nodes added for one source argument: the first 19 of the sorted
    mappings in which it appears. *)
Fixpoint add_top_nodes (arg : ConfigurationTaskArgument)
    (sorted_mappings : list MappingRow) (i : nat)
    (g : list (ConfigurationTaskArgumentMapping * N)) :=
  match sorted_mappings with
  | [] => g
  | r :: rest =>
      if dict_mem (source_arguments (row_mapping r)) arg
      then let g := add_node g (row_mapping r) (row_count r) in
           if Nat.eqb (i + 1) 19 then g else add_top_nodes arg rest (i + 1) g
      else add_top_nodes arg rest i g
  end.

(** [itertools.combinations(l, 2)]. *)
Fixpoint combinations2 {A : Type} (l : list A) : list (A * A) :=
  match l with
  | [] => []
  | x :: l' => map (fun y => (x, y)) l' ++ combinations2 l'
  end.

Definition build_graph (rows : list MappingRow) : Graph :=
  let source_arguments :=
    aset_of_list (flat_map (fun r => map fst (source_arguments (row_mapping r)))
                           rows) in
  let sorted_mappings := sort_by_count_desc rows in
  let g := fold_left (fun g arg => add_top_nodes arg sorted_mappings 0 g)
                     source_arguments [] in
  let g :=
    match find (fun r => mapping_eqb (row_mapping r) empty_mapping) rows with
    | Some r => add_node g empty_mapping (row_count r)
    | None => g
    end in
  mkGraph g
    (filter (fun uv => match merge (fst uv) (snd uv) with
                       | Ok _ => true
                       | Raise _ => false
                       end)
            (combinations2 (map fst g))).

Definition bin (k : ChangeClass) (changes : list ConfigurationChange)
  : list ConfigurationChange :=
  filter (fun c => class_eqb (class_of c) k) changes.

Definition class_mem (k : ChangeClass) (ks : list ChangeClass) : bool :=
  existsb (class_eqb k) ks.

(** The keys of [source_binned]: the classes that occur. *)
Definition classes_of (changes : list ConfigurationChange) : list ChangeClass :=
  fold_left (fun ks c => if class_mem (class_of c) ks then ks
                         else ks ++ [class_of c])
            changes [].

Definition shared_types (source target : list ConfigurationChange)
  : list ChangeClass :=
  filter (fun k => class_mem k (classes_of target)) (classes_of source).

Definition num_pairs (source target : list ConfigurationChange) : N :=
  fold_right N.add 0%N
    (map (fun k => (N.of_nat (List.length (bin k source))
                    * N.of_nat (List.length (bin k target)))%N)
         (shared_types source target)).

Definition Intersection : Type :=
  (list ConfigurationChange * list ConfigurationChange
   * ConfigurationTaskArgumentMapping)%type.

Section ChangeIntersection.

(** What the program leaves to its environment: whether the one-second
    alarm fires while a pair is being mapped, and the answer of
    [networkx.max_weight_clique] under the thirty-second alarm ([None]
    when that alarm fires). *)
Variable pair_times_out : ConfigurationChange -> ConfigurationChange -> bool.
Variable max_weight_clique :
  Graph -> option (list ConfigurationTaskArgumentMapping).

(** Mapping one pair, in the serial loop and in [_map]: [TypeError] and
    [TimeoutError] are swallowed, any other exception propagates. *)
Definition map_pair (rows : list MappingRow)
    (st : ConfigurationChange * ConfigurationChange)
  : result (list MappingRow) :=
  let '(source_change, target_change) := st in
  if pair_times_out source_change target_change then Ok rows
  else match map_to_other source_change target_change with
       | Ok mappings =>
           Ok (fold_left
                 (fun rows mapping =>
                    record_mapping rows mapping source_change target_change)
                 mappings rows)
       | Raise TypeError => Ok rows
       | Raise TimeoutError => Ok rows
       | Raise e => Raise e
       end.

Fixpoint map_pairs (rows : list MappingRow)
    (pairs : list (ConfigurationChange * ConfigurationChange))
  : result (list MappingRow) :=
  match pairs with
  | [] => Ok rows
  | st :: rest => do rows' <- map_pair rows st; map_pairs rows' rest
  end.

Definition change_intersection (source target : list ConfigurationChange)
    (with_mapping : option bool) : result Intersection :=
  if N.eqb (num_pairs source target) 0
  then Ok ([], [], empty_mapping)
  else if match with_mapping with
          | Some false => true
          | None => N.ltb 25000000 (num_pairs source target)
          | Some true => false
          end
  then let intersection := cset_inter source target in
       Ok (intersection, intersection, empty_mapping)
  else
    let pairs :=
      flat_map (fun k => list_prod (bin k source) (bin k target))
               (shared_types source target) in
    do rows <- map_pairs [] pairs;
    match max_weight_clique (build_graph rows) with
    | None | Some [] => Ok ([], [], empty_mapping)
    | Some clique =>
        let row_of m :=
          find (fun r => mapping_eqb (row_mapping r) m) rows in
        let source_changes :=
          cset_of_list
            (flat_map (fun m => match row_of m with
                                | Some r => row_source_changes r
                                | None => []
                                end) clique) in
        let target_changes :=
          cset_of_list
            (flat_map (fun m => match row_of m with
                                | Some r => row_target_changes r
                                | None => []
                                end) clique) in
        do mapping <- merge_all clique;
        Ok (source_changes, target_changes, mapping)
    end.

End ChangeIntersection.

(** ** Configuration tasks *)

Inductive ConfigurationSystem : Type := SHELL | DOCKER | ANSIBLE.

Definition system_value (s : ConfigurationSystem) : string :=
  match s with
  | SHELL => "shell"
  | DOCKER => "docker"
  | ANSIBLE => "ansible"
  end.

#[local] Set Warnings "-register-all".

(** Native Python data: scalars, lists, and dictionaries with string
    keys.  It is the shape of the arguments of an Ansible task and of a
    parsed JSON document. *)
Inductive PyData : Type :=
| DLeaf (v : PyVal)
| DList (items : list PyData)
| DDict (entries : list (string * PyData)).

(** The [arguments] of a task: a tuple of strings, a [frozendict], or
    anything else. *)
Inductive TaskArguments : Type :=
| ASequence (words : list string)
| AMapping (entries : list (string * PyData))
| AUnsupported.

Record ConfigurationTask : Type := mkTask {
  task_system : ConfigurationSystem;
  task_executable : string;
  task_arguments : TaskArguments;
  task_changes : list ConfigurationChange;
  configuration_task_arguments : list ConfigurationTaskArgument
}.

(** The leaves of nested data, from left to right. *)
Fixpoint leaves_in_order (d : PyData) : list PyVal :=
  match d with
  | DLeaf v => [v]
  | DList items =>
      (fix go (l : list PyData) : list PyVal :=
         match l with
         | [] => []
         | d' :: l' => leaves_in_order d' ++ go l'
         end) items
  | DDict entries =>
      (fix go (l : list (string * PyData)) : list PyVal :=
         match l with
         | [] => []
         | (_, d') :: l' => leaves_in_order d' ++ go l'
         end) entries
  end.

(** The leaves in the order in which the work list of [__init__] reaches
    them: it pops the last node and appends the children of a container,
    so it meets the leaves from right to left. *)
Definition data_leaves (d : PyData) : list PyVal := rev (leaves_in_order d).

(** [ConfigurationTask(system, executable, arguments, changes)]. *)
Definition new_ConfigurationTask (system : ConfigurationSystem)
    (executable : string) (arguments : TaskArguments)
    (changes : list ConfigurationChange) : result ConfigurationTask :=
  do pool <-
    match arguments with
    | ASequence words =>
        Ok (aset_of_list (map (fun w => Arg (PStr w)) words))
    | AMapping entries =>
        Ok (aset_of_list (map Arg (data_leaves (DDict entries))))
    | AUnsupported => Raise ValueError
    end;
  Ok (mkTask system executable arguments
             (cset_of_list (map (fun c => change_from_arguments c pool)
                                changes))
             pool).

(** [pre_transform_value == value] for a leaf value. *)
Definition pre_transform_matches (pre : option string) (value : PyVal) : bool :=
  match pre, value with
  | Some s, PStr t => String.eqb s t
  | None, PNone => true
  | _, _ => false
  end.

(** The rewriting of one word of a tuple of arguments by
    [ConfigurationTask.from_mapping]: the new word and the argument
    added to [configuration_task_arguments]. *)
Definition map_word (mapping : ConfigurationTaskArgumentMapping)
    (value : string) : result (string * ConfigurationTaskArgument) :=
  let arg := Arg (PStr value) in
  match dict_get (source_arguments mapping) arg with
  | Some mapped_arg =>
      match dict_get (target_arguments mapping) mapped_arg with
      | Some source_arg =>
          Ok (arg_transformer source_arg (arg_value mapped_arg), mapped_arg)
      | None => Raise KeyError
      end
  | None =>
      match find (fun kv => pre_transform_matches
                              (arg_pre_transform_value (fst kv)) (PStr value))
                 (source_arguments mapping) with
      | Some (source_arg, mapped_arg) =>
          Ok (arg_transformer source_arg (arg_value mapped_arg), mapped_arg)
      | None => Ok (value, arg)
      end
  end.

(** The rewriting of one leaf of a dictionary of arguments.  In this
    branch the [break] follows the [if] instead of being inside it, so
    only the first source argument is compared, and the leaf is added to
    the arguments only when the mapping is empty. *)
Definition map_leaf (mapping : ConfigurationTaskArgumentMapping)
    (child : PyVal) : result (PyVal * list ConfigurationTaskArgument) :=
  let arg := Arg child in
  match dict_get (source_arguments mapping) arg with
  | Some mapped_arg =>
      match dict_get (target_arguments mapping) mapped_arg with
      | Some source_arg =>
          Ok (PStr (arg_transformer source_arg (arg_value mapped_arg)),
              [mapped_arg])
      | None => Raise KeyError
      end
  | None =>
      match source_arguments mapping with
      | [] => Ok (child, [arg])
      | (source_arg, mapped_arg) :: _ =>
          if pre_transform_matches (arg_pre_transform_value source_arg) child
          then Ok (PStr (arg_transformer source_arg (arg_value mapped_arg)),
                   [mapped_arg])
          else Ok (child, [])
      end
  end.

(** The walk over a dictionary of arguments: the rewritten data and the
    arguments met.  The program rewrites the nested lists and
    dictionaries in place; they are shared with [self]. *)
Fixpoint map_data (mapping : ConfigurationTaskArgumentMapping) (d : PyData)
  : result (PyData * list ConfigurationTaskArgument) :=
  match d with
  | DLeaf v => do r <- map_leaf mapping v; Ok (DLeaf (fst r), snd r)
  | DList items =>
      do r <-
        (fix go (l : list PyData)
           : result (list PyData * list ConfigurationTaskArgument) :=
           match l with
           | [] => Ok ([], [])
           | d' :: l' =>
               do rest <- go l';
               do r <- map_data mapping d';
               Ok (fst r :: fst rest, snd rest ++ snd r)
           end) items;
      Ok (DList (fst r), snd r)
  | DDict entries =>
      do r <-
        (fix go (l : list (string * PyData))
           : result (list (string * PyData)
                     * list ConfigurationTaskArgument) :=
           match l with
           | [] => Ok ([], [])
           | (k, d') :: l' =>
               do rest <- go l';
               do r <- map_data mapping d';
               Ok ((k, fst r) :: fst rest, snd rest ++ snd r)
           end) entries;
      Ok (DDict (fst r), snd r)
  end.

(** [ConfigurationTask.from_mapping]. *)
Definition task_from_mapping (self : ConfigurationTask)
    (mapping : ConfigurationTaskArgumentMapping) : result ConfigurationTask :=
  do r <-
    match task_arguments self with
    | ASequence words =>
        do ws <- mapM (map_word mapping) words;
        Ok (ASequence (map fst ws), map snd ws)
    | AMapping entries =>
        do r <- map_data mapping (DDict entries);
        match fst r with
        | DDict entries' => Ok (AMapping entries', snd r)
        | _ => Raise ValueError
        end
    | AUnsupported => Raise ValueError
    end;
  do changes <- mapM (fun c => change_from_mapping c mapping)
                     (task_changes self);
  Ok (mkTask (task_system self) (task_executable self) (fst r)
             (cset_of_list changes) (aset_of_list (snd r))).

(** *** Equality of tasks: the generated [__eq__] compares the tuples
    [(system, executable, arguments, changes)]. *)

Fixpoint data_lookup (k : string) (entries : list (string * PyData))
  : option PyData :=
  match entries with
  | [] => None
  | (k', d) :: rest => if String.eqb k' k then Some d else data_lookup k rest
  end.

Fixpoint data_eqb (d e : PyData) : bool :=
  match d, e with
  | DLeaf v, DLeaf w => py_eqb v w
  | DList l1, DList l2 =>
      (fix go (l1 l2 : list PyData) : bool :=
         match l1, l2 with
         | [], [] => true
         | x :: l1', y :: l2' => data_eqb x y && go l1' l2'
         | _, _ => false
         end) l1 l2
  | DDict d1, DDict d2 =>
      Nat.eqb (List.length d1) (List.length d2)
      && (fix go (l : list (string * PyData)) : bool :=
            match l with
            | [] => true
            | (k, x) :: l' =>
                match data_lookup k d2 with
                | Some y => data_eqb x y
                | None => false
                end && go l'
            end) d1
  | _, _ => false
  end.

Fixpoint words_eqb (l1 l2 : list string) : bool :=
  match l1, l2 with
  | [], [] => true
  | x :: l1', y :: l2' => String.eqb x y && words_eqb l1' l2'
  | _, _ => false
  end.

Definition arguments_eqb (a b : TaskArguments) : bool :=
  match a, b with
  | ASequence l1, ASequence l2 => words_eqb l1 l2
  | AMapping d1, AMapping d2 => data_eqb (DDict d1) (DDict d2)
  | _, _ => false
  end.

Definition cset_eqb (s1 s2 : list ConfigurationChange) : bool :=
  Nat.eqb (List.length s1) (List.length s2)
  && forallb (fun c => existsb (change_eqb c) s2) s1.

Definition system_eqb (s1 s2 : ConfigurationSystem) : bool :=
  String.eqb (system_value s1) (system_value s2).

Definition task_eqb (t u : ConfigurationTask) : bool :=
  system_eqb (task_system t) (task_system u)
  && String.eqb (task_executable t) (task_executable u)
  && arguments_eqb (task_arguments t) (task_arguments u)
  && cset_eqb (task_changes t) (task_changes u).

Definition tset_add (t : ConfigurationTask) (s : list ConfigurationTask)
  : list ConfigurationTask :=
  if existsb (fun u => task_eqb u t) s then s else s ++ [t].

Definition tset_of_list (l : list ConfigurationTask)
  : list ConfigurationTask :=
  fold_left (fun s t => tset_add t s) l [].

(** ** The knowledge base *)

(** A row of [task_executions]; the JSON columns are held decoded. *)
Record TaskExecution : Type := mkExecution {
  te_id : Z;
  te_system : string;
  te_level : Z;
  te_task : ConfigurationTask
}.

(** The backing store: a database that cannot be reached, or its rows. *)
Inductive Store : Type :=
| Unreachable
| Reachable (rows : list TaskExecution).

(** A computation that writes to the log and then returns or raises. *)
Definition Logged (A : Type) : Type := (list string * result A)%type.

(** [metadata.create_all()]. *)
Definition create_all (store : Store) : result unit :=
  match store with
  | Unreachable => Raise OperationalError
  | Reachable _ => Ok tt
  end.

(** [query.execute()]. *)
Definition execute (store : Store) : result (list TaskExecution) :=
  match store with
  | Unreachable => Raise OperationalError
  | Reachable rows => Ok rows
  end.

(** The wrapper returned by [_with_tables(func)]: the tables are created
    unless [_tables_created] is set; an [OperationalError] is logged and
    raised again; otherwise the call is delegated. *)
Definition _with_tables {A : Type} (_tables_created : bool)
    (func : Store -> result A) (store : Store) : Logged A :=
  match (if _tables_created then Ok tt else create_all store) with
  | Raise OperationalError =>
      (["Error while creating database tables."], Raise OperationalError)
  | Raise e => ([], Raise e)
  | Ok _ => ([], func store)
  end.

(** [ConfigurationSystem(system)]. *)
Definition system_of_value (s : string) : result ConfigurationSystem :=
  if String.eqb s "shell" then Ok SHELL
  else if String.eqb s "docker" then Ok DOCKER
  else if String.eqb s "ansible" then Ok ANSIBLE
  else Raise ValueError.

Definition get_configuration_tasks_body (system : option string)
    (level : option Z) (store : Store) : result (list ConfigurationTask) :=
  do system_filter <-
    match system with
    | Some s => do sys <- system_of_value s;
                Ok (fun r => String.eqb (te_system r) (system_value sys))
    | None => Ok (fun _ => true)
    end;
  let level_filter r :=
    match level with
    | Some l => Z.eqb (te_level r) l
    | None => true
    end in
  do rows <- execute store;
  Ok (tset_of_list
        (map te_task
             (filter (fun r => system_filter r && level_filter r) rows))).

Definition get_configuration_tasks (_tables_created : bool)
    (system : option string) (level : option Z) (store : Store)
  : Logged (list ConfigurationTask) :=
  _with_tables _tables_created
    (get_configuration_tasks_body system level) store.

(** ** Ordering, as [sorted] uses it

    A comparison with [<] returns a truth value or raises [TypeError]
    when the operands cannot be ordered. *)

(** [v < w] on leaf values. *)
Definition py_lt (v w : PyVal) : result bool :=
  let num x :=
    match x with
    | PInt z => Some z
    | PBool b => Some (if b then 1 else 0)%Z
    | _ => None
    end in
  match v, w with
  | PStr s, PStr t => Ok (String.ltb s t)
  | _, _ =>
      match num v, num w with
      | Some a, Some b => Ok (Z.ltb a b)
      | _, _ => Raise TypeError
      end
  end.

(** [t1 < t2] on tuples: the first pair of items that are not equal
    decides; a proper prefix is smaller. *)
Fixpoint tuple_lt {A : Type} (eqb : A -> A -> bool)
    (lt : A -> A -> result bool) (l1 l2 : list A) : result bool :=
  match l1, l2 with
  | [], [] => Ok false
  | [], _ :: _ => Ok true
  | _ :: _, [] => Ok false
  | x :: l1', y :: l2' =>
      if eqb x y then tuple_lt eqb lt l1' l2' else lt x y
  end.

(** [a < b] on arguments: the tuples [(value, original_type,
    original_value)]; two types cannot be ordered. *)
Definition arg_lt (a b : ConfigurationTaskArgument) : result bool :=
  if negb (String.eqb (arg_value a) (arg_value b))
  then Ok (String.ltb (arg_value a) (arg_value b))
  else if negb (pytype_eqb (arg_original_type a) (arg_original_type b))
  then Raise TypeError
  else if py_eqb (arg_original_value a) (arg_original_value b)
  then Ok false
  else py_lt (arg_original_value a) (arg_original_value b).

Definition part_lt (p q : Part) : result bool :=
  match p, q with
  | Lit s, Lit t => Ok (String.ltb s t)
  | ArgPart a, ArgPart b => arg_lt a b
  | _, _ => Raise TypeError
  end.

(** [s1 < s2] on frozen sets: a proper subset. *)
Definition aset_lt (s1 s2 : list ConfigurationTaskArgument) : bool :=
  forallb (fun a => existsb (arg_eqb a) s2) s1 && negb (aset_eqb s1 s2).

(** [v < w] on synthetic values: the tuples [(original_value,
    original_type, arguments, parts)]. *)
Definition sv_lt (v w : SyntheticValue) : result bool :=
  if negb (py_eqb (sv_original_value v) (sv_original_value w))
  then py_lt (sv_original_value v) (sv_original_value w)
  else if negb (pytype_eqb (sv_original_type v) (sv_original_type w))
  then Raise TypeError
  else if negb (aset_eqb (sv_arguments v) (sv_arguments w))
  then Ok (aset_lt (sv_arguments v) (sv_arguments w))
  else tuple_lt part_eqb part_lt (sv_parts v) (sv_parts w).

(** [__lt__] of [DataclassWithSyntheticValues] on content changes: the
    class names are equal, so the field tuples decide. *)
Definition fcc_lt (c d : FileContentChange) : result bool :=
  if negb (fcct_eqb (change_type c) (change_type d))
  then Ok (String.ltb (fcct_value (change_type c))
                      (fcct_value (change_type d)))
  else if sv_eqb (content c) (content d) then Ok false
  else sv_lt (content c) (content d).

Definition field_lt (f g : FieldValue) : result bool :=
  match f, g with
  | FSynthetic v, FSynthetic w => sv_lt v w
  | FSequence l1, FSequence l2 => tuple_lt fcc_eqb fcc_lt l1 l2
  | FPrimitive a, FPrimitive b => Ok (String.ltb a b)
  | _, _ => Raise TypeError
  end.

(** [__lt__] of [DataclassWithSyntheticValues] on changes: by class name,
    then by the tuple of fields. *)
Definition change_lt (c d : ConfigurationChange) : result bool :=
  let n1 := class_name (class_of c) in
  let n2 := class_name (class_of d) in
  if String.ltb n1 n2 then Ok true
  else if String.ltb n2 n1 then Ok false
  else tuple_lt field_eqb field_lt (change_fields c) (change_fields d).

(** [sorted]: the stable sort that asks only [x < y].  An element is
    placed before the first one it is smaller than. *)
Fixpoint sort_insert {A : Type} (lt : A -> A -> result bool) (x : A)
    (l : list A) : result (list A) :=
  match l with
  | [] => Ok [x]
  | y :: l' =>
      do b <- lt x y;
      if b then Ok (x :: y :: l')
      else do r <- sort_insert lt x l'; Ok (y :: r)
  end.

Fixpoint sorted_from {A : Type} (lt : A -> A -> result bool)
    (done : list A) (l : list A) : result (list A) :=
  match l with
  | [] => Ok done
  | x :: l' => do done' <- sort_insert lt x done; sorted_from lt done' l'
  end.

Definition sorted {A : Type} (lt : A -> A -> result bool) (l : list A)
  : result (list A) :=
  sorted_from lt [] l.

(** ** Serialization *)

(** *** The document written by [SynthJSONEncoder]

    [default] turns a synthetic value into its original value, a
    dataclass into [{'type': name, 'value': fields}], a set into a sorted
    list and a [frozendict] into a [dict]; the encoder applies it again
    to what it returns. *)

Definition encode_sv (v : SyntheticValue) : PyData :=
  DLeaf (sv_original_value v).

Definition encode_dataclass (name : string)
    (fields : list (string * PyData)) : PyData :=
  DDict [("type", DLeaf (PStr name)); ("value", DDict fields)].

Definition encode_fcc (c : FileContentChange) : PyData :=
  encode_dataclass "FileContentChange"
    [("change_type", DLeaf (PStr (fcct_value (change_type c))));
     ("content", encode_sv (content c))].

Definition encode_change (c : ConfigurationChange) : PyData :=
  encode_dataclass (class_name (class_of c))
    match c with
    | DirectoryAdd p | DirectoryDelete p | FileAdd p | FileDelete p
    | WorkingDirectorySet p => [("path", encode_sv p)]
    | EnvSet k v => [("key", encode_sv k); ("value", encode_sv v)]
    | EnvUnset k => [("key", encode_sv k)]
    | FileChange p cs =>
        [("path", encode_sv p); ("changes", DList (map encode_fcc cs))]
    | ServiceStart n | ServiceStop n => [("name", encode_sv n)]
    | SymbolicLink p l => [("path", encode_sv p); ("link", encode_sv l)]
    end.

Definition encode_arguments (a : TaskArguments) : result PyData :=
  match a with
  | ASequence words => Ok (DList (map (fun w => DLeaf (PStr w)) words))
  | AMapping entries => Ok (DDict entries)
  | AUnsupported => Raise TypeError
  end.

(** The document of a task; [sorted(changes)] may raise. *)
Definition encode_task (t : ConfigurationTask) : result PyData :=
  do arguments <- encode_arguments (task_arguments t);
  do changes <- sorted change_lt (task_changes t);
  Ok (encode_dataclass "ConfigurationTask"
        [("system", DLeaf (PStr (system_value (task_system t))));
         ("executable", DLeaf (PStr (task_executable t)));
         ("arguments", arguments);
         ("changes", DList (map encode_change changes))]).

(** *** The text of a document: [json.dumps] with [sort_keys=True] and the
    default separators and escapes. *)

Definition hex_digit (n : N) : ascii :=
  ascii_of_N (if N.ltb n 10 then 48 + n else 87 + n).

(** The double quote. *)
Definition dquote : ascii := ascii_of_N 34.

Definition json_escape_char (c : ascii) : string :=
  let n := N_of_ascii c in
  if Ascii.eqb c dquote then String "\" (String dquote EmptyString)
  else if Ascii.eqb c "\"%char then "\\"
  else if N.eqb n 10 then "\n"
  else if N.eqb n 13 then "\r"
  else if N.eqb n 9 then "\t"
  else if N.eqb n 8 then "\b"
  else if N.eqb n 12 then "\f"
  else if N.leb 32 n && N.leb n 126 then String c EmptyString
  else String "\" (String "u" (String "0" (String "0"
         (String (hex_digit (N.div n 16))
            (String (hex_digit (N.modulo n 16)) EmptyString))))).

Fixpoint json_escape (s : string) : string :=
  match s with
  | EmptyString => EmptyString
  | String c s' => (json_escape_char c ++ json_escape s')%string
  end.

Definition json_string (s : string) : string :=
  (String dquote (json_escape s) ++ String dquote EmptyString)%string.

Definition json_leaf (v : PyVal) : string :=
  match v with
  | PStr s => json_string s
  | PInt z => py_str (PInt z)
  | PBool true => "true"
  | PBool false => "false"
  | PNone => "null"
  end.

Fixpoint insert_by_key {A : Type} (x : string * A) (l : list (string * A))
  : list (string * A) :=
  match l with
  | [] => [x]
  | y :: l' =>
      if String.ltb (fst x) (fst y) then x :: y :: l'
      else y :: insert_by_key x l'
  end.

Definition sort_by_key {A : Type} (l : list (string * A))
  : list (string * A) :=
  fold_left (fun acc x => insert_by_key x acc) l [].

Fixpoint json_dumps (d : PyData) : string :=
  match d with
  | DLeaf v => json_leaf v
  | DList items =>
      ("[" ++ String.concat ", " (map json_dumps items) ++ "]")%string
  | DDict entries =>
      ("{" ++ String.concat ", "
                (map (fun kv => (json_string (fst kv) ++ ": " ++ snd kv)%string)
                     (sort_by_key
                        ((fix go (l : list (string * PyData)) :=
                            match l with
                            | [] => []
                            | (k, d') :: l' => (k, json_dumps d') :: go l'
                            end) entries)))
           ++ "}")%string
  end.

(** [encoder.encode(task)]. *)
Definition encode (t : ConfigurationTask) : result string :=
  do doc <- encode_task t; Ok (json_dumps doc).

(** The document that [json.loads] reads back from the text of a
    document: the same data, with the entries of every object in the
    order in which they were written, which is the order of the keys. *)
Fixpoint parsed (d : PyData) : PyData :=
  match d with
  | DLeaf v => DLeaf v
  | DList items => DList (map parsed items)
  | DDict entries =>
      DDict (sort_by_key
               ((fix go (l : list (string * PyData)) :=
                   match l with
                   | [] => []
                   | (k, d') :: l' => (k, parsed d') :: go l'
                   end) entries))
  end.

(** *** Decoding: [json.loads(text, object_hook=from_dict)] *)

(** What the decoder asks of the interpreter.  [from_dict] converts a
    field whose type hint is a class by calling the hint on the decoded
    value.  The hints [tuple[FileContentChange, ...]] and
    [frozenset[ConfigurationChange]] are parameterised built-in types:
    [inspect.isclass] holds of them on Python 3.9 and 3.10, and does not
    from Python 3.11 on, where such a field keeps the list that
    [json.loads] read.  (The module cannot be imported before
    Python 3.9.) *)
Record Interpreter : Type := mkInterpreter { alias_is_class : bool }.

Definition python_3_9 : Interpreter := mkInterpreter true.

Definition python_3_11 : Interpreter := mkInterpreter false.

(** What the hook returns: native data, or an object of [classes].
    [OFileChangeList] is a [FileChange] whose field [changes] holds a
    list: it is equal to no [FileChange] that holds a tuple, and it cannot
    be hashed. *)
Inductive PyObj : Type :=
| OLeaf (v : PyVal)
| OList (items : list PyObj)
| ODict (entries : list (string * PyObj))
| OFcc (c : FileContentChange)
| OChange (c : ConfigurationChange)
| OFileChangeList (path : SyntheticValue) (changes : list FileContentChange)
| OTask (t : ConfigurationTask).

Fixpoint obj_lookup (k : string) (entries : list (string * PyObj))
  : option PyObj :=
  match entries with
  | [] => None
  | (k', o) :: rest => if String.eqb k' k then Some o else obj_lookup k rest
  end.

Definition str_mem (k : string) (ks : list string) : bool :=
  existsb (String.eqb k) ks.

Definition all_change_classes : list ChangeClass :=
  [CDirectoryAdd; CDirectoryDelete; CEnvSet; CEnvUnset; CFileAdd;
   CFileDelete; CFileChange; CServiceStart; CServiceStop; CSymbolicLink;
   CWorkingDirectorySet].

Definition class_of_name (name : string) : option ChangeClass :=
  find (fun k => String.eqb (class_name k) name) all_change_classes.

(** The other dataclasses of [classes]; decoding them is not embedded. *)
Definition other_dataclasses : list string :=
  ["ConfigurationTaskArgument"; "SyntheticValue";
   "DataclassWithSyntheticValues"; "ConfigurationTaskError";
   "AnsibleTaskError"; "ShellTaskError"; "ConfigurationChange"].

(** The other names bound in the module [classes]. *)
Definition other_module_names : list string :=
  ["annotations"; "json"; "re"; "ABC"; "Counter"; "defaultdict"; "Callable";
   "Iterable"; "Iterator"; "Mapping"; "Sequence"; "Set"; "dataclass";
   "field"; "Enum"; "unique"; "cached_property"; "total_ordering"; "chain";
   "combinations"; "product"; "cpu_count"; "Pool"; "Any"; "Optional";
   "Type"; "TypeVar"; "Union"; "nx"; "logger"; "MatchingException"; "shell";
   "Timeout"; "T"; "ArgumentPair"; "LOG_INTERVAL"; "VERSION_REGEX";
   "ConfigurationSystem"; "_identity"; "_undo_path_replacement"; "_map";
   "FileContentChangeType"; "frozendict"; "__name__"; "__doc__";
   "__package__"; "__loader__"; "__spec__"; "__file__"; "__cached__";
   "__builtins__"; "__dict__"; "__class__"].

(** The keyword arguments must be exactly the fields: [extra] is raised
    for a key that is no field, [TypeError] for a field without key. *)
Definition check_fields (names : list string) (extra : Exc)
    (fields : list (string * PyObj)) : result unit :=
  if existsb (fun kv => negb (str_mem (fst kv) names)) fields
  then Raise extra
  else if existsb
            (fun n => match obj_lookup n fields with
                      | Some _ => false
                      | None => true
                      end) names
  then Raise TypeError
  else Ok tt.

(** A field of type [SyntheticValue]: [from_primitives] builds it over
    the empty set of arguments. *)
Definition decode_sv (fields : list (string * PyObj)) (name : string)
  : result SyntheticValue :=
  match obj_lookup name fields with
  | Some (OLeaf v) => Ok (new_SyntheticValue v [])
  | Some _ => Raise NotEmbedded
  | None => Raise TypeError
  end.

Definition fcct_of_value (s : string) : result FileContentChangeType :=
  if String.eqb s "addition" then Ok ADDITION
  else if String.eqb s "deletion" then Ok DELETION
  else Raise ValueError.

Definition decode_fcc (fields : list (string * PyObj))
  : result FileContentChange :=
  do ct <-
    match obj_lookup "change_type" fields with
    | Some (OLeaf (PStr s)) => do ct <- fcct_of_value s; Ok (Some ct)
    | Some _ => Raise ValueError
    | None => Ok None
    end;
  do _u <- check_fields ["change_type"; "content"] KeyError fields;
  do v <- decode_sv fields "content";
  match ct with
  | Some ct => Ok (mkFileContentChange ct v)
  | None => Raise TypeError
  end.

Definition change_field_names (k : ChangeClass) : list string :=
  match k with
  | CDirectoryAdd | CDirectoryDelete | CFileAdd | CFileDelete
  | CWorkingDirectorySet => ["path"]
  | CEnvSet => ["key"; "value"]
  | CEnvUnset => ["key"]
  | CFileChange => ["path"; "changes"]
  | CServiceStart | CServiceStop => ["name"]
  | CSymbolicLink => ["path"; "link"]
  end.

(** [tuple(value)], called in the loop of [from_dict] where the hint of
    the field passes for a class: it raises [TypeError] for a value that
    cannot be iterated. *)
Definition tuple_of (o : PyObj) : result unit :=
  match o with
  | OList _ | OLeaf (PStr _) | ODict _ => Ok tt
  | _ => Raise TypeError
  end.

(** A change: the loop of [from_dict] converts the field [changes] of a
    [FileChange] where the interpreter takes its hint for a class, and
    [from_primitives] builds the object; a list that was not converted
    stays a list. *)
Definition decode_change (py : Interpreter) (k : ChangeClass)
    (fields : list (string * PyObj)) : result PyObj :=
  do _a <-
    match k, obj_lookup "changes" fields with
    | CFileChange, Some o => if alias_is_class py then tuple_of o else Ok tt
    | _, _ => Ok tt
    end;
  do _u <- check_fields (change_field_names k) KeyError fields;
  let sv := decode_sv fields in
  match k with
  | CDirectoryAdd => do p <- sv "path"; Ok (OChange (DirectoryAdd p))
  | CDirectoryDelete => do p <- sv "path"; Ok (OChange (DirectoryDelete p))
  | CEnvSet =>
      do key <- sv "key"; do v <- sv "value"; Ok (OChange (EnvSet key v))
  | CEnvUnset => do key <- sv "key"; Ok (OChange (EnvUnset key))
  | CFileAdd => do p <- sv "path"; Ok (OChange (FileAdd p))
  | CFileDelete => do p <- sv "path"; Ok (OChange (FileDelete p))
  | CFileChange =>
      do p <- sv "path";
      do cs <-
        match obj_lookup "changes" fields with
        | Some (OList items) =>
            mapM (fun o => match o with
                           | OFcc c => Ok (fcc_from_arguments c [])
                           | _ => Raise NotEmbedded
                           end) items
        | Some _ => Raise NotEmbedded
        | None => Raise TypeError
        end;
      if alias_is_class py then Ok (OChange (FileChange p cs))
      else Ok (OFileChangeList p cs)
  | CServiceStart => do n <- sv "name"; Ok (OChange (ServiceStart n))
  | CServiceStop => do n <- sv "name"; Ok (OChange (ServiceStop n))
  | CSymbolicLink =>
      do p <- sv "path"; do l <- sv "link"; Ok (OChange (SymbolicLink p l))
  | CWorkingDirectorySet =>
      do p <- sv "path"; Ok (OChange (WorkingDirectorySet p))
  end.

(** Decoded data without objects of [classes]. *)
Fixpoint plain_data (o : PyObj) : option PyData :=
  match o with
  | OLeaf v => Some (DLeaf v)
  | OList items =>
      option_map DList
        ((fix go (l : list PyObj) : option (list PyData) :=
            match l with
            | [] => Some []
            | o' :: l' =>
                match plain_data o', go l' with
                | Some d, Some ds => Some (d :: ds)
                | _, _ => None
                end
            end) items)
  | ODict entries =>
      option_map DDict
        ((fix go (l : list (string * PyObj))
            : option (list (string * PyData)) :=
            match l with
            | [] => Some []
            | (k, o') :: l' =>
                match plain_data o', go l' with
                | Some d, Some ds => Some ((k, d) :: ds)
                | _, _ => None
                end
            end) entries)
  | _ => None
  end.

(** The objects that [hash] refuses: lists, dictionaries, and a
    [FileChange] that holds a list. *)
Definition unhashable (o : PyObj) : bool :=
  match o with
  | OList _ | ODict _ | OFileChangeList _ _ => true
  | _ => false
  end.

Definition is_task (o : PyObj) : bool :=
  match o with
  | OTask _ => true
  | _ => false
  end.

(** [frozenset(value)], called in the loop of [from_dict] where the hint
    of the field passes for a class: it raises [TypeError] for a value
    that cannot be iterated and for an element that cannot be hashed.
    Whether a task can be hashed depends on its arguments; a list of
    hashable objects with a task among them is not embedded. *)
Definition frozenset_of (o : PyObj) : result unit :=
  match o with
  | OList items =>
      if existsb unhashable items then Raise TypeError
      else if existsb is_task items then Raise NotEmbedded
      else Ok tt
  | OLeaf (PStr _) | ODict _ => Ok tt
  | _ => Raise TypeError
  end.

(** An element of [changes] in the constructor, which calls its
    [from_arguments] and adds the result to a set: an object without that
    method raises [AttributeError], and a [FileChange] that holds a list
    raises [TypeError] when it is hashed. *)
Definition change_of_object (o : PyObj) : result ConfigurationChange :=
  match o with
  | OChange c => Ok c
  | OFileChangeList _ _ => Raise TypeError
  | OLeaf _ | OList _ | ODict _ | OTask _ => Raise AttributeError
  | OFcc _ => Raise NotEmbedded
  end.

(** One turn of the loop of [from_dict] over the keys of the document of
    a task, which raises what the conversion of that field raises:
    [ConfigurationSystem(value)] raises [ValueError], no type of the
    union of [arguments] takes a value that is neither a list nor an
    object, [str(value)] never raises, and a key without hint is passed
    over. *)
Definition convert_task_field (py : Interpreter) (kv : string * PyObj)
  : result unit :=
  let '(name, value) := kv in
  if String.eqb name "system"
  then match value with
       | OLeaf (PStr s) => do _s <- system_of_value s; Ok tt
       | _ => Raise ValueError
       end
  else if String.eqb name "arguments"
  then match value with
       | OList _ | ODict _ => Ok tt
       | _ => Raise TypeError
       end
  else if String.eqb name "changes"
  then if alias_is_class py then frozenset_of value else Ok tt
  else Ok tt.

(** A task.  The loop of [from_dict] converts the fields in the order of
    the keys of the document; the constructor is then called with the
    converted fields as keyword arguments, and builds every change over
    the arguments of the task.  Where the interpreter takes the hint of
    [changes] for a class the constructor receives a set, and the list of
    the document otherwise. *)
Definition decode_task (py : Interpreter) (fields : list (string * PyObj))
  : result ConfigurationTask :=
  do _a <- mapM (convert_task_field py) fields;
  do _u <- check_fields ["system"; "executable"; "arguments"; "changes"]
                        TypeError fields;
  do system <-
    match obj_lookup "system" fields with
    | Some (OLeaf (PStr s)) => system_of_value s
    | _ => Raise ValueError
    end;
  do executable <-
    match obj_lookup "executable" fields with
    | Some (OLeaf v) => Ok (py_str v)
    | _ => Raise NotEmbedded
    end;
  do arguments <-
    match obj_lookup "arguments" fields with
    | Some (OList items) =>
        do words <- mapM (fun o => match o with
                                   | OLeaf (PStr w) => Ok w
                                   | _ => Raise NotEmbedded
                                   end) items;
        Ok (ASequence words)
    | Some (ODict entries) =>
        match plain_data (ODict entries) with
        | Some (DDict entries') => Ok (AMapping entries')
        | _ => Raise NotEmbedded
        end
    | _ => Raise TypeError
    end;
  do changes <-
    match obj_lookup "changes" fields with
    | Some (OList items) =>
        do cs <- mapM change_of_object items;
        Ok (if alias_is_class py then cset_of_list cs else cs)
    | _ => Raise NotEmbedded
    end;
  new_ConfigurationTask system executable arguments changes.

(** [from_dict(d)].  The test on the type name reads
    [(d_type := getattr(classes, d['type']), None) is not None]: the
    default [None] is outside the call, so a name that [classes] does not
    bind raises [AttributeError]. *)
Definition from_dict (py : Interpreter) (d : list (string * PyObj))
  : result PyObj :=
  match obj_lookup "type" d, obj_lookup "value" d with
  | Some ty, Some value =>
      match ty with
      | OLeaf (PStr name) =>
          let fields_of k :=
            match value with
            | ODict fields => k fields
            | _ => Raise TypeError
            end in
          match class_of_name name with
          | Some k =>
              fields_of (decode_change py k)
          | None =>
              if String.eqb name "FileContentChange"
              then fields_of (fun fields => do c <- decode_fcc fields;
                                            Ok (OFcc c))
              else if String.eqb name "ConfigurationTask"
              then fields_of (fun fields => do t <- decode_task py fields;
                                            Ok (OTask t))
              else if str_mem name other_dataclasses then Raise NotEmbedded
              else if str_mem name other_module_names then Ok (ODict d)
              else Raise AttributeError
          end
      | _ => Raise TypeError
      end
  | _, _ => Ok (ODict d)
  end.

(** The hook is called on every object of the document, innermost
    first. *)
Fixpoint decode_parsed (py : Interpreter) (d : PyData) : result PyObj :=
  match d with
  | DLeaf v => Ok (OLeaf v)
  | DList items =>
      do os <-
        (fix go (l : list PyData) : result (list PyObj) :=
           match l with
           | [] => Ok []
           | d' :: l' =>
               do o <- decode_parsed py d'; do os <- go l'; Ok (o :: os)
           end) items;
      Ok (OList os)
  | DDict entries =>
      do es <-
        (fix go (l : list (string * PyData))
           : result (list (string * PyObj)) :=
           match l with
           | [] => Ok []
           | (k, d') :: l' =>
               do o <- decode_parsed py d'; do es <- go l'; Ok ((k, o) :: es)
           end) entries;
      from_dict py es
  end.

(** Decoding what was encoded: [json.loads] reads the text of [doc] back
    as [parsed doc]. *)
Definition decode_encoded (py : Interpreter) (doc : PyData)
  : result PyObj :=
  decode_parsed py (parsed doc).

(** ** Sorting keys

    The strings on which the order of two changes built over one pool
    from string values depends: the class name, then the original
    strings in field order. *)

Fixpoint lex_ltb (k1 k2 : list string) : bool :=
  match k1, k2 with
  | [], [] => false
  | [], _ :: _ => true
  | _ :: _, [] => false
  | x :: k1', y :: k2' =>
      if String.eqb x y then lex_ltb k1' k2' else String.ltb x y
  end.

Definition fcc_key (c : FileContentChange) : list string :=
  [fcct_value (change_type c); py_str (sv_original_value (content c))].

Definition field_key (f : FieldValue) : list string :=
  match f with
  | FSynthetic v => [py_str (sv_original_value v)]
  | FSequence l => flat_map fcc_key l
  | FPrimitive s => [s]
  end.

Definition change_key (c : ConfigurationChange) : list string :=
  class_name (class_of c) :: flat_map field_key (change_fields c).

(** A change whose original values are all strings. *)
Definition string_valued (v : SyntheticValue) : Prop :=
  exists s, sv_original_value v = PStr s.

Definition string_field (f : FieldValue) : Prop :=
  match f with
  | FSynthetic v => string_valued v
  | FSequence l => Forall (fun c => string_valued (content c)) l
  | FPrimitive _ => True
  end.

Definition string_change (c : ConfigurationChange) : Prop :=
  Forall string_field (change_fields c).

(** The changes built over [pool] from string values. *)
Definition lifted_change (pool : list ConfigurationTaskArgument)
    (c : ConfigurationChange) : Prop :=
  exists c0, string_change c0 /\ c = change_from_arguments c0 pool.

(** [sort_insert] and [sorted] for a comparison that never raises. *)
Fixpoint pure_insert {A : Type} (ltb : A -> A -> bool) (x : A) (l : list A)
  : list A :=
  match l with
  | [] => [x]
  | y :: l' => if ltb x y then x :: y :: l' else y :: pure_insert ltb x l'
  end.

Definition pure_sorted {A : Type} (ltb : A -> A -> bool) (l : list A)
  : list A :=
  fold_left (fun done x => pure_insert ltb x done) l [].

(** The relation of a comparison. *)
Definition ltb_lt {A : Type} (ltb : A -> A -> bool) (x y : A) : Prop :=
  ltb x y = true.

Definition key_ltb (c d : ConfigurationChange) : bool :=
  lex_ltb (change_key c) (change_key d).

(** Two tuples of fields of one class, built over [pool] from strings. *)
Inductive fields_dom (pool : list ConfigurationTaskArgument)
  : list FieldValue -> list FieldValue -> Prop :=
| fields_dom_nil : fields_dom pool [] []
| fields_dom_synthetic s s' fs gs :
    fields_dom pool fs gs ->
    fields_dom pool (FSynthetic (new_SyntheticValue (PStr s) pool) :: fs)
                    (FSynthetic (new_SyntheticValue (PStr s') pool) :: gs)
| fields_dom_sequence l1 l2 :
    Forall (fun c => exists s,
              content c = new_SyntheticValue (PStr s) pool) l1 ->
    Forall (fun c => exists s,
              content c = new_SyntheticValue (PStr s) pool) l2 ->
    fields_dom pool [FSequence l1] [FSequence l2].

(** ** Predicates of the statements

    What the properties below say of arguments, dictionaries, mappings,
    synthetic values and changes. *)

Definition akey (a : ConfigurationTaskArgument) : PyVal := arg_original_value a.

(** The keys of a dictionary, as compared by [__eq__]. *)
Definition dkeys (d : ArgDict) : list PyVal := map (fun kv => akey (fst kv)) d.

(** Both directions are dictionaries with distinct keys and each is the
    converse of the other. *)
Record valid_mapping (m : ConfigurationTaskArgumentMapping) : Prop := {
  vm_source_keys : NoDup (dkeys (source_arguments m));
  vm_target_keys : NoDup (dkeys (target_arguments m));
  vm_forward : forall a b,
    dict_get (source_arguments m) a = Some b ->
    exists a', dict_get (target_arguments m) b = Some a' /\ akey a' = akey a;
  vm_backward : forall b a,
    dict_get (target_arguments m) b = Some a ->
    exists b', dict_get (source_arguments m) a = Some b' /\ akey b' = akey b
}.

(** [maps_to m x y]: the mapping sends the argument [x] to (an argument
    equal to) [y]. *)
Definition maps_to (m : ConfigurationTaskArgumentMapping)
    (x y : ConfigurationTaskArgument) : Prop :=
  exists b, dict_get (source_arguments m) x = Some b /\ akey b = akey y.

(** Two pairs disagree when they share a source with different targets or
    share a target with different sources. *)
Definition conflictb (p q : ArgumentPair) : bool :=
  (arg_eqb (fst p) (fst q) && negb (arg_eqb (snd p) (snd q)))
  || (arg_eqb (snd p) (snd q) && negb (arg_eqb (fst p) (fst q))).

Definition in_pairs (ps : list ArgumentPair)
    (x y : ConfigurationTaskArgument) : Prop :=
  exists p, In p ps /\ akey (fst p) = akey x /\ akey (snd p) = akey y.

(** The test of [add_pair], as a proposition. *)
Definition add_ok (m : ConfigurationTaskArgumentMapping)
    (a b : ConfigurationTaskArgument) : Prop :=
  (forall x0, dict_get (source_arguments m) a = Some x0 -> akey x0 = akey b)
  /\ (forall y0, dict_get (target_arguments m) b = Some y0 -> akey y0 = akey a).

Definition pairs_consistent (ps : list ArgumentPair) : Prop :=
  forall p q, In p ps -> In q ps -> conflictb p q = false.

(** The mappings that the program can build: the constructor (which
    [merge], [merge_all] and [invert] all return through) and [add_pair]
    on a mapping already built. *)
Inductive constructed : ConfigurationTaskArgumentMapping -> Prop :=
| constructed_new ps m :
    new_mapping ps = Ok m -> constructed m
| constructed_add m p m' :
    constructed m -> add_pair m p = Ok m' -> constructed m'.

(** Some source argument would map to two different targets, or some
    target argument would be mapped from two different sources, in the
    union of the pairs of [m1] and [m2]. *)
Definition merge_conflict (m1 m2 : ConfigurationTaskArgumentMapping) : Prop :=
  (exists a b b',
      (maps_to m1 a b \/ maps_to m2 a b)
      /\ (maps_to m1 a b' \/ maps_to m2 a b')
      /\ arg_eqb b b' = false)
  \/ (exists a a' b,
         (maps_to m1 a b \/ maps_to m2 a b)
         /\ (maps_to m1 a' b \/ maps_to m2 a' b)
         /\ arg_eqb a a' = false).

Definition dmaps (d : ArgDict) (x y : ConfigurationTaskArgument) : Prop :=
  exists b, dict_get d x = Some b /\ akey b = akey y.

Definition same_pairs (ps qs : list ArgumentPair) : Prop :=
  forall x y, in_pairs ps x y <-> in_pairs qs x y.

(** A list is a set of mappings when no two of its elements are equal. *)
Definition mset_NoDup (s : list ConfigurationTaskArgumentMapping) : Prop :=
  ForallOrdPairs (fun a b => mapping_eqb a b = false) s.

(** The loop of [all_combinations] over the tuples [ts], started from the
    set [acc]. *)
Definition combine_loop (ts : list (list ConfigurationTaskArgumentMapping))
    (acc : list ConfigurationTaskArgumentMapping) :=
  fold_left
    (fun merged_mappings elements =>
       match merge_all elements with
       | Ok mapping => mset_add mapping merged_mappings
       | Raise _ => merged_mappings
       end) ts acc.

Definition starts_lit (l : list Part) : bool :=
  match l with
  | Lit _ :: _ => true
  | _ => false
  end.

Definition ends_lit (l : list Part) : bool := starts_lit (rev l).

(** What holds of every synthetic value the program builds. *)
Record sv_inv (v : SyntheticValue) : Prop := {
  svi_set : aset_NoDup (sv_arguments v);
  svi_arguments : forall a,
    aset_In a (sv_arguments v)
    <-> exists b, In (ArgPart b) (sv_parts v) /\ arg_eqb b a = true;
  svi_value :
    sv_original_type v = TStr ->
    sv_original_value v = PStr (parts_str (sv_parts v))
}.

Definition str_arg (s : string) : ConfigurationTaskArgument := Arg (PStr s).

(** The mapping [fox -> f, dog -> d]. *)
Definition fox_dog_mapping (f d : string) : ConfigurationTaskArgumentMapping :=
  mkMapping [(str_arg "fox", str_arg f); (str_arg "dog", str_arg d)]
            [(str_arg f, str_arg "fox"); (str_arg d, str_arg "dog")].

Definition fox_dog_result (pool : list ConfigurationTaskArgument)
    (ms : list ConfigurationTaskArgumentMapping) : Prop :=
  let v := new_SyntheticValue (PStr "+fox+dog+") pool in
  map_to_primitive v (PStr "+vulpine+++canine+") = Ok ms
  /\ (exists found,
        map_to_primitive_search v (PStr "+vulpine+++canine+")
        = Ok ([], found))
  /\ List.length ms = 3
  /\ mset_NoDup ms
  /\ mset_In (fox_dog_mapping "vulpine" "++canine") ms
  /\ mset_In (fox_dog_mapping "vulpine+" "+canine") ms
  /\ mset_In (fox_dog_mapping "vulpine++" "canine") ms.

Definition fcc_lifted (pool : list ConfigurationTaskArgument)
    (c : FileContentChange) : Prop :=
  exists s, content c = new_SyntheticValue (PStr s) pool.

(** ** Scenarios *)

Definition tmp_a : SyntheticValue := new_SyntheticValue (PStr "/tmp/a") [].

Definition tmp_b : SyntheticValue := new_SyntheticValue (PStr "/tmp/b") [].

(** An environment in which no alarm fires and the clique search times
    out. *)
Definition no_alarm (c d : ConfigurationChange) : bool := false.

Definition no_clique (g : Graph)
  : option (list ConfigurationTaskArgumentMapping) := None.

(** The mapping [cat -> feline]. *)
Definition cat_mapping : ConfigurationTaskArgumentMapping :=
  mkMapping [(str_arg "cat", str_arg "feline")]
            [(str_arg "feline", str_arg "cat")].

Definition fox_dog_value : SyntheticValue :=
  new_SyntheticValue (PStr "+fox+dog+") [str_arg "fox"; str_arg "dog"].

(** The task [touch a], which adds the file [/tmp/a], and the mapping
    [a -> tmp]. *)
Definition touch_task : result ConfigurationTask :=
  new_ConfigurationTask SHELL "touch" (ASequence ["a"]) [FileAdd tmp_a].

Definition touch_mapping : result ConfigurationTaskArgumentMapping :=
  new_mapping [(str_arg "a", str_arg "tmp")].

(** An Ansible task whose arguments have the keys [type] and [value]. *)
Definition route_task : result ConfigurationTask :=
  new_ConfigurationTask ANSIBLE "route53"
    (AMapping [("type", DLeaf (PStr "A"));
               ("value", DLeaf (PStr "192.0.2.1"))]) [].

(** What the hook makes of the document of a change. *)
Definition decoded_change (py : Interpreter) (c : ConfigurationChange)
  : PyObj :=
  match c with
  | FileChange p cs =>
      if alias_is_class py
      then OChange (change_from_arguments c [])
      else OFileChangeList (new_SyntheticValue (sv_original_value p) [])
                           (map (fun c => fcc_from_arguments c []) cs)
  | _ => OChange (change_from_arguments c [])
  end.

(** The task [edit a], which adds a line to the file [/tmp/a]. *)
Definition line_added : FileContentChange :=
  mkFileContentChange ADDITION (new_SyntheticValue (PStr "x") []).

Definition edit_changes : list ConfigurationChange :=
  [FileChange tmp_a [line_added]].

(** ** Predicates of the further properties *)

(** Two calls end alike: both raise [MatchingException], or both return
    and the two mappings are equal. *)
Definition same_outcome (r1 r2 : result ConfigurationTaskArgumentMapping)
  : Prop :=
  (r1 = Raise MatchingException /\ r2 = Raise MatchingException)
  \/ (exists m1 m2, r1 = Ok m1 /\ r2 = Ok m2
                    /\ valid_mapping m1 /\ valid_mapping m2
                    /\ mapping_eqb m1 m2 = true).

Definition rows_within (S T : list ConfigurationChange) (r : MappingRow)
  : Prop :=
  incl (row_source_changes r) S /\ incl (row_target_changes r) T.

Definition tmp_a_over_a : SyntheticValue :=
  new_SyntheticValue (PStr "/tmp/a") [str_arg "a"].

(** A clique search that answers with the first node of the graph. *)
Definition first_node_clique (g : Graph)
  : option (list ConfigurationTaskArgumentMapping) :=
  match nodes g with
  | (m, _) :: _ => Some [m]
  | [] => None
  end.

(** [ConfigurationTask.no_changes]. *)
Definition no_changes (self : ConfigurationTask) : result ConfigurationTask :=
  new_ConfigurationTask (task_system self) (task_executable self)
    (task_arguments self) [].

Section MapToTask.

Variable pair_times_out : ConfigurationChange -> ConfigurationChange -> bool.
Variable max_weight_clique :
  Graph -> option (list ConfigurationTaskArgumentMapping).

(** [ConfigurationTask.map_to_task]. *)
Definition map_to_task (self other : ConfigurationTask)
  : result ConfigurationTaskArgumentMapping :=
  do intersection <-
    change_intersection pair_times_out max_weight_clique
      (task_changes self) (task_changes other) None;
  Ok (snd intersection).

End MapToTask.

(** The task [touch a], which adds [/tmp/a] and [/tmp/b], with its set of
    changes held in the two orders. *)
Definition two_files_task : ConfigurationTask :=
  mkTask SHELL "touch" (ASequence ["a"])
    [change_from_arguments (FileAdd tmp_a) [str_arg "a"];
     change_from_arguments (FileAdd tmp_b) [str_arg "a"]]
    [str_arg "a"].

Definition two_files_task_swapped : ConfigurationTask :=
  mkTask SHELL "touch" (ASequence ["a"])
    [change_from_arguments (FileAdd tmp_b) [str_arg "a"];
     change_from_arguments (FileAdd tmp_a) [str_arg "a"]]
    [str_arg "a"].

(** The text that the elements of [self_sequence] spell when every
    argument is replaced by the value of its image under [m]; [None] when
    an argument has no image. *)
Fixpoint spell (m : ConfigurationTaskArgumentMapping) (ss : list Token)
  : option (list ascii) :=
  match ss with
  | [] => Some []
  | TChar c :: ss' => option_map (cons c) (spell m ss')
  | TArg a :: ss' =>
      match dict_get (source_arguments m) a with
      | Some b =>
          option_map (app (list_ascii_of_string (arg_value b))) (spell m ss')
      | None => None
      end
  end.

(** What the search keeps of every state on its stack. *)
Definition aligned (ss : list Token) (os : list ascii) (st : SearchState)
  : Prop :=
  let '(self_idx, other_idx, mapping) := st in
  constructed mapping
  /\ self_idx <= List.length ss
  /\ other_idx <= List.length os
  /\ spell mapping (firstn self_idx ss) = Some (firstn other_idx os).

(** What holds of every mapping the search saves. *)
Definition alignment (ss : list Token) (os : list ascii)
    (m : ConfigurationTaskArgumentMapping) : Prop :=
  constructed m /\ spell m ss = Some os.

(** What the outer loop keeps: every state of the stack is aligned and
    every saved mapping is an alignment. *)
Definition search_sound (ss : list Token) (os : list ascii) (s : Search)
  : Prop :=
  Forall (aligned ss os) (fst s) /\ Forall (alignment ss os) (snd s).

(** [m] aligns the value [v] with the value [w]: it maps every argument
    that occurs in [v], and the parts of [v], each argument replaced by
    the value of its image, spell the original value of [w]. *)
Definition sv_aligned (m : ConfigurationTaskArgumentMapping)
    (v w : SyntheticValue) : Prop :=
  (forall a, In (ArgPart a) (sv_parts v) ->
             exists b, dict_get (source_arguments m) a = Some b)
  /\ PStr (parts_str (map (map_part m) (sv_parts v))) = sv_original_value w.

Definition fcc_aligned (m : ConfigurationTaskArgumentMapping)
    (c d : FileContentChange) : Prop :=
  change_type c = change_type d /\ sv_aligned m (content c) (content d).

Definition field_aligned (m : ConfigurationTaskArgumentMapping)
    (f g : FieldValue) : Prop :=
  match f, g with
  | FSynthetic v, FSynthetic w => sv_aligned m v w
  | FSequence l1, FSequence l2 => Forall2 (fcc_aligned m) l1 l2
  | FPrimitive a, FPrimitive b => a = b
  | _, _ => False
  end.

(** The fields of a change that the program built, beside the fields of
    a change of the same class whose values are strings. *)
Definition field_pair (f g : FieldValue) : Prop :=
  match f, g with
  | FSynthetic v, FSynthetic w => sv_built v /\ string_valued w
  | FSequence l1, FSequence l2 =>
      Forall (fun c => sv_built (content c)) l1
      /\ Forall (fun c => string_valued (content c)) l2
  | FPrimitive _, FPrimitive _ => True
  | _, _ => False
  end.

Definition built_field (f : FieldValue) : Prop :=
  match f with
  | FSynthetic v => sv_built v
  | FSequence l => Forall (fun c => sv_built (content c)) l
  | FPrimitive _ => True
  end.

(** A change all of whose values the program built. *)
Definition built_change (c : ConfigurationChange) : Prop :=
  Forall built_field (change_fields c).

(** [m'] keeps the pairs of [m]. *)
Definition extends (m m' : ConfigurationTaskArgumentMapping) : Prop :=
  forall a b, maps_to m a b -> maps_to m' a b.

(** A bound on the turns of the outer loop that a state at [self_idx]
    and the states that come from it take: a state has at most
    [other_len + 1] successors, each further in [self_sequence]. *)
Definition state_cost (self_len other_len : nat) (st : SearchState) : nat :=
  Nat.pow (other_len + 2) (self_len + 1 - fst (fst st)) - 1.

Definition stack_cost (self_len other_len : nat) (states : list SearchState)
  : nat :=
  list_sum (map (state_cost self_len other_len) states).

Definition state_within (self_len : nat) (st : SearchState) : Prop :=
  fst (fst st) <= self_len.

(** What the search keeps of a mapping [target] that aligns
    [self_sequence] with [o]: it is found, or a state of the stack leads
    to it. *)
Definition on_path (ss : list Token) (o : string)
    (target : ConfigurationTaskArgumentMapping) (s : Search) : Prop :=
  search_sound ss (list_ascii_of_string o) s
  /\ ((exists m, In m (snd s)
                 /\ forall a b, maps_to m a b <-> maps_to target a b)
      \/ (exists st, In st (fst s) /\ extends (snd st) target)).

(** The images of [m] are string arguments. *)
Definition str_images (m : ConfigurationTaskArgumentMapping) : Prop :=
  forall a b, maps_to m a b -> is_str b.

Definition str_mapping (m : ConfigurationTaskArgumentMapping) : Prop :=
  valid_mapping m /\ str_images m.

(** Every argument of the value is a string argument. *)
Definition str_arguments (v : SyntheticValue) : Prop :=
  forall a, aset_In a (sv_arguments v) -> is_str a.

Definition str_arguments_field (f : FieldValue) : Prop :=
  match f with
  | FSynthetic v => str_arguments v
  | FSequence l => Forall (fun c => str_arguments (content c)) l
  | FPrimitive _ => True
  end.

Definition str_arguments_change (c : ConfigurationChange) : Prop :=
  Forall str_arguments_field (change_fields c).

(** The arguments among [parts] are string arguments. *)
Definition str_parts (parts : list Part) : Prop :=
  forall a, In (ArgPart a) parts -> is_str a.

(* ================================================================== *)
(** * Properties *)
(* ================================================================== *)

(** ** Equality of arguments *)

Lemma pytype_eqb_refl t : pytype_eqb t t = true.
Proof. destruct t; reflexivity. Qed.

Lemma py_eqb_refl v : py_eqb v v = true.
Proof.
  destruct v as [s|z|b|]; simpl.
  - apply String.eqb_refl.
  - apply Z.eqb_refl.
  - destruct b; reflexivity.
  - reflexivity.
Qed.

Lemma arg_eqb_akey a b : arg_eqb a b = true <-> akey a = akey b.
Proof.
  unfold arg_eqb, arg_value, arg_original_type, akey.
  destruct a as [va ta pa], b as [vb tb pb]; simpl. split.
  - intros H. apply andb_true_iff in H. destruct H as [H Hv].
    apply andb_true_iff in H. destruct H as [_ Ht].
    destruct va, vb; simpl in *; try discriminate.
    + apply String.eqb_eq in Hv. now subst.
    + apply Z.eqb_eq in Hv. now subst.
    + apply Bool.eqb_prop in Hv. now subst.
    + reflexivity.
  - intros ->. now rewrite String.eqb_refl, pytype_eqb_refl, py_eqb_refl.
Qed.

Lemma arg_eqb_nkey a b : arg_eqb a b = false <-> akey a <> akey b.
Proof.
  rewrite <- arg_eqb_akey. destruct (arg_eqb a b); split; congruence.
Qed.

Lemma arg_eqb_refl a : arg_eqb a a = true.
Proof. now apply arg_eqb_akey. Qed.

Lemma arg_eqb_sym a b : arg_eqb a b = arg_eqb b a.
Proof.
  destruct (arg_eqb a b) eqn:E, (arg_eqb b a) eqn:F; try reflexivity.
  - apply arg_eqb_akey in E. apply arg_eqb_nkey in F. congruence.
  - apply arg_eqb_akey in F. apply arg_eqb_nkey in E. congruence.
Qed.

Lemma arg_eqb_trans a b c :
  arg_eqb a b = true -> arg_eqb b c = true -> arg_eqb a c = true.
Proof. rewrite !arg_eqb_akey. congruence. Qed.

(** Turn every boolean comparison of arguments in the context and the goal
    into an equation between keys. *)
Ltac argkeys :=
  repeat match goal with
         | H : arg_eqb _ _ = true |- _ => apply arg_eqb_akey in H
         | H : arg_eqb _ _ = false |- _ => apply arg_eqb_nkey in H
         | |- arg_eqb _ _ = true => apply arg_eqb_akey
         | |- arg_eqb _ _ = false => apply arg_eqb_nkey
         end.

(** ** Dictionaries *)

Lemma dict_get_akey d k k' :
  akey k = akey k' -> dict_get d k = dict_get d k'.
Proof.
  intros E. induction d as [|[k0 v0] d IH]; simpl; [reflexivity|].
  destruct (arg_eqb k0 k) eqn:A, (arg_eqb k0 k') eqn:B;
    try reflexivity; try assumption; argkeys; congruence.
Qed.

Lemma dict_get_set_same d k v k' :
  akey k = akey k' -> dict_get (dict_set d k v) k' = Some v.
Proof.
  intros E. induction d as [|[k0 v0] d IH]; simpl.
  - assert (arg_eqb k k' = true) as -> by (argkeys; assumption). reflexivity.
  - destruct (arg_eqb k0 k) eqn:A; simpl.
    + assert (arg_eqb k0 k' = true) as -> by (argkeys; congruence).
      reflexivity.
    + assert (arg_eqb k0 k' = false) as -> by (argkeys; congruence).
      exact IH.
Qed.

Lemma dict_get_set_other d k v k' :
  akey k <> akey k' -> dict_get (dict_set d k v) k' = dict_get d k'.
Proof.
  intros E. induction d as [|[k0 v0] d IH]; simpl.
  - assert (arg_eqb k k' = false) as -> by (argkeys; assumption). reflexivity.
  - destruct (arg_eqb k0 k) eqn:A; simpl.
    + assert (arg_eqb k0 k' = false) as -> by (argkeys; congruence).
      reflexivity.
    + destruct (arg_eqb k0 k'); [reflexivity | exact IH].
Qed.

Lemma dict_get_None d k : dict_get d k = None <-> ~ In (akey k) (dkeys d).
Proof.
  induction d as [|[k0 v0] d IH]; simpl.
  - tauto.
  - destruct (arg_eqb k0 k) eqn:A; argkeys.
    + split; [discriminate | intros H; exfalso; apply H; now left].
    + rewrite IH. unfold akey in *. simpl. tauto.
Qed.

Lemma dkeys_set d k v :
  dkeys (dict_set d k v) =
  if dict_mem d k then dkeys d else dkeys d ++ [akey k].
Proof.
  unfold dict_mem. induction d as [|[k0 v0] d IH]; simpl; [reflexivity|].
  destruct (arg_eqb k0 k) eqn:A; simpl; [reflexivity|].
  rewrite IH. destruct (dict_get d k); reflexivity.
Qed.

Lemma dkeys_set_NoDup d k v : NoDup (dkeys d) -> NoDup (dkeys (dict_set d k v)).
Proof.
  intros H. rewrite dkeys_set. unfold dict_mem.
  destruct (dict_get d k) eqn:G; [assumption|].
  apply dict_get_None in G.
  apply NoDup_app; [assumption | repeat constructor; simpl; tauto |].
  intros x Hx [<-|[]]. contradiction.
Qed.

Lemma dict_get_In d k v :
  dict_get d k = Some v -> exists k0, In (k0, v) d /\ akey k0 = akey k.
Proof.
  induction d as [|[k0 v0] d IH]; simpl; [discriminate|].
  destruct (arg_eqb k0 k) eqn:A.
  - intros [= <-]. exists k0. argkeys. auto.
  - intros G. destruct (IH G) as (k1 & Hin & E). exists k1. auto.
Qed.

Lemma In_dict_get d k0 v k :
  NoDup (dkeys d) -> In (k0, v) d -> akey k0 = akey k -> dict_get d k = Some v.
Proof.
  induction d as [|[k1 v1] d IH]; simpl; [tauto|].
  intros ND [[= -> ->]|Hin] E.
  - assert (arg_eqb k0 k = true) as -> by (argkeys; assumption). reflexivity.
  - inversion ND as [|? ? Hn ND']; subst.
    destruct (arg_eqb k1 k) eqn:A; [|now apply IH].
    exfalso. apply Hn. argkeys.
    apply in_map_iff. exists (k0, v). simpl. split; [congruence | assumption].
Qed.

(** ** Argument mappings are partial bijections *)

Lemma conflictb_false x y a b :
  conflictb (x, y) (a, b) = false <->
  (akey x = akey a <-> akey y = akey b).
Proof.
  unfold conflictb; simpl.
  destruct (arg_eqb x a) eqn:A, (arg_eqb y b) eqn:B; simpl; argkeys;
    split; try tauto; try discriminate; intros H; exfalso; tauto.
Qed.

Lemma conflictb_true x y a b :
  conflictb (x, y) (a, b) = true <->
  (akey x = akey a /\ akey y <> akey b) \/ (akey y = akey b /\ akey x <> akey a).
Proof.
  unfold conflictb; simpl.
  destruct (arg_eqb x a) eqn:A, (arg_eqb y b) eqn:B; simpl; argkeys;
    split; try tauto; try discriminate; intros [[? ?]|[? ?]]; congruence.
Qed.

Lemma valid_empty_mapping : valid_mapping empty_mapping.
Proof. split; simpl; try constructor; discriminate. Qed.

Lemma add_pair_cases m a b :
  (add_ok m a b
   /\ add_pair m (a, b) =
      Ok (mkMapping (dict_set (source_arguments m) a b)
                    (dict_set (target_arguments m) b a)))
  \/ (add_pair m (a, b) = Raise MatchingException
      /\ ((exists x0, dict_get (source_arguments m) a = Some x0
                      /\ akey x0 <> akey b)
          \/ (exists y0, dict_get (target_arguments m) b = Some y0
                         /\ akey y0 <> akey a))).
Proof.
  unfold add_pair, add_ok.
  destruct (dict_get (source_arguments m) a) as [x0|] eqn:Ga.
  - destruct (arg_eqb x0 b) eqn:Ea; simpl; argkeys.
    + destruct (dict_get (target_arguments m) b) as [y0|] eqn:Gb.
      * destruct (arg_eqb y0 a) eqn:Eb; simpl; argkeys.
        -- left. repeat split; intros ? [= <-]; assumption.
        -- right. split; [reflexivity|]. right. eauto.
      * left. repeat split; [intros ? [= <-]; assumption | discriminate].
    + right. split; [reflexivity|]. left. eauto.
  - simpl. destruct (dict_get (target_arguments m) b) as [y0|] eqn:Gb.
    + destruct (arg_eqb y0 a) eqn:Eb; simpl; argkeys.
      * left. repeat split; [discriminate | intros ? [= <-]; assumption].
      * right. split; [reflexivity|]. right. eauto.
    + left. repeat split; discriminate.
Qed.

Lemma add_ok_compat m a b :
  valid_mapping m -> add_ok m a b ->
  forall x y, maps_to m x y -> (akey x = akey a <-> akey y = akey b).
Proof.
  intros [Hs Ht Hf Hb] [Ha Hb'] x y (y1 & Gx & Ey). split; intros E.
  - rewrite (dict_get_akey _ x a E) in Gx. apply Ha in Gx. congruence.
  - destruct (Hf _ _ Gx) as (x1 & Gx1 & Ex1).
    rewrite (dict_get_akey _ y1 b) in Gx1 by congruence.
    apply Hb' in Gx1. congruence.
Qed.

Lemma add_ok_valid m a b :
  valid_mapping m -> add_ok m a b ->
  valid_mapping (mkMapping (dict_set (source_arguments m) a b)
                           (dict_set (target_arguments m) b a)).
Proof.
  intros V Hok. pose proof (add_ok_compat m a b V Hok) as Hcompat.
  destruct V as [Hs Ht Hf Hb]. split; simpl.
  - now apply dkeys_set_NoDup.
  - now apply dkeys_set_NoDup.
  - intros x y G. destruct (arg_eqb a x) eqn:Ax; argkeys.
    + rewrite dict_get_set_same in G by assumption. injection G as <-.
      rewrite dict_get_set_same by reflexivity. eauto.
    + rewrite dict_get_set_other in G by assumption.
      destruct (Hf _ _ G) as (x1 & G1 & E1).
      rewrite dict_get_set_other; [eauto|].
      intros Eby. apply Ax. symmetry.
      apply (Hcompat x y); [exists y; auto | congruence].
  - intros y x G. destruct (arg_eqb b y) eqn:By; argkeys.
    + rewrite dict_get_set_same in G by assumption. injection G as <-.
      rewrite dict_get_set_same by reflexivity. eauto.
    + rewrite dict_get_set_other in G by assumption.
      destruct (Hb _ _ G) as (y1 & G1 & E1).
      rewrite dict_get_set_other; [eauto|].
      intros Eax. apply By. symmetry.
      destruct (Hcompat x y1) as [H1 _]; [exists y1; auto|].
      rewrite <- E1. apply H1. congruence.
Qed.

Lemma add_ok_maps m a b :
  valid_mapping m -> add_ok m a b ->
  forall x y,
    maps_to (mkMapping (dict_set (source_arguments m) a b)
                       (dict_set (target_arguments m) b a)) x y <->
    maps_to m x y \/ (akey a = akey x /\ akey b = akey y).
Proof.
  intros V Hok x y. pose proof (add_ok_compat m a b V Hok) as Hcompat.
  unfold maps_to; simpl. split.
  - intros (y1 & G & E). destruct (arg_eqb a x) eqn:Ax; argkeys.
    + rewrite dict_get_set_same in G by assumption.
      injection G as <-. right. auto.
    + rewrite dict_get_set_other in G by assumption. left. eauto.
  - intros [(y1 & G & E)|[Ex Ey]].
    + destruct (arg_eqb a x) eqn:Ax; argkeys.
      * rewrite dict_get_set_same by assumption. exists b. split; auto.
        symmetry. apply (Hcompat x y); [exists y1; auto | congruence].
      * rewrite dict_get_set_other by assumption. eauto.
    + rewrite dict_get_set_same by assumption. eauto.
Qed.

Lemma add_pair_spec m a b :
  valid_mapping m ->
  match add_pair m (a, b) with
  | Ok m' =>
      valid_mapping m'
      /\ (forall x y, maps_to m' x y <->
                      maps_to m x y \/ (akey a = akey x /\ akey b = akey y))
      /\ (forall x y, maps_to m x y -> conflictb (x, y) (a, b) = false)
  | Raise e =>
      e = MatchingException
      /\ exists x y, maps_to m x y /\ conflictb (x, y) (a, b) = true
  end.
Proof.
  intros V. destruct (add_pair_cases m a b) as [[Hok ->]|[-> Hbad]].
  - split; [now apply add_ok_valid|]. split; [now apply add_ok_maps|].
    intros x y Hm. apply conflictb_false. now apply add_ok_compat with m.
  - split; [reflexivity|]. destruct Hbad as [(x0 & G & N)|(y0 & G & N)].
    + exists a, x0. split; [exists x0; auto|].
      apply conflictb_true. left. auto.
    + destruct (vm_backward m V _ _ G) as (b' & G' & E').
      exists y0, b. split; [exists b'; auto|].
      apply conflictb_true. right. auto.
Qed.

Lemma conflictb_refl p : conflictb p p = false.
Proof.
  unfold conflictb. rewrite !arg_eqb_refl. reflexivity.
Qed.

Lemma conflictb_sym p q : conflictb p q = conflictb q p.
Proof.
  unfold conflictb.
  now rewrite (arg_eqb_sym (fst p)), (arg_eqb_sym (snd p)).
Qed.

Lemma conflictb_akey x y a b q :
  akey a = akey x -> akey b = akey y ->
  conflictb (x, y) q = conflictb (a, b) q.
Proof.
  intros Ex Ey. destruct q as [c d].
  destruct (conflictb (a, b) (c, d)) eqn:C.
  - apply conflictb_true in C. apply conflictb_true.
    rewrite <- Ex, <- Ey. exact C.
  - apply conflictb_false in C. apply conflictb_false.
    rewrite <- Ex, <- Ey. exact C.
Qed.

Lemma add_pairs_spec ps : forall m,
  valid_mapping m ->
  match add_pairs m ps with
  | Ok m' =>
      valid_mapping m'
      /\ (forall x y, maps_to m' x y <-> maps_to m x y \/ in_pairs ps x y)
      /\ pairs_consistent ps
      /\ (forall x y p, maps_to m x y -> In p ps -> conflictb (x, y) p = false)
  | Raise e =>
      e = MatchingException
      /\ ((exists x y p, maps_to m x y /\ In p ps /\ conflictb (x, y) p = true)
          \/ (exists p q, In p ps /\ In q ps /\ conflictb p q = true))
  end.
Proof.
  induction ps as [|[a b] ps IH]; intros m V; cbn [add_pairs].
  - split; [assumption|]. split.
    + intros x y. split; [auto|]. intros [H|(p & [] & _)]. exact H.
    + split; [intros p q []|intros x y p _ []].
  - pose proof (add_pair_spec m a b V) as Hadd.
    destruct (add_pair m (a, b)) as [m1|e]; cbn [bind].
    + destruct Hadd as (V1 & Hmaps1 & Hnc1).
      specialize (IH m1 V1). destruct (add_pairs m1 ps) as [m'|e].
      * destruct IH as (V' & Hmaps' & Hcons & Hnc').
        assert (Hab : maps_to m1 a b) by (apply Hmaps1; right; auto).
        split; [assumption|]. split; [|split].
        -- intros x y. rewrite Hmaps', Hmaps1. unfold in_pairs. simpl. split.
           ++ intros [[H|[Ex Ey]]|(p & Hin & E)]; [left; assumption| |].
              ** right. exists (a, b). simpl. auto.
              ** right. exists p. auto.
           ++ intros [H|(p & [<-|Hin] & E)];
                [left; left; assumption | left; right; exact E |].
              right. exists p. auto.
        -- unfold pairs_consistent. simpl. intros p q [<-|Hp] [<-|Hq].
           ++ apply conflictb_refl.
           ++ now apply Hnc'.
           ++ rewrite conflictb_sym. now apply Hnc'.
           ++ now apply Hcons.
        -- simpl. intros x y p Hm [<-|Hin]; [now apply Hnc1|].
           apply Hnc'; [|assumption]. apply Hmaps1. now left.
      * destruct IH as (-> & [(x & y & p & Hm & Hin & C)|(p & q & Hp & Hq & C)]).
        -- split; [reflexivity|]. apply Hmaps1 in Hm.
           destruct Hm as [Hm|[Ex Ey]].
           ++ left. exists x, y, p. simpl. auto.
           ++ right. exists (a, b), p. simpl. repeat split; auto.
              now rewrite <- (conflictb_akey x y a b p).
        -- split; [reflexivity|]. right. exists p, q. simpl. auto.
    + destruct Hadd as (-> & x & y & Hm & C). split; [reflexivity|].
      left. exists x, y, (a, b). simpl. auto.
Qed.

Lemma maps_to_empty x y : ~ maps_to empty_mapping x y.
Proof. intros (b & G & _). discriminate. Qed.

Lemma new_mapping_spec ps :
  match new_mapping ps with
  | Ok m =>
      valid_mapping m
      /\ (forall x y, maps_to m x y <-> in_pairs ps x y)
      /\ pairs_consistent ps
  | Raise e =>
      e = MatchingException
      /\ exists p q, In p ps /\ In q ps /\ conflictb p q = true
  end.
Proof.
  unfold new_mapping.
  pose proof (add_pairs_spec ps empty_mapping valid_empty_mapping) as H.
  destruct (add_pairs empty_mapping ps) as [m|e].
  - destruct H as (V & Hm & Hc & _). split; [assumption|].
    split; [|assumption]. intros x y. rewrite Hm. split; [|auto].
    intros [H|H]; [now apply maps_to_empty in H | assumption].
  - destruct H as (-> & [(x & y & p & Hm & _)|H]);
      [now apply maps_to_empty in Hm|]. auto.
Qed.

Lemma new_mapping_ok_iff ps :
  (exists m, new_mapping ps = Ok m) <-> pairs_consistent ps.
Proof.
  pose proof (new_mapping_spec ps) as H.
  destruct (new_mapping ps) as [m|e].
  - split; [tauto | eauto].
  - destruct H as (_ & p & q & Hp & Hq & C). split.
    + intros (m & [=]).
    + intros Hc. rewrite (Hc p q Hp Hq) in C. discriminate.
Qed.

Lemma valid_maps_to_pairs m x y :
  valid_mapping m -> (maps_to m x y <-> in_pairs (source_arguments m) x y).
Proof.
  intros V. split.
  - intros (b & G & E). apply dict_get_In in G.
    destruct G as (k0 & Hin & Ek). exists (k0, b). auto.
  - intros ([a b] & Hin & Ea & Eb). simpl in *. exists b. split; [|exact Eb].
    apply In_dict_get with a; [apply V | assumption | assumption].
Qed.

Lemma valid_pairs_consistent m :
  valid_mapping m -> pairs_consistent (source_arguments m).
Proof.
  intros V [a b] [a' b'] Hp Hq. apply conflictb_false.
  pose proof (In_dict_get _ a b a (vm_source_keys m V) Hp eq_refl) as Ga.
  pose proof (In_dict_get _ a' b' a' (vm_source_keys m V) Hq eq_refl) as Ga'.
  split; intros E.
  - rewrite (dict_get_akey _ a a' E) in Ga. congruence.
  - destruct (vm_forward m V _ _ Ga) as (a1 & G1 & E1).
    destruct (vm_forward m V _ _ Ga') as (a2 & G2 & E2).
    rewrite (dict_get_akey _ b b' E) in G1. congruence.
Qed.

Lemma constructed_valid m : constructed m -> valid_mapping m.
Proof.
  induction 1 as [ps m H|m [a b] m' _ IH H].
  - pose proof (new_mapping_spec ps) as S. rewrite H in S. apply S.
  - pose proof (add_pair_spec m a b IH) as S. rewrite H in S. apply S.
Qed.

Lemma constructed_merge m1 m2 m : merge m1 m2 = Ok m -> constructed m.
Proof. apply constructed_new. Qed.

Lemma constructed_merge_all ms m : merge_all ms = Ok m -> constructed m.
Proof. apply constructed_new. Qed.

Lemma constructed_invert m m' : invert m = Ok m' -> constructed m'.
Proof. apply constructed_new. Qed.

Lemma in_pairs_app ps qs x y :
  in_pairs (ps ++ qs) x y <-> in_pairs ps x y \/ in_pairs qs x y.
Proof.
  unfold in_pairs. split.
  - intros (p & Hin & E). apply in_app_or in Hin. destruct Hin; eauto.
  - intros [(p & Hin & E)|(p & Hin & E)]; exists p;
      (split; [apply in_or_app; auto | exact E]).
Qed.

Lemma maps_either_pairs m1 m2 x y :
  valid_mapping m1 -> valid_mapping m2 ->
  (maps_to m1 x y \/ maps_to m2 x y <->
   in_pairs (source_arguments m1 ++ source_arguments m2) x y).
Proof.
  intros V1 V2.
  now rewrite in_pairs_app, <- !valid_maps_to_pairs.
Qed.

Lemma merge_conflict_pairs m1 m2 :
  valid_mapping m1 -> valid_mapping m2 ->
  (merge_conflict m1 m2 <->
   exists p q, In p (source_arguments m1 ++ source_arguments m2)
               /\ In q (source_arguments m1 ++ source_arguments m2)
               /\ conflictb p q = true).
Proof.
  intros V1 V2. unfold merge_conflict.
  setoid_rewrite (maps_either_pairs m1 m2); try assumption. split.
  - intros [(a & b & b' & (p & Hp & Ep1 & Ep2) & (q & Hq & Eq1 & Eq2) & N)
           |(a & a' & b & (p & Hp & Ep1 & Ep2) & (q & Hq & Eq1 & Eq2) & N)];
      exists p, q; repeat split; try assumption;
      destruct p as [p1 p2], q as [q1 q2]; simpl in *;
      apply conflictb_true; argkeys; [left|right]; split; congruence.
  - intros ([p1 p2] & [q1 q2] & Hp & Hq & C). apply conflictb_true in C.
    destruct C as [[E N]|[E N]].
    + left. exists p1, p2, q2. repeat split.
      * exists (p1, p2). auto.
      * exists (q1, q2). simpl. auto.
      * argkeys. assumption.
    + right. exists p1, q1, p2. repeat split.
      * exists (p1, p2). auto.
      * exists (q1, q2). simpl. auto.
      * argkeys. assumption.
Qed.

(** C5.  Every mapping that can be constructed is a partial bijection: each
    direction sends the image of a key back to that key.  [merge] raises
    [MatchingException] exactly when some source argument would map to two
    different targets or some target argument would be mapped from two
    different sources; otherwise it returns the union of the pairs. *)
Theorem mapping_partial_bijection_and_merge :
  forall m1 m2,
    constructed m1 -> constructed m2 ->
    (forall k v, dict_get (source_arguments m1) k = Some v ->
       exists k', dict_get (target_arguments m1) v = Some k'
                  /\ arg_eqb k' k = true)
    /\ (forall k v, dict_get (target_arguments m1) k = Some v ->
          exists k', dict_get (source_arguments m1) v = Some k'
                     /\ arg_eqb k' k = true)
    /\ (merge m1 m2 = Raise MatchingException <-> merge_conflict m1 m2)
    /\ (~ merge_conflict m1 m2 ->
        exists m, merge m1 m2 = Ok m
                  /\ constructed m
                  /\ forall x y,
                       maps_to m x y <-> maps_to m1 x y \/ maps_to m2 x y).
Proof.
  intros m1 m2 C1 C2.
  pose proof (constructed_valid m1 C1) as V1.
  pose proof (constructed_valid m2 C2) as V2.
  split; [|split].
  - intros k v G. destruct (vm_forward m1 V1 k v G) as (k' & G' & E).
    exists k'. split; [assumption|]. now apply arg_eqb_akey.
  - intros k v G. destruct (vm_backward m1 V1 k v G) as (k' & G' & E).
    exists k'. split; [assumption|]. now apply arg_eqb_akey.
  - rewrite (merge_conflict_pairs m1 m2 V1 V2). unfold merge.
    pose proof (new_mapping_spec
                  (source_arguments m1 ++ source_arguments m2)) as S.
    destruct (new_mapping (source_arguments m1 ++ source_arguments m2))
      as [m|e] eqn:E.
    + destruct S as (V & Hm & Hc). split.
      * split; [discriminate|].
        intros (p & q & Hp & Hq & C). rewrite (Hc p q Hp Hq) in C.
        discriminate.
      * intros _. exists m. split; [reflexivity|].
        split; [now apply constructed_new in E|].
        intros x y. rewrite Hm. symmetry. now apply maps_either_pairs.
    + destruct S as (-> & Hex). split; [tauto|]. intros N. contradiction.
Qed.

(** An instance: the mappings [fox -> vulpine, dog -> canine] and
    [cat -> feline]. *)
Lemma mapping_partial_bijection_and_merge_witness :
  constructed (fox_dog_mapping "vulpine" "canine")
  /\ constructed cat_mapping
  /\ (forall k v,
        dict_get (source_arguments (fox_dog_mapping "vulpine" "canine")) k
        = Some v ->
        exists k',
          dict_get (target_arguments (fox_dog_mapping "vulpine" "canine")) v
          = Some k'
          /\ arg_eqb k' k = true)
  /\ (forall k v,
        dict_get (target_arguments (fox_dog_mapping "vulpine" "canine")) k
        = Some v ->
        exists k',
          dict_get (source_arguments (fox_dog_mapping "vulpine" "canine")) v
          = Some k'
          /\ arg_eqb k' k = true)
  /\ (merge (fox_dog_mapping "vulpine" "canine") cat_mapping
      = Raise MatchingException
      <-> merge_conflict (fox_dog_mapping "vulpine" "canine") cat_mapping)
  /\ (~ merge_conflict (fox_dog_mapping "vulpine" "canine") cat_mapping ->
      exists m,
        merge (fox_dog_mapping "vulpine" "canine") cat_mapping = Ok m
        /\ constructed m
        /\ forall x y,
             maps_to m x y
             <-> maps_to (fox_dog_mapping "vulpine" "canine") x y
                 \/ maps_to cat_mapping x y).
Proof.
  assert (constructed (fox_dog_mapping "vulpine" "canine")) as H1.
  { apply (constructed_new [(str_arg "fox", str_arg "vulpine");
                            (str_arg "dog", str_arg "canine")]).
    reflexivity. }
  assert (constructed cat_mapping) as H2.
  { apply (constructed_new [(str_arg "cat", str_arg "feline")]).
    reflexivity. }
  split; [exact H1|]. split; [exact H2|].
  exact (mapping_partial_bijection_and_merge
           (fox_dog_mapping "vulpine" "canine") cat_mapping H1 H2).
Defined.

(** ** Equality of mappings *)

Lemma PyVal_eq_dec (v w : PyVal) : {v = w} + {v <> w}.
Proof.
  decide equality; [apply string_dec | apply Z.eq_dec | apply bool_dec].
Defined.

Lemma dict_get_Some_key d k v : dict_get d k = Some v -> In (akey k) (dkeys d).
Proof.
  intros G. destruct (in_dec PyVal_eq_dec (akey k) (dkeys d)) as [H|H];
    [exact H|].
  apply dict_get_None in H. congruence.
Qed.

Lemma dkeys_In_get d x :
  In x (dkeys d) -> exists k v, In (k, v) d /\ akey k = x.
Proof.
  intros H. apply in_map_iff in H. destruct H as ([k v] & E & Hin).
  exists k, v. auto.
Qed.

Lemma dict_eqb_spec d1 d2 :
  NoDup (dkeys d1) -> NoDup (dkeys d2) ->
  (dict_eqb d1 d2 = true <-> forall x y, dmaps d1 x y <-> dmaps d2 x y).
Proof.
  intros N1 N2. unfold dict_eqb. rewrite andb_true_iff, Nat.eqb_eq.
  rewrite forallb_forall. split.
  - intros [L F].
    assert (F' : forall k v, In (k, v) d1 ->
               exists v', dict_get d2 k = Some v' /\ akey v = akey v').
    { intros k v Hin. specialize (F _ Hin). simpl in F.
      destruct (dict_get d2 k) as [v'|]; [|discriminate].
      exists v'. split; [reflexivity|]. now apply arg_eqb_akey. }
    assert (I12 : incl (dkeys d1) (dkeys d2)).
    { intros x Hx. apply dkeys_In_get in Hx. destruct Hx as (k & v & Hin & <-).
      destruct (F' _ _ Hin) as (v' & G & _).
      now apply dict_get_Some_key in G. }
    assert (I21 : incl (dkeys d2) (dkeys d1)).
    { apply NoDup_length_incl; [assumption | | assumption].
      unfold dkeys. rewrite !length_map.
      unfold ArgDict, ArgumentPair in *. lia. }
    intros x y. split.
    + intros (b & G & E). apply dict_get_In in G.
      destruct G as (k0 & Hin & Ek). destruct (F' _ _ Hin) as (v' & G' & Ev).
      exists v'. rewrite <- (dict_get_akey _ k0 x Ek). split; congruence.
    + intros (b & G & E).
      pose proof (I21 _ (dict_get_Some_key _ _ _ G)) as Hx.
      apply dkeys_In_get in Hx. destruct Hx as (k & v & Hin & Ek).
      destruct (F' _ _ Hin) as (v' & G' & Ev).
      rewrite (dict_get_akey _ k x Ek) in G'.
      exists v. split; [now apply In_dict_get with k | congruence].
  - intros H.
    assert (K : forall da db, NoDup (dkeys da) ->
              (forall x y, dmaps da x y -> dmaps db x y) ->
              incl (dkeys da) (dkeys db)).
    { intros da db Na Hab x Hx. apply dkeys_In_get in Hx.
      destruct Hx as (k & v & Hin & <-).
      destruct (Hab k v) as (b & G & _).
      - exists v. split; [now apply In_dict_get with k | reflexivity].
      - now apply dict_get_Some_key in G. }
    split.
    + pose proof (NoDup_incl_length N1 (K d1 d2 N1 (fun x y => proj1 (H x y)))).
      pose proof (NoDup_incl_length N2 (K d2 d1 N2 (fun x y => proj2 (H x y)))).
      unfold dkeys in *. rewrite !length_map in *.
      unfold ArgDict, ArgumentPair in *. lia.
    + intros [k v] Hin. simpl.
      destruct (H k v) as [(b & G & E) _].
      * exists v. split; [now apply In_dict_get with k | reflexivity].
      * rewrite G. apply arg_eqb_akey. congruence.
Qed.

Lemma valid_target_source m x y :
  valid_mapping m ->
  (dmaps (target_arguments m) y x <-> dmaps (source_arguments m) x y).
Proof.
  intros V. split; intros (b & G & E).
  - destruct (vm_backward m V _ _ G) as (b' & G' & E').
    exists b'. rewrite <- (dict_get_akey _ b x E). auto.
  - destruct (vm_forward m V _ _ G) as (b' & G' & E').
    exists b'. rewrite <- (dict_get_akey _ b y E). auto.
Qed.

Lemma mapping_eqb_spec m1 m2 :
  valid_mapping m1 -> valid_mapping m2 ->
  (mapping_eqb m1 m2 = true <->
   forall x y, maps_to m1 x y <-> maps_to m2 x y).
Proof.
  intros V1 V2. unfold mapping_eqb. rewrite andb_true_iff.
  rewrite !dict_eqb_spec by apply V1 || apply V2. split.
  - intros [H _]. exact H.
  - intros H. split; [exact H|]. intros y x.
    rewrite !valid_target_source by assumption. apply H.
Qed.

Lemma mapping_eqb_refl m : valid_mapping m -> mapping_eqb m m = true.
Proof. intros V. apply mapping_eqb_spec; tauto. Qed.

Lemma mapping_eqb_sym m1 m2 :
  valid_mapping m1 -> valid_mapping m2 ->
  mapping_eqb m1 m2 = true -> mapping_eqb m2 m1 = true.
Proof.
  intros V1 V2 H. apply mapping_eqb_spec; try assumption.
  intros x y. symmetry. revert x y. now apply mapping_eqb_spec.
Qed.

Lemma mapping_eqb_trans m1 m2 m3 :
  valid_mapping m1 -> valid_mapping m2 -> valid_mapping m3 ->
  mapping_eqb m1 m2 = true -> mapping_eqb m2 m3 = true ->
  mapping_eqb m1 m3 = true.
Proof.
  intros V1 V2 V3 H12 H23. apply mapping_eqb_spec; try assumption.
  intros x y.
  rewrite (proj1 (mapping_eqb_spec m1 m2 V1 V2) H12).
  now apply mapping_eqb_spec.
Qed.

(** ** [all_combinations] *)

Lemma in_product {A : Type} (L : list (list A)) :
  forall t, In t (product L) <-> in_cartesian t L.
Proof.
  unfold in_cartesian. induction L as [|l L IH]; intros t; simpl.
  - split.
    + intros [<-|[]]. constructor.
    + intros H. inversion H. now left.
  - rewrite in_flat_map. split.
    + intros (x & Hx & Ht). apply in_map_iff in Ht.
      destruct Ht as (t' & <- & Ht'). constructor; [assumption|]. now apply IH.
    + intros H. inversion H as [|x ? t' ? Hx Ht']; subst.
      exists x. split; [assumption|]. apply in_map. now apply IH.
Qed.

Lemma pairs_consistent_rel ps :
  pairs_consistent ps <->
  forall x y x' y',
    in_pairs ps x y -> in_pairs ps x' y' -> conflictb (x, y) (x', y') = false.
Proof.
  split.
  - intros H x y x' y' ([a b] & Hp & Ea & Eb) ([a' b'] & Hq & Ea' & Eb').
    simpl in *. specialize (H _ _ Hp Hq).
    apply conflictb_false in H. apply conflictb_false.
    rewrite <- Ea, <- Eb, <- Ea', <- Eb'. exact H.
  - intros H [a b] [a' b'] Hp Hq. apply H.
    + exists (a, b). auto.
    + exists (a', b'). auto.
Qed.

Lemma same_pairs_consistent ps qs :
  same_pairs ps qs -> pairs_consistent ps -> pairs_consistent qs.
Proof.
  intros S H. apply pairs_consistent_rel. intros x y x' y' Hp Hq.
  apply (proj1 (pairs_consistent_rel ps) H); now apply S.
Qed.

Lemma same_pairs_app ps ps' qs qs' :
  same_pairs ps ps' -> same_pairs qs qs' -> same_pairs (ps ++ qs) (ps' ++ qs').
Proof.
  intros S1 S2 x y. rewrite !in_pairs_app. now rewrite (S1 x y), (S2 x y).
Qed.

(** The outcome of the constructor is decided by the consistency of the
    pairs it is given. *)
Lemma new_mapping_result ps :
  (pairs_consistent ps
   /\ exists m, new_mapping ps = Ok m /\ valid_mapping m
                /\ forall x y, maps_to m x y <-> in_pairs ps x y)
  \/ (~ pairs_consistent ps /\ new_mapping ps = Raise MatchingException).
Proof.
  pose proof (new_mapping_spec ps) as S.
  destruct (new_mapping ps) as [m|e].
  - left. destruct S as (V & Hm & Hc). split; [assumption|]. eauto.
  - right. destruct S as (-> & p & q & Hp & Hq & C). split; [|reflexivity].
    intros Hc. rewrite (Hc p q Hp Hq) in C. discriminate.
Qed.

Lemma merge_tuple_raise t e :
  fold_left (fun acc m => do a <- acc; merge a m) t (Raise e) = Raise e.
Proof. induction t as [|m t IH]; simpl; [reflexivity | exact IH]. Qed.

Lemma merge_tuple_from t : forall acc,
  valid_mapping acc -> Forall valid_mapping t ->
  let ps := source_arguments acc ++ List.concat (map source_arguments t) in
  (pairs_consistent ps
   /\ exists m,
        fold_left (fun acc m => do a <- acc; merge a m) t (Ok acc) = Ok m
        /\ valid_mapping m
        /\ forall x y, maps_to m x y <-> in_pairs ps x y)
  \/ (~ pairs_consistent ps
      /\ fold_left (fun acc m => do a <- acc; merge a m) t (Ok acc)
         = Raise MatchingException).
Proof.
  induction t as [|m t IH]; intros acc Va Vt; cbn zeta;
    cbn [fold_left map List.concat bind].
  - rewrite app_nil_r. left. split; [now apply valid_pairs_consistent|].
    exists acc. split; [reflexivity|]. split; [assumption|].
    intros x y. now apply valid_maps_to_pairs.
  - inversion Vt as [|? ? Vm Vt']; subst.
    change (merge acc m)
      with (new_mapping (source_arguments acc ++ source_arguments m)).
    destruct (new_mapping_result (source_arguments acc ++ source_arguments m))
      as [(Hc & acc' & -> & Va' & Hm)|(Hn & ->)].
    + assert (S : same_pairs
                    (source_arguments acc'
                     ++ List.concat (map source_arguments t))
                    (source_arguments acc
                     ++ source_arguments m
                     ++ List.concat (map source_arguments t))).
      { rewrite app_assoc. apply same_pairs_app; [|intros x y; tauto].
        intros x y. rewrite <- Hm. symmetry. now apply valid_maps_to_pairs. }
      destruct (IH acc' Va' Vt') as [(Hc' & r & -> & Vr & Hr)|(Hn' & ->)].
      * left. split; [now apply (same_pairs_consistent _ _ S)|].
        exists r. split; [reflexivity|]. split; [assumption|].
        intros x y. rewrite Hr. apply S.
      * right. split; [|reflexivity]. intros Hc'. apply Hn'.
        apply (same_pairs_consistent _ _ (fun x y => iff_sym (S x y))).
        exact Hc'.
    + right. split; [|apply merge_tuple_raise].
      intros Hc'. apply Hn. intros p q Hp Hq. apply Hc'.
      * rewrite app_assoc. apply in_or_app. now left.
      * rewrite app_assoc. apply in_or_app. now left.
Qed.

Lemma merge_tuple_result t :
  Forall valid_mapping t ->
  let ps := List.concat (map source_arguments t) in
  (pairs_consistent ps
   /\ exists m, merge_tuple t = Ok m /\ valid_mapping m
                /\ forall x y, maps_to m x y <-> in_pairs ps x y)
  \/ (~ pairs_consistent ps /\ merge_tuple t = Raise MatchingException).
Proof.
  intros Vt. exact (merge_tuple_from t empty_mapping valid_empty_mapping Vt).
Qed.

(** Merging a tuple pairwise from the left and merging it at once with
    [merge_all] agree. *)
Lemma merge_tuple_merge_all t :
  Forall valid_mapping t ->
  (exists m m', merge_tuple t = Ok m /\ merge_all t = Ok m'
                /\ valid_mapping m /\ valid_mapping m'
                /\ mapping_eqb m m' = true)
  \/ (merge_tuple t = Raise MatchingException
      /\ merge_all t = Raise MatchingException).
Proof.
  intros Vt. unfold merge_all.
  destruct (merge_tuple_result t Vt) as [(Hc & m & -> & V & Hm)|(Hn & ->)];
    destruct (new_mapping_result (List.concat (map source_arguments t)))
      as [(Hc' & m' & -> & V' & Hm')|(Hn' & ->)]; try contradiction.
  - left. exists m, m'. do 4 (split; [reflexivity || assumption|]).
    apply mapping_eqb_spec; try assumption.
    intros x y. now rewrite Hm, Hm'.
  - right. auto.
Qed.

Lemma mset_add_In x m s :
  Forall valid_mapping s -> valid_mapping m -> valid_mapping x ->
  (mset_In x (mset_add m s) <-> mset_In x s \/ mapping_eqb m x = true).
Proof.
  intros Vs Vm Vx. unfold mset_add, mset_In.
  destruct (existsb (mapping_eqb m) s) eqn:E.
  - split; [auto|]. intros [H|H]; [exact H|].
    apply existsb_exists in E. destruct E as (m0 & Hin & E0).
    exists m0. split; [assumption|].
    pose proof (proj1 (Forall_forall _ _) Vs _ Hin) as V0.
    apply mapping_eqb_trans with m; try assumption.
    now apply mapping_eqb_sym.
  - split.
    + intros (m' & Hin & E'). apply in_app_or in Hin.
      destruct Hin as [Hin|[<-|[]]]; [left; eauto | right; assumption].
    + intros [(m' & Hin & E')|H].
      * exists m'. split; [apply in_or_app; now left | assumption].
      * exists m. split; [apply in_or_app; right; now left | assumption].
Qed.

Lemma mset_add_valid m s :
  Forall valid_mapping s -> valid_mapping m ->
  Forall valid_mapping (mset_add m s).
Proof.
  intros Vs Vm. unfold mset_add.
  destruct (existsb (mapping_eqb m) s); [assumption|].
  apply Forall_app. split; [assumption | now constructor].
Qed.

Lemma mset_add_constructed m s :
  Forall constructed s -> constructed m -> Forall constructed (mset_add m s).
Proof.
  intros Vs Vm. unfold mset_add.
  destruct (existsb (mapping_eqb m) s); [assumption|].
  apply Forall_app. split; [assumption | now constructor].
Qed.

Lemma ForallOrdPairs_snoc {A : Type} (R : A -> A -> Prop) l x :
  ForallOrdPairs R l -> Forall (fun a => R a x) l ->
  ForallOrdPairs R (l ++ [x]).
Proof.
  induction 1 as [|a l Ha Hl IH]; intros F; simpl.
  - constructor; constructor.
  - inversion F; subst. constructor.
    + apply Forall_app. split; [assumption | now constructor].
    + now apply IH.
Qed.

Lemma mset_add_NoDup m s :
  Forall valid_mapping s -> valid_mapping m ->
  mset_NoDup s -> mset_NoDup (mset_add m s).
Proof.
  intros Vs Vm N. unfold mset_add.
  destruct (existsb (mapping_eqb m) s) eqn:E; [assumption|].
  apply ForallOrdPairs_snoc; [assumption|].
  apply Forall_forall. intros a Hin.
  destruct (mapping_eqb a m) eqn:F; [|reflexivity].
  pose proof (proj1 (Forall_forall _ _) Vs _ Hin) as Va.
  apply mapping_eqb_sym in F; try assumption.
  assert (existsb (mapping_eqb m) s = true) as X
      by (apply existsb_exists; eauto).
  congruence.
Qed.

Lemma combine_loop_spec ts : forall acc,
  Forall constructed acc -> mset_NoDup acc ->
  Forall constructed (combine_loop ts acc)
  /\ mset_NoDup (combine_loop ts acc)
  /\ forall x, valid_mapping x ->
       (mset_In x (combine_loop ts acc) <->
        mset_In x acc
        \/ exists t m, In t ts /\ merge_all t = Ok m
                       /\ mapping_eqb m x = true).
Proof.
  induction ts as [|t ts IH]; intros acc Ca Na; unfold combine_loop; simpl.
  - split; [assumption|]. split; [assumption|]. intros x Vx.
    split; [auto|]. intros [H|(t & m & [] & _)]. exact H.
  - assert (Va : Forall valid_mapping acc).
    { eapply Forall_impl; [|exact Ca]. apply constructed_valid. }
    destruct (merge_all t) as [m|e] eqn:E.
    + pose proof (constructed_merge_all _ _ E) as Cm.
      pose proof (constructed_valid _ Cm) as Vm.
      destruct (IH (mset_add m acc)) as (C' & N' & H').
      { now apply mset_add_constructed. }
      { now apply mset_add_NoDup. }
      split; [exact C'|]. split; [exact N'|]. intros x Vx.
      unfold combine_loop in H'. rewrite (H' x Vx).
      rewrite (mset_add_In x m acc Va Vm Vx). split.
      * intros [[H|H]|(t' & m' & Hin & E' & Q)]; [now left | |].
        -- right. exists t, m. auto.
        -- right. exists t', m'. auto.
      * intros [H|(t' & m' & [<-|Hin] & E' & Q)].
        -- left. now left.
        -- left. right. congruence.
        -- right. exists t', m'. auto.
    + destruct (IH acc Ca Na) as (C' & N' & H').
      split; [exact C'|]. split; [exact N'|]. intros x Vx.
      unfold combine_loop in H'. rewrite (H' x Vx). split.
      * intros [H|(t' & m' & Hin & E' & Q)]; [now left|].
        right. exists t', m'. auto.
      * intros [H|(t' & m' & [<-|Hin] & E' & Q)]; [now left | congruence |].
        right. exists t', m'. auto.
Qed.

Lemma all_combinations_loop L :
  L <> [] -> all_combinations L = combine_loop (product L) [].
Proof. destruct L; [congruence | reflexivity]. Qed.

Lemma cartesian_valid (L : list (list ConfigurationTaskArgumentMapping)) t :
  Forall (Forall constructed) L -> in_cartesian t L -> Forall valid_mapping t.
Proof.
  intros HL H. unfold in_cartesian in H. revert HL.
  induction H as [|x l t L Hx _ IH]; intros HL; [constructor|].
  inversion HL as [|? ? Hl HL']; subst. constructor; [|now apply IH].
  apply constructed_valid. exact (proj1 (Forall_forall _ _) Hl _ Hx).
Qed.

(** Mappings that merge in pairs merge together. *)
Lemma pairwise_merge_consistent t :
  Forall valid_mapping t ->
  (forall m m', In m t -> In m' t -> exists r, merge m m' = Ok r) ->
  pairs_consistent (List.concat (map source_arguments t)).
Proof.
  intros Vt H p q Hp Hq.
  apply in_concat in Hp. destruct Hp as (d & Hd & Hp).
  apply in_map_iff in Hd. destruct Hd as (m & <- & Hm).
  apply in_concat in Hq. destruct Hq as (d' & Hd' & Hq).
  apply in_map_iff in Hd'. destruct Hd' as (m' & <- & Hm').
  destruct (H m m' Hm Hm') as (r & Hr).
  assert (Hc : pairs_consistent (source_arguments m ++ source_arguments m')).
  { apply new_mapping_ok_iff. exists r. exact Hr. }
  apply Hc; apply in_or_app; auto.
Qed.

(** C8 (as stated) fails on the empty list of collections: the Cartesian
    product of no collections has one tuple, the empty one, whose merge is
    the empty mapping, while [all_combinations] returns the empty set. *)
Lemma all_combinations_empty_list_counterexample :
  spec_all_combinations [] empty_mapping
  /\ ~ mset_In empty_mapping (all_combinations [])
  /\ ~ (forall L m,
          Forall (Forall constructed) L -> constructed m ->
          (mset_In m (all_combinations L) <-> spec_all_combinations L m)).
Proof.
  assert (S : spec_all_combinations [] empty_mapping).
  { exists [], empty_mapping. repeat split. constructor. }
  assert (N : ~ mset_In empty_mapping (all_combinations [])).
  { intros (m & [] & _). }
  split; [exact S|]. split; [exact N|].
  intros H. apply N. apply H; [constructor | | exact S].
  now apply (constructed_new []).
Qed.

(** C8 (amended).  On the empty list of collections [all_combinations]
    returns the empty set.  On a non-empty list it returns exactly the
    conflict-free merges of the Cartesian product: a mapping belongs to the
    result iff it equals the merge of some tuple of the product none of
    whose merges raises.  The result is a set of constructed (hence valid)
    mappings, and a tuple of pairwise-compatible mappings always
    contributes its merge; a list with an empty inner collection gives the
    empty set. *)
Theorem all_combinations_conflict_free_merges :
  forall L,
    Forall (Forall constructed) L ->
    (L = [] -> all_combinations L = [])
    /\ (L <> [] ->
        (forall m, constructed m ->
           (mset_In m (all_combinations L) <-> spec_all_combinations L m))
        /\ Forall constructed (all_combinations L)
        /\ mset_NoDup (all_combinations L)
        /\ (forall t,
              in_cartesian t L ->
              (forall m m', In m t -> In m' t -> exists r, merge m m' = Ok r) ->
              exists r, merge_tuple t = Ok r
                        /\ mset_In r (all_combinations L))
        /\ (In [] L -> all_combinations L = [])).
Proof.
  intros L HL. split; [intros ->; reflexivity|]. intros NE.
  rewrite (all_combinations_loop L NE).
  destruct (combine_loop_spec (product L) [])
    as (C & N & H); [constructor | constructor |].
  assert (Hmem : forall m, valid_mapping m ->
            (mset_In m (combine_loop (product L) []) <->
             spec_all_combinations L m)).
  { intros m Vm. rewrite (H m Vm). unfold spec_all_combinations. split.
    - intros [(m' & [] & _)|(t & m' & Hin & E & Q)].
      apply in_product in Hin.
      destruct (merge_tuple_merge_all t (cartesian_valid L t HL Hin))
        as [(r & r' & Er & Er' & Vr & Vr' & Q')|[_ Er']]; [|congruence].
      exists t, r. split; [assumption|]. split; [assumption|].
      apply mapping_eqb_trans with r'; try assumption. congruence.
    - intros (t & r & Hin & Er & Q). right.
      destruct (merge_tuple_merge_all t (cartesian_valid L t HL Hin))
        as [(r0 & r' & Er0 & Er' & Vr & Vr' & Q')|[Er0 _]]; [|congruence].
      assert (r0 = r) as -> by congruence.
      exists t, r'. split; [now apply in_product|]. split; [assumption|].
      apply mapping_eqb_trans with r; try assumption.
      now apply mapping_eqb_sym. }
  split; [|split; [exact C|split; [exact N|split]]].
  - intros m Cm. apply Hmem. now apply constructed_valid.
  - intros t Hin Hpair.
    pose proof (cartesian_valid L t HL Hin) as Vt.
    pose proof (pairwise_merge_consistent t Vt Hpair) as Hc.
    destruct (merge_tuple_result t Vt) as [(_ & r & Er & Vr & _)|(Hn & _)];
      [|contradiction].
    exists r. split; [assumption|]. apply Hmem; [assumption|].
    exists t, r. split; [assumption|]. split; [assumption|].
    now apply mapping_eqb_refl.
  - intros Hin. assert (P : product L = []).
    { clear -Hin. induction L as [|l L IH]; [destruct Hin|].
      destruct Hin as [->|Hin]; [reflexivity|]. simpl. rewrite (IH Hin).
      simpl. induction l; simpl; auto. }
    rewrite P. reflexivity.
Qed.

(** An instance: two collections of one mapping each. *)
Lemma all_combinations_conflict_free_merges_witness :
  Forall (Forall constructed)
    [[fox_dog_mapping "vulpine" "canine"]; [cat_mapping]]
  /\ (forall m, constructed m ->
        (mset_In m (all_combinations
                      [[fox_dog_mapping "vulpine" "canine"]; [cat_mapping]])
         <-> spec_all_combinations
               [[fox_dog_mapping "vulpine" "canine"]; [cat_mapping]] m))
  /\ Forall constructed
       (all_combinations
          [[fox_dog_mapping "vulpine" "canine"]; [cat_mapping]])
  /\ mset_NoDup
       (all_combinations
          [[fox_dog_mapping "vulpine" "canine"]; [cat_mapping]]).
Proof.
  assert (constructed (fox_dog_mapping "vulpine" "canine")) as H1.
  { apply (constructed_new [(str_arg "fox", str_arg "vulpine");
                            (str_arg "dog", str_arg "canine")]).
    reflexivity. }
  assert (constructed cat_mapping) as H2.
  { apply (constructed_new [(str_arg "cat", str_arg "feline")]).
    reflexivity. }
  assert (Forall (Forall constructed)
            [[fox_dog_mapping "vulpine" "canine"]; [cat_mapping]]) as H.
  { repeat constructor; assumption. }
  split; [exact H|].
  destruct (all_combinations_conflict_free_merges
              [[fox_dog_mapping "vulpine" "canine"]; [cat_mapping]] H)
    as [_ N].
  destruct N as (A & B & C & _); [discriminate|].
  split; [exact A|]. split; [exact B | exact C].
Defined.

(** ** Strings *)

Lemma append_nil_r s : (s ++ EmptyString)%string = s.
Proof. induction s as [|c s IH]; simpl; [reflexivity | now rewrite IH]. Qed.

Lemma append_assoc s t u : ((s ++ t) ++ u)%string = (s ++ (t ++ u))%string.
Proof. induction s as [|c s IH]; simpl; [reflexivity | now rewrite IH]. Qed.

Lemma length_append s t :
  String.length (s ++ t) = String.length s + String.length t.
Proof. induction s as [|c s IH]; simpl; [reflexivity | now rewrite IH]. Qed.

Lemma prefix_drop sep : forall s,
  String.prefix sep s = true ->
  s = (sep ++ str_drop (String.length sep) s)%string.
Proof.
  induction sep as [|c sep IH]; intros s H; simpl.
  - destruct s; reflexivity.
  - destruct s as [|d s]; simpl in *; [discriminate|].
    destruct (ascii_dec c d) as [->|]; [|discriminate].
    f_equal. now apply IH.
Qed.

Lemma str_nonempty_false s : str_nonempty s = false -> s = EmptyString.
Proof. destruct s; [reflexivity | discriminate]. Qed.

Lemma str_nonempty_length s : str_nonempty s = true -> 0 < String.length s.
Proof. destruct s; [discriminate | simpl; lia]. Qed.

(** The three results of [str_partition] spell the string, and the middle
    one is the separator or, when there is no occurrence, empty together
    with the last. *)
Lemma str_partition_spec sep : forall s before sep' after,
  str_partition sep s = (before, sep', after) ->
  s = (before ++ sep' ++ after)%string
  /\ ((sep' = sep) \/ (sep' = EmptyString /\ after = EmptyString)).
Proof.
  induction s as [|c s IH]; intros before sep' after; cbn [str_partition].
  - intros [= <- <- <-]. split; [reflexivity | right; auto].
  - destruct (String.prefix sep (String c s)) eqn:P.
    + intros [= <- <- <-]. split; [|left; reflexivity].
      cbn [append]. now apply prefix_drop.
    + destruct (str_partition sep s) as [[b s0] a] eqn:E.
      intros [= <- <- <-]. destruct (IH _ _ _ eq_refl) as [-> H].
      split; [reflexivity | exact H].
Qed.

(** ** The constructor of synthetic values *)

Lemma concat_empty_cons x l :
  String.concat EmptyString (x :: l) = (x ++ String.concat EmptyString l)%string.
Proof. destruct l; simpl; [now rewrite append_nil_r | reflexivity]. Qed.

Lemma parts_str_cons p l : parts_str (p :: l) = (part_str p ++ parts_str l)%string.
Proof. unfold parts_str. simpl map. apply concat_empty_cons. Qed.

Lemma parts_str_app l1 l2 :
  parts_str (l1 ++ l2) = (parts_str l1 ++ parts_str l2)%string.
Proof.
  induction l1 as [|p l1 IH]; [reflexivity|].
  simpl app. now rewrite !parts_str_cons, IH, append_assoc.
Qed.

Lemma parts_str_filter l : parts_str (filter part_truthy l) = parts_str l.
Proof.
  induction l as [|p l IH]; [reflexivity|]. simpl.
  destruct (part_truthy p) eqn:T; rewrite !parts_str_cons, IH; [reflexivity|].
  destruct p as [s|a]; [|discriminate]. simpl in *.
  now rewrite (str_nonempty_false s T).
Qed.

Lemma split_loop_str argument : forall fuel sep after new_parts,
  (sep = EmptyString /\ after = EmptyString)
  \/ (sep = arg_value argument /\ str_nonempty sep = true
      /\ String.length after < fuel) ->
  parts_str (split_loop fuel argument sep after new_parts)
  = (parts_str new_parts ++ sep ++ after)%string.
Proof.
  induction fuel as [|fuel IH]; intros sep after new_parts H; simpl.
  - destruct H as [[-> ->]|(_ & _ & H)]; [|lia]. now rewrite append_nil_r.
  - destruct H as [[-> ->]|(E & N & L)]; [simpl; now rewrite append_nil_r|].
    rewrite N.
    destruct (str_partition (arg_value argument) after) as [[b s] a] eqn:P.
    destruct (str_partition_spec _ _ _ _ _ P) as [Eafter Hs].
    rewrite IH.
    + rewrite !parts_str_app. unfold parts_str at 2 3. simpl.
      rewrite Eafter, E, !append_assoc. reflexivity.
    + destruct Hs as [->|[-> ->]]; [right|left; auto].
      split; [reflexivity|]. split; [congruence|].
      assert (String.length after
              = String.length b + (String.length (arg_value argument)
                                   + String.length a)) as LE
          by (rewrite Eafter at 1; now rewrite !length_append).
      rewrite <- E in LE. apply str_nonempty_length in N. lia.
Qed.

Lemma split_part_str argument new_parts part :
  str_nonempty (arg_value argument) = true ->
  parts_str (split_part argument new_parts part)
  = (parts_str new_parts ++ part_str part)%string.
Proof.
  intros N. destruct part as [s|a]; simpl.
  - destruct (str_partition (arg_value argument) s) as [[b sep] after] eqn:P.
    destruct (str_partition_spec _ _ _ _ _ P) as [Es Hs].
    rewrite split_loop_str.
    + rewrite parts_str_app. unfold parts_str at 2. simpl.
      now rewrite Es, !append_assoc.
    + destruct Hs as [->|[-> ->]]; [right|left; auto].
      split; [reflexivity|]. split; [assumption|].
      assert (String.length s
              = String.length b + (String.length (arg_value argument)
                                   + String.length after)) as LE
          by (rewrite Es at 1; now rewrite !length_append).
      apply str_nonempty_length in N. lia.
  - now rewrite parts_str_app.
Qed.

Lemma fold_split_part_str argument parts : forall new_parts,
  str_nonempty (arg_value argument) = true ->
  parts_str (fold_left (split_part argument) parts new_parts)
  = (parts_str new_parts ++ parts_str parts)%string.
Proof.
  induction parts as [|p parts IH]; intros new_parts N; simpl.
  - unfold parts_str at 3. simpl. now rewrite append_nil_r.
  - rewrite IH by assumption. rewrite split_part_str by assumption.
    now rewrite parts_str_cons, append_assoc.
Qed.

Lemma split_on_argument_str parts argument :
  parts_str (split_on_argument parts argument) = parts_str parts.
Proof.
  unfold split_on_argument.
  destruct (str_nonempty (arg_value argument)) eqn:N; [|reflexivity].
  rewrite parts_str_filter. now rewrite fold_split_part_str.
Qed.

Lemma fold_split_on_argument_str arguments : forall parts,
  parts_str (fold_left split_on_argument arguments parts) = parts_str parts.
Proof.
  induction arguments as [|a arguments IH]; intros parts; simpl;
    [reflexivity|].
  now rewrite IH, split_on_argument_str.
Qed.

(** *** No two adjacent literals *)

Lemma ends_lit_snoc l p : ends_lit (l ++ [p]) = starts_lit [p].
Proof. unfold ends_lit. rewrite rev_app_distr. destruct p; reflexivity. Qed.

Lemma nal_cons p l :
  no_adjacent_literals (p :: l)
  <-> (starts_lit [p] && starts_lit l = false) /\ no_adjacent_literals l.
Proof.
  destruct p as [s|a], l as [|[t|b] l]; simpl; intuition discriminate.
Qed.

Lemma nal_app l1 : forall l2,
  no_adjacent_literals l1 -> no_adjacent_literals l2 ->
  ends_lit l1 && starts_lit l2 = false ->
  no_adjacent_literals (l1 ++ l2).
Proof.
  induction l1 as [|p l1 IH]; intros l2 H1 H2 E; [exact H2|].
  simpl app. apply nal_cons. apply nal_cons in H1. destruct H1 as [Hp H1].
  destruct l1 as [|q l1].
  - simpl app. split; [|exact H2]. unfold ends_lit in E. simpl in E.
    destruct p; simpl in *; [assumption | reflexivity].
  - split; [exact Hp|]. apply IH; try assumption.
    unfold ends_lit in *. simpl rev in *.
    destruct (rev l1 ++ [q]) eqn:R; [destruct (rev l1); discriminate|].
    simpl in *. exact E.
Qed.

Lemma nal_snoc_arg l a :
  no_adjacent_literals l -> no_adjacent_literals (l ++ [ArgPart a]).
Proof.
  intros H. apply nal_app; [assumption | exact I |].
  simpl. apply andb_false_r.
Qed.

Lemma nal_snoc_lit l s :
  no_adjacent_literals l -> ends_lit l = false ->
  no_adjacent_literals (l ++ [Lit s]).
Proof. intros H E. apply nal_app; [assumption | exact I | now rewrite E]. Qed.

Lemma split_loop_nal argument : forall fuel sep after new_parts,
  no_adjacent_literals new_parts -> ends_lit new_parts = true ->
  no_adjacent_literals (split_loop fuel argument sep after new_parts)
  /\ ends_lit (split_loop fuel argument sep after new_parts) = true.
Proof.
  induction fuel as [|fuel IH]; intros sep after new_parts H E; simpl;
    [auto|].
  destruct (str_nonempty sep); [|auto].
  destruct (str_partition (arg_value argument) after) as [[b s] a].
  apply IH.
  - apply nal_snoc_lit; [now apply nal_snoc_arg | apply ends_lit_snoc].
  - apply ends_lit_snoc.
Qed.

Lemma fold_split_part_nal argument parts : forall new_parts,
  no_adjacent_literals new_parts -> no_adjacent_literals parts ->
  ends_lit new_parts && starts_lit parts = false ->
  no_adjacent_literals (fold_left (split_part argument) parts new_parts).
Proof.
  induction parts as [|p parts IH]; intros new_parts Hn Hp E;
    [exact Hn|].
  apply nal_cons in Hp. destruct Hp as [Hp Hparts]. cbn [fold_left].
  destruct p as [s|a]; simpl split_part.
  - destruct (str_partition (arg_value argument) s) as [[b sep] after].
    simpl in E. rewrite andb_true_r in E.
    destruct (split_loop_nal argument (String.length s) sep after
                (new_parts ++ [Lit b])) as [H1 H2].
    + now apply nal_snoc_lit.
    + apply ends_lit_snoc.
    + apply IH; try assumption. simpl in Hp. rewrite Hp. apply andb_false_r.
  - apply IH; try assumption; [now apply nal_snoc_arg|].
    now rewrite ends_lit_snoc.
Qed.

Lemma nal_filter l :
  no_adjacent_literals l -> no_adjacent_literals (filter part_truthy l).
Proof.
  induction l as [|p l IH]; intros H; [exact I|].
  apply nal_cons in H. destruct H as [Hp Hl]. specialize (IH Hl). simpl.
  destruct (part_truthy p); [|exact IH].
  apply nal_cons. split; [|exact IH].
  destruct p as [s|a]; [|reflexivity]. simpl in *.
  destruct l as [|[t|b] l]; simpl in *; try discriminate; [reflexivity|].
  (* the part after the literal [s] is an argument, which the filter keeps *)
  reflexivity.
Qed.

Lemma split_on_argument_nal parts argument :
  no_adjacent_literals parts ->
  no_adjacent_literals (split_on_argument parts argument).
Proof.
  intros H. unfold split_on_argument.
  destruct (str_nonempty (arg_value argument)); [|exact H].
  apply nal_filter. apply fold_split_part_nal; [exact I | exact H | reflexivity].
Qed.

Lemma fold_split_on_argument_nal arguments : forall parts,
  no_adjacent_literals parts ->
  no_adjacent_literals (fold_left split_on_argument arguments parts).
Proof.
  induction arguments as [|a arguments IH]; intros parts H; simpl;
    [exact H|].
  apply IH. now apply split_on_argument_nal.
Qed.

(** *** Sets of arguments *)

Lemma aset_add_In x a s :
  aset_In x (aset_add a s) <-> aset_In x s \/ arg_eqb a x = true.
Proof.
  unfold aset_add, aset_In.
  destruct (existsb (fun b => arg_eqb b a) s) eqn:E.
  - split; [auto|]. intros [H|H]; [exact H|].
    apply existsb_exists in E. destruct E as (b & Hin & Eb).
    exists b. split; [assumption|]. now apply arg_eqb_trans with a.
  - split.
    + intros (b & Hin & Eb). apply in_app_or in Hin.
      destruct Hin as [Hin|[<-|[]]]; [left; eauto | right; assumption].
    + intros [(b & Hin & Eb)|H].
      * exists b. split; [apply in_or_app; now left | assumption].
      * exists a. split; [apply in_or_app; right; now left | assumption].
Qed.

Lemma aset_add_NoDup a s : aset_NoDup s -> aset_NoDup (aset_add a s).
Proof.
  intros N. unfold aset_add.
  destruct (existsb (fun b => arg_eqb b a) s) eqn:E; [assumption|].
  apply ForallOrdPairs_snoc; [assumption|].
  apply Forall_forall. intros b Hin.
  destruct (arg_eqb b a) eqn:F; [|reflexivity].
  assert (existsb (fun b => arg_eqb b a) s = true) as X
      by (apply existsb_exists; eauto).
  congruence.
Qed.

Lemma fold_aset_add_spec l : forall s,
  aset_NoDup s ->
  aset_NoDup (fold_left (fun s a => aset_add a s) l s)
  /\ forall x, aset_In x (fold_left (fun s a => aset_add a s) l s)
               <-> aset_In x s \/ aset_In x l.
Proof.
  induction l as [|a l IH]; intros s N; simpl.
  - split; [assumption|]. intros x. split; [auto|].
    intros [H|(b & [] & _)]. exact H.
  - destruct (IH (aset_add a s) (aset_add_NoDup a s N)) as [N' H'].
    split; [exact N'|]. intros x. rewrite H', aset_add_In.
    unfold aset_In at 2 4. simpl. split.
    + intros [[H|H]|(b & Hin & E)]; [now left | |].
      * right. exists a. auto.
      * right. exists b. auto.
    + intros [H|(b & [<-|Hin] & E)]; [now left; left | now left; right |].
      right. exists b. auto.
Qed.

Lemma aset_of_list_spec l :
  aset_NoDup (aset_of_list l)
  /\ forall x, aset_In x (aset_of_list l) <-> aset_In x l.
Proof.
  destruct (fold_aset_add_spec l []) as [N H]; [constructor|].
  split; [exact N|]. intros x. unfold aset_of_list. rewrite H.
  split; [|auto]. intros [(b & [] & _)|H']. exact H'.
Qed.

Lemma part_arguments_In a parts :
  In a (part_arguments parts) <-> In (ArgPart a) parts.
Proof.
  unfold part_arguments. rewrite in_flat_map. split.
  - intros ([s|b] & Hin & H); simpl in H; [destruct H|].
    destruct H as [<-|[]]. exact Hin.
  - intros H. exists (ArgPart a). split; [assumption | now left].
Qed.

Lemma new_SyntheticValue_str original_value arguments :
  parts_str (sv_parts (new_SyntheticValue original_value arguments))
  = py_str original_value.
Proof.
  unfold new_SyntheticValue. cbn [sv_parts].
  rewrite fold_split_on_argument_str.
  destruct (py_str original_value) eqn:E; reflexivity.
Qed.

Lemma new_SyntheticValue_NoDup original_value arguments :
  aset_NoDup (sv_arguments (new_SyntheticValue original_value arguments)).
Proof.
  unfold new_SyntheticValue. cbn [sv_arguments]. apply aset_of_list_spec.
Qed.

Lemma new_SyntheticValue_arguments original_value arguments a :
  let v := new_SyntheticValue original_value arguments in
  aset_In a (sv_arguments v)
  <-> exists b, In (ArgPart b) (sv_parts v) /\ arg_eqb b a = true.
Proof.
  unfold new_SyntheticValue. cbn [sv_arguments sv_parts].
  rewrite (proj2 (aset_of_list_spec _)). unfold aset_In.
  split; intros (b & Hin & E); exists b; split; try assumption;
    now apply part_arguments_In.
Qed.

(** C4.  For every value built by the constructor, the string forms of the
    parts concatenate to the string form of [original_value], no two
    adjacent parts are both literals, and [arguments] is exactly the set of
    the arguments that occur in [parts] (so a pool argument that occurs in
    no part is not kept). *)
Theorem synthetic_value_constructor_invariants :
  forall original_value arguments,
    let v := new_SyntheticValue original_value arguments in
    parts_str (sv_parts v) = py_str (sv_original_value v)
    /\ no_adjacent_literals (sv_parts v)
    /\ aset_NoDup (sv_arguments v)
    /\ (forall a, aset_In a (sv_arguments v)
                  <-> exists b, In (ArgPart b) (sv_parts v)
                                /\ arg_eqb b a = true)
    /\ (forall a, aset_In a arguments ->
                  (forall b, In (ArgPart b) (sv_parts v) ->
                             arg_eqb b a = false) ->
                  ~ aset_In a (sv_arguments v)).
Proof.
  intros original_value arguments v.
  split; [|split; [|split; [|split]]].
  - apply new_SyntheticValue_str.
  - unfold v, new_SyntheticValue. cbn [sv_parts].
    apply fold_split_on_argument_nal.
    destruct (str_nonempty (py_str original_value)); exact I.
  - apply new_SyntheticValue_NoDup.
  - intros a. apply new_SyntheticValue_arguments.
  - intros a _ Hnot Hin.
    apply new_SyntheticValue_arguments in Hin.
    destruct Hin as (b & Hb & E).
    rewrite (Hnot b Hb) in E. discriminate.
Qed.

(** ** [SyntheticValue.from_mapping] *)

Lemma str_join_parts ps j :
  str_join (map part_original_value ps) = Ok j -> j = parts_str ps.
Proof.
  revert j. induction ps as [|p ps IH]; intros j; simpl.
  - intros [= <-]. reflexivity.
  - rewrite parts_str_cons.
    destruct (part_original_value p) as [s| | |] eqn:E; try discriminate.
    destruct (str_join (map part_original_value ps)) as [t|e];
      simpl; [|discriminate].
    intros [= <-]. rewrite (IH t eq_refl). f_equal.
    destruct p as [u|a]; simpl in *; [congruence|].
    unfold arg_value. now rewrite E.
Qed.

Lemma str_join_str_parts ps :
  (forall a, In (ArgPart a) ps -> is_str a) ->
  str_join (map part_original_value ps) = Ok (parts_str ps).
Proof.
  induction ps as [|p ps IH]; intros H; [reflexivity|].
  simpl. rewrite parts_str_cons.
  rewrite IH by (intros a Ha; apply H; now right). simpl.
  destruct p as [u|a]; simpl; [reflexivity|].
  destruct (H a (or_introl eq_refl)) as [s E].
  unfold arg_value. now rewrite E.
Qed.

Lemma aset_of_parts_In parts a :
  aset_In a (aset_of_list (part_arguments parts))
  <-> exists b, In (ArgPart b) parts /\ arg_eqb b a = true.
Proof.
  rewrite (proj2 (aset_of_list_spec _)). unfold aset_In.
  split; intros (b & Hin & E); exists b; split; try assumption;
    now apply part_arguments_In.
Qed.

Lemma sv_built_inv v : sv_built v -> sv_inv v.
Proof.
  induction 1 as [ov args|v m v' _ IH H].
  - split;
      [ apply new_SyntheticValue_NoDup
      | intros a; apply new_SyntheticValue_arguments |].
    rewrite new_SyntheticValue_str.
    cbn [new_SyntheticValue sv_original_type sv_original_value].
    intros T. destruct ov; simpl in *; congruence.
  - unfold sv_from_mapping in H.
    destruct (str_join _) as [j|e] eqn:J; simpl in H; [|discriminate].
    destruct (py_construct (sv_original_type v) j) as [ov|e] eqn:C;
      simpl in H; [|discriminate].
    injection H as <-. split; cbn [sv_arguments sv_parts sv_original_type
                                   sv_original_value].
    + apply aset_of_list_spec.
    + apply aset_of_parts_In.
    + intros T. rewrite T in C. simpl in C. injection C as <-.
      now rewrite (str_join_parts _ _ J).
Qed.

(** *** [invert] *)

Lemma conflictb_swap p q :
  conflictb (snd p, fst p) (snd q, fst q) = conflictb p q.
Proof. unfold conflictb. simpl. apply orb_comm. Qed.

Lemma invert_spec m :
  valid_mapping m ->
  exists m', invert m = Ok m' /\ valid_mapping m'
             /\ forall x y, maps_to m' y x <-> maps_to m x y.
Proof.
  intros V. unfold invert.
  destruct (new_mapping_result
              (map (fun ab => (snd ab, fst ab)) (source_arguments m)))
    as [(_ & m' & E & V' & H)|(N & _)].
  - exists m'. split; [assumption|]. split; [assumption|].
    intros x y. rewrite H, (valid_maps_to_pairs m x y V). unfold in_pairs.
    split.
    + intros (p & Hin & E1 & E2). apply in_map_iff in Hin.
      destruct Hin as (q & <- & Hq). exists q. simpl in *. auto.
    + intros (q & Hq & E1 & E2). exists (snd q, fst q). simpl.
      split; [|auto]. apply in_map_iff. exists q. auto.
  - exfalso. apply N. intros p q Hp Hq.
    apply in_map_iff in Hp. destruct Hp as (p0 & <- & Hp).
    apply in_map_iff in Hq. destruct Hq as (q0 & <- & Hq).
    rewrite conflictb_swap. now apply valid_pairs_consistent with m.
Qed.

(** *** Equality of sets of arguments *)

Lemma aset_NoDup_keys s : aset_NoDup s -> NoDup (map akey s).
Proof.
  induction 1 as [|a l Ha _ IH]; simpl; constructor; [|exact IH].
  intros Hin. apply in_map_iff in Hin. destruct Hin as (b & E & Hb).
  pose proof (proj1 (Forall_forall _ _) Ha b Hb) as F. simpl in F.
  argkeys. congruence.
Qed.

Lemma aset_In_keys x s : aset_In x s <-> In (akey x) (map akey s).
Proof.
  unfold aset_In. rewrite in_map_iff. split.
  - intros (b & H1 & H2). exists b. argkeys. auto.
  - intros (b & H1 & H2). exists b. split; [assumption|]. argkeys.
    assumption.
Qed.

Lemma aset_eqb_intro s1 s2 :
  aset_NoDup s1 -> aset_NoDup s2 ->
  (forall x, aset_In x s1 <-> aset_In x s2) ->
  aset_eqb s1 s2 = true.
Proof.
  intros N1 N2 H. unfold aset_eqb. apply andb_true_iff. split.
  - apply Nat.eqb_eq. rewrite <- (length_map akey s1), <- (length_map akey s2).
    apply Permutation_length. apply NoDup_Permutation;
      try now apply aset_NoDup_keys.
    intros k. split; intros Hk; apply in_map_iff in Hk;
      destruct Hk as (a & <- & Ha).
    + apply aset_In_keys. apply H. exists a. split; [assumption|].
      apply arg_eqb_refl.
    + apply aset_In_keys. apply H. exists a. split; [assumption|].
      apply arg_eqb_refl.
  - apply forallb_forall. intros a Ha.
    destruct (proj1 (H a)) as (b & Hb & E).
    + exists a. split; [assumption | apply arg_eqb_refl].
    + apply existsb_exists. exists b. split; [assumption|].
      now rewrite arg_eqb_sym.
Qed.

Lemma parts_eqb_args l1 : forall l2 x,
  parts_eqb l1 l2 = true ->
  ((exists b, In (ArgPart b) l1 /\ arg_eqb b x = true)
   <-> (exists b, In (ArgPart b) l2 /\ arg_eqb b x = true)).
Proof.
  induction l1 as [|p l1 IH]; intros [|q l2] x; simpl; try discriminate.
  - tauto.
  - intros H. apply andb_true_iff in H. destruct H as [Hp Hl].
    specialize (IH l2 x Hl). split.
    + intros (b & [->|Hin] & E).
      * destruct q as [t|c]; simpl in Hp; [discriminate|].
        exists c. split; [now left|].
        rewrite arg_eqb_sym in Hp. now apply arg_eqb_trans with b.
      * destruct (proj1 IH) as (c & Hc & Ec); [eauto|]. exists c. auto.
    + intros (b & [->|Hin] & E).
      * destruct p as [t|c]; simpl in Hp; [discriminate|].
        exists c. split; [now left|]. now apply arg_eqb_trans with b.
      * destruct (proj2 IH) as (c & Hc & Ec); [eauto|]. exists c. auto.
Qed.

Lemma parts_eqb_str l1 : forall l2,
  parts_eqb l1 l2 = true -> parts_str l1 = parts_str l2.
Proof.
  induction l1 as [|p l1 IH]; intros [|q l2]; simpl; try discriminate;
    [reflexivity|].
  intros H. apply andb_true_iff in H. destruct H as [Hp Hl].
  rewrite !parts_str_cons, (IH l2 Hl). f_equal.
  destruct p, q; simpl in *; try discriminate.
  - now apply String.eqb_eq.
  - argkeys. unfold arg_value, akey in *. congruence.
Qed.

Lemma is_str_akey a b : akey a = akey b -> is_str a -> is_str b.
Proof. unfold is_str, akey. intros E [s H]. exists s. congruence. Qed.

Lemma map_part_round_trip m m' parts :
  (forall x y, maps_to m' y x <-> maps_to m x y) ->
  (forall a, In (ArgPart a) parts ->
             exists b, dict_get (source_arguments m) a = Some b) ->
  parts_eqb (map (map_part m') (map (map_part m) parts)) parts = true.
Proof.
  intros Hinv. induction parts as [|p parts IH]; intros Hc; [reflexivity|].
  simpl. apply andb_true_iff. split.
  - destruct p as [s|a]; simpl; [apply String.eqb_refl|].
    destruct (Hc a (or_introl eq_refl)) as (b & Gb). rewrite Gb. simpl.
    destruct (proj2 (Hinv a b)) as (a' & Ga' & E); [exists b; auto|].
    rewrite Ga'. simpl. now apply arg_eqb_akey.
  - apply IH. intros a Ha. apply Hc. now right.
Qed.

(** C6 (as stated) fails for a value that is not a string:
    [from_mapping] calls the original type on the joined text, and the
    text need not be of that type.  Here the integer [1234] is built over
    the argument ["2"], which is mapped to ["x"]: [int("1x34")] raises
    [ValueError]. *)
Lemma sv_round_trip_counterexample :
  let a2 := str_arg "2" in
  let ax := str_arg "x" in
  let v := new_SyntheticValue (PInt 1234) [a2] in
  let m := mkMapping [(a2, ax)] [(ax, a2)] in
  sv_built v /\ new_mapping [(a2, ax)] = Ok m /\ covers m v
  /\ sv_parts v = [Lit "1"; ArgPart a2; Lit "34"]
  /\ sv_from_mapping v m = Raise ValueError
  /\ sv_round_trip v m = Raise ValueError
  /\ ~ (forall v m, sv_built v -> constructed m -> covers m v ->
          exists v', sv_round_trip v m = Ok v' /\ sv_eqb v' v = true).
Proof.
  intros a2 ax v m.
  assert (B : sv_built v) by apply sv_built_new.
  assert (C : covers m v).
  { intros a (b & Hin & E).
    assert (sv_arguments v = [a2]) as Ev by reflexivity.
    rewrite Ev in Hin. destruct Hin as [<-|[]].
    unfold dict_mem, m. cbn [source_arguments dict_get]. now rewrite E. }
  assert (R : sv_round_trip v m = Raise ValueError) by reflexivity.
  repeat split; try reflexivity; try assumption.
  intros H. destruct (H v m B) as (v' & E & _); [|exact C|].
  - now apply (constructed_new [(a2, ax)]).
  - rewrite R in E. discriminate.
Qed.

(** [from_mapping] joins the original values of the parts: with an
    argument whose original value is not a string the join raises
    [TypeError].  Here the value ["01234"] is built over the argument [2]
    (an integer) and mapped by the identity on that argument. *)
Lemma sv_from_mapping_joins_original_values :
  let a2 := Arg (PInt 2) in
  let v := new_SyntheticValue (PStr "01234") [a2] in
  let m := mkMapping [(a2, a2)] [(a2, a2)] in
  new_mapping [(a2, a2)] = Ok m
  /\ sv_parts v = [Lit "01"; ArgPart a2; Lit "34"]
  /\ sv_from_mapping v m = Raise TypeError.
Proof. repeat split; reflexivity. Qed.

(** C6 (amended).  For every synthetic value [v] whose original value is
    a string and every mapping [m] that sends each argument of [v] to some
    argument, where the arguments of [v] and their images all carry string
    original values, [v.from_mapping(m).from_mapping(m.invert())] returns
    a value equal to [v]. *)
Theorem sv_round_trip_strings :
  forall v m,
    sv_built v -> constructed m ->
    sv_original_type v = TStr ->
    (forall a, aset_In a (sv_arguments v) ->
       is_str a
       /\ exists b, dict_get (source_arguments m) a = Some b /\ is_str b) ->
    covers m v
    /\ exists v', sv_round_trip v m = Ok v' /\ sv_eqb v' v = true.
Proof.
  intros v m B C T H.
  pose proof (sv_built_inv v B) as [Hnd Hargs Hval].
  pose proof (constructed_valid m C) as V.
  assert (Hp : forall a, In (ArgPart a) (sv_parts v) ->
             is_str a
             /\ exists b, dict_get (source_arguments m) a = Some b
                          /\ is_str b).
  { intros a Ha. apply H. apply Hargs. exists a. split; [assumption|].
    apply arg_eqb_refl. }
  split.
  { intros a Ha. destruct (H a Ha) as (_ & b & G & _).
    unfold dict_mem. now rewrite G. }
  destruct (invert_spec m V) as (m' & Ei & V' & Hinv).
  unfold sv_round_trip, sv_from_mapping at 1.
  set (parts1 := map (map_part m) (sv_parts v)).
  assert (S1 : forall b, In (ArgPart b) parts1 -> is_str b).
  { intros b Hb. apply in_map_iff in Hb. destruct Hb as ([s|a] & E & Ha);
      simpl in E; [discriminate|].
    destruct (Hp a Ha) as (Sa & b' & G & Sb). rewrite G in E.
    injection E as <-. exact Sb. }
  rewrite (str_join_str_parts parts1 S1), T. cbn [bind py_construct].
  rewrite Ei. cbn [bind]. unfold sv_from_mapping. cbn [sv_parts sv_original_type].
  set (parts2 := map (map_part m') parts1).
  assert (Q : parts_eqb parts2 (sv_parts v) = true).
  { apply map_part_round_trip; [exact Hinv|].
    intros a Ha. destruct (Hp a Ha) as (_ & b & G & _). eauto. }
  assert (S2 : forall a, In (ArgPart a) parts2 -> is_str a).
  { intros a Ha.
    destruct (proj1 (parts_eqb_args parts2 (sv_parts v) a Q))
      as (c & Hc & Ec).
    - exists a. split; [assumption | apply arg_eqb_refl].
    - argkeys. apply is_str_akey with c; [assumption|]. now apply Hp. }
  rewrite (str_join_str_parts parts2 S2). cbn [bind py_construct].
  eexists. split; [reflexivity|].
  unfold sv_eqb. cbn [sv_original_value sv_original_type sv_arguments sv_parts].
  rewrite (Hval T), T, (parts_eqb_str _ _ Q), py_eqb_refl, Q. simpl.
  rewrite andb_true_r. apply aset_eqb_intro.
  - apply aset_of_list_spec.
  - exact Hnd.
  - intros x. rewrite aset_of_parts_In, Hargs.
    now apply parts_eqb_args.
Qed.

(** An instance: the value ["+fox+dog+"] and the mapping
    [fox -> vulpine, dog -> canine]. *)
Lemma sv_round_trip_strings_witness :
  sv_built fox_dog_value
  /\ constructed (fox_dog_mapping "vulpine" "canine")
  /\ sv_original_type fox_dog_value = TStr
  /\ (forall a, aset_In a (sv_arguments fox_dog_value) ->
        is_str a
        /\ exists b,
             dict_get (source_arguments (fox_dog_mapping "vulpine" "canine")) a
             = Some b
             /\ is_str b)
  /\ covers (fox_dog_mapping "vulpine" "canine") fox_dog_value
  /\ exists v',
       sv_round_trip fox_dog_value (fox_dog_mapping "vulpine" "canine")
       = Ok v'
       /\ sv_eqb v' fox_dog_value = true.
Proof.
  assert (constructed (fox_dog_mapping "vulpine" "canine")) as H1.
  { apply (constructed_new [(str_arg "fox", str_arg "vulpine");
                            (str_arg "dog", str_arg "canine")]).
    reflexivity. }
  assert (forall a, aset_In a (sv_arguments fox_dog_value) ->
            is_str a
            /\ exists b,
                 dict_get
                   (source_arguments (fox_dog_mapping "vulpine" "canine")) a
                 = Some b
                 /\ is_str b) as H2.
  { intros a (d & Hin & E). apply arg_eqb_akey in E.
    assert (sv_arguments fox_dog_value = [str_arg "fox"; str_arg "dog"])
      as Ev by reflexivity.
    rewrite Ev in Hin. destruct Hin as [<-|[<-|[]]].
    - split; [exists "fox"; symmetry; exact E|].
      exists (str_arg "vulpine").
      rewrite <- (dict_get_akey _ _ _ E).
      split; [reflexivity | exists "vulpine"; reflexivity].
    - split; [exists "dog"; symmetry; exact E|].
      exists (str_arg "canine").
      rewrite <- (dict_get_akey _ _ _ E).
      split; [reflexivity | exists "canine"; reflexivity]. }
  split; [apply sv_built_new|]. split; [exact H1|].
  split; [reflexivity|]. split; [exact H2|].
  exact (sv_round_trip_strings fox_dog_value
           (fox_dog_mapping "vulpine" "canine")
           (sv_built_new _ _) H1 eq_refl H2).
Defined.

(** ** [map_to_primitive] on the fox and dog scenario *)

(** C3.  For the synthetic value built from ["+fox+dog+"] with the
    arguments [fox] and [dog] (in either order of the pool),
    [map_to_primitive] applied to ["+vulpine+++canine+"] ends with an
    empty stack and returns a set of exactly three mappings:
    [fox -> "vulpine"] with [dog -> "++canine"], [fox -> "vulpine+"] with
    [dog -> "+canine"], and [fox -> "vulpine++"] with [dog -> "canine"]. *)
Theorem map_to_primitive_fox_dog :
  (exists ms, fox_dog_result [str_arg "fox"; str_arg "dog"] ms)
  /\ (exists ms, fox_dog_result [str_arg "dog"; str_arg "fox"] ms)
  /\ new_mapping [(str_arg "fox", str_arg "vulpine");
                  (str_arg "dog", str_arg "++canine")]
     = Ok (fox_dog_mapping "vulpine" "++canine")
  /\ new_mapping [(str_arg "fox", str_arg "vulpine+");
                  (str_arg "dog", str_arg "+canine")]
     = Ok (fox_dog_mapping "vulpine+" "+canine")
  /\ new_mapping [(str_arg "fox", str_arg "vulpine++");
                  (str_arg "dog", str_arg "canine")]
     = Ok (fox_dog_mapping "vulpine++" "canine").
Proof.
  assert (R : forall pool,
            sv_parts (new_SyntheticValue (PStr "+fox+dog+") pool)
            = [Lit "+"; ArgPart (str_arg "fox"); Lit "+";
               ArgPart (str_arg "dog"); Lit "+"] ->
            sv_arguments (new_SyntheticValue (PStr "+fox+dog+") pool) <> [] ->
            exists ms, fox_dog_result pool ms).
  { intros pool Hp Ha.
    assert (S : map_to_primitive_search
                  (new_SyntheticValue (PStr "+fox+dog+") pool)
                  (PStr "+vulpine+++canine+")
                = Ok ([], [fox_dog_mapping "vulpine++" "canine";
                           fox_dog_mapping "vulpine+" "+canine";
                           fox_dog_mapping "vulpine" "++canine"])).
    { unfold map_to_primitive_search. rewrite Hp. vm_compute. reflexivity. }
    eexists. unfold fox_dog_result. split.
    - unfold map_to_primitive. cbn [new_SyntheticValue sv_original_type
                                    sv_original_value].
      change (negb (issubclass (type_of (PStr "+vulpine+++canine+"))
                      (type_of (PStr "+fox+dog+")))) with false.
      change (py_eqb (PStr "+fox+dog+") (PStr "+vulpine+++canine+"))
        with false. cbv iota.
      fold (new_SyntheticValue (PStr "+fox+dog+") pool).
      destruct (sv_arguments (new_SyntheticValue (PStr "+fox+dog+") pool))
        eqn:E; [contradiction|].
      rewrite S. reflexivity.
    - split; [eexists; exact S|]. split; [reflexivity|]. split.
      + repeat constructor.
      + repeat split;
          [ exists (fox_dog_mapping "vulpine" "++canine")
          | exists (fox_dog_mapping "vulpine+" "+canine")
          | exists (fox_dog_mapping "vulpine++" "canine") ];
          (split; [simpl; tauto | vm_compute; reflexivity]). }
  split; [|split; [|repeat split]].
  - apply R; [vm_compute; reflexivity | vm_compute; discriminate].
  - apply R; [vm_compute; reflexivity | vm_compute; discriminate].
Qed.

(** ** [change_intersection] *)

Lemma class_eqb_eq k l : class_eqb k l = true <-> k = l.
Proof.
  unfold class_eqb. rewrite String.eqb_eq. split; [|now intros ->].
  destruct k, l; simpl; intros H; try reflexivity; discriminate.
Qed.

Lemma class_mem_In k ks : class_mem k ks = true <-> In k ks.
Proof.
  unfold class_mem. rewrite existsb_exists. split.
  - intros (l & Hin & E). apply class_eqb_eq in E. now subst.
  - intros H. exists k. split; [assumption | now apply class_eqb_eq].
Qed.

Lemma classes_of_from changes : forall ks k,
  In k (fold_left (fun ks c => if class_mem (class_of c) ks then ks
                               else ks ++ [class_of c]) changes ks)
  <-> In k ks \/ exists c, In c changes /\ class_of c = k.
Proof.
  induction changes as [|c changes IH]; intros ks k; simpl.
  - split; [auto|]. intros [H|(c & [] & _)]. exact H.
  - rewrite IH. split.
    + intros [H|(d & Hd & E)].
      * destruct (class_mem (class_of c) ks); [now left|].
        apply in_app_or in H. destruct H as [H|[<-|[]]]; [now left|].
        right. exists c. auto.
      * right. exists d. auto.
    + intros [H|(d & [<-|Hd] & E)].
      * left. destruct (class_mem (class_of c) ks);
          [assumption | apply in_or_app; now left].
      * left. destruct (class_mem (class_of c) ks) eqn:M.
        -- apply class_mem_In in M. now rewrite <- E.
        -- apply in_or_app. right. left. exact E.
      * right. exists d. auto.
Qed.

Lemma classes_of_In changes k :
  In k (classes_of changes) <-> exists c, In c changes /\ class_of c = k.
Proof.
  unfold classes_of. rewrite classes_of_from. split; [|auto].
  intros [[]|H]. exact H.
Qed.

Lemma shared_types_In source target k :
  In k (shared_types source target)
  <-> (exists c, In c source /\ class_of c = k)
      /\ (exists d, In d target /\ class_of d = k).
Proof.
  unfold shared_types. rewrite filter_In, class_mem_In, !classes_of_In.
  reflexivity.
Qed.

Lemma bin_In k changes c :
  In c (bin k changes) <-> In c changes /\ class_of c = k.
Proof. unfold bin. now rewrite filter_In, class_eqb_eq. Qed.

Lemma sum_zero l : fold_right N.add 0%N l = 0%N <-> forall n, In n l -> n = 0%N.
Proof.
  induction l as [|x l IH]; simpl.
  - split; [intros _ n [] | reflexivity].
  - split.
    + intros H n [<-|Hn]; [lia|]. apply IH; [lia | assumption].
    + intros H. rewrite (H x (or_introl eq_refl)).
      rewrite (proj2 IH); [reflexivity|]. intros n Hn. apply H. now right.
Qed.

(** The pair count is zero exactly when no class occurs on both sides. *)
Lemma num_pairs_zero source target :
  num_pairs source target = 0%N
  <-> forall c d, In c source -> In d target -> class_of c <> class_of d.
Proof.
  unfold num_pairs. rewrite sum_zero. split.
  - intros H c d Hc Hd E.
    assert (Hk : In (class_of c) (shared_types source target)).
    { apply shared_types_In. split; [exists c; auto | exists d; auto]. }
    specialize (H _ (in_map _ _ _ Hk)). simpl in H.
    assert (In c (bin (class_of c) source)) as B1 by (apply bin_In; auto).
    assert (In d (bin (class_of c) target)) as B2 by (apply bin_In; auto).
    destruct (bin (class_of c) source); [destruct B1|].
    destruct (bin (class_of c) target); [destruct B2|].
    simpl in H. lia.
  - intros H n Hn. apply in_map_iff in Hn. destruct Hn as (k & <- & Hk).
    apply shared_types_In in Hk. destruct Hk as [(c & Hc & Ec) (d & Hd & Ed)].
    exfalso. apply (H c d Hc Hd). congruence.
Qed.

Lemma change_intersection_zero_pairs :
  forall pair_times_out max_weight_clique source target with_mapping,
    num_pairs source target = 0%N ->
    change_intersection pair_times_out max_weight_clique
      source target with_mapping
    = Ok ([], [], empty_mapping).
Proof.
  intros pto mwc source target wm H.
  unfold change_intersection. rewrite H. reflexivity.
Qed.

(** C1.  When no change class occurs on both sides, in particular when
    the source set or the target set is empty, the pair count is 0 and
    [change_intersection] returns the empty triple and raises nothing,
    whatever the mode asked for and whatever the alarms and the clique
    search would do. *)
Theorem change_intersection_no_pair :
  forall pair_times_out max_weight_clique source target with_mapping,
    (forall c d, In c source -> In d target -> class_of c <> class_of d) ->
    num_pairs source target = 0%N
    /\ change_intersection pair_times_out max_weight_clique
         source target with_mapping
       = Ok ([], [], empty_mapping).
Proof.
  intros pto mwc source target wm H.
  apply num_pairs_zero in H. split; [exact H|].
  unfold change_intersection. rewrite H. reflexivity.
Qed.

(** An instance: a file added on one side and a file deleted on the
    other. *)
Lemma change_intersection_no_pair_witness :
  (forall c d, In c [FileAdd tmp_a] -> In d [FileDelete tmp_a] ->
               class_of c <> class_of d)
  /\ num_pairs [FileAdd tmp_a] [FileDelete tmp_a] = 0%N
  /\ change_intersection no_alarm no_clique
       [FileAdd tmp_a] [FileDelete tmp_a] None
     = Ok ([], [], empty_mapping).
Proof.
  assert (forall c d, In c [FileAdd tmp_a] -> In d [FileDelete tmp_a] ->
                      class_of c <> class_of d) as H.
  { intros c d [<-|[]] [<-|[]]. discriminate. }
  split; [exact H|].
  exact (change_intersection_no_pair no_alarm no_clique
           [FileAdd tmp_a] [FileDelete tmp_a] None H).
Defined.

(** The two boundary cases: an empty source set, an empty target set. *)
Lemma change_intersection_empty_side :
  forall pair_times_out max_weight_clique changes with_mapping,
    change_intersection pair_times_out max_weight_clique [] changes
      with_mapping = Ok ([], [], empty_mapping)
    /\ change_intersection pair_times_out max_weight_clique changes []
         with_mapping = Ok ([], [], empty_mapping).
Proof.
  intros pto mwc changes wm. split;
    apply change_intersection_zero_pairs, num_pairs_zero; intros c d Hc Hd;
    solve [destruct Hc | destruct Hd].
Qed.

(** *** Equality of changes is reflexive *)

Lemma aset_eqb_refl s : aset_eqb s s = true.
Proof.
  unfold aset_eqb. rewrite Nat.eqb_refl. simpl.
  apply forallb_forall. intros a Ha. apply existsb_exists.
  exists a. split; [assumption | apply arg_eqb_refl].
Qed.

Lemma parts_eqb_refl l : parts_eqb l l = true.
Proof.
  induction l as [|p l IH]; [reflexivity|]. simpl. rewrite IH.
  destruct p; simpl; [now rewrite String.eqb_refl | now rewrite arg_eqb_refl].
Qed.

Lemma sv_eqb_refl v : sv_eqb v v = true.
Proof.
  unfold sv_eqb.
  now rewrite py_eqb_refl, pytype_eqb_refl, aset_eqb_refl, parts_eqb_refl.
Qed.

Lemma fccs_eqb_refl l : fccs_eqb l l = true.
Proof.
  induction l as [|c l IH]; [reflexivity|]. simpl. rewrite IH.
  unfold fcc_eqb. rewrite sv_eqb_refl. now destruct (change_type c).
Qed.

Lemma fields_eqb_refl l : fields_eqb l l = true.
Proof.
  induction l as [|f l IH]; [reflexivity|]. simpl. rewrite IH.
  destruct f; simpl;
    [now rewrite sv_eqb_refl | now rewrite fccs_eqb_refl
     | now rewrite String.eqb_refl].
Qed.

Lemma change_eqb_refl c : change_eqb c c = true.
Proof.
  unfold change_eqb, class_eqb. now rewrite String.eqb_refl, fields_eqb_refl.
Qed.

(** C2.  With at least one pair of changes of one class, in exact mode
    (the caller passes [with_mapping=False], or passes nothing and the
    pair count exceeds 25_000_000) [change_intersection] returns the set
    intersection [source & target] as both subsets, with the empty
    mapping.  The intersection holds the changes of the smaller set, of
    [target] when the two have the same size, that are equal to some
    change of the other set; so every change it returns is equal to a
    change of [source] and to a change of [target], and a change that is
    in both sets is in the intersection. *)
Theorem change_intersection_exact_mode :
  forall pair_times_out max_weight_clique source target with_mapping,
    (exists c d, In c source /\ In d target /\ class_of c = class_of d) ->
    with_mapping = Some false
    \/ (with_mapping = None
        /\ (25000000 < num_pairs source target)%N) ->
    exists intersection,
      change_intersection pair_times_out max_weight_clique
        source target with_mapping
      = Ok (intersection, intersection, empty_mapping)
      /\ intersection = cset_inter source target
      /\ (List.length source < List.length target ->
          forall c, In c intersection
                    <-> In c source /\ cset_In c target)
      /\ (List.length target <= List.length source ->
          forall d, In d intersection
                    <-> In d target /\ cset_In d source)
      /\ (forall c, In c intersection ->
                    cset_In c source /\ cset_In c target)
      /\ (forall c, In c source -> In c target -> In c intersection).
Proof.
  intros pto mwc source target wm (c0 & d0 & Hc0 & Hd0 & E0) Hmode.
  assert (NZ : num_pairs source target <> 0%N).
  { intros Z. apply (proj1 (num_pairs_zero source target) Z c0 d0); auto. }
  assert (Hs : List.length source < List.length target ->
               forall c, In c (cset_inter source target)
                         <-> In c source /\ cset_In c target).
  { intros L c. unfold cset_inter, cset_In.
    apply Nat.ltb_lt in L. rewrite L, filter_In, existsb_exists.
    reflexivity. }
  assert (Ht : List.length target <= List.length source ->
               forall d, In d (cset_inter source target)
                         <-> In d target /\ cset_In d source).
  { intros L d. unfold cset_inter, cset_In.
    apply Nat.ltb_ge in L. rewrite L, filter_In, existsb_exists.
    reflexivity. }
  assert (Own : forall c s, In c s -> cset_In c s).
  { intros c s H. exists c. split; [exact H | apply change_eqb_refl]. }
  exists (cset_inter source target).
  split; [|split; [reflexivity|split; [exact Hs|split; [exact Ht|split]]]].
  - unfold change_intersection.
    apply N.eqb_neq in NZ. rewrite NZ.
    destruct Hmode as [->|[-> L]]; [reflexivity|].
    apply N.ltb_lt in L. rewrite L. reflexivity.
  - intros c Hc.
    destruct (Nat.lt_ge_cases (List.length source) (List.length target))
      as [L|L].
    + apply (Hs L) in Hc. destruct Hc as [H1 H2]. split; auto.
    + apply (Ht L) in Hc. destruct Hc as [H1 H2]. split; auto.
  - intros c H1 H2.
    destruct (Nat.lt_ge_cases (List.length source) (List.length target))
      as [L|L].
    + apply (Hs L). split; auto.
    + apply (Ht L). split; auto.
Qed.

(** An instance: the caller passes [with_mapping=False] and the two sets
    share the addition of one file. *)
Lemma change_intersection_exact_mode_witness :
  (exists c d, In c [FileAdd tmp_a; FileAdd tmp_b]
               /\ In d [FileAdd tmp_a; FileDelete tmp_b]
               /\ class_of c = class_of d)
  /\ exists intersection,
       change_intersection no_alarm no_clique
         [FileAdd tmp_a; FileAdd tmp_b] [FileAdd tmp_a; FileDelete tmp_b]
         (Some false)
       = Ok (intersection, intersection, empty_mapping)
       /\ intersection = [FileAdd tmp_a]
       /\ (forall c, In c intersection ->
                     cset_In c [FileAdd tmp_a; FileAdd tmp_b]
                     /\ cset_In c [FileAdd tmp_a; FileDelete tmp_b])
       /\ (forall c, In c [FileAdd tmp_a; FileAdd tmp_b] ->
                     In c [FileAdd tmp_a; FileDelete tmp_b] ->
                     In c intersection).
Proof.
  assert (exists c d, In c [FileAdd tmp_a; FileAdd tmp_b]
                      /\ In d [FileAdd tmp_a; FileDelete tmp_b]
                      /\ class_of c = class_of d) as H.
  { exists (FileAdd tmp_a), (FileAdd tmp_a). simpl. auto. }
  split; [exact H|].
  destruct (change_intersection_exact_mode no_alarm no_clique
              [FileAdd tmp_a; FileAdd tmp_b] [FileAdd tmp_a; FileDelete tmp_b]
              (Some false) H (or_introl eq_refl))
    as (i & E & Ei & _ & _ & Hin & Hboth).
  exists i. split; [exact E|]. split; [|split; [exact Hin | exact Hboth]].
  rewrite Ei. vm_compute. reflexivity.
Defined.

(** ** [ConfigurationTask.from_mapping] *)

Lemma mapM_ok {A B : Type} (f : A -> result B) l :
  (forall x, In x l -> exists y, f x = Ok y) -> exists ys, mapM f l = Ok ys.
Proof.
  induction l as [|x l IH]; intros H; simpl; [eauto|].
  destruct (H x (or_introl eq_refl)) as (y & ->).
  destruct IH as (ys & ->); [intros z Hz; apply H; now right|].
  simpl. eauto.
Qed.

Lemma map_word_ok m value :
  valid_mapping m -> exists r, map_word m value = Ok r.
Proof.
  intros V. unfold map_word.
  destruct (dict_get (source_arguments m) (Arg (PStr value))) as [b|] eqn:G.
  - destruct (vm_forward m V _ _ G) as (a' & -> & _). eauto.
  - match goal with
    | |- context [find ?f ?l] => destruct (find f l) as [[a b]|]; eauto
    end.
Qed.

(** C10.  The task returned by [from_mapping] has the system and the
    executable of the task it was made from; and on a task with a tuple
    of arguments, with a mapping that was constructed and changes that
    each accept the mapping, [from_mapping] does return a task. *)
Theorem task_from_mapping_frame :
  forall t m,
    (forall t', task_from_mapping t m = Ok t' ->
       task_system t' = task_system t
       /\ task_executable t' = task_executable t)
    /\ (constructed m ->
        (exists words, task_arguments t = ASequence words) ->
        (forall c, In c (task_changes t) ->
                   exists c', change_from_mapping c m = Ok c') ->
        exists t', task_from_mapping t m = Ok t').
Proof.
  intros t m. split.
  - intros t' H. unfold task_from_mapping in H.
    destruct (match task_arguments t with
              | ASequence _ => _ | AMapping _ => _ | AUnsupported => _
              end) as [r|e]; simpl in H; [|discriminate].
    destruct (mapM _ (task_changes t)) as [cs|e]; simpl in H;
      [|discriminate].
    injection H as <-. split; reflexivity.
  - intros C (words & E) Hc. unfold task_from_mapping. rewrite E.
    destruct (mapM_ok (map_word m) words) as (ws & ->).
    { intros w _. apply map_word_ok. now apply constructed_valid. }
    destruct (mapM_ok (fun c => change_from_mapping c m) (task_changes t) Hc)
      as (cs & ->).
    simpl. eauto.
Qed.

(** ** The knowledge base when the store cannot be reached *)

(** C9 (as stated) fails: with the store unreachable,
    [get_configuration_tasks] raises [OperationalError]; it does not
    return the empty set. *)
Lemma kb_unreachable_counterexample :
  snd (get_configuration_tasks false (Some "shell") None Unreachable)
  = Raise OperationalError
  /\ snd (get_configuration_tasks false (Some "shell") None Unreachable)
     <> Ok []
  /\ ~ (forall tables_created system level,
          snd (get_configuration_tasks tables_created system level
                 Unreachable) = Ok []).
Proof.
  split; [reflexivity|]. split; [discriminate|].
  intros H. specialize (H false (Some "shell") None). discriminate.
Qed.

(** C9 (amended).  When the backing store cannot be reached, every
    function wrapped by [_with_tables] surfaces the error: with the
    tables not yet created the wrapper logs the failure and raises
    [OperationalError] again without calling the function, and
    [get_configuration_tasks] raises [OperationalError] (or [ValueError]
    for an unknown system once the tables are marked created) and never
    returns a result.  When the store can be reached and the system is
    valid it returns the set of the stored tasks that match. *)
Theorem kb_unreachable_raises :
  (forall (A : Type) (func : Store -> result A),
     _with_tables false func Unreachable
     = (["Error while creating database tables."], Raise OperationalError))
  /\ (forall system level,
        get_configuration_tasks false system level Unreachable
        = (["Error while creating database tables."],
           Raise OperationalError))
  /\ (forall tables_created system level,
        exists e, snd (get_configuration_tasks tables_created system level
                         Unreachable) = Raise e
                  /\ (e = OperationalError \/ e = ValueError))
  /\ (forall tables_created level rows sys,
        get_configuration_tasks tables_created (Some (system_value sys))
          level (Reachable rows)
        = ([], Ok (tset_of_list
                     (map te_task
                        (filter
                           (fun r =>
                              String.eqb (te_system r) (system_value sys)
                              && match level with
                                 | Some l => Z.eqb (te_level r) l
                                 | None => true
                                 end) rows))))).
Proof.
  split; [reflexivity|]. split; [reflexivity|]. split.
  - intros [|] system level.
    + unfold get_configuration_tasks, _with_tables,
        get_configuration_tasks_body. simpl.
      destruct system as [s|]; simpl.
      * destruct (system_of_value s) as [sys|e] eqn:E; simpl.
        -- eauto.
        -- exists e. split; [reflexivity|]. right.
           unfold system_of_value in E.
           repeat match type of E with
                  | (if ?b then _ else _) = _ => destruct b
                  end; congruence.
      * eauto.
    + exists OperationalError. split; [reflexivity | now left].
  - intros [|] level rows sys; destruct sys; reflexivity.
Qed.

(** ** The order of strings and of keys *)

Lemma str_ltb_lt s t : String.ltb s t = true <-> String_as_OT.lt s t.
Proof.
  unfold String.ltb, String_as_OT.lt.
  change (String_as_OT.compare s t) with (String.compare s t).
  destruct (String.compare s t); split; congruence.
Qed.

Lemma str_ltb_irrefl s : String.ltb s s = false.
Proof.
  destruct (String.ltb s s) eqn:E; [|reflexivity].
  apply str_ltb_lt in E. exfalso.
  exact (StrictOrder_Irreflexive (R := String_as_OT.lt) s E).
Qed.

Lemma str_ltb_trans s t u :
  String.ltb s t = true -> String.ltb t u = true -> String.ltb s u = true.
Proof.
  rewrite !str_ltb_lt.
  apply (StrictOrder_Transitive (R := String_as_OT.lt)).
Qed.

Lemma str_ltb_total s t :
  String.ltb s t = false -> String.ltb t s = false -> s = t.
Proof.
  unfold String.ltb. rewrite (String.compare_antisym t s).
  destruct (String.compare s t) eqn:E; simpl; try discriminate.
  intros _ _. now apply String.compare_eq_iff.
Qed.

Lemma str_ltb_asym s t : String.ltb s t = true -> String.ltb t s = false.
Proof.
  intros H. destruct (String.ltb t s) eqn:E; [|reflexivity].
  pose proof (str_ltb_trans _ _ _ H E) as X.
  rewrite str_ltb_irrefl in X. discriminate.
Qed.

Lemma lex_ltb_irrefl k : lex_ltb k k = false.
Proof.
  induction k as [|x k IH]; [reflexivity|]. simpl.
  now rewrite String.eqb_refl.
Qed.

Lemma lex_ltb_trans k1 : forall k2 k3,
  lex_ltb k1 k2 = true -> lex_ltb k2 k3 = true -> lex_ltb k1 k3 = true.
Proof.
  induction k1 as [|x k1 IH]; intros [|y k2] [|z k3]; simpl;
    try discriminate; try reflexivity.
  destruct (String.eqb x y) eqn:Exy.
  - apply String.eqb_eq in Exy. subst y.
    destruct (String.eqb x z); [apply IH | auto].
  - destruct (String.eqb y z) eqn:Eyz.
    + apply String.eqb_eq in Eyz. subst z. rewrite Exy. auto.
    + intros Hxy Hyz. pose proof (str_ltb_trans _ _ _ Hxy Hyz) as Hxz.
      destruct (String.eqb x z) eqn:Exz; [|exact Hxz].
      apply String.eqb_eq in Exz. subst z.
      rewrite (str_ltb_asym _ _ Hxy) in Hyz. discriminate.
Qed.

Lemma lex_ltb_total k1 : forall k2,
  lex_ltb k1 k2 = false -> lex_ltb k2 k1 = false -> k1 = k2.
Proof.
  induction k1 as [|x k1 IH]; intros [|y k2]; simpl;
    try discriminate; try reflexivity.
  rewrite (String.eqb_sym y x).
  destruct (String.eqb x y) eqn:E.
  - apply String.eqb_eq in E. subst y. intros H1 H2. f_equal. now apply IH.
  - intros H1 H2. apply String.eqb_neq in E. exfalso. apply E.
    now apply str_ltb_total.
Qed.

Lemma lex_ltb_cons_same x k1 k2 : lex_ltb (x :: k1) (x :: k2) = lex_ltb k1 k2.
Proof. simpl. now rewrite String.eqb_refl. Qed.

Lemma lex_ltb_app_same k : forall k1 k2,
  lex_ltb (k ++ k1) (k ++ k2) = lex_ltb k1 k2.
Proof.
  induction k as [|x k IH]; intros k1 k2; [reflexivity|].
  simpl app. now rewrite lex_ltb_cons_same.
Qed.

(** ** Changes built over one pool from strings *)

Lemma tuple_lt_refl {A : Type} (eqb : A -> A -> bool) lt l :
  (forall x, eqb x x = true) -> tuple_lt eqb lt l l = Ok false.
Proof.
  intros H. induction l as [|x l IH]; [reflexivity|]. simpl. now rewrite H.
Qed.

Lemma part_eqb_refl p : part_eqb p p = true.
Proof. destruct p; simpl; [apply String.eqb_refl | apply arg_eqb_refl]. Qed.

Lemma sv_eqb_lifted pool s s' :
  sv_eqb (new_SyntheticValue (PStr s) pool) (new_SyntheticValue (PStr s') pool)
  = String.eqb s s'.
Proof.
  destruct (String.eqb s s') eqn:E.
  - apply String.eqb_eq in E. subst. apply sv_eqb_refl.
  - unfold sv_eqb. cbn [new_SyntheticValue sv_original_value].
    cbn [py_eqb]. rewrite E. reflexivity.
Qed.

Lemma sv_lt_lifted pool s s' :
  sv_lt (new_SyntheticValue (PStr s) pool) (new_SyntheticValue (PStr s') pool)
  = Ok (String.ltb s s').
Proof.
  destruct (String.eqb s s') eqn:E.
  - apply String.eqb_eq in E. subst. unfold sv_lt.
    rewrite py_eqb_refl, pytype_eqb_refl, aset_eqb_refl. cbn [negb].
    rewrite tuple_lt_refl by apply part_eqb_refl.
    now rewrite str_ltb_irrefl.
  - unfold sv_lt. cbn [new_SyntheticValue sv_original_value].
    cbn [py_eqb]. rewrite E. reflexivity.
Qed.

Lemma fcct_value_inj a b : fcct_value a = fcct_value b -> a = b.
Proof. destruct a, b; simpl; intros H; try reflexivity; discriminate. Qed.

Lemma fcct_eqb_value a b :
  fcct_eqb a b = String.eqb (fcct_value a) (fcct_value b).
Proof. destruct a, b; reflexivity. Qed.

Lemma fcc_eqb_lifted pool c d :
  fcc_lifted pool c -> fcc_lifted pool d ->
  (fcc_eqb c d = true <-> c = d) /\ (c = d <-> fcc_key c = fcc_key d).
Proof.
  intros [s Hc] [s' Hd]. destruct c as [ct v], d as [ct' w]. simpl in *.
  subst v w. unfold fcc_eqb, fcc_key. simpl.
  rewrite sv_eqb_lifted, fcct_eqb_value, andb_true_iff, !String.eqb_eq.
  split; split.
  - intros [H1 ->]. apply fcct_value_inj in H1. now subst.
  - intros [= -> ->]. auto.
  - intros [= -> ->]. reflexivity.
  - intros [= H1 ->]. apply fcct_value_inj in H1. now subst.
Qed.

Lemma fcc_lt_lifted pool c d :
  fcc_lifted pool c -> fcc_lifted pool d ->
  fcc_lt c d = Ok (lex_ltb (fcc_key c) (fcc_key d)).
Proof.
  intros [s Hc] [s' Hd]. destruct c as [ct v], d as [ct' w]. simpl in *.
  subst v w. unfold fcc_lt, fcc_key. simpl.
  rewrite sv_eqb_lifted, sv_lt_lifted, fcct_eqb_value.
  destruct (String.eqb (fcct_value ct) (fcct_value ct')); simpl;
    [|reflexivity].
  destruct (String.eqb s s'); reflexivity.
Qed.

Lemma lex_ltb_fcc_key c d r1 r2 :
  fcc_key c <> fcc_key d ->
  lex_ltb (fcc_key c ++ r1) (fcc_key d ++ r2)
  = lex_ltb (fcc_key c) (fcc_key d).
Proof.
  unfold fcc_key. simpl. intros N.
  destruct (String.eqb (fcct_value (change_type c))
                       (fcct_value (change_type d))) eqn:E1; [|reflexivity].
  destruct (String.eqb (py_str (sv_original_value (content c)))
                       (py_str (sv_original_value (content d)))) eqn:E2;
    [|reflexivity].
  apply String.eqb_eq in E1, E2. exfalso. apply N. congruence.
Qed.

Lemma fccs_lt_lifted pool l1 : forall l2,
  Forall (fcc_lifted pool) l1 -> Forall (fcc_lifted pool) l2 ->
  tuple_lt fcc_eqb fcc_lt l1 l2
  = Ok (lex_ltb (flat_map fcc_key l1) (flat_map fcc_key l2)).
Proof.
  induction l1 as [|c l1 IH]; intros [|d l2] H1 H2; try reflexivity.
  inversion H1 as [|? ? Hc H1']; inversion H2 as [|? ? Hd H2']; subst.
  cbn [tuple_lt flat_map].
  destruct (fcc_eqb_lifted pool c d Hc Hd) as [Heq Hkey].
  destruct (fcc_eqb c d) eqn:E.
  - assert (c = d) as -> by now apply Heq.
    rewrite lex_ltb_app_same. now apply IH.
  - rewrite (fcc_lt_lifted pool c d Hc Hd).
    rewrite lex_ltb_fcc_key; [reflexivity|].
    intros K. apply Hkey in K. apply Heq in K. congruence.
Qed.

Lemma fccs_eqb_lifted pool l1 : forall l2,
  Forall (fcc_lifted pool) l1 -> Forall (fcc_lifted pool) l2 ->
  (fccs_eqb l1 l2 = true <-> l1 = l2).
Proof.
  induction l1 as [|c l1 IH]; intros [|d l2] H1 H2; simpl;
    try (split; [discriminate | intros [=]]); [tauto|].
  inversion H1 as [|? ? Hc H1']; inversion H2 as [|? ? Hd H2']; subst.
  rewrite andb_true_iff, (IH l2 H1' H2').
  rewrite (proj1 (fcc_eqb_lifted pool c d Hc Hd)).
  split; [intros [-> ->]; reflexivity | intros [= -> ->]; auto].
Qed.

Lemma fcc_keys_inj pool l1 : forall l2,
  Forall (fcc_lifted pool) l1 -> Forall (fcc_lifted pool) l2 ->
  flat_map fcc_key l1 = flat_map fcc_key l2 -> l1 = l2.
Proof.
  induction l1 as [|c l1 IH]; intros [|d l2] H1 H2; simpl;
    try discriminate; [reflexivity|].
  inversion H1 as [|? ? Hc H1']; inversion H2 as [|? ? Hd H2']; subst.
  intros [= E1 E2 E3]. f_equal; [|now apply IH].
  apply (proj2 (fcc_eqb_lifted pool c d Hc Hd)). unfold fcc_key. congruence.
Qed.

(** On the tuples of fields of two changes of one class, equality is
    equality of keys and the order is the order of keys. *)
Lemma fields_dom_spec pool fs gs :
  fields_dom pool fs gs ->
  (fields_eqb fs gs = true <-> fs = gs)
  /\ (flat_map field_key fs = flat_map field_key gs -> fs = gs)
  /\ tuple_lt field_eqb field_lt fs gs
     = Ok (lex_ltb (flat_map field_key fs) (flat_map field_key gs)).
Proof.
  induction 1 as [|s s' fs gs _ (IHe & IHk & IHl)|l1 l2 H1 H2].
  - repeat split; reflexivity.
  - cbn [fields_eqb field_eqb tuple_lt flat_map field_key field_lt
         new_SyntheticValue sv_original_value py_str app].
    fold (new_SyntheticValue (PStr s) pool).
    fold (new_SyntheticValue (PStr s') pool).
    rewrite sv_eqb_lifted, sv_lt_lifted. split; [|split].
    + rewrite andb_true_iff, IHe, String.eqb_eq.
      split; [intros [-> ->]; reflexivity|].
      intros E. injection E as E1 E2.
      assert (sv_original_value (new_SyntheticValue (PStr s) pool)
              = sv_original_value (new_SyntheticValue (PStr s') pool)) as X
          by (now rewrite E1).
      simpl in X. injection X as ->. auto.
    + intros [= -> K]. now rewrite (IHk K).
    + cbn [lex_ltb].
      destruct (String.eqb s s') eqn:E; [exact IHl | reflexivity].
  - cbn [fields_eqb field_eqb tuple_lt flat_map field_key field_lt].
    rewrite !app_nil_r, andb_true_r. split; [|split].
    + rewrite (fccs_eqb_lifted pool l1 l2 H1 H2).
      split; [now intros -> | now intros [= ->]].
    + intros K. now rewrite (fcc_keys_inj pool l1 l2 H1 H2 K).
    + destruct (fccs_eqb l1 l2) eqn:E.
      * apply (fccs_eqb_lifted pool l1 l2 H1 H2) in E. subst.
        now rewrite lex_ltb_irrefl.
      * now apply (fccs_lt_lifted pool).
Qed.

Lemma class_name_inj k l : class_name k = class_name l -> k = l.
Proof. intros H. apply class_eqb_eq. unfold class_eqb. now rewrite H,
  String.eqb_refl. Qed.

Lemma change_fields_inj c d :
  class_of c = class_of d -> change_fields c = change_fields d -> c = d.
Proof.
  destruct c, d; simpl; intros K F; try discriminate K;
    injection F; intros; subst; reflexivity.
Qed.

Lemma lifted_sv pool v :
  string_valued v ->
  exists s, new_SyntheticValue (sv_original_value v) pool
            = new_SyntheticValue (PStr s) pool.
Proof. intros [s ->]. eauto. Qed.

Lemma lifted_fccs pool cs :
  Forall (fun c => string_valued (content c)) cs ->
  Forall (fcc_lifted pool) (map (fun c => fcc_from_arguments c pool) cs).
Proof.
  intros H. apply Forall_map. eapply Forall_impl; [|exact H].
  intros c [s E]. exists s. simpl. now rewrite E.
Qed.

Ltac string_fields :=
  repeat match goal with
         | H : Forall string_field (_ :: _) |- _ =>
             let H1 := fresh "Hf" in
             let H2 := fresh "Hr" in
             inversion H as [|? ? H1 H2]; clear H; subst; simpl in H1
         | H : Forall string_field [] |- _ => clear H
         | H : string_valued ?v |- _ =>
             let s := fresh "s" in
             let E := fresh "E" in
             destruct H as [s E]; try rewrite E in *
         end.

Lemma lifted_fields pool c d :
  lifted_change pool c -> lifted_change pool d ->
  class_of c = class_of d ->
  fields_dom pool (change_fields c) (change_fields d).
Proof.
  intros (c0 & Sc & ->) (d0 & Sd & ->) K. unfold string_change in *.
  destruct c0, d0; simpl in K; try discriminate K; simpl in Sc, Sd;
    simpl; string_fields;
    repeat first
      [ apply fields_dom_nil
      | apply fields_dom_synthetic
      | apply fields_dom_sequence; apply lifted_fccs; assumption ].
Qed.

Lemma change_eqb_lifted pool c d :
  lifted_change pool c -> lifted_change pool d ->
  (change_eqb c d = true <-> c = d)
  /\ (change_key c = change_key d -> c = d).
Proof.
  intros Lc Ld. split.
  - split; [|intros ->; apply change_eqb_refl].
    unfold change_eqb. intros H. apply andb_true_iff in H.
    destruct H as [K F]. apply class_eqb_eq in K.
    apply change_fields_inj; [exact K|].
    destruct (fields_dom_spec pool _ _ (lifted_fields pool c d Lc Ld K))
      as (He & _ & _). now apply He.
  - unfold change_key. intros [= K F]. apply class_name_inj in K.
    apply change_fields_inj; [exact K|].
    destruct (fields_dom_spec pool _ _ (lifted_fields pool c d Lc Ld K))
      as (_ & Hk & _). now apply Hk.
Qed.

Lemma change_lt_lifted pool c d :
  lifted_change pool c -> lifted_change pool d ->
  change_lt c d = Ok (key_ltb c d).
Proof.
  intros Lc Ld. unfold change_lt, key_ltb, change_key. cbn [lex_ltb].
  destruct (String.eqb (class_name (class_of c)) (class_name (class_of d)))
    eqn:E.
  - apply String.eqb_eq in E. rewrite E, str_ltb_irrefl.
    apply class_name_inj in E.
    destruct (fields_dom_spec pool _ _ (lifted_fields pool c d Lc Ld E))
      as (_ & _ & Hl). exact Hl.
  - destruct (String.ltb (class_name (class_of c)) (class_name (class_of d)))
      eqn:L; [reflexivity|].
    destruct (String.ltb (class_name (class_of d)) (class_name (class_of c)))
      eqn:L'; [reflexivity|].
    apply String.eqb_neq in E. exfalso. apply E. now apply str_ltb_total.
Qed.

(** ** Insertion sort with a total comparison *)

Section InsertionSort.

Context {A : Type} (ltb : A -> A -> bool).

Hypothesis ltb_irrefl : forall x, ltb x x = false.
Hypothesis ltb_trans :
  forall x y z, ltb x y = true -> ltb y z = true -> ltb x z = true.

Lemma pure_insert_perm x l : Permutation (pure_insert ltb x l) (x :: l).
Proof.
  induction l as [|y l IH]; simpl; [apply Permutation_refl|].
  destruct (ltb x y); [apply Permutation_refl|].
  eapply perm_trans; [apply perm_skip, IH | apply perm_swap].
Qed.

Lemma pure_fold_perm l : forall done,
  Permutation (fold_left (fun done x => pure_insert ltb x done) l done)
              (done ++ l).
Proof.
  induction l as [|x l IH]; intros done; simpl.
  - rewrite app_nil_r. apply Permutation_refl.
  - eapply perm_trans; [apply IH|].
    eapply perm_trans;
      [apply Permutation_app_tail, pure_insert_perm|].
    simpl. apply Permutation_middle.
Qed.

Lemma pure_sorted_perm l : Permutation (pure_sorted ltb l) l.
Proof. apply (pure_fold_perm l []). Qed.

Lemma pure_insert_sorted x l :
  StronglySorted (ltb_lt ltb) l ->
  Forall (fun y => ltb x y = true \/ ltb y x = true) l ->
  StronglySorted (ltb_lt ltb) (pure_insert ltb x l).
Proof.
  induction l as [|y l IH]; intros S C; simpl.
  - constructor; constructor.
  - inversion S as [|? ? S' Hy]; subst.
    inversion C as [|? ? Cy C']; subst.
    destruct (ltb x y) eqn:E.
    + constructor; [exact S|]. constructor; [exact E|].
      eapply Forall_impl; [|exact Hy]. intros z Hz.
      now apply (ltb_trans x y z).
    + destruct Cy as [Cy|Cy]; [congruence|].
      constructor; [now apply IH|].
      apply Forall_forall. intros z Hz.
      apply (Permutation_in _ (pure_insert_perm x l)) in Hz.
      destruct Hz as [<-|Hz]; [exact Cy|].
      now apply (proj1 (Forall_forall _ _) Hy).
Qed.

Lemma pure_fold_sorted l : forall done,
  StronglySorted (ltb_lt ltb) done ->
  NoDup (done ++ l) ->
  (forall x y, In x (done ++ l) -> In y (done ++ l) -> x <> y ->
               ltb x y = true \/ ltb y x = true) ->
  StronglySorted (ltb_lt ltb) (fold_left (fun done x => pure_insert ltb x done) l done).
Proof.
  induction l as [|x l IH]; intros done S N T; simpl; [exact S|].
  assert (Permutation (pure_insert ltb x done ++ l) (done ++ x :: l)) as P.
  { eapply perm_trans;
      [apply Permutation_app_tail, pure_insert_perm|].
    simpl. apply Permutation_middle. }
  apply IH.
  - apply pure_insert_sorted; [exact S|].
    apply Forall_forall. intros y Hy. apply T.
    + apply in_or_app. right. now left.
    + apply in_or_app. now left.
    + intros <-. apply NoDup_remove_2 in N. apply N.
      apply in_or_app. now left.
  - apply (Permutation_NoDup (Permutation_sym P) N).
  - intros y z Hy Hz. apply T; now apply (Permutation_in _ P).
Qed.

Lemma pure_sorted_sorted l :
  NoDup l ->
  (forall x y, In x l -> In y l -> x <> y ->
               ltb x y = true \/ ltb y x = true) ->
  StronglySorted (ltb_lt ltb) (pure_sorted ltb l).
Proof. intros N T. apply pure_fold_sorted; [constructor | exact N | exact T]. Qed.

Lemma pure_insert_last x l :
  Forall (fun y => ltb x y = false) l -> pure_insert ltb x l = l ++ [x].
Proof.
  induction 1 as [|y l E _ IH]; simpl; [reflexivity|].
  now rewrite E, IH.
Qed.

Lemma sorted_middle l1 : forall x l2,
  StronglySorted (ltb_lt ltb) (l1 ++ x :: l2) -> Forall (fun y => ltb x y = false) l1.
Proof.
  induction l1 as [|y l1 IH]; intros x l2 S; [constructor|].
  simpl in S. inversion S as [|? ? S' Hy]; subst. constructor.
  - assert (ltb_lt ltb y x) as L.
    { apply (proj1 (Forall_forall _ _) Hy), in_or_app. right. now left. }
    destruct (ltb x y) eqn:E; [|reflexivity].
    unfold ltb_lt in L. rewrite <- (ltb_irrefl x). symmetry.
    now apply (ltb_trans x y x).
  - now apply (IH x l2).
Qed.

Lemma pure_fold_id l : forall done,
  StronglySorted (ltb_lt ltb) (done ++ l) ->
  fold_left (fun done x => pure_insert ltb x done) l done = done ++ l.
Proof.
  induction l as [|x l IH]; intros done S; simpl; [now rewrite app_nil_r|].
  rewrite (pure_insert_last x done) by now apply (sorted_middle done x l).
  rewrite IH; rewrite <- app_assoc; [reflexivity | exact S].
Qed.

Lemma pure_sorted_id l : StronglySorted (ltb_lt ltb) l -> pure_sorted ltb l = l.
Proof. intros S. apply (pure_fold_id l []). exact S. Qed.

Lemma pure_insert_Forall (P : A -> Prop) x l :
  P x -> Forall P l -> Forall P (pure_insert ltb x l).
Proof.
  intros Hx Hl. apply Forall_forall. intros y Hy.
  apply (Permutation_in _ (pure_insert_perm x l)) in Hy.
  destruct Hy as [<-|Hy]; [exact Hx|].
  now apply (proj1 (Forall_forall _ _) Hl).
Qed.

End InsertionSort.

(** ** Sorting changes built over one pool from strings *)

Lemma key_ltb_irrefl c : key_ltb c c = false.
Proof. apply lex_ltb_irrefl. Qed.

Lemma key_ltb_trans c d e :
  key_ltb c d = true -> key_ltb d e = true -> key_ltb c e = true.
Proof. apply lex_ltb_trans. Qed.

Lemma key_ltb_total pool c d :
  lifted_change pool c -> lifted_change pool d -> c <> d ->
  key_ltb c d = true \/ key_ltb d c = true.
Proof.
  intros Lc Ld N. unfold key_ltb.
  destruct (lex_ltb (change_key c) (change_key d)) eqn:E1; [now left|].
  destruct (lex_ltb (change_key d) (change_key c)) eqn:E2; [now right|].
  exfalso. apply N. apply (proj2 (change_eqb_lifted pool c d Lc Ld)).
  now apply lex_ltb_total.
Qed.

Lemma sort_insert_lifted pool x l :
  lifted_change pool x -> Forall (lifted_change pool) l ->
  sort_insert change_lt x l = Ok (pure_insert key_ltb x l).
Proof.
  intros Lx. induction 1 as [|y l Ly Hl IH]; [reflexivity|].
  cbn [sort_insert pure_insert].
  rewrite (change_lt_lifted pool x y Lx Ly). cbn [bind].
  destruct (key_ltb x y); [reflexivity|]. now rewrite IH.
Qed.

Lemma sorted_from_lifted pool l : forall done,
  Forall (lifted_change pool) l -> Forall (lifted_change pool) done ->
  sorted_from change_lt done l
  = Ok (fold_left (fun done x => pure_insert key_ltb x done) l done).
Proof.
  induction l as [|x l IH]; intros done Hl Hd; [reflexivity|].
  inversion Hl as [|? ? Lx Hl']; subst. cbn [sorted_from fold_left].
  rewrite (sort_insert_lifted pool x done Lx Hd). cbn [bind].
  apply IH; [exact Hl'|]. now apply pure_insert_Forall.
Qed.

Lemma sorted_lifted pool l :
  Forall (lifted_change pool) l ->
  sorted change_lt l = Ok (pure_sorted key_ltb l).
Proof. intros H. apply (sorted_from_lifted pool l []); [exact H|constructor]. Qed.

(** ** Sets of changes built over one pool from strings *)

Lemma cset_add_NoDup c s : NoDup s -> NoDup (cset_add c s).
Proof.
  intros N. unfold cset_add.
  destruct (existsb (fun d => change_eqb d c) s) eqn:E; [exact N|].
  apply (Permutation_NoDup (Permutation_cons_append s c)).
  constructor; [|exact N]. intros Hin.
  assert (existsb (fun d => change_eqb d c) s = true) as X; [|congruence].
  apply existsb_exists. exists c. split; [exact Hin | apply change_eqb_refl].
Qed.

Lemma cset_fold_NoDup l : forall s,
  NoDup s -> NoDup (fold_left (fun s c => cset_add c s) l s).
Proof.
  induction l as [|c l IH]; intros s N; simpl; [exact N|].
  now apply IH, cset_add_NoDup.
Qed.

Lemma cset_of_list_NoDup l : NoDup (cset_of_list l).
Proof. apply cset_fold_NoDup. constructor. Qed.

Lemma cset_fold_In l : forall s c,
  In c (fold_left (fun s c => cset_add c s) l s) -> In c s \/ In c l.
Proof.
  induction l as [|x l IH]; intros s c H; simpl in *; [now left|].
  apply IH in H. destruct H as [H|H]; [|now right; right].
  unfold cset_add in H.
  destruct (existsb (fun d => change_eqb d x) s); [now left|].
  apply in_app_or in H. destruct H as [H|[<-|[]]]; [now left|right; now left].
Qed.

Lemma cset_of_list_Forall (P : ConfigurationChange -> Prop) l :
  Forall P l -> Forall P (cset_of_list l).
Proof.
  intros H. apply Forall_forall. intros c Hc.
  apply cset_fold_In in Hc. destruct Hc as [[]|Hc].
  now apply (proj1 (Forall_forall _ _) H).
Qed.

Lemma cset_fold_id pool l : forall s,
  NoDup (s ++ l) -> Forall (lifted_change pool) (s ++ l) ->
  fold_left (fun s c => cset_add c s) l s = s ++ l.
Proof.
  induction l as [|x l IH]; intros s N L; simpl; [now rewrite app_nil_r|].
  assert (cset_add x s = s ++ [x]) as ->.
  { unfold cset_add.
    destruct (existsb (fun d => change_eqb d x) s) eqn:E; [|reflexivity].
    exfalso. apply existsb_exists in E. destruct E as (d & Hd & E).
    pose proof (proj1 (Forall_forall _ _) L) as L'.
    apply (change_eqb_lifted pool d x) in E.
    - subst d. apply NoDup_remove_2 in N. apply N, in_or_app. now left.
    - apply L', in_or_app. now left.
    - apply L', in_or_app. right. now left. }
  rewrite IH; rewrite <- app_assoc; [reflexivity | exact N | exact L].
Qed.

Lemma cset_of_list_id pool l :
  NoDup l -> Forall (lifted_change pool) l -> cset_of_list l = l.
Proof. intros N L. now apply (cset_fold_id pool l []). Qed.

(** ** Building a change again over another pool *)

Lemma sv_original_value_new v pool :
  sv_original_value (new_SyntheticValue v pool) = v.
Proof. reflexivity. Qed.

Lemma fcc_relift c a b :
  fcc_from_arguments (fcc_from_arguments c a) b = fcc_from_arguments c b.
Proof. reflexivity. Qed.

Lemma change_relift c a b :
  change_from_arguments (change_from_arguments c a) b
  = change_from_arguments c b.
Proof.
  destruct c; try reflexivity.
  cbn [change_from_arguments]. rewrite sv_original_value_new, map_map.
  reflexivity.
Qed.

Lemma lifted_relift_id pool c :
  lifted_change pool c -> change_from_arguments c pool = c.
Proof. intros (c0 & _ & ->). apply change_relift. Qed.

Lemma lifted_relift pool a c :
  lifted_change pool c -> lifted_change a (change_from_arguments c a).
Proof.
  intros (c0 & S & ->). exists c0. split; [exact S | apply change_relift].
Qed.

Lemma relift_inj pool a c d :
  lifted_change pool c -> lifted_change pool d ->
  change_from_arguments c a = change_from_arguments d a -> c = d.
Proof.
  intros Lc Ld E.
  rewrite <- (lifted_relift_id pool c Lc), <- (lifted_relift_id pool d Ld).
  rewrite <- (change_relift c a pool), <- (change_relift d a pool).
  now rewrite E.
Qed.

(** ** Serialization of tasks *)

Lemma decode_parsed_list py items :
  decode_parsed py (DList items)
  = do os <- mapM (decode_parsed py) items; Ok (OList os).
Proof.
  cbn [decode_parsed]. f_equal.
  induction items as [|d items IH]; [reflexivity|].
  cbn [mapM]. now rewrite <- IH.
Qed.

Lemma decode_parsed_dict py entries : forall es,
  Forall2 (fun kv ko => fst kv = fst ko
                        /\ decode_parsed py (snd kv) = Ok (snd ko))
          entries es ->
  decode_parsed py (DDict entries) = from_dict py es.
Proof.
  intros es H. cbn [decode_parsed].
  match goal with
  | |- bind ?g _ = _ => assert (g = Ok es) as ->; [|reflexivity]
  end.
  induction H as [|[k d] [k' o] entries es [Hk Hd] _ IH]; [reflexivity|].
  simpl in Hk, Hd. subst k'. rewrite Hd. cbn [bind]. rewrite IH. reflexivity.
Qed.

Lemma decode_parsed_fields py entries es :
  Forall2 (fun kv ko => fst kv = fst ko
                        /\ decode_parsed py (snd kv) = Ok (snd ko))
          entries es ->
  obj_lookup "type" es = None ->
  decode_parsed py (DDict entries) = Ok (ODict es).
Proof.
  intros H N. rewrite (decode_parsed_dict py entries es H).
  unfold from_dict. now rewrite N.
Qed.

Lemma decode_fcc_encoded py c :
  decode_parsed py (parsed (encode_fcc c))
  = Ok (OFcc (fcc_from_arguments c [])).
Proof. destruct c as [[] v]; reflexivity. Qed.

Lemma decode_fccs_encoded py cs :
  mapM (decode_parsed py) (map parsed (map encode_fcc cs))
  = Ok (map (fun c => OFcc (fcc_from_arguments c [])) cs).
Proof.
  induction cs as [|c cs IH]; [reflexivity|].
  cbn [map mapM]. rewrite decode_fcc_encoded, IH. reflexivity.
Qed.

Lemma relift_fccs cs :
  mapM (fun o => match o with
                 | OFcc c => Ok (fcc_from_arguments c [])
                 | _ => Raise NotEmbedded
                 end)
       (map (fun c => OFcc (fcc_from_arguments c [])) cs)
  = Ok (map (fun c => fcc_from_arguments c []) cs).
Proof.
  induction cs as [|c cs IH]; [reflexivity|].
  cbn [map mapM]. rewrite IH. reflexivity.
Qed.

(** The hook on the document of a change: where the interpreter takes
    the hint of [changes] for a class every change comes back as a
    change; otherwise a [FileChange] comes back holding a list. *)
Lemma decode_change_encoded py c :
  decode_parsed py (parsed (encode_change c)) = Ok (decoded_change py c).
Proof.
  destruct c as [p|p|k v|k|p|p|p cs|n|n|p l|p]; try reflexivity.
  change (parsed (encode_change (FileChange p cs)))
    with (DDict [("type", DLeaf (PStr "FileChange"));
                 ("value",
                  DDict [("changes", DList (map parsed (map encode_fcc cs)));
                         ("path", DLeaf (sv_original_value p))])]).
  rewrite (decode_parsed_dict py _
             [("type", OLeaf (PStr "FileChange"));
              ("value",
               ODict [("changes",
                       OList (map (fun c => OFcc (fcc_from_arguments c [])) cs));
                      ("path", OLeaf (sv_original_value p))])]).
  - unfold from_dict. cbn [obj_lookup String.eqb Ascii.eqb Bool.eqb].
    change (class_of_name "FileChange") with (Some CFileChange).
    cbv beta iota. unfold decode_change.
    cbn [obj_lookup String.eqb Ascii.eqb Bool.eqb tuple_of].
    change (check_fields (change_field_names CFileChange) KeyError
              [("changes",
                OList (map (fun c => OFcc (fcc_from_arguments c [])) cs));
               ("path", OLeaf (sv_original_value p))]) with (Ok tt).
    unfold decode_sv.
    cbn [obj_lookup String.eqb Ascii.eqb Bool.eqb].
    rewrite relift_fccs. unfold decoded_change.
    destruct (alias_is_class py); reflexivity.
  - repeat constructor. cbn [snd].
    apply decode_parsed_fields; [|reflexivity].
    repeat constructor. cbn [snd].
    rewrite decode_parsed_list, decode_fccs_encoded. reflexivity.
Qed.

Lemma decoded_change_object py c :
  alias_is_class py = true \/ class_of c <> CFileChange ->
  decoded_change py c = OChange (change_from_arguments c []).
Proof.
  intros [H|H]; destruct c; try reflexivity.
  - unfold decoded_change. now rewrite H.
  - now contradiction H.
Qed.

Lemma decode_words py words :
  mapM (decode_parsed py) (map parsed (map (fun w => DLeaf (PStr w)) words))
  = Ok (map (fun w => OLeaf (PStr w)) words).
Proof.
  induction words as [|w words IH]; [reflexivity|].
  cbn [map mapM]. rewrite IH. reflexivity.
Qed.

Lemma decode_changes py cs :
  mapM (decode_parsed py) (map parsed (map encode_change cs))
  = Ok (map (decoded_change py) cs).
Proof.
  induction cs as [|c cs IH]; [reflexivity|].
  cbn [map mapM]. rewrite decode_change_encoded, IH. reflexivity.
Qed.

Lemma words_of_leaves words :
  mapM (fun o => match o with
                 | OLeaf (PStr w) => Ok w
                 | _ => Raise NotEmbedded
                 end)
       (map (fun w => OLeaf (PStr w)) words)
  = Ok words.
Proof.
  induction words as [|w words IH]; [reflexivity|].
  cbn [map mapM]. rewrite IH. reflexivity.
Qed.

(** The constructor takes the decoded changes where each came back as a
    change. *)
Lemma changes_of_objects py cs :
  alias_is_class py = true
  \/ Forall (fun c => class_of c <> CFileChange) cs ->
  mapM change_of_object (map (decoded_change py) cs)
  = Ok (map (fun c => change_from_arguments c []) cs).
Proof.
  intros H. induction cs as [|c cs IH]; [reflexivity|].
  cbn [map mapM]. rewrite decoded_change_object, IH.
  - reflexivity.
  - destruct H as [H|H]; [now left|]. right. now inversion H.
  - destruct H as [H|H]; [now left|]. right. now inversion H.
Qed.

(** It raises [TypeError] at the first [FileChange] that holds a list. *)
Lemma changes_of_objects_list py cs :
  alias_is_class py = false ->
  Exists (fun c => class_of c = CFileChange) cs ->
  mapM change_of_object (map (decoded_change py) cs) = Raise TypeError.
Proof.
  intros A. induction 1 as [c cs H|c cs _ IH]; cbn [map mapM].
  - destruct c; try discriminate H. unfold decoded_change. rewrite A.
    reflexivity.
  - rewrite IH. destruct c; try reflexivity.
    unfold decoded_change. rewrite A. reflexivity.
Qed.

Lemma decoded_changes_hashable py cs :
  alias_is_class py = true ->
  frozenset_of (OList (map (decoded_change py) cs)) = Ok tt.
Proof.
  intros A. cbn [frozenset_of].
  assert (H : forall f,
            (forall c, f (OChange c) = false) ->
            existsb f (map (decoded_change py) cs) = false).
  { intros f Hf. induction cs as [|c cs IH]; [reflexivity|].
    cbn [map existsb]. rewrite IH, decoded_change_object by now left.
    now rewrite Hf. }
  now rewrite !H.
Qed.

Lemma system_of_value_value s : system_of_value (system_value s) = Ok s.
Proof. destruct s; reflexivity. Qed.

(** The hook on the document of a task with a tuple of words: the loop
    over the keys raises nothing, and the constructor is called with the
    words and the decoded changes. *)
Lemma decode_task_document py system executable words changes :
  decode_encoded py
    (encode_dataclass "ConfigurationTask"
       [("system", DLeaf (PStr (system_value system)));
        ("executable", DLeaf (PStr executable));
        ("arguments", DList (map (fun w => DLeaf (PStr w)) words));
        ("changes", DList (map encode_change changes))])
  = do cs <- mapM change_of_object (map (decoded_change py) changes);
    do t <- new_ConfigurationTask system executable (ASequence words)
              (if alias_is_class py then cset_of_list cs else cs);
    Ok (OTask t).
Proof.
  unfold decode_encoded, encode_dataclass.
  change (parsed _)
    with (DDict
            [("type", DLeaf (PStr "ConfigurationTask"));
             ("value",
              DDict
                [("arguments",
                  DList (map parsed (map (fun w => DLeaf (PStr w)) words)));
                 ("changes", DList (map parsed (map encode_change changes)));
                 ("executable", DLeaf (PStr executable));
                 ("system", DLeaf (PStr (system_value system)))])]).
  rewrite (decode_parsed_dict py _
             [("type", OLeaf (PStr "ConfigurationTask"));
              ("value",
               ODict
                 [("arguments", OList (map (fun w => OLeaf (PStr w)) words));
                  ("changes", OList (map (decoded_change py) changes));
                  ("executable", OLeaf (PStr executable));
                  ("system", OLeaf (PStr (system_value system)))])]).
  - unfold from_dict. cbn [obj_lookup String.eqb Ascii.eqb Bool.eqb].
    change (class_of_name "ConfigurationTask") with (@None ChangeClass).
    cbv beta iota. cbn [String.eqb Ascii.eqb Bool.eqb].
    unfold decode_task.
    assert (mapM (convert_task_field py)
              [("arguments", OList (map (fun w => OLeaf (PStr w)) words));
               ("changes", OList (map (decoded_change py) changes));
               ("executable", OLeaf (PStr executable));
               ("system", OLeaf (PStr (system_value system)))]
            = Ok [tt; tt; tt; tt]) as ->.
    { cbn [mapM convert_task_field String.eqb Ascii.eqb Bool.eqb bind].
      rewrite system_of_value_value. cbn [bind].
      destruct (alias_is_class py) eqn:A; [|reflexivity].
      now rewrite decoded_changes_hashable. }
    cbn [bind].
    match goal with
    | |- context [check_fields ?n ?e ?f] =>
        change (check_fields n e f) with (Ok tt)
    end.
    cbn [bind obj_lookup String.eqb Ascii.eqb Bool.eqb].
    rewrite system_of_value_value, words_of_leaves.
    cbn [bind py_str].
    destruct (mapM change_of_object (map (decoded_change py) changes));
      reflexivity.
  - repeat constructor. cbn [snd].
    apply decode_parsed_fields; [|reflexivity].
    repeat constructor; cbn [snd].
    + rewrite decode_parsed_list, decode_words. reflexivity.
    + rewrite decode_parsed_list, decode_changes. reflexivity.
Qed.

Lemma words_eqb_refl l : words_eqb l l = true.
Proof.
  induction l as [|w l IH]; [reflexivity|]. simpl.
  now rewrite String.eqb_refl.
Qed.

Lemma cset_eqb_perm s1 s2 : Permutation s1 s2 -> cset_eqb s1 s2 = true.
Proof.
  intros P. unfold cset_eqb. rewrite (Permutation_length P), Nat.eqb_refl.
  apply forallb_forall. intros c Hc. apply existsb_exists. exists c.
  split; [now apply (Permutation_in _ P) | apply change_eqb_refl].
Qed.

Lemma constructed_changes pool changes :
  Forall string_change changes ->
  Forall (lifted_change pool)
    (cset_of_list (map (fun c => change_from_arguments c pool) changes)).
Proof.
  intros H. apply cset_of_list_Forall, Forall_map.
  eapply Forall_impl; [|exact H]. intros c Hc. now exists c.
Qed.

Lemma sorted_changes pool s :
  Forall (lifted_change pool) s -> NoDup s ->
  let s' := pure_sorted key_ltb s in
  Permutation s' s
  /\ Forall (lifted_change pool) s'
  /\ NoDup s'
  /\ pure_sorted key_ltb s' = s'.
Proof.
  intros L N s'.
  assert (Permutation s' s) as P by apply pure_sorted_perm.
  split; [exact P|]. split; [|split].
  - apply Forall_forall. intros c Hc.
    apply (proj1 (Forall_forall _ _) L). now apply (Permutation_in _ P).
  - apply (Permutation_NoDup (Permutation_sym P) N).
  - apply pure_sorted_id;
      [exact key_ltb_irrefl | exact key_ltb_trans |].
    apply pure_sorted_sorted; [exact key_ltb_trans | exact N |].
    intros x y Hx Hy. apply (key_ltb_total pool);
      now apply (proj1 (Forall_forall _ _) L).
Qed.

Lemma decoded_changes pool s :
  Forall (lifted_change pool) s -> NoDup s ->
  cset_of_list
    (map (fun c => change_from_arguments c pool)
         (cset_of_list (map (fun c => change_from_arguments c []) s)))
  = s.
Proof.
  intros L N.
  pose proof (proj1 (Forall_forall _ _) L) as L'.
  rewrite (cset_of_list_id [] (map (fun c => change_from_arguments c []) s)).
  - rewrite map_map, (map_ext_in _ (fun c => c)), map_id.
    + now apply (cset_of_list_id pool).
    + intros c Hc. rewrite change_relift. now apply lifted_relift_id, L'.
  - apply NoDup_map_NoDup_ForallPairs; [|exact N].
    intros c d Hc Hd. apply (relift_inj pool); now apply L'.
  - apply Forall_map. eapply Forall_impl; [|exact L].
    intros c. apply lifted_relift.
Qed.

Lemma decoded_changes_list pool s :
  Forall (lifted_change pool) s -> NoDup s ->
  cset_of_list
    (map (fun c => change_from_arguments c pool)
         (map (fun c => change_from_arguments c []) s))
  = s.
Proof.
  intros L N.
  pose proof (proj1 (Forall_forall _ _) L) as L'.
  rewrite map_map, (map_ext_in _ (fun c => c)), map_id.
  - now apply (cset_of_list_id pool).
  - intros c Hc. rewrite change_relift. now apply lifted_relift_id, L'.
Qed.

Lemma class_of_from_arguments c pool :
  class_of (change_from_arguments c pool) = class_of c.
Proof. now destruct c. Qed.

Lemma change_eqb_class c d : change_eqb c d = true -> class_of c = class_of d.
Proof.
  unfold change_eqb. intros H. apply andb_prop in H.
  now apply class_eqb_eq.
Qed.

Lemma cset_fold_class k l : forall s,
  Exists (fun c => class_of c = k) s \/ Exists (fun c => class_of c = k) l ->
  Exists (fun c => class_of c = k) (fold_left (fun s c => cset_add c s) l s).
Proof.
  induction l as [|x l IH]; intros s H; cbn [fold_left].
  - destruct H as [H|H]; [exact H | inversion H].
  - apply IH. unfold cset_add.
    destruct (existsb (fun d => change_eqb d x) s) eqn:E.
    + destruct H as [H|H]; [now left|].
      inversion H as [? ? Hx|? ? Hl]; subst; [left | now right].
      apply existsb_exists in E. destruct E as (d & Hd & E).
      apply Exists_exists. exists d. split; [exact Hd|].
      now apply change_eqb_class.
    + destruct H as [H|H].
      * left. apply Exists_app. now left.
      * inversion H as [? ? Hx|? ? Hl]; subst; [left | now right].
        apply Exists_app. right. now constructor.
Qed.

Lemma Exists_perm {A : Type} (P : A -> Prop) l l' :
  Permutation l l' -> Exists P l -> Exists P l'.
Proof.
  intros Hp H. apply Exists_exists in H. destruct H as (x & Hx & Px).
  apply Exists_exists. exists x. split; [|exact Px].
  now apply (Permutation_in _ Hp).
Qed.


(** Decoding also fails on a dictionary of arguments that has the keys
    [type] and [value]: the hook looks the type up in [classes] and
    raises [AttributeError]. *)
Lemma from_dict_arguments_with_type_and_value :
  exists t doc,
    route_task = Ok t
    /\ encode_task t = Ok doc
    /\ forall py, decode_encoded py doc = Raise AttributeError.
Proof.
  let r0 := eval vm_compute in route_task in
  match r0 with
  | Ok ?t =>
      let rd := eval vm_compute in (encode_task t) in
      match rd with
      | Ok ?doc => exists t, doc
      end
  end.
  split; [vm_compute; reflexivity|].
  split; [vm_compute; reflexivity|].
  intros [[|]]; vm_compute; reflexivity.
Qed.

(** The document of a task built by the constructor from a tuple of
    words and changes whose values are strings, and what the decoder
    makes of it on either kind of interpreter. *)
Lemma task_round_trip_cases py system executable words changes :
  Forall string_change changes ->
  exists t doc,
    new_ConfigurationTask system executable (ASequence words) changes = Ok t
    /\ encode_task t = Ok doc
    /\ encode t = Ok (json_dumps doc)
    /\ (alias_is_class py = true
        \/ Forall (fun c => class_of c <> CFileChange) changes ->
        exists t',
          decode_encoded py doc = Ok (OTask t')
          /\ task_eqb t' t = true
          /\ encode t' = encode t)
    /\ (alias_is_class py = false ->
        Exists (fun c => class_of c = CFileChange) changes ->
        decode_encoded py doc = Raise TypeError).
Proof.
  intros Hs. unfold new_ConfigurationTask. cbn [bind].
  set (pool := aset_of_list (map (fun w => Arg (PStr w)) words)).
  set (s := cset_of_list (map (fun c => change_from_arguments c pool) changes)).
  assert (Forall (lifted_change pool) s) as L by now apply constructed_changes.
  assert (NoDup s) as N by apply cset_of_list_NoDup.
  destruct (sorted_changes pool s L N) as (P & L' & N' & I).
  set (s' := pure_sorted key_ltb s) in *.
  exists (mkTask system executable (ASequence words) s pool).
  exists (encode_dataclass "ConfigurationTask"
            [("system", DLeaf (PStr (system_value system)));
             ("executable", DLeaf (PStr executable));
             ("arguments", DList (map (fun w => DLeaf (PStr w)) words));
             ("changes", DList (map encode_change s'))]).
  assert (forall u, task_changes u = s \/ task_changes u = s' ->
                    task_arguments u = ASequence words ->
                    encode_task u
                    = Ok (encode_dataclass "ConfigurationTask"
                            [("system",
                              DLeaf (PStr (system_value (task_system u))));
                             ("executable", DLeaf (PStr (task_executable u)));
                             ("arguments",
                              DList (map (fun w => DLeaf (PStr w)) words));
                             ("changes", DList (map encode_change s'))]))
    as E.
  { intros u Hc Ha. unfold encode_task. rewrite Ha. cbn [encode_arguments bind].
    destruct Hc as [-> | ->].
    - now rewrite (sorted_lifted pool s L).
    - now rewrite (sorted_lifted pool s' L'), I. }
  split; [reflexivity|].
  split; [now apply E; [left|]|].
  split; [unfold encode; rewrite E; [reflexivity | now left | reflexivity]|].
  split.
  - intros Hpy.
    assert (Hpy' : alias_is_class py = true
                   \/ Forall (fun c => class_of c <> CFileChange) s').
    { destruct Hpy as [A|F]; [now left | right].
      apply Forall_forall. intros c Hc.
      apply (Permutation_in _ P) in Hc. revert c Hc. apply Forall_forall.
      apply cset_of_list_Forall, Forall_map.
      eapply Forall_impl; [|exact F]. intros c Hc.
      now rewrite class_of_from_arguments. }
    exists (mkTask system executable (ASequence words) s' pool).
    split; [|split].
    + rewrite decode_task_document, (changes_of_objects py s' Hpy').
      cbn [bind]. unfold new_ConfigurationTask. cbn [bind]. fold pool.
      destruct (alias_is_class py).
      * now rewrite (decoded_changes pool s' L' N').
      * now rewrite (decoded_changes_list pool s' L' N').
    + unfold task_eqb, system_eqb.
      cbn [task_system task_executable task_arguments task_changes
           arguments_eqb].
      rewrite !String.eqb_refl, words_eqb_refl, (cset_eqb_perm s' s P).
      reflexivity.
    + unfold encode. rewrite !E; first [reflexivity | now left | now right].
  - intros A X.
    rewrite decode_task_document, (changes_of_objects_list py s' A);
      [reflexivity|].
    apply (Exists_perm _ s s' (Permutation_sym P)).
    unfold s, cset_of_list. apply cset_fold_class. right.
    apply Exists_exists in X. destruct X as (c & Hc & Kc).
    apply Exists_exists. exists (change_from_arguments c pool).
    split; [|now rewrite class_of_from_arguments].
    apply in_map_iff. exists c. split; [reflexivity | exact Hc].
Qed.



(** Where the interpreter does not take the hint for a class (from
    Python 3.11 on), a [FileChange] comes back holding a list, and the
    constructor of the task raises [TypeError] when it hashes it. *)
Lemma task_round_trip_file_change_list py system executable words changes :
  Forall string_change changes ->
  alias_is_class py = false ->
  Exists (fun c => class_of c = CFileChange) changes ->
  exists t doc,
    new_ConfigurationTask system executable (ASequence words) changes = Ok t
    /\ encode_task t = Ok doc
    /\ decode_encoded py doc = Raise TypeError.
Proof.
  intros Hs A X.
  destruct (task_round_trip_cases py system executable words changes Hs)
    as (t & doc & Et & Ed & _ & _ & Hraise).
  exists t, doc. split; [exact Et|]. split; [exact Ed|]. now apply Hraise.
Qed.

(* ================================================================== *)
(** * Further properties *)
(* ================================================================== *)

(** ** The algebra of mappings *)


Lemma same_pairs_sym ps qs : same_pairs ps qs -> same_pairs qs ps.
Proof. intros H x y. symmetry. apply H. Qed.

(** The constructor depends on the set of pairs only. *)
Lemma new_mapping_same_pairs ps qs :
  same_pairs ps qs ->
  (new_mapping ps = Raise MatchingException
   <-> new_mapping qs = Raise MatchingException)
  /\ (forall m, new_mapping ps = Ok m ->
        exists m', new_mapping qs = Ok m' /\ mapping_eqb m m' = true).
Proof.
  intros S.
  destruct (new_mapping_result ps) as [(Cp & m & Ep & Vp & Mp)|(Np & Ep)];
    destruct (new_mapping_result qs) as [(Cq & m' & Eq & Vq & Mq)|(Nq & Eq)].
  - split; [rewrite Ep, Eq; split; discriminate|].
    intros m0 E0. rewrite Ep in E0. injection E0 as <-.
    exists m'. split; [exact Eq|].
    apply mapping_eqb_spec; try assumption.
    intros x y. rewrite Mp, Mq. apply S.
  - exfalso. apply Nq. now apply (same_pairs_consistent ps).
  - exfalso. apply Np. apply (same_pairs_consistent qs); [|exact Cq].
    now apply same_pairs_sym.
  - split; [tauto|]. intros m E. rewrite Ep in E. discriminate.
Qed.

Lemma new_mapping_of_valid m :
  valid_mapping m ->
  exists m', new_mapping (source_arguments m) = Ok m'
             /\ valid_mapping m' /\ mapping_eqb m' m = true.
Proof.
  intros V.
  destruct (new_mapping_result (source_arguments m))
    as [(C & m' & E & V' & M)|(N & _)].
  - exists m'. split; [exact E|]. split; [exact V'|].
    apply mapping_eqb_spec; try assumption.
    intros x y. rewrite M. symmetry. now apply valid_maps_to_pairs.
  - exfalso. apply N. now apply valid_pairs_consistent.
Qed.

Lemma same_pairs_perm ps qs : Permutation ps qs -> same_pairs ps qs.
Proof.
  intros P x y. split; intros (p & Hp & H); exists p; split; try exact H.
  - now apply (Permutation_in _ P).
  - now apply (Permutation_in _ (Permutation_sym P)).
Qed.

(** X1.  Inverting a constructed mapping never raises and swaps every
    pair; inverting twice gives a mapping equal to the first. *)
Theorem invert_involution :
  forall m,
    constructed m ->
    exists m' m'',
      invert m = Ok m'
      /\ (forall x y, maps_to m' y x <-> maps_to m x y)
      /\ invert m' = Ok m''
      /\ mapping_eqb m'' m = true.
Proof.
  intros m C. pose proof (constructed_valid m C) as V.
  destruct (invert_spec m V) as (m' & E' & V' & M').
  destruct (invert_spec m' V') as (m'' & E'' & V'' & M'').
  exists m', m''. repeat split; try assumption; try apply M'.
  apply mapping_eqb_spec; try assumption.
  intros x y. rewrite M''. apply M'.
Qed.

Lemma invert_involution_witness :
  constructed (fox_dog_mapping "vulpine" "canine")
  /\ exists m' m'',
       invert (fox_dog_mapping "vulpine" "canine") = Ok m'
       /\ (forall x y, maps_to m' y x
                       <-> maps_to (fox_dog_mapping "vulpine" "canine") x y)
       /\ invert m' = Ok m''
       /\ mapping_eqb m'' (fox_dog_mapping "vulpine" "canine") = true.
Proof.
  assert (constructed (fox_dog_mapping "vulpine" "canine")) as H.
  { apply (constructed_new [(str_arg "fox", str_arg "vulpine");
                            (str_arg "dog", str_arg "canine")]).
    reflexivity. }
  split; [exact H|].
  exact (invert_involution (fox_dog_mapping "vulpine" "canine") H).
Defined.

(** X2.  [merge] does not depend on the order of its operands: it raises
    for one order exactly when it raises for the other, and the two
    results are equal mappings. *)
Theorem merge_commutative :
  forall m1 m2,
    (merge m1 m2 = Raise MatchingException
     <-> merge m2 m1 = Raise MatchingException)
    /\ (forall m, merge m1 m2 = Ok m ->
          exists m', merge m2 m1 = Ok m' /\ mapping_eqb m m' = true).
Proof.
  intros m1 m2. unfold merge. apply new_mapping_same_pairs.
  apply same_pairs_perm, Permutation_app_comm.
Qed.

(** X3.  Merging a constructed mapping with the empty mapping, on either
    side, or with itself never raises and returns a mapping equal to
    it. *)
Theorem merge_neutral_idempotent :
  forall m,
    constructed m ->
    (exists r, merge m empty_mapping = Ok r /\ mapping_eqb r m = true)
    /\ (exists r, merge empty_mapping m = Ok r /\ mapping_eqb r m = true)
    /\ (exists r, merge m m = Ok r /\ mapping_eqb r m = true).
Proof.
  intros m C. pose proof (constructed_valid m C) as V.
  destruct (new_mapping_of_valid m V) as (m' & E & V' & Q).
  assert (forall qs, same_pairs (source_arguments m) qs ->
            exists r, new_mapping qs = Ok r /\ mapping_eqb r m = true) as K.
  { intros qs S.
    destruct (new_mapping_same_pairs _ _ S) as [_ H].
    destruct (H m' E) as (r & Er & Qr). exists r. split; [exact Er|].
    assert (valid_mapping r) as Vr.
    { pose proof (new_mapping_spec qs) as Sp. rewrite Er in Sp. apply Sp. }
    apply (mapping_eqb_trans r m' m); try assumption.
    now apply mapping_eqb_sym. }
  unfold merge. cbn [empty_mapping source_arguments app].
  split; [|split]; apply K.
  - rewrite app_nil_r. intros x y. tauto.
  - intros x y. tauto.
  - intros x y. split.
    + intros (p & Hp & H). exists p. split; [|exact H].
      apply in_or_app. now left.
    + intros (p & Hp & H). exists p. split; [|exact H].
      apply in_app_or in Hp. tauto.
Qed.

Lemma merge_neutral_idempotent_witness :
  constructed cat_mapping
  /\ (exists r, merge cat_mapping empty_mapping = Ok r
                /\ mapping_eqb r cat_mapping = true)
  /\ (exists r, merge empty_mapping cat_mapping = Ok r
                /\ mapping_eqb r cat_mapping = true)
  /\ (exists r, merge cat_mapping cat_mapping = Ok r
                /\ mapping_eqb r cat_mapping = true).
Proof.
  assert (constructed cat_mapping) as H.
  { apply (constructed_new [(str_arg "cat", str_arg "feline")]).
    reflexivity. }
  split; [exact H|]. exact (merge_neutral_idempotent cat_mapping H).
Defined.

(** X4.  The constructor does not depend on the order of the pairs it is
    given: for two orders of the same pairs it raises for both or for
    neither, and the two mappings are equal. *)
Theorem new_mapping_order_independent :
  forall ps qs,
    Permutation ps qs ->
    (new_mapping ps = Raise MatchingException
     <-> new_mapping qs = Raise MatchingException)
    /\ (forall m, new_mapping ps = Ok m ->
          exists m', new_mapping qs = Ok m' /\ mapping_eqb m m' = true).
Proof.
  intros ps qs P. now apply new_mapping_same_pairs, same_pairs_perm.
Qed.

Lemma new_mapping_order_independent_witness :
  Permutation [(str_arg "fox", str_arg "vulpine");
               (str_arg "dog", str_arg "canine")]
              [(str_arg "dog", str_arg "canine");
               (str_arg "fox", str_arg "vulpine")]
  /\ exists m m',
       new_mapping [(str_arg "fox", str_arg "vulpine");
                    (str_arg "dog", str_arg "canine")] = Ok m
       /\ new_mapping [(str_arg "dog", str_arg "canine");
                       (str_arg "fox", str_arg "vulpine")] = Ok m'
       /\ mapping_eqb m m' = true.
Proof.
  assert (Permutation [(str_arg "fox", str_arg "vulpine");
                       (str_arg "dog", str_arg "canine")]
                      [(str_arg "dog", str_arg "canine");
                       (str_arg "fox", str_arg "vulpine")]) as P
    by apply perm_swap.
  split; [exact P|].
  destruct (new_mapping_order_independent _ _ P) as [_ H].
  destruct (H (fox_dog_mapping "vulpine" "canine") eq_refl) as (m' & E & Q).
  exists (fox_dog_mapping "vulpine" "canine"), m'.
  split; [reflexivity|]. split; [exact E | exact Q].
Defined.

Lemma new_mapping_valid ps m : new_mapping ps = Ok m -> valid_mapping m.
Proof.
  intros E. pose proof (new_mapping_spec ps) as S. rewrite E in S. apply S.
Qed.

Lemma new_mapping_raises ps e : new_mapping ps = Raise e -> e = MatchingException.
Proof.
  intros E. pose proof (new_mapping_spec ps) as S. rewrite E in S. apply S.
Qed.

Lemma same_outcome_pairs ps qs :
  same_pairs ps qs -> same_outcome (new_mapping ps) (new_mapping qs).
Proof.
  intros S. destruct (new_mapping_same_pairs ps qs S) as [R O].
  destruct (new_mapping ps) as [m|e] eqn:E.
  - right. destruct (O m eq_refl) as (m' & E' & Q).
    exists m, m'. split; [reflexivity|]. split; [exact E'|].
    split; [now apply (new_mapping_valid ps)|].
    split; [now apply (new_mapping_valid qs) | exact Q].
  - left. pose proof (new_mapping_raises _ _ E) as ->.
    split; [reflexivity | now apply R].
Qed.

Lemma same_pairs_app_l ps ps' qs :
  same_pairs ps ps' -> same_pairs (ps ++ qs) (ps' ++ qs).
Proof.
  intros S x y. split; intros (p & Hp & H); apply in_app_or in Hp;
    destruct Hp as [Hp|Hp].
  - destruct (proj1 (S x y)) as (q & Hq & K); [now exists p|].
    exists q. split; [apply in_or_app; now left | exact K].
  - exists p. split; [apply in_or_app; now right | exact H].
  - destruct (proj2 (S x y)) as (q & Hq & K); [now exists p|].
    exists q. split; [apply in_or_app; now left | exact K].
  - exists p. split; [apply in_or_app; now right | exact H].
Qed.

Lemma same_pairs_app_r ps qs qs' :
  same_pairs qs qs' -> same_pairs (ps ++ qs) (ps ++ qs').
Proof.
  intros S x y. split; intros (p & Hp & H); apply in_app_or in Hp;
    destruct Hp as [Hp|Hp].
  - exists p. split; [apply in_or_app; now left | exact H].
  - destruct (proj1 (S x y)) as (q & Hq & K); [now exists p|].
    exists q. split; [apply in_or_app; now right | exact K].
  - exists p. split; [apply in_or_app; now left | exact H].
  - destruct (proj2 (S x y)) as (q & Hq & K); [now exists p|].
    exists q. split; [apply in_or_app; now right | exact K].
Qed.

Lemma pairs_consistent_app_l ps qs :
  pairs_consistent (ps ++ qs) -> pairs_consistent ps.
Proof. intros H p q Hp Hq. apply H; apply in_or_app; now left. Qed.

Lemma pairs_consistent_app_r ps qs :
  pairs_consistent (ps ++ qs) -> pairs_consistent qs.
Proof. intros H p q Hp Hq. apply H; apply in_or_app; now right. Qed.

Lemma new_mapping_pairs ps m :
  new_mapping ps = Ok m -> same_pairs (source_arguments m) ps.
Proof.
  intros E x y. pose proof (new_mapping_valid _ _ E) as V.
  rewrite <- (valid_maps_to_pairs m x y V).
  pose proof (new_mapping_spec ps) as S. rewrite E in S. apply S.
Qed.

Lemma same_outcome_trans r1 r2 r3 :
  same_outcome r1 r2 -> same_outcome r2 r3 -> same_outcome r1 r3.
Proof.
  intros [[E1 E2]|(m1 & m2 & E1 & E2 & V1 & V2 & Q)]
         [[F2 F3]|(n2 & n3 & F2 & F3 & W2 & W3 & R)]; subst.
  - now left.
  - discriminate.
  - discriminate.
  - injection F2 as <-. right. exists m1, n3.
    split; [reflexivity|]. split; [reflexivity|].
    split; [exact V1|]. split; [exact W3|].
    now apply (mapping_eqb_trans m1 m2 n3).
Qed.

Lemma same_outcome_sym r1 r2 : same_outcome r1 r2 -> same_outcome r2 r1.
Proof.
  intros [[E1 E2]|(m1 & m2 & E1 & E2 & V1 & V2 & Q)].
  - now left.
  - right. exists m2, m1.
    split; [exact E2|]. split; [exact E1|].
    split; [exact V2|]. split; [exact V1|].
    now apply mapping_eqb_sym.
Qed.

(** Merging the result of a first merge is building from all the
    pairs. *)
Lemma merge_after_l ps qs :
  same_outcome (do m <- new_mapping ps; new_mapping (source_arguments m ++ qs))
               (new_mapping (ps ++ qs)).
Proof.
  destruct (new_mapping ps) as [m|e] eqn:E; cbn [bind].
  - apply same_outcome_pairs, same_pairs_app_l. now apply new_mapping_pairs.
  - pose proof (new_mapping_raises _ _ E) as ->. left. split; [reflexivity|].
    destruct (new_mapping_result (ps ++ qs)) as [(C & _)|(_ & R)];
      [|exact R].
    exfalso. apply pairs_consistent_app_l in C.
    apply new_mapping_ok_iff in C. destruct C as (m & Em).
    rewrite Em in E. discriminate.
Qed.

Lemma merge_after_r ps qs :
  same_outcome (do m <- new_mapping qs; new_mapping (ps ++ source_arguments m))
               (new_mapping (ps ++ qs)).
Proof.
  destruct (new_mapping qs) as [m|e] eqn:E; cbn [bind].
  - apply same_outcome_pairs, same_pairs_app_r. now apply new_mapping_pairs.
  - pose proof (new_mapping_raises _ _ E) as ->. left. split; [reflexivity|].
    destruct (new_mapping_result (ps ++ qs)) as [(C & _)|(_ & R)];
      [|exact R].
    exfalso. apply pairs_consistent_app_r in C.
    apply new_mapping_ok_iff in C. destruct C as (m & Em).
    rewrite Em in E. discriminate.
Qed.

(** X5.  [merge] is associative: merging three mappings in either
    grouping raises for both groupings or for neither, and the two
    results are equal mappings; both agree with [merge_all]. *)
Theorem merge_associative :
  forall m1 m2 m3,
    same_outcome (do m12 <- merge m1 m2; merge m12 m3)
                 (do m23 <- merge m2 m3; merge m1 m23)
    /\ same_outcome (do m12 <- merge m1 m2; merge m12 m3)
                    (merge_all [m1; m2; m3]).
Proof.
  intros m1 m2 m3. unfold merge, merge_all.
  cbn [map List.concat]. rewrite app_nil_r.
  assert (same_outcome
            (do m12 <- new_mapping (source_arguments m1 ++ source_arguments m2);
             new_mapping (source_arguments m12 ++ source_arguments m3))
            (new_mapping (source_arguments m1 ++ source_arguments m2
                          ++ source_arguments m3))) as L.
  { rewrite app_assoc. apply merge_after_l. }
  split; [|exact L].
  apply (same_outcome_trans _ _ _ L), same_outcome_sym, merge_after_r.
Qed.

Lemma merge_all_single m :
  valid_mapping m ->
  exists m', merge_all [m] = Ok m' /\ valid_mapping m'
             /\ mapping_eqb m' m = true.
Proof.
  intros V. unfold merge_all. cbn [map List.concat]. rewrite app_nil_r.
  now apply new_mapping_of_valid.
Qed.

(** X6.  [all_combinations] of one collection of constructed mappings
    returns that collection as a set: a mapping is in the result exactly
    when it is equal to a mapping of the collection. *)
Theorem all_combinations_single :
  forall s,
    Forall constructed s ->
    Forall constructed (all_combinations [s])
    /\ forall x, constructed x ->
         (mset_In x (all_combinations [s]) <-> mset_In x s).
Proof.
  intros s Hs.
  rewrite all_combinations_loop by discriminate.
  destruct (combine_loop_spec (product [s]) [] (Forall_nil _)
              (FOP_nil _)) as (C & _ & M).
  split; [exact C|]. intros x Cx.
  pose proof (constructed_valid x Cx) as Vx.
  pose proof (proj1 (Forall_forall _ _) Hs) as Hs'.
  rewrite (M x Vx). split.
  - intros [(m' & [] & _)|(t & m & Ht & E & Q)].
    apply in_product in Ht. inversion Ht as [|m0 ? t' ? Hm0 Hnil]; subst.
    inversion Hnil; subst.
    pose proof (constructed_valid m0 (Hs' m0 Hm0)) as V0.
    destruct (merge_all_single m0 V0) as (m' & E' & V' & Q').
    rewrite E' in E. injection E as <-.
    exists m0. split; [exact Hm0|].
    apply (mapping_eqb_trans m0 m' x); try assumption.
    now apply mapping_eqb_sym.
  - intros (m0 & Hm0 & Q). right.
    pose proof (constructed_valid m0 (Hs' m0 Hm0)) as V0.
    destruct (merge_all_single m0 V0) as (m' & E' & V' & Q').
    exists [m0], m'. split; [|split; [exact E'|]].
    + apply in_product. repeat constructor. exact Hm0.
    + now apply (mapping_eqb_trans m' m0 x).
Qed.

Lemma all_combinations_single_witness :
  Forall constructed [fox_dog_mapping "vulpine" "canine"; cat_mapping]
  /\ Forall constructed
       (all_combinations [[fox_dog_mapping "vulpine" "canine"; cat_mapping]])
  /\ forall x, constructed x ->
       (mset_In x (all_combinations
                     [[fox_dog_mapping "vulpine" "canine"; cat_mapping]])
        <-> mset_In x [fox_dog_mapping "vulpine" "canine"; cat_mapping]).
Proof.
  assert (Forall constructed
            [fox_dog_mapping "vulpine" "canine"; cat_mapping]) as H.
  { constructor; [|constructor; [|constructor]].
    - apply (constructed_new [(str_arg "fox", str_arg "vulpine");
                              (str_arg "dog", str_arg "canine")]).
      reflexivity.
    - apply (constructed_new [(str_arg "cat", str_arg "feline")]).
      reflexivity. }
  split; [exact H|].
  exact (all_combinations_single _ H).
Defined.

(** X7.  Two arguments are equal exactly when their original values are
    the same value of the same type: the transformer and the value before
    the transformation take no part, and [True] and [1] are different
    arguments. *)
Theorem argument_equality :
  (forall a b,
     arg_eqb a b = true <-> arg_original_value a = arg_original_value b)
  /\ (forall v t t' p p',
        arg_eqb (mkArg v t p) (mkArg v t' p') = true)
  /\ arg_eqb (Arg (PBool true)) (Arg (PInt 1)) = false
  /\ py_eqb (PBool true) (PInt 1) = true.
Proof.
  split; [exact arg_eqb_akey|]. split; [|split; reflexivity].
  intros v t t' p p'. now apply arg_eqb_akey.
Qed.

(** ** Synthetic values *)

Lemma py_construct_type t j v : py_construct t j = Ok v -> type_of v = t.
Proof.
  destruct t; simpl.
  - intros [= <-]. reflexivity.
  - destruct (py_int j); [intros [= <-]; reflexivity | discriminate].
  - intros [= <-]. reflexivity.
  - discriminate.
Qed.

Lemma sv_built_type v :
  sv_built v -> type_of (sv_original_value v) = sv_original_type v.
Proof.
  induction 1 as [ov args|v m v' _ IH H]; [reflexivity|].
  unfold sv_from_mapping in H.
  destruct (str_join _) as [j|e]; simpl in H; [|discriminate].
  destruct (py_construct (sv_original_type v) j) as [ov|e] eqn:C;
    simpl in H; [|discriminate].
  injection H as <-. simpl. now apply (py_construct_type _ j).
Qed.

Lemma issubclass_refl t : issubclass t t = true.
Proof. destruct t; reflexivity. Qed.

Lemma identity_pairs_consistent args :
  pairs_consistent (map (fun a : ConfigurationTaskArgument => (a, a)) args).
Proof.
  intros p q Hp Hq. apply in_map_iff in Hp, Hq.
  destruct Hp as (a & <- & _), Hq as (b & <- & _).
  unfold conflictb. cbn [fst snd]. now destruct (arg_eqb a b).
Qed.

(** X8.  Mapping a value to its own original value never searches: the
    result is the set of one mapping, the identity on the arguments of
    the value (the empty mapping when it has none). *)
Theorem map_to_primitive_own_value :
  forall v,
    sv_built v ->
    exists m,
      map_to_primitive v (sv_original_value v) = Ok [m]
      /\ constructed m
      /\ forall x y,
           maps_to m x y
           <-> aset_In x (sv_arguments v) /\ arg_eqb x y = true.
Proof.
  intros v B. unfold map_to_primitive.
  rewrite (sv_built_type v B), issubclass_refl, py_eqb_refl. cbn [negb].
  destruct (new_mapping_result
              (map (fun a => (a, a)) (sv_arguments v)))
    as [(_ & m & E & V & M)|(N & _)].
  - exists m. rewrite E. split; [reflexivity|].
    split; [now apply (constructed_new _ m E)|].
    intros x y. rewrite M. unfold in_pairs, aset_In. split.
    + intros (p & Hp & Hx & Hy). apply in_map_iff in Hp.
      destruct Hp as (a & <- & Ha). cbn [fst snd] in *. split.
      * exists a. split; [exact Ha | now apply arg_eqb_akey].
      * apply arg_eqb_akey. congruence.
    + intros ((a & Ha & Hx) & Hy). apply arg_eqb_akey in Hx, Hy.
      exists (a, a).
      split; [apply in_map_iff; exists a; split; [reflexivity | exact Ha]|].
      cbn [fst snd]. split; congruence.
  - exfalso. apply N, identity_pairs_consistent.
Qed.

Lemma map_to_primitive_own_value_witness :
  sv_built fox_dog_value
  /\ exists m,
       map_to_primitive fox_dog_value (sv_original_value fox_dog_value)
       = Ok [m]
       /\ constructed m
       /\ forall x y,
            maps_to m x y
            <-> aset_In x (sv_arguments fox_dog_value)
                /\ arg_eqb x y = true.
Proof.
  split; [apply sv_built_new|].
  exact (map_to_primitive_own_value fox_dog_value (sv_built_new _ _)).
Defined.

Lemma map_part_unrelated m parts :
  (forall a, In (ArgPart a) parts ->
             dict_get (source_arguments m) a = None) ->
  map (map_part m) parts = parts.
Proof.
  intros H. induction parts as [|p parts IH]; [reflexivity|].
  cbn [map]. rewrite IH by (intros a Ha; apply H; now right).
  destruct p as [s|a]; [reflexivity|]. cbn [map_part].
  now rewrite (H a (or_introl eq_refl)).
Qed.

(** X9.  [from_mapping] with a mapping that has none of the arguments of
    a string value as a source, the empty mapping for one, returns a
    value equal to the one it was called on. *)
Theorem sv_from_mapping_unrelated :
  forall v m,
    sv_built v ->
    sv_original_type v = TStr ->
    (forall a, aset_In a (sv_arguments v) ->
       is_str a /\ dict_get (source_arguments m) a = None) ->
    exists v', sv_from_mapping v m = Ok v' /\ sv_eqb v' v = true.
Proof.
  intros v m B T H.
  pose proof (sv_built_inv v B) as [Hnd Hargs Hval].
  assert (Hp : forall a, In (ArgPart a) (sv_parts v) ->
             is_str a /\ dict_get (source_arguments m) a = None).
  { intros a Ha. apply H, Hargs. exists a. split; [exact Ha|].
    apply arg_eqb_refl. }
  unfold sv_from_mapping.
  rewrite (map_part_unrelated m (sv_parts v))
    by (intros a Ha; now apply Hp).
  rewrite (str_join_str_parts (sv_parts v))
    by (intros a Ha; now apply Hp).
  rewrite T. cbn [bind py_construct]. eexists. split; [reflexivity|].
  unfold sv_eqb.
  cbn [sv_original_value sv_original_type sv_arguments sv_parts].
  rewrite (Hval T), T, py_eqb_refl, parts_eqb_refl. simpl.
  rewrite andb_true_r. apply aset_eqb_intro.
  - apply aset_of_list_spec.
  - exact Hnd.
  - intros x. now rewrite aset_of_parts_In, Hargs.
Qed.

Lemma sv_from_mapping_unrelated_witness :
  sv_built fox_dog_value
  /\ sv_original_type fox_dog_value = TStr
  /\ (forall a, aset_In a (sv_arguments fox_dog_value) ->
        is_str a /\ dict_get (source_arguments cat_mapping) a = None)
  /\ exists v', sv_from_mapping fox_dog_value cat_mapping = Ok v'
                /\ sv_eqb v' fox_dog_value = true.
Proof.
  assert (forall a, aset_In a (sv_arguments fox_dog_value) ->
            is_str a /\ dict_get (source_arguments cat_mapping) a = None)
    as H.
  { intros a (d & Hin & E). apply arg_eqb_akey in E.
    assert (sv_arguments fox_dog_value = [str_arg "fox"; str_arg "dog"])
      as Ev by reflexivity.
    rewrite Ev in Hin. destruct Hin as [<-|[<-|[]]].
    - split; [exists "fox"; symmetry; exact E|].
      now rewrite <- (dict_get_akey _ _ _ E).
    - split; [exists "dog"; symmetry; exact E|].
      now rewrite <- (dict_get_akey _ _ _ E). }
  split; [apply sv_built_new|]. split; [reflexivity|]. split; [exact H|].
  exact (sv_from_mapping_unrelated fox_dog_value cat_mapping
           (sv_built_new _ _) eq_refl H).
Defined.

Lemma nal_map_part m parts :
  no_adjacent_literals parts ->
  no_adjacent_literals (map (map_part m) parts).
Proof.
  induction parts as [|p parts IH]; [trivial|].
  destruct p as [s|a], parts as [|[t|b] parts]; cbn [map map_part];
    try (destruct (dict_get (source_arguments m) a));
    try (destruct (dict_get (source_arguments m) b) eqn:G);
    simpl; intros H; try exact I; try (exfalso; exact H).
  all: try (specialize (IH H); cbn [map map_part] in IH;
            try rewrite G in IH; exact IH).
Qed.

Lemma sv_built_nal v : sv_built v -> no_adjacent_literals (sv_parts v).
Proof.
  induction 1 as [ov args|v m v' _ IH H].
  - unfold new_SyntheticValue. cbn [sv_parts].
    apply fold_split_on_argument_nal.
    destruct (str_nonempty (py_str ov)); exact I.
  - unfold sv_from_mapping in H.
    destruct (str_join _) as [j|e]; simpl in H; [|discriminate].
    destruct (py_construct (sv_original_type v) j) as [ov|e];
      simpl in H; [|discriminate].
    injection H as <-. cbn [sv_parts]. now apply nal_map_part.
Qed.

(** X10.  Every value the program builds, by the constructor or by
    [from_mapping], keeps the invariants: no two adjacent parts are
    literals, [arguments] is a set and holds exactly the arguments that
    occur in [parts], [original_type] is the type of [original_value],
    and the original value of a string value is the concatenation of its
    parts. *)
Theorem sv_built_invariants :
  forall v,
    sv_built v ->
    no_adjacent_literals (sv_parts v)
    /\ aset_NoDup (sv_arguments v)
    /\ (forall a, aset_In a (sv_arguments v)
                  <-> exists b, In (ArgPart b) (sv_parts v)
                                /\ arg_eqb b a = true)
    /\ type_of (sv_original_value v) = sv_original_type v
    /\ (sv_original_type v = TStr ->
        sv_original_value v = PStr (parts_str (sv_parts v))).
Proof.
  intros v B. pose proof (sv_built_inv v B) as [Hnd Hargs Hval].
  split; [now apply sv_built_nal|]. split; [exact Hnd|].
  split; [exact Hargs|]. split; [now apply sv_built_type | exact Hval].
Qed.

Lemma sv_built_invariants_witness :
  exists v,
    sv_from_mapping fox_dog_value (fox_dog_mapping "vulpine" "canine") = Ok v
    /\ sv_built v
    /\ no_adjacent_literals (sv_parts v)
    /\ aset_NoDup (sv_arguments v)
    /\ (forall a, aset_In a (sv_arguments v)
                  <-> exists b, In (ArgPart b) (sv_parts v)
                                /\ arg_eqb b a = true)
    /\ type_of (sv_original_value v) = sv_original_type v
    /\ (sv_original_type v = TStr ->
        sv_original_value v = PStr (parts_str (sv_parts v))).
Proof.
  eexists. split; [reflexivity|].
  match goal with
  | |- sv_built ?v /\ _ =>
      assert (sv_built v) as B
        by (apply (sv_built_from_mapping fox_dog_value
                     (fox_dog_mapping "vulpine" "canine"));
            [apply sv_built_new | reflexivity]);
      split; [exact B | exact (sv_built_invariants v B)]
  end.
Defined.

(** ** Changes *)

Lemma encode_fcc_from_arguments c a :
  encode_fcc (fcc_from_arguments c a) = encode_fcc c.
Proof. reflexivity. Qed.

(** X11.  [from_arguments] keeps the class and every original value of a
    change, so the encoder writes the same document for both; and
    building over one set of arguments and then over another is building
    over the second. *)
Theorem from_arguments_composes :
  forall c a b,
    class_of (change_from_arguments c a) = class_of c
    /\ encode_change (change_from_arguments c a) = encode_change c
    /\ change_from_arguments (change_from_arguments c a) b
       = change_from_arguments c b.
Proof.
  intros c a b. split; [now destruct c|]. split; [|apply change_relift].
  destruct c; try reflexivity.
  unfold encode_change. cbn [change_from_arguments class_of].
  rewrite map_map. reflexivity.
Qed.

(** *** [change_intersection] returns changes of its inputs *)

Lemma cset_add_incl c s l :
  In c l -> incl s l -> incl (cset_add c s) l.
Proof.
  intros Hc Hs. unfold cset_add.
  destruct (existsb (fun d => change_eqb d c) s); [exact Hs|].
  intros x Hx. apply in_app_or in Hx. destruct Hx as [Hx|[<-|[]]]; auto.
Qed.

Lemma record_mapping_within S T rows m sc tc :
  In sc S -> In tc T ->
  Forall (rows_within S T) rows ->
  Forall (rows_within S T) (record_mapping rows m sc tc).
Proof.
  intros Hs Ht. induction 1 as [|r rows [Hr1 Hr2] Hrows IH]; simpl.
  - constructor; [|constructor]. split; simpl; intros x [<-|[]]; assumption.
  - destruct (mapping_eqb (row_mapping r) m).
    + constructor; [|assumption]. split; simpl; now apply cset_add_incl.
    + constructor; [split; assumption | exact IH].
Qed.

Lemma fold_record_within S T sc tc ms : forall rows,
  In sc S -> In tc T ->
  Forall (rows_within S T) rows ->
  Forall (rows_within S T)
    (fold_left (fun rows m => record_mapping rows m sc tc) ms rows).
Proof.
  induction ms as [|m ms IH]; intros rows Hs Ht H; simpl; [exact H|].
  apply IH; try assumption. now apply record_mapping_within.
Qed.

Lemma map_pair_within pto S T rows st rows' :
  In (fst st) S -> In (snd st) T ->
  Forall (rows_within S T) rows ->
  map_pair pto rows st = Ok rows' ->
  Forall (rows_within S T) rows'.
Proof.
  destruct st as [sc tc]. simpl. intros Hs Ht H.
  destruct (pto sc tc); [now intros [= <-]|].
  destruct (map_to_other sc tc) as [ms|e].
  - intros [= <-]. now apply fold_record_within.
  - destruct e; try discriminate; now intros [= <-].
Qed.

Lemma map_pairs_within pto S T pairs : forall rows rows',
  Forall (fun st => In (fst st) S /\ In (snd st) T) pairs ->
  Forall (rows_within S T) rows ->
  map_pairs pto rows pairs = Ok rows' ->
  Forall (rows_within S T) rows'.
Proof.
  induction pairs as [|st pairs IH]; intros rows rows' Hp H; simpl.
  - now intros [= <-].
  - inversion Hp as [|? ? [Hs Ht] Hp']; subst.
    destruct (map_pair pto rows st) as [rows1|e] eqn:E; simpl;
      [|discriminate].
    apply IH; [exact Hp'|]. now apply (map_pair_within pto S T rows st).
Qed.

Lemma bin_incl k l : incl (bin k l) l.
Proof. intros c Hc. unfold bin in Hc. now apply filter_In in Hc. Qed.

Lemma clique_changes_within S T rows clique :
  Forall (rows_within S T) rows ->
  (forall c,
     In c (flat_map
             (fun m => match find (fun r => mapping_eqb (row_mapping r) m)
                                  rows with
                       | Some r => row_source_changes r
                       | None => []
                       end) clique) -> In c S)
  /\ (forall c,
        In c (flat_map
                (fun m => match find (fun r => mapping_eqb (row_mapping r) m)
                                     rows with
                          | Some r => row_target_changes r
                          | None => []
                          end) clique) -> In c T).
Proof.
  intros H. pose proof (proj1 (Forall_forall _ _) H) as H'.
  split; intros c Hc; apply in_flat_map in Hc; destruct Hc as (m & _ & Hc);
    destruct (find _ rows) as [r|] eqn:F; try destruct Hc;
    apply find_some in F; destruct F as [Hr _];
    destruct (H' r Hr) as [H1 H2]; auto.
Qed.

(** X12.  In every mode [change_intersection] returns changes of its
    inputs only: each change of the first set it returns is equal to a
    change of [source], and each change of the second is equal to a change
    of [target].  When it maps the changes ([with_mapping=True], or
    nothing passed and at most 25_000_000 pairs) they are the very changes
    of [source] and of [target]; in exact mode both sets hold the objects
    of one operand of [source & target]. *)
Theorem change_intersection_subsets :
  forall pair_times_out max_weight_clique source target with_mapping
         source_changes target_changes mapping,
    change_intersection pair_times_out max_weight_clique
      source target with_mapping
    = Ok (source_changes, target_changes, mapping) ->
    (forall c, In c source_changes -> cset_In c source)
    /\ (forall d, In d target_changes -> cset_In d target)
    /\ (with_mapping = Some true
        \/ (with_mapping = None
            /\ (num_pairs source target <= 25000000)%N) ->
        (forall c, In c source_changes -> In c source)
        /\ (forall d, In d target_changes -> In d target)).
Proof.
  intros pto mwc source target wm s t m.
  assert (Own : forall c l, In c l -> cset_In c l).
  { intros c l H. exists c. split; [exact H | apply change_eqb_refl]. }
  assert (Lit : (forall c, In c s -> In c source)
                /\ (forall d, In d t -> In d target) ->
                (forall c, In c s -> cset_In c source)
                /\ (forall d, In d t -> cset_In d target)
                /\ (wm = Some true
                    \/ (wm = None
                        /\ (num_pairs source target <= 25000000)%N) ->
                    (forall c, In c s -> In c source)
                    /\ (forall d, In d t -> In d target))).
  { intros [H1 H2]. split; [|split]; auto. }
  unfold change_intersection.
  destruct (N.eqb (num_pairs source target) 0).
  { intros [= <- <- <-]. apply Lit. split; intros ? []. }
  match goal with
  | |- context [if ?b then _ else _] => destruct b eqn:Mode
  end.
  { intros [= <- <- <-].
    assert (Both : forall c, In c (cset_inter source target) ->
                     cset_In c source /\ cset_In c target).
    { intros c Hc. unfold cset_inter in Hc.
      destruct (Nat.ltb (List.length source) (List.length target));
        apply filter_In in Hc; destruct Hc as [Hc He];
        apply existsb_exists in He; split; auto. }
    split; [intros c Hc; now apply Both|].
    split; [intros c Hc; now apply Both|].
    intros [->|[-> L]]; [discriminate Mode|].
    apply N.ltb_lt in Mode. apply N.lt_nge in Mode. contradiction. }
  destruct (map_pairs pto [] _) as [rows|e] eqn:E; cbn [bind];
    [|discriminate].
  assert (Forall (rows_within source target) rows) as W.
  { eapply (map_pairs_within pto source target);
      [|constructor | exact E].
    apply Forall_forall. intros [sc tc] Hp. apply in_flat_map in Hp.
    destruct Hp as (k & _ & Hp). apply in_prod_iff in Hp.
    destruct Hp as [H1 H2]. split; simpl; now apply (bin_incl k). }
  destruct (mwc (build_graph rows)) as [[|m0 clique]|].
  - intros [= <- <- <-]. apply Lit. split; intros ? [].
  - destruct (merge_all (m0 :: clique)) as [mm|e]; cbn [bind];
      [|discriminate].
    intros [= <- <- <-].
    destruct (clique_changes_within source target rows (m0 :: clique) W)
      as [H1 H2].
    apply Lit. split.
    + intros c Hc. apply cset_fold_In in Hc. destruct Hc as [[]|Hc].
      now apply H1.
    + intros d Hd. apply cset_fold_In in Hd. destruct Hd as [[]|Hd].
      now apply H2.
  - intros [= <- <- <-]. apply Lit. split; intros ? [].
Qed.

Lemma change_intersection_subsets_witness :
  change_intersection no_alarm first_node_clique
    [FileAdd tmp_a_over_a] [FileAdd tmp_b] None
  = Ok ([FileAdd tmp_a_over_a], [FileAdd tmp_b],
        mkMapping [(str_arg "a", str_arg "b")] [(str_arg "b", str_arg "a")])
  /\ (forall c, In c [FileAdd tmp_a_over_a] ->
                cset_In c [FileAdd tmp_a_over_a])
  /\ (forall d, In d [FileAdd tmp_b] -> cset_In d [FileAdd tmp_b])
  /\ (@None bool = Some true
      \/ (@None bool = None
          /\ (num_pairs [FileAdd tmp_a_over_a] [FileAdd tmp_b]
              <= 25000000)%N) ->
      (forall c, In c [FileAdd tmp_a_over_a] -> In c [FileAdd tmp_a_over_a])
      /\ (forall d, In d [FileAdd tmp_b] -> In d [FileAdd tmp_b])).
Proof.
  assert (change_intersection no_alarm first_node_clique
            [FileAdd tmp_a_over_a] [FileAdd tmp_b] None
          = Ok ([FileAdd tmp_a_over_a], [FileAdd tmp_b],
                mkMapping [(str_arg "a", str_arg "b")]
                          [(str_arg "b", str_arg "a")])) as E
    by (vm_compute; reflexivity).
  split; [exact E|].
  exact (change_intersection_subsets no_alarm first_node_clique
           [FileAdd tmp_a_over_a] [FileAdd tmp_b] None _ _ _ E).
Defined.

(** ** Tasks *)

Lemma no_changes_result t :
  task_arguments t <> AUnsupported ->
  exists t', no_changes t = Ok t'
             /\ task_system t' = task_system t
             /\ task_executable t' = task_executable t
             /\ task_arguments t' = task_arguments t
             /\ task_changes t' = [].
Proof.
  intros H. unfold no_changes, new_ConfigurationTask.
  destruct (task_arguments t) as [words|entries|] eqn:E;
    [| |congruence]; cbn [bind]; eexists; repeat split.
Qed.

(** X14.  [no_changes] copies the system, the executable and the
    arguments of a task and leaves no change; such a task maps to every
    task, and every task maps to it, by the empty mapping, whatever the
    alarms and the clique search do. *)
Theorem no_changes_maps_empty :
  forall pair_times_out max_weight_clique t other,
    task_arguments t <> AUnsupported ->
    exists t',
      no_changes t = Ok t'
      /\ task_system t' = task_system t
      /\ task_executable t' = task_executable t
      /\ task_arguments t' = task_arguments t
      /\ task_changes t' = []
      /\ map_to_task pair_times_out max_weight_clique t' other
         = Ok empty_mapping
      /\ map_to_task pair_times_out max_weight_clique other t'
         = Ok empty_mapping.
Proof.
  intros pto mwc t other H.
  destruct (no_changes_result t H) as (t' & E & Hs & He & Ha & Hc).
  exists t'. repeat (split; [assumption|]).
  destruct (change_intersection_empty_side pto mwc (task_changes other) None)
    as [E1 E2].
  unfold map_to_task. rewrite Hc, E1, E2. split; reflexivity.
Qed.

Lemma no_changes_maps_empty_witness :
  exists t,
    touch_task = Ok t
    /\ task_arguments t <> AUnsupported
    /\ exists t',
         no_changes t = Ok t'
         /\ task_system t' = task_system t
         /\ task_executable t' = task_executable t
         /\ task_arguments t' = task_arguments t
         /\ task_changes t' = []
         /\ map_to_task no_alarm no_clique t' t = Ok empty_mapping
         /\ map_to_task no_alarm no_clique t t' = Ok empty_mapping.
Proof.
  eexists. split; [reflexivity|].
  match goal with
  | |- ?P /\ _ =>
      assert P as H by discriminate;
      split; [exact H|]
  end.
  exact (no_changes_maps_empty no_alarm no_clique _ _ H).
Defined.

(** ** The order of changes and the encoder *)

Lemma key_ltb_asym c d : key_ltb c d = true -> key_ltb d c = false.
Proof.
  intros H. destruct (key_ltb d c) eqn:E; [|reflexivity].
  rewrite <- (key_ltb_irrefl c). symmetry. now apply (key_ltb_trans c d c).
Qed.


Lemma lifted_intro pool c0 :
  string_change c0 -> lifted_change pool (change_from_arguments c0 pool).
Proof. intros H. now exists c0. Qed.

Lemma string_change_tmp s :
  string_change (FileAdd (new_SyntheticValue (PStr s) [])).
Proof.
  unfold string_change. simpl. constructor; [|constructor].
  exists s. reflexivity.
Qed.

Lemma string_change_tmp_delete s :
  string_change (FileDelete (new_SyntheticValue (PStr s) [])).
Proof.
  unfold string_change. simpl. constructor; [|constructor].
  exists s. reflexivity.
Qed.


Section SortedUnique.

Context {A : Type} (ltb : A -> A -> bool).

Hypothesis ltb_irrefl : forall x, ltb x x = false.
Hypothesis ltb_trans :
  forall x y z, ltb x y = true -> ltb y z = true -> ltb x z = true.

Lemma sorted_perm_unique l1 : forall l2,
  StronglySorted (ltb_lt ltb) l1 -> StronglySorted (ltb_lt ltb) l2 ->
  Permutation l1 l2 -> l1 = l2.
Proof.
  induction l1 as [|x l1 IH]; intros l2 S1 S2 P.
  - apply Permutation_nil in P. now subst.
  - destruct l2 as [|y l2];
      [apply Permutation_sym, Permutation_nil in P; discriminate|].
    inversion S1 as [|? ? S1' H1]; inversion S2 as [|? ? S2' H2]; subst.
    assert (x = y) as ->.
    { assert (In x (y :: l2)) as Hx
        by (apply (Permutation_in _ P); now left).
      assert (In y (x :: l1)) as Hy
        by (apply (Permutation_in _ (Permutation_sym P)); now left).
      destruct Hx as [<-|Hx]; [reflexivity|].
      destruct Hy as [<-|Hy]; [reflexivity|].
      pose proof (proj1 (Forall_forall _ _) H2 x Hx) as L1.
      pose proof (proj1 (Forall_forall _ _) H1 y Hy) as L2.
      unfold ltb_lt in *. exfalso.
      pose proof (ltb_trans x y x L2 L1) as L.
      rewrite ltb_irrefl in L. discriminate. }
    f_equal. apply IH; try assumption.
    now apply (Permutation_cons_inv P).
Qed.

End SortedUnique.

Lemma pure_sorted_perm_eq pool l1 l2 :
  Forall (lifted_change pool) l1 -> NoDup l1 -> Permutation l1 l2 ->
  pure_sorted key_ltb l1 = pure_sorted key_ltb l2
  /\ StronglySorted (ltb_lt key_ltb) (pure_sorted key_ltb l1).
Proof.
  intros L N P.
  assert (Forall (lifted_change pool) l2) as L2.
  { apply Forall_forall. intros c Hc.
    apply (proj1 (Forall_forall _ _) L).
    now apply (Permutation_in _ (Permutation_sym P)). }
  assert (forall l, Forall (lifted_change pool) l -> NoDup l ->
            StronglySorted (ltb_lt key_ltb) (pure_sorted key_ltb l)) as S.
  { intros l Hl Nl.
    apply pure_sorted_sorted; [exact key_ltb_trans | exact Nl |].
    intros x y Hx Hy. apply (key_ltb_total pool);
      now apply (proj1 (Forall_forall _ _) Hl). }
  split; [|now apply S].
  apply (sorted_perm_unique key_ltb key_ltb_irrefl key_ltb_trans).
  - now apply S.
  - apply S; [exact L2|]. now apply (Permutation_NoDup P).
  - eapply perm_trans; [apply pure_sorted_perm|].
    eapply perm_trans; [exact P|]. apply Permutation_sym, pure_sorted_perm.
Qed.




(** ** [map_to_primitive] finds alignments only *)

Lemma spell_app m l1 : forall l2,
  spell m (l1 ++ l2)
  = match spell m l1, spell m l2 with
    | Some a, Some b => Some (a ++ b)
    | _, _ => None
    end.
Proof.
  induction l1 as [|[c|a] l1 IH]; intros l2; cbn [app spell].
  - now destruct (spell m l2).
  - rewrite IH. now destruct (spell m l1), (spell m l2).
  - destruct (dict_get (source_arguments m) a) as [b|]; [|reflexivity].
    rewrite IH. destruct (spell m l1), (spell m l2); cbn [option_map];
      try reflexivity.
    now rewrite app_assoc.
Qed.

Lemma spell_chars m cs : spell m (map TChar cs) = Some cs.
Proof.
  induction cs as [|c cs IH]; [reflexivity|]. cbn [map spell].
  now rewrite IH.
Qed.

Lemma firstn_add {A : Type} (l : list A) : forall i k,
  firstn (i + k) l = firstn i l ++ firstn k (skipn i l).
Proof.
  induction l as [|x l IH]; intros [|i] k; cbn [Nat.add firstn skipn app];
    try reflexivity.
  - now rewrite firstn_nil.
  - now rewrite IH.
Qed.

Lemma list_ascii_app s1 s2 :
  list_ascii_of_string (s1 ++ s2)%string
  = list_ascii_of_string s1 ++ list_ascii_of_string s2.
Proof.
  induction s1 as [|c s1 IH]; [reflexivity|]. simpl. now rewrite IH.
Qed.

Lemma list_ascii_length s :
  List.length (list_ascii_of_string s) = String.length s.
Proof. induction s as [|c s IH]; [reflexivity|]. simpl. now rewrite IH. Qed.

Lemma list_ascii_substring s : forall j n,
  list_ascii_of_string (String.substring j n s)
  = firstn n (skipn j (list_ascii_of_string s)).
Proof.
  induction s as [|c s IH]; intros [|j] [|n]; cbn; try reflexivity.
  - now rewrite IH.
  - now rewrite IH.
  - now rewrite IH.
Qed.

(** The inner loop moves both indices over the same characters. *)
Lemma advance_spec ss' : forall os' i j i' j',
  advance ss' os' i j = (i', j') ->
  exists k, i' = i + k /\ j' = j + k
            /\ k <= List.length ss' /\ k <= List.length os'
            /\ firstn k ss' = map TChar (firstn k os').
Proof.
  induction ss' as [|[c|a] ss' IH]; intros os' i j i' j' H.
  - exists 0. simpl in H. injection H as <- <-.
    repeat split; try lia.
  - destruct os' as [|d os'].
    + exists 0. simpl in H. injection H as <- <-.
      repeat split; try lia.
    + cbn [advance] in H. destruct (Ascii.eqb c d) eqn:E.
      * apply Ascii.eqb_eq in E. subst d.
        destruct (IH os' (S i) (S j) i' j' H) as (k & -> & -> & K1 & K2 & F).
        exists (S k). cbn [List.length firstn map].
        repeat split; try lia. now rewrite F.
      * exists 0. injection H as <- <-.
        repeat split; try lia.
  - exists 0. destruct os'; simpl in H; injection H as <- <-;
      repeat split; try lia.
Qed.

Lemma firstn_succ_nth {A : Type} (l : list A) : forall i x,
  nth_error l i = Some x -> firstn (i + 1) l = firstn i l ++ [x].
Proof.
  induction l as [|y l IH]; intros [|i] x H; simpl in H; try discriminate.
  - injection H as <-. reflexivity.
  - cbn [Nat.add firstn app]. now rewrite (IH i x H).
Qed.

Lemma arg_value_akey a b : akey a = akey b -> arg_value a = arg_value b.
Proof. unfold akey, arg_value. now intros ->. Qed.

(** A mapping that keeps the pairs of [m] spells what [m] spells. *)
Lemma spell_extend m m' l : forall x,
  (forall a b, maps_to m a b -> maps_to m' a b) ->
  spell m l = Some x -> spell m' l = Some x.
Proof.
  induction l as [|[c|a] l IH]; intros x H; cbn [spell].
  - trivial.
  - destruct (spell m l) as [y|]; [|discriminate].
    now rewrite (IH y H eq_refl).
  - destruct (dict_get (source_arguments m) a) as [b|] eqn:G;
      [|discriminate].
    destruct (H a b) as (b' & G' & E); [exists b; auto|].
    rewrite G', (arg_value_akey _ _ E).
    destruct (spell m l) as [y|]; [|discriminate].
    now rewrite (IH y H eq_refl).
Qed.

Lemma merge_single m arg target merged :
  constructed m ->
  merge m (mkMapping [(arg, target)] [(target, arg)]) = Ok merged ->
  constructed merged
  /\ (forall a b, maps_to m a b -> maps_to merged a b)
  /\ exists t, dict_get (source_arguments merged) arg = Some t
               /\ arg_value t = arg_value target.
Proof.
  intros C E. pose proof (constructed_valid m C) as V.
  unfold merge in E. cbn [source_arguments] in E.
  pose proof (new_mapping_spec (source_arguments m ++ [(arg, target)])) as S.
  rewrite E in S. destruct S as (V' & M & _).
  split; [now apply (constructed_new _ merged E)|]. split.
  - intros a b H. apply M. apply (valid_maps_to_pairs m a b V) in H.
    destruct H as (p & Hp & K). exists p. split; [|exact K].
    apply in_or_app. now left.
  - destruct (proj2 (M arg target)) as (t & G & K).
    + exists (arg, target). split; [apply in_or_app; right; now left|].
      split; reflexivity.
    + exists t. split; [exact G | now apply arg_value_akey].
Qed.

Lemma rindex_bound os c start k :
  rindex os c start = Some k -> k < List.length os.
Proof.
  unfold rindex.
  assert (forall l found,
            (forall j, found = Some j -> j < List.length os) ->
            forall j,
              fold_left
                (fun found k =>
                   match nth_error os k with
                   | Some d => if Ascii.eqb d c then Some k else found
                   | None => found
                   end) l found = Some j ->
              j < List.length os) as H.
  { induction l as [|x l IH]; intros found Hf j; simpl; [apply Hf|].
    apply IH. intros j'.
    destruct (nth_error os x) as [d|] eqn:N; [|apply Hf].
    destruct (Ascii.eqb d c); [|apply Hf].
    intros [= <-]. apply nth_error_Some. congruence. }
  apply H. discriminate.
Qed.

Lemma range_In a b k : In k (range a b) -> a <= k < b.
Proof. unfold range. intros H. apply in_seq in H. lia. Qed.

(** Every candidate index lies between the current index and the end of
    [other_sequence]. *)
Lemma candidate_indices_bounds ss os i j indices :
  j <= List.length os ->
  candidate_indices ss os i j = Some indices ->
  forall idx, In idx indices -> j <= idx <= List.length os.
Proof.
  intros Hj. unfold candidate_indices.
  destruct (Nat.eqb (i + 1) (List.length ss)).
  { intros [= <-] idx [<-|[]]. lia. }
  destruct (nth_error ss (i + 1)) as [[c|a]|]; [| |discriminate].
  - intros [= <-] idx H. apply filter_In in H. destruct H as [H _].
    apply range_In in H. lia.
  - destruct (next_literal (skipn (i + 1) ss)) as [c|].
    + destruct (rindex os c j) as [k|] eqn:R; [|discriminate].
      intros [= <-] idx H. apply range_In in H.
      apply rindex_bound in R. lia.
    + intros [= <-] idx H. apply range_In in H. lia.
Qed.

Lemma str_slice_ascii os j idx :
  list_ascii_of_string (str_slice os j idx) = firstn (idx - j) (skipn j os).
Proof. unfold str_slice. apply list_ascii_of_string_of_list_ascii. Qed.

(** One turn of the search keeps the states aligned and saves an
    alignment only. *)
Lemma visit_state_sound ss other st new_states found :
  aligned ss (list_ascii_of_string (py_str other)) st ->
  visit_state ss other st = Ok (new_states, found) ->
  Forall (aligned ss (list_ascii_of_string (py_str other))) new_states
  /\ forall m, found = Some m ->
               alignment ss (list_ascii_of_string (py_str other)) m.
Proof.
  set (os := list_ascii_of_string (py_str other)).
  destruct st as [[i0 j0] m]. intros (C & Hi & Hj & Sp).
  unfold visit_state. fold os.
  destruct (advance (skipn i0 ss) (skipn j0 os) i0 j0) as [i j] eqn:A.
  destruct (advance_spec _ _ _ _ _ _ A) as (k & -> & -> & K1 & K2 & F).
  rewrite length_skipn in K1, K2.
  assert (Sp' : spell m (firstn (i0 + k) ss) = Some (firstn (j0 + k) os)).
  { rewrite !firstn_add, spell_app, Sp, F, spell_chars. reflexivity. }
  assert (Hi' : i0 + k <= List.length ss) by lia.
  assert (Hj' : j0 + k <= List.length os) by lia.
  clear A F Sp K1 K2 Hi Hj.
  set (i := i0 + k) in *. set (j := j0 + k) in *.
  destruct (Nat.eqb i (List.length ss)) eqn:Ei;
    destruct (Nat.eqb j (List.length os)) eqn:Ej; cbn [andb orb].
  - intros [= <- <-]. split; [constructor|]. intros m' [= <-].
    apply Nat.eqb_eq in Ei, Ej. rewrite Ei, Ej, !firstn_all in Sp'.
    split; assumption.
  - intros [= <- <-]. split; [constructor | discriminate].
  - intros [= <- <-]. split; [constructor | discriminate].
  - apply Nat.eqb_neq in Ei, Ej.
    destruct (nth_error ss i) as [[c|arg]|] eqn:N;
      try (intros [= <- <-]; split; [constructor | discriminate]).
    pose proof (firstn_succ_nth ss i _ N) as Fs.
    destruct (dict_get (source_arguments m) arg) as [mapped|] eqn:G.
    + destruct other as [o| | |]; try discriminate.
      destruct (String.eqb (arg_value mapped)
                  (String.substring j (String.length (arg_value mapped)) o))
        eqn:Q; intros [= <- <-]; (split; [|discriminate]);
        [|constructor].
      apply String.eqb_eq in Q.
      assert (list_ascii_of_string (arg_value mapped)
              = firstn (String.length (arg_value mapped)) (skipn j os)) as L.
      { rewrite Q at 1. apply list_ascii_substring. }
      constructor; [|constructor]. cbn [aligned].
      split; [exact C|]. split; [lia|].
      assert (String.length (arg_value mapped)
              <= List.length (skipn j os)) as B.
      { rewrite <- (list_ascii_length (arg_value mapped)) at 1.
        rewrite L, length_firstn. apply Nat.le_min_r. }
      rewrite length_skipn in B. split; [lia|].
      rewrite Fs, spell_app, Sp'. cbn [spell]. rewrite G. cbn [option_map].
      rewrite app_nil_r, L, <- firstn_add. reflexivity.
    + destruct (candidate_indices ss os i j) as [indices|] eqn:I;
        intros [= <- <-]; (split; [|discriminate]); [|constructor].
      pose proof (candidate_indices_bounds ss os i j indices Hj' I) as Bd.
      apply Forall_forall. intros st Hst. apply in_flat_map in Hst.
      destruct Hst as (idx & Hidx & Hst).
      destruct (merge m _) as [merged|e] eqn:M; [|destruct Hst].
      destruct Hst as [<-|[]].
      destruct (merge_single m arg _ merged C M) as (C' & Ext & t & Gt & Vt).
      specialize (Bd idx Hidx). cbn [aligned].
      split; [exact C'|]. split; [lia|]. split; [lia|].
      rewrite Fs, spell_app, (spell_extend m merged _ _ Ext Sp').
      cbn [spell]. rewrite Gt. cbn [option_map].
      rewrite app_nil_r, Vt. unfold Arg, arg_value.
      cbn [arg_original_value py_str]. rewrite str_slice_ascii.
      replace idx with (j + (idx - j)) at 2 by lia.
      now rewrite firstn_add.
Qed.

Lemma mset_add_Forall (P : ConfigurationTaskArgumentMapping -> Prop) m s :
  P m -> Forall P s -> Forall P (mset_add m s).
Proof.
  intros Hm Hs. unfold mset_add.
  destruct (existsb (mapping_eqb m) s); [exact Hs|].
  apply Forall_app. split; [exact Hs|]. constructor; [exact Hm|constructor].
Qed.

Lemma search_step_sound ss other s s' :
  search_sound ss (list_ascii_of_string (py_str other)) s ->
  search_step ss other s = Ok s' ->
  search_sound ss (list_ascii_of_string (py_str other)) s'.
Proof.
  destruct s as [[|st states] found]; intros [Hs Hf]; unfold search_step;
    cbn [fst snd].
  - intros [= <-]. split; assumption.
  - inversion Hs as [|? ? Hst Hstates]; subst.
    destruct (visit_state ss other st) as [[new_states saved]|e] eqn:V;
      cbn [bind fst snd]; [|discriminate].
    intros [= <-].
    destruct (visit_state_sound ss other st new_states saved Hst V)
      as [Hn Hm].
    split; cbn [fst snd].
    + apply Forall_app. split; [|exact Hstates].
      now apply Forall_rev.
    + destruct saved as [m|]; [|exact Hf].
      apply mset_add_Forall; [now apply Hm | exact Hf].
Qed.

Lemma search_loop_sound ss other fuel : forall s s',
  search_sound ss (list_ascii_of_string (py_str other)) s ->
  search_loop ss other fuel s = Ok s' ->
  search_sound ss (list_ascii_of_string (py_str other)) s'.
Proof.
  set (os := list_ascii_of_string (py_str other)).
  assert (forall p,
            (forall s s', search_sound ss os s ->
                          search_loop ss other p s = Ok s' ->
                          search_sound ss os s') ->
            forall s s',
              search_sound ss os s ->
              match fst s with
              | [] => Ok s
              | _ :: _ => search_loop ss other p s
              end = Ok s' ->
              search_sound ss os s') as Again.
  { intros p IH s s' H. destruct (fst s); [now intros [= <-] | now apply IH]. }
  induction fuel as [p IH|p IH|]; intros s s' H; cbn [search_loop].
  - destruct (search_step ss other s) as [s1|e] eqn:E1; cbn [bind];
      [|discriminate].
    pose proof (search_step_sound ss other s s1 H E1) as H1.
    match goal with
    | |- bind ?r _ = _ -> _ => destruct r as [s2|e] eqn:E2
    end; cbn [bind]; [|discriminate].
    pose proof (Again p IH s1 s2 H1 E2) as H2.
    now apply (Again p IH).
  - destruct (search_loop ss other p s) as [s1|e] eqn:E1; cbn [bind];
      [|discriminate].
    pose proof (IH s s1 H E1) as H1. now apply (Again p IH).
  - now apply search_step_sound.
Qed.

(** What an alignment says of the parts of the value. *)
Lemma spell_parts m parts : forall l,
  spell m (flat_map part_tokens parts) = Some l ->
  (forall a, In (ArgPart a) parts ->
             exists b, dict_get (source_arguments m) a = Some b)
  /\ list_ascii_of_string (parts_str (map (map_part m) parts)) = l.
Proof.
  induction parts as [|p parts IH]; intros l.
  - intros [= <-]. split; [intros a []|reflexivity].
  - cbn [flat_map map]. rewrite spell_app, parts_str_cons, list_ascii_app.
    destruct (spell m (part_tokens p)) as [x|] eqn:X; [|discriminate].
    destruct (spell m (flat_map part_tokens parts)) as [y|] eqn:Y;
      [|discriminate].
    intros [= <-]. destruct (IH y eq_refl) as [Hc Hs]. rewrite Hs.
    destruct p as [s|a]; cbn [part_tokens spell map_part part_str] in *.
    + rewrite spell_chars in X. injection X as <-.
      split; [|reflexivity].
      intros a [H|H]; [discriminate | now apply Hc].
    + destruct (dict_get (source_arguments m) a) as [b|] eqn:G;
        [|discriminate].
      cbn [option_map] in X. injection X as <-. rewrite app_nil_r.
      split; [|reflexivity].
      intros a' [[= <-]|H]; [eauto | now apply Hc].
Qed.

Lemma parts_str_map_same m parts :
  (forall a, In (ArgPart a) parts ->
             exists b, dict_get (source_arguments m) a = Some b
                       /\ akey b = akey a) ->
  parts_str (map (map_part m) parts) = parts_str parts.
Proof.
  induction parts as [|p parts IH]; intros H; [reflexivity|].
  cbn [map]. rewrite !parts_str_cons, IH by (intros a Ha; apply H; now right).
  f_equal. destruct p as [s|a]; [reflexivity|].
  destruct (H a (or_introl eq_refl)) as (b & G & E).
  cbn [map_part]. rewrite G. cbn [part_str]. now apply arg_value_akey.
Qed.

(** Every mapping returned for a string is an alignment. *)
Lemma map_to_primitive_alignment :
  forall v o ms m,
    sv_built v ->
    map_to_primitive v (PStr o) = Ok ms ->
    In m ms ->
    constructed m
    /\ (forall a, aset_In a (sv_arguments v) ->
                  exists b, dict_get (source_arguments m) a = Some b)
    /\ parts_str (map (map_part m) (sv_parts v)) = o.
Proof.
  intros v o ms m B E Hin.
  pose proof (sv_built_inv v B) as [Hnd Hargs Hval].
  assert (Cov : (forall a, In (ArgPart a) (sv_parts v) ->
                   exists b, dict_get (source_arguments m) a = Some b) ->
                forall a, aset_In a (sv_arguments v) ->
                  exists b, dict_get (source_arguments m) a = Some b).
  { intros H a Ha. apply Hargs in Ha. destruct Ha as (b & Hb & Q).
    apply arg_eqb_akey in Q. rewrite <- (dict_get_akey _ _ _ Q).
    now apply H. }
  unfold map_to_primitive in E. cbn [type_of] in E.
  destruct (issubclass TStr (sv_original_type v)) eqn:T; cbn [negb] in E;
    [|discriminate].
  assert (sv_original_type v = TStr) as T'
    by (destruct (sv_original_type v); simpl in T; congruence).
  destruct (py_eqb (sv_original_value v) (PStr o)) eqn:Q.
  - destruct (new_mapping_result (map (fun a => (a, a)) (sv_arguments v)))
      as [(_ & m0 & E0 & V0 & M0)|(N & _)];
      [|exfalso; apply N, identity_pairs_consistent].
    rewrite E0 in E. cbn [bind] in E. injection E as <-.
    destruct Hin as [<-|[]].
    assert (Id : forall a, In (ArgPart a) (sv_parts v) ->
                 exists b, dict_get (source_arguments m0) a = Some b
                           /\ akey b = akey a).
    { intros a Ha. apply (M0 a a).
      destruct (proj2 (Hargs a)) as (c & Hc & Qc).
      - exists a. split; [exact Ha | apply arg_eqb_refl].
      - apply arg_eqb_akey in Qc. exists (c, c).
        split; [apply in_map_iff; exists c; split; [reflexivity|exact Hc]|].
        split; exact Qc. }
    split; [now apply (constructed_new _ m0 E0)|]. split.
    + apply Cov. intros a Ha. destruct (Id a Ha) as (b & G & _). eauto.
    + rewrite (parts_str_map_same m0 _ Id).
      rewrite (Hval T') in Q. cbn [py_eqb] in Q.
      now apply String.eqb_eq in Q.
  - destruct (sv_arguments v) as [|a0 args] eqn:A.
    { injection E as <-. destruct Hin. }
    rewrite <- A in *. clear A a0 args.
    destruct (map_to_primitive_search v (PStr o)) as [final|e] eqn:S;
      cbn [bind] in E; [|discriminate].
    injection E as <-. unfold map_to_primitive_search in S.
    apply search_loop_sound in S.
    + destruct S as [_ Hf].
      destruct (proj1 (Forall_forall _ _) Hf m Hin) as [C Sp].
      destruct (spell_parts m (sv_parts v) _ Sp) as [Hc Hs].
      split; [exact C|]. split; [now apply Cov|].
      cbn [py_str] in Hs.
      rewrite <- (string_of_list_ascii_of_string o), <- Hs.
      now rewrite string_of_list_ascii_of_string.
    + split; cbn [fst snd]; [|constructor].
      constructor; [|constructor]. cbn [aligned].
      split; [now apply (constructed_new [] empty_mapping)|].
      split; [apply Nat.le_0_l|]. split; [apply Nat.le_0_l | reflexivity].
Qed.

(** X18.  Every mapping that [map_to_primitive] returns for a string
    aligns the value with that string: it is a constructed mapping, it
    maps every argument of the value, and the parts of the value, with
    each argument replaced by the value of its image, spell the
    string. *)
Theorem map_to_primitive_sound :
  forall v o ms m,
    sv_built v ->
    map_to_primitive v (PStr o) = Ok ms ->
    In m ms ->
    constructed m
    /\ (forall a, aset_In a (sv_arguments v) ->
                  exists b, dict_get (source_arguments m) a = Some b)
    /\ parts_str (map (map_part m) (sv_parts v)) = o.
Proof. exact map_to_primitive_alignment. Qed.

Lemma map_to_primitive_sound_witness :
  exists ms,
    map_to_primitive fox_dog_value (PStr "+vulpine+++canine+") = Ok ms
    /\ In (fox_dog_mapping "vulpine+" "+canine") ms
    /\ constructed (fox_dog_mapping "vulpine+" "+canine")
    /\ (forall a, aset_In a (sv_arguments fox_dog_value) ->
          exists b,
            dict_get (source_arguments (fox_dog_mapping "vulpine+" "+canine"))
                     a = Some b)
    /\ parts_str (map (map_part (fox_dog_mapping "vulpine+" "+canine"))
                      (sv_parts fox_dog_value))
       = "+vulpine+++canine+".
Proof.
  assert (exists ms,
            map_to_primitive fox_dog_value (PStr "+vulpine+++canine+")
            = Ok ms
            /\ In (fox_dog_mapping "vulpine+" "+canine") ms)
    as (ms & E & Hin).
  { eexists. split; [vm_compute; reflexivity|]. vm_compute. auto. }
  exists ms. split; [exact E|]. split; [exact Hin|].
  exact (map_to_primitive_sound fox_dog_value "+vulpine+++canine+" ms
           (fox_dog_mapping "vulpine+" "+canine") (sv_built_new _ _) E Hin).
Defined.

(** ** [map_to_other] finds alignments only *)

Lemma extends_trans m1 m2 m3 : extends m1 m2 -> extends m2 m3 -> extends m1 m3.
Proof. intros H1 H2 a b H. now apply H2, H1. Qed.

Lemma combine_loop_In ts m : forall acc,
  In m (combine_loop ts acc) ->
  In m acc \/ exists t, In t ts /\ merge_all t = Ok m.
Proof.
  unfold combine_loop. induction ts as [|t ts IH]; intros acc H; simpl in H.
  - now left.
  - apply IH in H. destruct H as [H|(t' & Ht & E)].
    + destruct (merge_all t) as [mt|e] eqn:E; [|now left].
      unfold mset_add in H.
      destruct (existsb (mapping_eqb mt) acc); [now left|].
      apply in_app_or in H. destruct H as [H|[<-|[]]]; [now left|].
      right. exists t. split; [now left | exact E].
    + right. exists t'. split; [now right | exact E].
Qed.

Lemma all_combinations_In L m :
  In m (all_combinations L) ->
  exists t, in_cartesian t L /\ merge_all t = Ok m.
Proof.
  destruct L as [|l L]; [intros []|].
  rewrite all_combinations_loop by discriminate. intros H.
  apply combine_loop_In in H. destruct H as [[]|(t & Ht & E)].
  exists t. split; [now apply in_product | exact E].
Qed.

Lemma cartesian_pick {A : Type} (t : list A) L :
  in_cartesian t L ->
  forall l, In l L -> exists x, In x t /\ In x l.
Proof.
  unfold in_cartesian. induction 1 as [|x l t L Hx _ IH]; intros l' [].
  - subst. exists x. split; [now left | exact Hx].
  - destruct (IH l' H) as (y & Hy & Hl). exists y. split; [now right|exact Hl].
Qed.

Lemma merge_all_extends t m ti :
  merge_all t = Ok m -> In ti t -> valid_mapping ti -> extends ti m.
Proof.
  intros E Hi V a b H. unfold merge_all in E.
  pose proof (new_mapping_spec (List.concat (map source_arguments t))) as S.
  rewrite E in S. destruct S as (_ & M & _). apply M.
  apply (valid_maps_to_pairs ti a b V) in H. destruct H as (p & Hp & K).
  exists p. split; [|exact K]. apply in_concat.
  exists (source_arguments ti). split; [now apply in_map | exact Hp].
Qed.

Lemma sv_aligned_extends m m' v w :
  extends m m' -> sv_aligned m v w -> sv_aligned m' v w.
Proof.
  intros X [Hc Hs]. split.
  - intros a Ha. destruct (Hc a Ha) as (b & G).
    destruct (X a b) as (b' & G' & _); [exists b; auto | eauto].
  - rewrite <- Hs. f_equal. clear Hs.
    induction (sv_parts v) as [|p parts IH]; [reflexivity|].
    cbn [map]. rewrite !parts_str_cons.
    rewrite IH by (intros a Ha; apply Hc; now right). f_equal.
    destruct p as [s|a]; [reflexivity|].
    destruct (Hc a (or_introl eq_refl)) as (b & G).
    destruct (X a b) as (b' & G' & E); [exists b; auto|].
    cbn [map_part]. rewrite G, G'. cbn [part_str].
    now apply arg_value_akey.
Qed.

Lemma fcc_aligned_extends m m' c d :
  extends m m' -> fcc_aligned m c d -> fcc_aligned m' c d.
Proof.
  intros X [Ht Hs]. split; [exact Ht | now apply (sv_aligned_extends m)].
Qed.

Lemma mapM_Forall2 {A B : Type} (f : A -> result B) l : forall ys,
  mapM f l = Ok ys -> Forall2 (fun x y => f x = Ok y) l ys.
Proof.
  induction l as [|x l IH]; intros ys; simpl.
  - intros [= <-]. constructor.
  - destruct (f x) as [y|e] eqn:E; simpl; [|discriminate].
    destruct (mapM f l) as [ys'|e]; simpl; [|discriminate].
    intros [= <-]. constructor; [exact E | now apply IH].
Qed.

(** The alignment that [map_to_primitive] gives, in the words of
    [sv_aligned]. *)
Lemma map_to_primitive_aligned v w ms m :
  sv_built v -> string_valued w ->
  map_to_primitive v (sv_original_value w) = Ok ms -> In m ms ->
  constructed m /\ sv_aligned m v w.
Proof.
  intros B [o Ho] E Hin. rewrite Ho in *.
  destruct (map_to_primitive_alignment v o ms m B E Hin) as (C & Hc & Hs).
  split; [exact C|]. split; [|now rewrite Hs].
  intros a Ha. apply Hc. apply (sv_built_inv v B).
  exists a. split; [exact Ha | apply arg_eqb_refl].
Qed.

Lemma Forall2_combine_pick {A B C : Type} (R : A * B -> C -> Prop)
    (Q : A -> B -> Prop) (l1 : list A) : forall (l2 : list B) (u : list C),
  List.length l1 = List.length l2 ->
  Forall2 R (combine l1 l2) u ->
  (forall x y z, In x l1 -> In y l2 -> In z u -> R (x, y) z -> Q x y) ->
  Forall2 Q l1 l2.
Proof.
  induction l1 as [|x l1 IH]; intros [|y l2] u L H K; simpl in L;
    try discriminate; [constructor|].
  cbn [combine] in H. inversion H as [|? z ? u' Hz Hu]; subst.
  constructor.
  - apply (K x y z); [now left | now left | now left | exact Hz].
  - apply (IH l2 u'); [lia | exact Hu |].
    intros x' y' z' Hx Hy Hz'. apply K; now right.
Qed.

Lemma Forall2_In_compose {A C : Type} (f : A -> result (list C))
    (l : list A) : forall (items : list (list C)) (u : list C),
  Forall2 (fun x ms => f x = Ok ms) l items ->
  Forall2 (@In C) u items ->
  Forall2 (fun x z => exists ms, f x = Ok ms /\ In z ms) l u.
Proof.
  induction l as [|x l IH]; intros items u H1 H2;
    inversion H1; subst; inversion H2; subst; constructor; eauto.
Qed.

Section FieldsMapToOther.

Variable item_map :
  FileContentChange -> FileContentChange ->
  result (list ConfigurationTaskArgumentMapping).

Hypothesis item_map_sound :
  forall x y ms m,
    sv_built (content x) -> string_valued (content y) ->
    item_map x y = Ok ms -> In m ms ->
    constructed m /\ fcc_aligned m x y.

(** The mappings kept for one pair of fields align that pair. *)
Lemma fields_map_to_other_sound fs gs ms m :
  Forall2 field_pair fs gs ->
  fields_map_to_other item_map fs gs = Ok ms ->
  In m ms ->
  constructed m /\ Forall2 (field_aligned m) fs gs.
Proof.
  intros P E Hin. unfold fields_map_to_other in E.
  set (records := combine fs gs) in E.
  match type of E with
  | (if existsb ?f records then _ else _) = _ =>
      destruct (existsb f records) eqn:Ep
  end; [injection E as <-; destruct Hin|].
  match type of E with
  | (if existsb ?f records then _ else _) = _ =>
      destruct (existsb f records) eqn:El
  end; [injection E as <-; destruct Hin|].
  match type of E with
  | bind (mapM ?f records) _ = _ =>
      destruct (mapM f records) as [synthetic|e] eqn:Es
  end; cbn [bind] in E; [|discriminate].
  match type of E with
  | bind (mapM ?f records) _ = _ =>
      destruct (mapM f records) as [sequences|e] eqn:Eq
  end; cbn [bind] in E; [|discriminate].
  injection E as <-.
  apply all_combinations_In in Hin. destruct Hin as (t & Ht & Em).
  pose proof (constructed_merge_all t m Em) as C. split; [exact C|].
  pose proof (mapM_Forall2 _ _ _ Es) as Fs.
  pose proof (mapM_Forall2 _ _ _ Eq) as Fq.
  assert (Pick : forall l, In l (List.concat synthetic)
                           \/ In l (List.concat sequences) ->
                 exists x, In x t /\ In x l).
  { intros l Hl. apply (cartesian_pick t _ Ht). now apply in_or_app. }
  clear Ht Es Eq.
  pose proof (existsb_exists
                (fun r => match r with
                          | (FPrimitive a, FPrimitive b) =>
                              negb (String.eqb a b)
                          | _ => false
                          end) records) as Xp.
  pose proof (existsb_exists
                (fun r => match r with
                          | (FSequence l1, FSequence l2) =>
                              negb (Nat.eqb (List.length l1)
                                            (List.length l2))
                          | _ => false
                          end) records) as Xl.
  rewrite Ep in Xp. rewrite El in Xl. clear Ep El.
  assert (Np : forall r, In r records ->
                 match r with
                 | (FPrimitive a, FPrimitive b) => a = b
                 | _ => True
                 end).
  { intros [[| |a] [| |b]] Hr; try exact I.
    destruct (String.eqb a b) eqn:Q; [now apply String.eqb_eq|].
    exfalso. assert (false = true); [|discriminate].
    apply Xp. exists (FPrimitive a, FPrimitive b). split; [exact Hr|].
    now rewrite Q. }
  assert (Nl : forall r, In r records ->
                 match r with
                 | (FSequence l1, FSequence l2) =>
                     List.length l1 = List.length l2
                 | _ => True
                 end).
  { intros [[|l1|] [|l2|]] Hr; try exact I.
    destruct (Nat.eqb (List.length l1) (List.length l2)) eqn:Q;
      [now apply Nat.eqb_eq|].
    exfalso. assert (false = true); [|discriminate].
    apply Xl. exists (FSequence l1, FSequence l2). split; [exact Hr|].
    now rewrite Q. }
  clear Xp Xl. subst records.
  revert synthetic sequences Fs Fq Pick Np Nl.
  induction P as [|f g fs gs Pfg P IH]; intros synthetic sequences Fs Fq
    Pick Np Nl; [constructor|].
  cbn [combine] in *.
  inversion Fs as [|? s0 ? synthetic' Hs Fs']; subst.
  inversion Fq as [|? q0 ? sequences' Hq Fq']; subst.
  constructor.
  - specialize (Np (f, g) (or_introl eq_refl)).
    specialize (Nl (f, g) (or_introl eq_refl)).
    destruct f as [v|l1|a], g as [w|l2|b]; cbn [field_pair] in Pfg;
      try (exfalso; exact Pfg); cbn [field_aligned].
    + destruct Pfg as [Bv Sw].
      destruct (map_to_primitive v (sv_original_value w)) as [ms|e] eqn:Ems;
        cbn [bind] in Hs; [|discriminate].
      injection Hs as <-.
      destruct (Pick ms) as (x & Hx & Hxm);
        [left; cbn [List.concat]; apply in_or_app; left; now left|].
      destruct (map_to_primitive_aligned v w ms x Bv Sw Ems Hxm) as [Cx Ax].
      apply (sv_aligned_extends x m); [|exact Ax].
      apply (merge_all_extends t m x Em Hx). now apply constructed_valid.
    + destruct Pfg as [B1 S2].
      destruct (mapM (fun cd => item_map (fst cd) (snd cd)) (combine l1 l2))
        as [items|e] eqn:Ei; cbn [bind] in Hq; [|discriminate].
      injection Hq as <-.
      destruct (Pick (all_combinations items)) as (x & Hx & Hxm);
        [right; cbn [List.concat]; apply in_or_app; left; now left|].
      apply all_combinations_In in Hxm. destruct Hxm as (u & Hu & Eu).
      pose proof (constructed_merge_all u x Eu) as Cx.
      assert (extends x m) as Xm.
      { apply (merge_all_extends t m x Em Hx). now apply constructed_valid. }
      pose proof (Forall2_In_compose _ _ _ _ (mapM_Forall2 _ _ _ Ei) Hu)
        as Fu.
      apply (Forall2_combine_pick _ (fcc_aligned m) l1 l2 u Nl Fu).
      intros c d z Hc Hd Hzu (ms & Ez & Hz). cbn [fst snd] in Ez.
      destruct (item_map_sound c d ms z) as [Cz Az]; try assumption.
      * now apply (proj1 (Forall_forall _ _) B1).
      * now apply (proj1 (Forall_forall _ _) S2).
      * apply (fcc_aligned_extends z m); [|exact Az].
        apply (extends_trans z x m); [|exact Xm].
        apply (merge_all_extends u x z Eu Hzu). now apply constructed_valid.
    + exact Np.
  - apply (IH synthetic' sequences'); try assumption.
    + intros l [Hl|Hl]; apply Pick; [left|right]; cbn [List.concat];
        apply in_or_app; now right.
    + intros r Hr. apply Np. now right.
    + intros r Hr. apply Nl. now right.
Qed.

End FieldsMapToOther.

Lemma fcc_map_to_other_sound x y ms m :
  sv_built (content x) -> string_valued (content y) ->
  fcc_map_to_other x y = Ok ms -> In m ms ->
  constructed m /\ fcc_aligned m x y.
Proof.
  intros B S E Hin. unfold fcc_map_to_other in E.
  destruct (fields_map_to_other_sound (fun _ _ => Ok [])
              (fun _ _ ms' m' _ _ (E' : Ok [] = Ok ms') (H : In m' ms') =>
                 match eq_ind (@Ok (list ConfigurationTaskArgumentMapping) [])
                              (fun r => match r with
                                        | Ok l => In m' l -> False
                                        | Raise _ => True
                                        end)
                              (fun F => F) (Ok ms') E' H
                 with end)
              (fcc_fields x) (fcc_fields y) ms m) as [C A];
    try assumption.
  - unfold fcc_fields. constructor; [exact I|].
    constructor; [split; assumption | constructor].
  - split; [exact C|]. unfold fcc_fields in A.
    inversion A as [|? ? ? ? A1 A2]; subst.
    inversion A2 as [|? ? ? ? A3 _]; subst.
    cbn [field_aligned] in A1, A3.
    split; [now apply fcct_value_inj | exact A3].
Qed.

Lemma field_pairs c d :
  built_change c -> string_change d -> class_of c = class_of d ->
  Forall2 field_pair (change_fields c) (change_fields d).
Proof.
  unfold built_change, string_change. intros B S K.
  destruct c, d; simpl in K; try discriminate K; simpl in B, S |- *;
    repeat match goal with
           | H : Forall _ (_ :: _) |- _ =>
               let H1 := fresh "Hf" in
               let H2 := fresh "Hr" in
               inversion H as [|? ? H1 H2]; clear H; subst
           | H : Forall _ [] |- _ => clear H
           end;
    cbn [built_field string_field] in *;
    repeat (constructor; cbn [field_pair]; auto).
Qed.


Lemma flat_map_nil {A B : Type} (l : list A) :
  flat_map (fun _ : A => @nil B) l = [].
Proof. induction l as [|x l IH]; [reflexivity | exact IH]. Qed.

Lemma map_to_primitive_own_ok v :
  sv_built v -> exists ms, map_to_primitive v (sv_original_value v) = Ok ms.
Proof.
  intros B. unfold map_to_primitive.
  rewrite (sv_built_type v B), issubclass_refl, py_eqb_refl. cbn [negb].
  destruct (new_mapping_result
              (map (fun a => (a, a)) (sv_arguments v)))
    as [(_ & m & E & _)|(N & _)].
  - rewrite E. eexists. reflexivity.
  - exfalso. apply N, identity_pairs_consistent.
Qed.

Lemma file_change_empty p q ms :
  map_to_primitive p (sv_original_value q) = Ok ms ->
  map_to_other (FileChange p []) (FileChange q []) = Ok [].
Proof.
  intros E. unfold map_to_other, fields_map_to_other.
  cbn [class_of change_fields combine existsb List.length Nat.eqb orb negb
       mapM].
  replace (class_eqb CFileChange CFileChange) with true by reflexivity.
  cbn [negb]. rewrite E. cbn [bind mapM List.concat app].
  unfold all_combinations. cbn [product flat_map app map].
  now rewrite flat_map_nil.
Qed.

(** X20.  The edges of [map_to_other]: it raises [TypeError] for changes
    of two classes; two file changes with different numbers of content
    changes have no mapping; and two file changes without content changes
    have no mapping either, even when their paths map and even when the
    two are the same change, since the empty sequence contributes an empty
    collection to the product of [all_combinations]. *)
Theorem map_to_other_edges :
  (forall c d, class_of c <> class_of d -> map_to_other c d = Raise TypeError)
  /\ (forall p q l1 l2,
        List.length l1 <> List.length l2 ->
        map_to_other (FileChange p l1) (FileChange q l2) = Ok [])
  /\ (forall p q ms,
        map_to_primitive p (sv_original_value q) = Ok ms ->
        map_to_other (FileChange p []) (FileChange q []) = Ok [])
  /\ (forall p,
        sv_built p ->
        map_to_other (FileChange p []) (FileChange p []) = Ok []).
Proof.
  split; [|split; [|split; [exact file_change_empty|]]].
  - intros c d H. unfold map_to_other.
    destruct (class_eqb (class_of c) (class_of d)) eqn:K; [|reflexivity].
    apply class_eqb_eq in K. contradiction.
  - intros p q l1 l2 H. unfold map_to_other, fields_map_to_other.
    cbn [class_of change_fields combine existsb orb].
    replace (class_eqb CFileChange CFileChange) with true by reflexivity.
    cbn [negb]. apply Nat.eqb_neq in H. rewrite H. reflexivity.
  - intros p B. destruct (map_to_primitive_own_ok p B) as (ms & E).
    exact (file_change_empty p p ms E).
Qed.


(** ** The search of [map_to_primitive] ends *)

Lemma cost_positive L n i j m :
  i <= L -> 1 <= state_cost L n (i, j, m).
Proof.
  intros H. unfold state_cost. cbn [fst].
  replace (L + 1 - i) with (S (L - i)) by lia.
  rewrite Nat.pow_succ_r'.
  assert (1 <= (n + 2) ^ (L - i)) by (apply Nat.neq_0_lt_0, Nat.pow_nonzero; lia).
  nia.
Qed.

Lemma cost_step L n i i' k :
  i <= i' -> i' < L -> k <= n + 1 ->
  k * ((n + 2) ^ (L + 1 - (i' + 1)) - 1) + 1 <= (n + 2) ^ (L + 1 - i) - 1.
Proof.
  intros Hi Hl Hk.
  assert (P : 1 <= (n + 2) ^ (L + 1 - (i' + 1)))
    by (apply Nat.neq_0_lt_0, Nat.pow_nonzero; lia).
  assert (Q : (n + 2) * (n + 2) ^ (L + 1 - (i' + 1)) <= (n + 2) ^ (L + 1 - i)).
  { rewrite <- Nat.pow_succ_r'. apply Nat.pow_le_mono_r; lia. }
  nia.
Qed.

Lemma stack_cost_cons L n x s :
  stack_cost L n (x :: s) = state_cost L n x + stack_cost L n s.
Proof. reflexivity. Qed.

Lemma stack_cost_app L n s1 s2 :
  stack_cost L n (s1 ++ s2) = stack_cost L n s1 + stack_cost L n s2.
Proof. unfold stack_cost. now rewrite map_app, list_sum_app. Qed.

Lemma stack_cost_rev L n s : stack_cost L n (rev s) = stack_cost L n s.
Proof.
  induction s as [|x s IH]; [reflexivity|]. cbn [rev].
  rewrite stack_cost_app, IH, !stack_cost_cons. cbn [stack_cost map list_sum fold_right]. lia.
Qed.

Lemma candidate_indices_length ss os i j indices :
  candidate_indices ss os i j = Some indices ->
  List.length indices <= List.length os + 1.
Proof.
  unfold candidate_indices.
  destruct (Nat.eqb (i + 1) (List.length ss)).
  { intros [= <-]. cbn [List.length]. lia. }
  destruct (nth_error ss (i + 1)) as [[c|a]|]; [| |discriminate].
  - intros [= <-].
    etransitivity; [apply filter_length_le|].
    unfold range. rewrite length_seq. lia.
  - destruct (next_literal _) as [c|].
    + destruct (rindex os c j) as [k|] eqn:R; [|discriminate].
      intros [= <-]. apply rindex_bound in R.
      unfold range. rewrite length_seq. lia.
    + intros [= <-]. unfold range. rewrite length_seq. lia.
Qed.

Lemma successors_cost L n i (f : nat -> list SearchState) indices :
  (forall idx, f idx = [] \/ exists m, f idx = [(i, idx, m)]) ->
  stack_cost L n (flat_map f indices)
  <= List.length indices * ((n + 2) ^ (L + 1 - i) - 1)
  /\ (i <= L -> Forall (state_within L) (flat_map f indices)).
Proof.
  intros Hf. induction indices as [|idx indices [IH1 IH2]].
  - split; [cbn; lia | constructor].
  - cbn [flat_map List.length]. rewrite stack_cost_app.
    destruct (Hf idx) as [E|(m & E)]; rewrite E.
    + split; [cbn [stack_cost map list_sum fold_right app]; lia | exact IH2].
    + split.
      * unfold stack_cost at 1. cbn [map list_sum fold_right]. unfold state_cost at 1.
        cbn [fst]. lia.
      * intros H. constructor; [exact H | now apply IH2].
Qed.

(** A turn on a string never raises; the states it appends lie within
    [self_sequence] and cost less than the state it visits. *)
Lemma visit_state_cost ss o st :
  state_within (List.length ss) st ->
  exists new_states found,
    visit_state ss (PStr o) st = Ok (new_states, found)
    /\ Forall (state_within (List.length ss)) new_states
    /\ stack_cost (List.length ss) (String.length o) new_states + 1
       <= state_cost (List.length ss) (String.length o) st.
Proof.
  destruct st as [[i j] m]. unfold state_within. cbn [fst]. intros Hi.
  unfold visit_state. cbn [py_str].
  set (os := list_ascii_of_string o).
  assert (Ho : List.length os = String.length o).
  { unfold os. clear. induction o as [|c o IH]; [reflexivity|].
    cbn. now rewrite IH. }
  destruct (advance (skipn i ss) (skipn j os) i j) as [i' j'] eqn:A.
  destruct (advance_spec _ _ _ _ _ _ A) as (k & -> & -> & Hk & _ & _).
  rewrite length_skipn in Hk.
  assert (T : stack_cost (List.length ss) (String.length o) [] + 1
              <= state_cost (List.length ss) (String.length o) (i, j, m)).
  { cbn [stack_cost map list_sum fold_right]. now apply cost_positive. }
  destruct (Nat.eqb (i + k) (List.length ss) && Nat.eqb (j + k) (List.length os)).
  { eexists _, _. split; [reflexivity|]. split; [constructor | exact T]. }
  destruct (Nat.eqb (i + k) (List.length ss)) eqn:EL.
  { cbn [orb]. eexists _, _. split; [reflexivity|].
    split; [constructor | exact T]. }
  cbn [orb]. apply Nat.eqb_neq in EL.
  destruct (Nat.eqb (j + k) (List.length os)).
  { eexists _, _. split; [reflexivity|]. split; [constructor | exact T]. }
  destruct (nth_error ss (i + k)) as [[c|arg]|];
    try (eexists _, _; split; [reflexivity|];
         split; [constructor | exact T]).
  assert (C1 : 1 * ((String.length o + 2)
                                ^ (List.length ss + 1 - (i + k + 1)) - 1) + 1
               <= state_cost (List.length ss) (String.length o) (i, j, m)).
  { unfold state_cost. cbn [fst]. apply cost_step; lia. }
  destruct (dict_get (source_arguments m) arg) as [mapped|].
  - destruct (String.eqb _ _).
    + eexists _, _. split; [reflexivity|]. split.
      * constructor; [|constructor]. unfold state_within. cbn [fst]. lia.
      * unfold stack_cost. cbn [map list_sum fold_right]. unfold state_cost at 1.
        cbn [fst]. lia.
    + eexists _, _. split; [reflexivity|]. split; [constructor | exact T].
  - destruct (candidate_indices ss os (i + k) (j + k)) as [indices|] eqn:CI.
    + eexists _, _. split; [reflexivity|].
      apply candidate_indices_length in CI. rewrite Ho in CI.
      match goal with
      | |- Forall _ (flat_map ?f _) /\ _ =>
          destruct (successors_cost (List.length ss) (String.length o)
                      (i + k + 1) f indices) as [S1 S2]
      end.
      { intros idx. destruct (merge _ _); [right; eauto | now left]. }
      split; [apply S2; lia|].
      etransitivity; [apply Nat.add_le_mono_r, S1|].
      etransitivity; [|apply (cost_step _ _ i (i + k) (List.length indices));
                       lia].
      unfold state_cost. cbn [fst]. lia.
    + eexists _, _. split; [reflexivity|]. split; [constructor | exact T].
Qed.

Lemma search_step_cost ss o s :
  Forall (state_within (List.length ss)) (fst s) ->
  exists s',
    search_step ss (PStr o) s = Ok s'
    /\ Forall (state_within (List.length ss)) (fst s')
    /\ (fst s' = []
        \/ stack_cost (List.length ss) (String.length o) (fst s') + 1
           <= stack_cost (List.length ss) (String.length o) (fst s)).
Proof.
  destruct s as [[|st states] found]; cbn [fst]; intros W.
  - exists ([], found). split; [reflexivity|]. split; [constructor | now left].
  - inversion W as [|? ? W1 W2]; subst.
    destruct (visit_state_cost ss o st W1) as (new_states & fnd & E & F & C).
    unfold search_step. cbn [fst snd]. rewrite E. cbn [bind fst snd].
    eexists. split; [reflexivity|]. cbn [fst]. split.
    + apply Forall_app. split; [|exact W2].
      apply Forall_forall. intros x Hx. apply in_rev in Hx.
      exact (proj1 (Forall_forall _ _) F x Hx).
    + right. rewrite stack_cost_app, stack_cost_rev, stack_cost_cons. lia.
Qed.

Lemma search_loop_cost ss o fuel : forall s,
  Forall (state_within (List.length ss)) (fst s) ->
  exists s',
    search_loop ss (PStr o) fuel s = Ok s'
    /\ Forall (state_within (List.length ss)) (fst s')
    /\ (fst s' = []
        \/ stack_cost (List.length ss) (String.length o) (fst s')
           + Pos.to_nat fuel
           <= stack_cost (List.length ss) (String.length o) (fst s)).
Proof.
  assert (again : forall p,
    (forall s,
       Forall (state_within (List.length ss)) (fst s) ->
       exists s',
         search_loop ss (PStr o) p s = Ok s'
         /\ Forall (state_within (List.length ss)) (fst s')
         /\ (fst s' = []
             \/ stack_cost (List.length ss) (String.length o) (fst s')
                + Pos.to_nat p
                <= stack_cost (List.length ss) (String.length o) (fst s))) ->
    forall s1,
      Forall (state_within (List.length ss)) (fst s1) ->
      exists s',
        match fst s1 with
        | [] => Ok s1
        | _ :: _ => search_loop ss (PStr o) p s1
        end = Ok s'
        /\ Forall (state_within (List.length ss)) (fst s')
        /\ (fst s' = []
            \/ stack_cost (List.length ss) (String.length o) (fst s')
               + Pos.to_nat p
               <= stack_cost (List.length ss) (String.length o) (fst s1))).
  { intros p IH s1 W. destruct (fst s1) eqn:E.
    - exists s1. split; [reflexivity|]. rewrite E.
      split; [constructor | now left].
    - rewrite <- E. apply IH. now rewrite E. }
  induction fuel as [p IH|p IH|]; intros s W.
  - cbn [search_loop].
    destruct (search_step_cost ss o s W) as (s1 & E1 & W1 & C1).
    rewrite E1. cbn [bind].
    destruct (again p IH s1 W1) as (s2 & E2 & W2 & C2).
    rewrite E2. cbn [bind].
    destruct (again p IH s2 W2) as (s3 & E3 & W3 & C3).
    exists s3. split; [exact E3|]. split; [exact W3|].
    destruct C3 as [C3|C3]; [now left|]. right.
    destruct C2 as [C2|C2].
    { rewrite C2 in C3. cbn [stack_cost map list_sum fold_right] in C3. lia. }
    destruct C1 as [C1|C1].
    { rewrite C1 in C2. cbn [stack_cost map list_sum fold_right] in C2. lia. }
    rewrite Pos2Nat.inj_xI. lia.
  - cbn [search_loop].
    destruct (IH s W) as (s1 & E1 & W1 & C1).
    rewrite E1. cbn [bind].
    destruct (again p IH s1 W1) as (s2 & E2 & W2 & C2).
    exists s2. split; [exact E2|]. split; [exact W2|].
    destruct C2 as [C2|C2]; [now left|]. right.
    destruct C1 as [C1|C1].
    { rewrite C1 in C2. cbn [stack_cost map list_sum fold_right] in C2. lia. }
    rewrite Pos2Nat.inj_xO. lia.
  - cbn [search_loop].
    destruct (search_step_cost ss o s W) as (s1 & E1 & W1 & C1).
    exists s1. split; [exact E1|]. split; [exact W1|].
    destruct C1 as [C1|C1]; [now left | right]. exact C1.
Qed.

Lemma map_to_primitive_search_empty v o :
  exists found, map_to_primitive_search v (PStr o) = Ok ([], found).
Proof.
  unfold map_to_primitive_search. cbn [py_str].
  set (ss := flat_map part_tokens (sv_parts v)).
  set (fuel := Pos.pow _ _).
  destruct (search_loop_cost ss o fuel ([(0, 0, empty_mapping)], []))
    as ([stack found] & E & _ & C).
  { constructor; [|constructor]. unfold state_within. cbn [fst].
    apply Nat.le_0_l. }
  cbn [fst] in C. destruct C as [->|C]; [now exists found|].
  exfalso. rewrite stack_cost_cons in C. unfold state_cost in C.
  cbn [fst stack_cost map list_sum fold_right] in C.
  assert (F : Pos.to_nat fuel
              = (String.length o + 2) ^ (List.length ss + 1)).
  { unfold fuel. rewrite Pos2Nat.inj_pow, !Nat2Pos.id by lia. reflexivity. }
  rewrite F, Nat.sub_0_r in C.
  assert (1 <= (String.length o + 2) ^ (List.length ss + 1))
    by (apply Nat.neq_0_lt_0, Nat.pow_nonzero; lia).
  lia.
Qed.

(** X21.  [map_to_primitive] ends on every string.  The search empties
    its stack within the bound on its turns, so the mappings it has found
    are the result; the call returns a set when the value is a string
    value and raises [ValueError] otherwise. *)
Theorem map_to_primitive_total :
  forall v o,
    (exists found, map_to_primitive_search v (PStr o) = Ok ([], found))
    /\ (sv_original_type v = TStr ->
        exists ms, map_to_primitive v (PStr o) = Ok ms)
    /\ (sv_original_type v <> TStr ->
        map_to_primitive v (PStr o) = Raise ValueError).
Proof.
  intros v o. split; [apply map_to_primitive_search_empty|]. split.
  - intros T. unfold map_to_primitive. rewrite T. cbn [type_of issubclass
      pytype_eqb negb].
    destruct (py_eqb (sv_original_value v) (PStr o)).
    + destruct (new_mapping_result
                  (map (fun a => (a, a)) (sv_arguments v)))
        as [(_ & m & E & _)|(N & _)].
      * rewrite E. eexists. reflexivity.
      * exfalso. apply N, identity_pairs_consistent.
    + destruct (sv_arguments v); [eexists; reflexivity|].
      destruct (map_to_primitive_search_empty v o) as (found & E).
      rewrite E. eexists. reflexivity.
  - intros T. unfold map_to_primitive.
    destruct (sv_original_type v); [contradiction| | |]; reflexivity.
Qed.

(** ** [map_to_primitive] finds every alignment *)

Lemma advance_stuck ss' : forall os' i j i' j',
  advance ss' os' i j = (i', j') ->
  exists k, i' = i + k /\ j' = j + k
    /\ forall c d, nth_error ss' k = Some (TChar c) ->
                   nth_error os' k = Some d -> c <> d.
Proof.
  induction ss' as [|t ss' IH]; intros os' i j i' j' A.
  - cbn in A. injection A as <- <-. exists 0.
    repeat split; try lia. intros c d H. discriminate H.
  - destruct t as [c|a].
    + destruct os' as [|d os'].
      * cbn in A. injection A as <- <-. exists 0.
        repeat split; try lia. intros c' d' _ H. discriminate H.
      * cbn [advance] in A. destruct (Ascii.eqb c d) eqn:E.
        -- destruct (IH _ _ _ _ _ A) as (k & -> & -> & H).
           exists (S k). repeat split; try lia. exact H.
        -- injection A as <- <-. exists 0. repeat split; try lia.
           cbn. intros c' d' [= <-] [= <-].
           now apply Ascii.eqb_neq.
    + cbn in A. injection A as <- <-. exists 0.
      repeat split; try lia. intros c d H. discriminate H.
Qed.

Lemma spell_skipn m ss os i j :
  spell m ss = Some os ->
  spell m (firstn i ss) = Some (firstn j os) ->
  spell m (skipn i ss) = Some (skipn j os).
Proof.
  intros S F. rewrite <- (firstn_skipn i ss), spell_app, F in S.
  destruct (spell m (skipn i ss)) as [r|]; [|discriminate].
  injection S as S. rewrite <- (firstn_skipn j os) in S at 2.
  apply app_inv_head in S. now rewrite S.
Qed.

Lemma list_ascii_nil s : list_ascii_of_string s = [] -> s = EmptyString.
Proof. destruct s; [reflexivity | discriminate]. Qed.

(** A non-empty sequence that spells nothing ends with an argument
    mapped to the empty string. *)
Lemma spell_nil_last m l :
  spell m l = Some [] -> l <> [] ->
  exists pre a b,
    l = pre ++ [TArg a]
    /\ dict_get (source_arguments m) a = Some b
    /\ arg_value b = EmptyString.
Proof.
  destruct l as [|x l0] using rev_ind; [congruence|]. intros S _.
  clear IHl0. rewrite spell_app in S.
  destruct (spell m l0) as [p|]; [|discriminate].
  destruct x as [c|a]; cbn [spell option_map] in S.
  - injection S as S. destruct p; discriminate S.
  - destruct (dict_get (source_arguments m) a) as [b|] eqn:D;
      [|discriminate].
    cbn [option_map] in S. injection S as S.
    apply app_eq_nil in S. destruct S as [_ S].
    rewrite app_nil_r in S. exists l0, a, b.
    split; [reflexivity|]. split; [exact D | now apply list_ascii_nil].
Qed.

Lemma rindex_fold os c n : forall a acc p,
  nth_error os p = Some c ->
  (a <= p < a + n) \/ (exists k, acc = Some k /\ p <= k < a) ->
  exists k,
    fold_left
      (fun found k =>
         match nth_error os k with
         | Some d => if Ascii.eqb d c then Some k else found
         | None => found
         end)
      (seq a n) acc = Some k
    /\ p <= k.
Proof.
  induction n as [|n IH]; intros a acc p Hp H.
  - destruct H as [H|(k & -> & H)]; [lia|]. exists k. split; [reflexivity|lia].
  - cbn [seq fold_left]. apply IH; [exact Hp|].
    destruct H as [H|(k & -> & H)].
    + destruct (Nat.eq_dec p a) as [->|N].
      * right. rewrite Hp, Ascii.eqb_refl. exists a. split; [reflexivity|lia].
      * left. lia.
    + right. destruct (nth_error os a) as [d|].
      * destruct (Ascii.eqb d c); eexists; (split; [reflexivity|lia]).
      * exists k. split; [reflexivity|lia].
Qed.

Lemma rindex_complete os c start p :
  nth_error os p = Some c -> start <= p ->
  exists k, rindex os c start = Some k /\ p <= k.
Proof.
  intros Hp Hs. unfold rindex. apply rindex_fold; [exact Hp|]. left.
  assert (p < List.length os) by (apply nth_error_Some; congruence). lia.
Qed.

Lemma next_literal_spell m l : forall c r,
  next_literal l = Some c -> spell m l = Some r -> In c r.
Proof.
  induction l as [|t l IH]; intros c r N S; [discriminate|].
  destruct t as [c'|a]; cbn [next_literal spell] in N, S.
  - injection N as ->. destruct (spell m l); [|discriminate].
    injection S as <-. now left.
  - destruct (dict_get (source_arguments m) a); [|discriminate].
    destruct (spell m l) as [r'|]; [|discriminate].
    injection S as <-. apply in_or_app. right. now apply IH.
Qed.

Lemma nth_error_skipn_add {A : Type} (l : list A) : forall j x,
  nth_error (skipn j l) x = nth_error l (j + x).
Proof.
  induction l as [|y l IH]; intros [|j] x; cbn; try reflexivity.
  - now destruct x.
  - apply IH.
Qed.

Lemma skipn_succ_nth {A : Type} (l : list A) : forall i x,
  nth_error l i = Some x -> skipn i l = x :: skipn (i + 1) l.
Proof.
  induction l as [|y l IH]; intros [|i] x H; try discriminate H.
  - cbn in H. injection H as ->. reflexivity.
  - cbn [skipn Nat.add]. now apply IH.
Qed.

(** The candidate indices hold the end of the text that an alignment
    gives to the argument at [i]. *)
Lemma candidate_indices_complete m ss os i j arg b rest :
  nth_error ss i = Some (TArg arg) ->
  j <= List.length os ->
  spell m (skipn (i + 1) ss) = Some rest ->
  skipn j os = list_ascii_of_string (arg_value b) ++ rest ->
  exists indices,
    candidate_indices ss os i j = Some indices
    /\ In (j + String.length (arg_value b)) indices.
Proof.
  intros Hi Hjl S Hos.
  set (n := String.length (arg_value b)).
  assert (Hn : forall q, nth_error os (j + n + q) = nth_error rest q).
  { intros q. rewrite <- Nat.add_assoc, <- nth_error_skipn_add, Hos.
    rewrite nth_error_app2 by (rewrite list_ascii_length; unfold n; lia).
    rewrite list_ascii_length. f_equal. unfold n. lia. }
  assert (Hlen' : List.length os = j + n + List.length rest).
  { pose proof (f_equal (@List.length ascii) Hos) as L.
    rewrite length_skipn, length_app, list_ascii_length in L.
    unfold n. lia. }
  assert (Hil : i < List.length ss) by (apply nth_error_Some; congruence).
  unfold candidate_indices.
  destruct (Nat.eqb (i + 1) (List.length ss)) eqn:EL.
  - apply Nat.eqb_eq in EL. rewrite skipn_all2 in S by lia.
    injection S as <-. cbn [List.length] in Hlen'.
    eexists. split; [reflexivity|]. left. lia.
  - apply Nat.eqb_neq in EL.
    destruct (nth_error ss (i + 1)) as [[c|a]|] eqn:N.
    + rewrite (skipn_succ_nth _ _ _ N) in S. cbn [spell] in S.
      destruct (spell m (skipn (i + 1 + 1) ss)) as [r|]; [|discriminate].
      injection S as <-. eexists. split; [reflexivity|].
      apply filter_In. split.
      * unfold range. apply in_seq. cbn [List.length] in Hlen'. lia.
      * specialize (Hn 0). rewrite Nat.add_0_r in Hn. rewrite Hn. cbn.
        apply Ascii.eqb_refl.
    + destruct (next_literal (skipn (i + 1) ss)) as [c|] eqn:NL.
      * apply (next_literal_spell m _ c rest NL) in S.
        apply In_nth_error in S. destruct S as (q & Hq).
        rewrite <- Hn in Hq.
        destruct (rindex_complete os c j (j + n + q) Hq) as (k & R & Hk);
          [lia|].
        rewrite R. eexists. split; [reflexivity|].
        unfold range. apply in_seq. lia.
      * eexists. split; [reflexivity|]. unfold range. apply in_seq. lia.
    + exfalso. apply nth_error_None in N. lia.
Qed.

Lemma spell_In m ss : forall r a,
  spell m ss = Some r -> In (TArg a) ss ->
  exists b, dict_get (source_arguments m) a = Some b.
Proof.
  induction ss as [|t ss IH]; intros r a S H; [destruct H|].
  destruct t as [c|a']; cbn [spell] in S.
  - destruct (spell m ss) as [r'|]; [|discriminate].
    destruct H as [H|H]; [discriminate H | now apply (IH r')].
  - destruct (dict_get (source_arguments m) a') as [b|] eqn:D;
      [|discriminate].
    destruct (spell m ss) as [r'|]; [|discriminate].
    destruct H as [[= <-]|H]; [eauto | now apply (IH r')].
Qed.

Lemma valid_maps_no_conflict m x y x' y' :
  valid_mapping m -> maps_to m x y -> maps_to m x' y' ->
  conflictb (x, y) (x', y') = false.
Proof.
  intros V H H'.
  apply (proj1 (pairs_consistent_rel _) (valid_pairs_consistent m V));
    now apply valid_maps_to_pairs.
Qed.

Lemma mset_add_keeps x m s : In x s -> In x (mset_add m s).
Proof.
  intros H. unfold mset_add. destruct (existsb _ _); [exact H|].
  apply in_or_app. now left.
Qed.

Lemma mset_add_has m s :
  valid_mapping m ->
  exists x, In x (mset_add m s) /\ mapping_eqb m x = true.
Proof.
  intros V. unfold mset_add. destruct (existsb _ _) eqn:E.
  - apply existsb_exists in E. exact E.
  - exists m. split; [apply in_or_app; right; now left|].
    now apply mapping_eqb_refl.
Qed.

(** What the outer loop keeps, it keeps to the end. *)
Lemma search_loop_invariant (P : Search -> Prop) ss other :
  (forall s s', P s -> search_step ss other s = Ok s' -> P s') ->
  forall fuel s s', P s -> search_loop ss other fuel s = Ok s' -> P s'.
Proof.
  intros Step.
  assert (forall p,
            (forall s s', P s -> search_loop ss other p s = Ok s' -> P s') ->
            forall s s',
              P s ->
              match fst s with
              | [] => Ok s
              | _ :: _ => search_loop ss other p s
              end = Ok s' ->
              P s') as Again.
  { intros p IH s s' H. destruct (fst s); [now intros [= <-] | now apply IH]. }
  induction fuel as [p IH|p IH|]; intros s s' H; cbn [search_loop].
  - destruct (search_step ss other s) as [s1|e] eqn:E1; cbn [bind];
      [|discriminate].
    pose proof (Step s s1 H E1) as H1.
    match goal with
    | |- bind ?r _ = _ -> _ => destruct r as [s2|e] eqn:E2
    end; cbn [bind]; [|discriminate].
    pose proof (Again p IH s1 s2 H1 E2) as H2.
    now apply (Again p IH).
  - destruct (search_loop ss other p s) as [s1|e] eqn:E1; cbn [bind];
      [|discriminate].
    pose proof (IH s s1 H E1) as H1. now apply (Again p IH).
  - now apply Step.
Qed.

Section Complete.

Variable ss : list Token.
Variable o : string.
Variable target : ConfigurationTaskArgumentMapping.

Hypothesis target_valid : valid_mapping target.
Hypothesis target_spells :
  spell target ss = Some (list_ascii_of_string o).
Hypothesis target_strings :
  forall a b, dict_get (source_arguments target) a = Some b -> is_str b.
Hypothesis target_sources :
  forall a b, dict_get (source_arguments target) a = Some b ->
              exists a0, In (TArg a0) ss /\ akey a0 = akey a.
Hypothesis target_last :
  forall pre a b,
    ss = pre ++ [TArg a] ->
    dict_get (source_arguments target) a = Some b ->
    arg_value b <> EmptyString.

Lemma merge_single_complete m arg b :
  valid_mapping m -> extends m target ->
  dict_get (source_arguments target) arg = Some b ->
  exists merged,
    merge m (mkMapping [(arg, Arg (PStr (arg_value b)))]
                       [(Arg (PStr (arg_value b)), arg)]) = Ok merged
    /\ extends merged target.
Proof.
  intros V Ext D. unfold merge. cbn [source_arguments].
  set (t := Arg (PStr (arg_value b))).
  assert (Kt : akey b = akey t).
  { destruct (target_strings arg b D) as (s & Hs). unfold t, akey, arg_value.
    rewrite Hs. reflexivity. }
  assert (In' : forall x y,
            in_pairs (source_arguments m ++ [(arg, t)]) x y ->
            maps_to target x y).
  { intros x y H. apply in_pairs_app in H. destruct H as [H|H].
    - now apply Ext, valid_maps_to_pairs.
    - destruct H as (p & [<-|[]] & Kx & Ky). cbn [fst snd] in Kx, Ky.
      exists b. split; [|congruence].
      now rewrite <- (dict_get_akey _ arg x Kx). }
  destruct (new_mapping_result (source_arguments m ++ [(arg, t)]))
    as [(_ & merged & E & _ & M)|(N & _)].
  - exists merged. split; [exact E|]. intros x y H. now apply In', M.
  - exfalso. apply N, pairs_consistent_rel. intros x y x' y' H H'.
    apply (valid_maps_no_conflict target); auto.
Qed.

Lemma alignment_complete m :
  alignment ss (list_ascii_of_string o) m -> extends m target ->
  forall a b, maps_to m a b <-> maps_to target a b.
Proof.
  intros [C S] Ext a b. split; [apply Ext|].
  intros (b1 & D1 & K1).
  destruct (target_sources a b1 D1) as (a0 & Ha0 & Ka).
  destruct (spell_In m ss _ a0 S Ha0) as (b0 & D0).
  destruct (Ext a0 b0) as (b2 & D2 & K2).
  { exists b0. split; [exact D0 | reflexivity]. }
  rewrite (dict_get_akey _ a0 a Ka) in D2.
  rewrite (dict_get_akey _ a0 a Ka) in D0.
  exists b0. split; [exact D0|]. congruence.
Qed.

Lemma visit_state_complete i0 j0 m new_states found :
  aligned ss (list_ascii_of_string o) (i0, j0, m) ->
  extends m target ->
  visit_state ss (PStr o) (i0, j0, m) = Ok (new_states, found) ->
  (exists m0, found = Some m0 /\ extends m0 target)
  \/ (exists st, In st new_states /\ extends (snd st) target).
Proof.
  intros (C & Hi & Hj & Sp) Ext.
  unfold visit_state. cbn [py_str].
  set (os := list_ascii_of_string o) in Hj, Sp |- *.
  destruct (advance (skipn i0 ss) (skipn j0 os) i0 j0) as [i j] eqn:A.
  destruct (advance_stuck _ _ _ _ _ _ A) as (k' & Ei' & _ & Stuck).
  destruct (advance_spec _ _ _ _ _ _ A) as (k & -> & -> & K1 & K2 & F).
  assert (k' = k) as -> by lia. clear Ei'.
  rewrite length_skipn in K1, K2.
  assert (Sp1 : spell m (firstn (i0 + k) ss) = Some (firstn (j0 + k) os)).
  { rewrite !firstn_add, spell_app, Sp, F, spell_chars. reflexivity. }
  assert (Hi' : i0 + k <= List.length ss) by lia.
  assert (Hj' : j0 + k <= List.length os) by lia.
  rewrite !nth_error_skipn_add in Stuck.
  clear A F Sp K1 K2 Hi Hj.
  set (i := i0 + k) in *. set (j := j0 + k) in *.
  pose proof (spell_skipn target ss os i j target_spells
                (spell_extend m target _ _ Ext Sp1)) as R.
  destruct (Nat.eqb i (List.length ss)) eqn:Ei;
    destruct (Nat.eqb j (List.length os)) eqn:Ej; cbn [andb orb].
  - intros [= <- <-]. left. eauto.
  - exfalso. apply Nat.eqb_eq in Ei. apply Nat.eqb_neq in Ej.
    rewrite skipn_all2 in R by lia. cbn [spell] in R. injection R as R.
    pose proof (f_equal (@List.length ascii) R) as L.
    rewrite length_skipn in L. cbn [List.length] in L. lia.
  - exfalso. apply Nat.eqb_eq in Ej. apply Nat.eqb_neq in Ei.
    rewrite (skipn_all2 os) in R by lia.
    destruct (spell_nil_last target (skipn i ss) R)
      as (pre & a & b & El & D & Ev).
    { intros El. pose proof (f_equal (@List.length Token) El) as L.
      rewrite length_skipn in L. cbn [List.length] in L. lia. }
    apply (target_last (firstn i ss ++ pre) a b); [|exact D | exact Ev].
    now rewrite <- app_assoc, <- El, firstn_skipn.
  - apply Nat.eqb_neq in Ei, Ej.
    destruct (nth_error ss i) as [[c|arg]|] eqn:N.
    + exfalso. rewrite (skipn_succ_nth _ _ _ N) in R. cbn [spell] in R.
      destruct (spell target (skipn (i + 1) ss)) as [r|]; [|discriminate].
      injection R as R.
      apply (Stuck c c); [reflexivity | | reflexivity].
      now rewrite <- (Nat.add_0_r j), <- nth_error_skipn_add, <- R.
    + rewrite (skipn_succ_nth _ _ _ N) in R. cbn [spell] in R.
      destruct (dict_get (source_arguments target) arg) as [b|] eqn:D;
        [|discriminate].
      destruct (spell target (skipn (i + 1) ss)) as [rest|] eqn:Sr;
        [|discriminate].
      injection R as R. symmetry in R.
      assert (Fv : firstn (String.length (arg_value b)) (skipn j os)
                   = list_ascii_of_string (arg_value b)).
      { rewrite R, <- (list_ascii_length (arg_value b)).
        rewrite firstn_app, Nat.sub_diag, firstn_all. cbn [firstn].
        apply app_nil_r. }
      destruct (dict_get (source_arguments m) arg) as [mapped|] eqn:G.
      * assert (Ev : arg_value mapped = arg_value b).
        { destruct (Ext arg mapped) as (b0 & D0 & K0).
          - exists mapped. split; [exact G | reflexivity].
          - rewrite D in D0. injection D0 as <-.
            symmetry. now apply arg_value_akey. }
        rewrite Ev.
        assert (Q : String.substring j (String.length (arg_value b)) o
                    = arg_value b).
        { rewrite <- (string_of_list_ascii_of_string (String.substring _ _ _)),
            list_ascii_substring. fold os. rewrite Fv.
          apply string_of_list_ascii_of_string. }
        rewrite Q, String.eqb_refl. intros [= <- <-]. right.
        eexists. split; [left; reflexivity | exact Ext].
      * destruct (candidate_indices_complete target ss os i j arg b rest
                    N Hj' Sr R) as (indices & -> & Hin).
        intros [= <- <-]. right.
        destruct (merge_single_complete m arg b (constructed_valid m C)
                    Ext D) as (merged & M & Ext').
        exists (i + 1, j + String.length (arg_value b), merged).
        split; [|exact Ext'].
        apply in_flat_map. eexists. split; [exact Hin|].
        assert (Es : str_slice os j (j + String.length (arg_value b))
                     = arg_value b).
        { unfold str_slice.
          replace (j + String.length (arg_value b) - j)
            with (String.length (arg_value b)) by lia.
          rewrite Fv. apply string_of_list_ascii_of_string. }
        rewrite Es, M. now left.
    + exfalso. apply nth_error_None in N. lia.
Qed.

Lemma search_step_on_path s s' :
  on_path ss o target s -> search_step ss (PStr o) s = Ok s' ->
  on_path ss o target s'.
Proof.
  intros [Snd P] E.
  pose proof (search_step_sound ss (PStr o) s s' Snd E) as Snd'.
  split; [exact Snd'|].
  destruct s as [[|st states] found]; unfold search_step in E;
    cbn [fst snd] in E, P.
  { injection E as <-. exact P. }
  destruct Snd as [Hs Hf]. cbn [fst snd] in Hs, Hf.
  inversion Hs as [|? ? Hst Hstates]; subst.
  destruct (visit_state ss (PStr o) st) as [[new_states saved]|e] eqn:V;
    cbn [bind fst snd] in E; [|discriminate].
  injection E as <-. cbn [fst snd].
  destruct P as [(m & Hm & Em)|(st' & [<-|Hin] & Ext)].
  - left. exists m. split; [|exact Em].
    destruct saved; [now apply mset_add_keeps | exact Hm].
  - destruct st as [[i0 j0] m]. cbn [snd] in Ext.
    destruct (visit_state_sound ss (PStr o) _ _ _ Hst V) as [_ Al].
    destruct (visit_state_complete i0 j0 m new_states saved Hst Ext V)
      as [(m0 & -> & Ext0)|(st' & Hin & Ext')].
    + left. specialize (Al m0 eq_refl).
      pose proof (constructed_valid m0 (proj1 Al)) as V0.
      destruct (mset_add_has m0 found V0) as (x & Hx & Ex).
      exists x. split; [exact Hx|].
      assert (Vx : valid_mapping x).
      { destruct Snd' as [_ Hf']. cbn [snd] in Hf'.
        apply constructed_valid.
        exact (proj1 (proj1 (Forall_forall _ _) Hf' x Hx)). }
      intros a b. rewrite <- (alignment_complete m0 Al Ext0 a b).
      symmetry. now apply (mapping_eqb_spec m0 x V0 Vx).
    + right. exists st'. split; [|exact Ext'].
      apply in_or_app. left. now apply in_rev in Hin.
  - right. exists st'. split; [|exact Ext]. apply in_or_app. now right.
Qed.

End Complete.

Lemma spell_of_parts m parts :
  (forall a, In (ArgPart a) parts ->
             exists b, dict_get (source_arguments m) a = Some b) ->
  spell m (flat_map part_tokens parts)
  = Some (list_ascii_of_string (parts_str (map (map_part m) parts))).
Proof.
  induction parts as [|p parts IH]; intros H; [reflexivity|].
  cbn [flat_map map].
  rewrite spell_app, IH by (intros a Ha; apply H; now right).
  rewrite parts_str_cons, list_ascii_app.
  destruct p as [s|a]; cbn [part_tokens map_part].
  - now rewrite spell_chars.
  - destruct (H a (or_introl eq_refl)) as (b & D).
    cbn [spell]. rewrite D. cbn [option_map part_str].
    now rewrite app_nil_r.
Qed.

(** X22.  [map_to_primitive] finds every alignment.  For a string value
    the program built and a string other than its own value, take a
    mapping that the program can build, from exactly the arguments of the
    value to string arguments, under which the parts of the value spell
    the string, and which does not give the empty string to an argument
    at the very end of the value: the result holds a mapping equal to
    it. *)
Theorem map_to_primitive_complete :
  forall v o target,
    sv_built v ->
    sv_original_type v = TStr ->
    sv_original_value v <> PStr o ->
    constructed target ->
    (forall a b, dict_get (source_arguments target) a = Some b ->
                 aset_In a (sv_arguments v) /\ is_str b) ->
    (forall a, aset_In a (sv_arguments v) ->
               exists b, dict_get (source_arguments target) a = Some b) ->
    parts_str (map (map_part target) (sv_parts v)) = o ->
    (forall pre a b,
        flat_map part_tokens (sv_parts v) = pre ++ [TArg a] ->
        dict_get (source_arguments target) a = Some b ->
        arg_value b <> EmptyString) ->
    exists ms m,
      map_to_primitive v (PStr o) = Ok ms
      /\ In m ms
      /\ mapping_eqb m target = true.
Proof.
  intros v o target B T Ne C Dom Cov Sp Last.
  pose proof (sv_built_inv v B) as [_ Hargs Hval].
  pose proof (constructed_valid target C) as V.
  set (ss := flat_map part_tokens (sv_parts v)) in *.
  assert (Hparts : forall a, In (ArgPart a) (sv_parts v) ->
                     exists b, dict_get (source_arguments target) a = Some b).
  { intros a Ha. apply Cov, Hargs. exists a.
    split; [exact Ha | apply arg_eqb_refl]. }
  assert (Spell : spell target ss = Some (list_ascii_of_string o)).
  { unfold ss. rewrite (spell_of_parts target _ Hparts). now rewrite Sp. }
  assert (Src : forall a b, dict_get (source_arguments target) a = Some b ->
                  exists a0, In (TArg a0) ss /\ akey a0 = akey a).
  { intros a b D. destruct (Dom a b D) as [Ha _]. apply Hargs in Ha.
    destruct Ha as (a0 & Ha0 & Q). exists a0. split.
    - unfold ss. apply in_flat_map. exists (ArgPart a0).
      split; [exact Ha0 | now left].
    - now apply arg_eqb_akey. }
  unfold map_to_primitive. rewrite T. cbn [type_of issubclass pytype_eqb negb].
  destruct (py_eqb (sv_original_value v) (PStr o)) eqn:Q.
  { exfalso. apply Ne. rewrite (Hval T) in Q |- *. cbn [py_eqb] in Q.
    apply String.eqb_eq in Q. now rewrite Q. }
  destruct (sv_arguments v) as [|a0 args] eqn:A.
  { exfalso. apply Ne. rewrite (Hval T). f_equal. rewrite <- Sp.
    rewrite map_part_unrelated; [reflexivity|].
    intros a Ha. exfalso.
    destruct (proj2 (Hargs a)) as (x & [] & _).
    exists a. split; [exact Ha | apply arg_eqb_refl]. }
  rewrite <- A in *. clear A a0 args.
  destruct (map_to_primitive_search_empty v o) as (found & E).
  rewrite E. cbn [bind snd].
  unfold map_to_primitive_search in E. fold ss in E.
  apply (search_loop_invariant (on_path ss o target)) in E.
  - destruct E as [[_ Hf] [(m & Hm & Em)|(st & [] & _)]].
    cbn [snd] in Hf, Hm. exists found, m. split; [reflexivity|].
    split; [exact Hm|].
    apply mapping_eqb_spec; [|exact V | exact Em].
    apply constructed_valid.
    exact (proj1 (proj1 (Forall_forall _ _) Hf m Hm)).
  - intros s s'. apply search_step_on_path; try assumption.
    intros a b D. exact (proj2 (Dom a b D)).
  - split.
    + split; cbn [fst snd]; [|constructor].
      constructor; [|constructor]. cbn [aligned].
      split; [now apply (constructed_new [] empty_mapping)|].
      split; [apply Nat.le_0_l|]. split; [apply Nat.le_0_l | reflexivity].
    + right. exists (0, 0, empty_mapping). split; [now left|].
      intros a b H. now apply maps_to_empty in H.
Qed.

Lemma map_to_primitive_complete_witness :
  exists ms m,
    map_to_primitive fox_dog_value (PStr "+vulpine+++canine+") = Ok ms
    /\ In m ms
    /\ mapping_eqb m (fox_dog_mapping "vulpine+" "+canine") = true.
Proof.
  apply (map_to_primitive_complete fox_dog_value "+vulpine+++canine+"
           (fox_dog_mapping "vulpine+" "+canine")).
  - apply sv_built_new.
  - reflexivity.
  - discriminate.
  - apply (constructed_new
             [(str_arg "fox", str_arg "vulpine+");
              (str_arg "dog", str_arg "+canine")]).
    reflexivity.
  - intros a b. unfold fox_dog_mapping. cbn [source_arguments dict_get].
    destruct (arg_eqb (str_arg "fox") a) eqn:E1.
    + intros [= <-]. split; [|eexists; reflexivity].
      exists (str_arg "fox"). split; [vm_compute; auto | exact E1].
    + destruct (arg_eqb (str_arg "dog") a) eqn:E2; [|discriminate].
      intros [= <-]. split; [|eexists; reflexivity].
      exists (str_arg "dog"). split; [vm_compute; auto | exact E2].
  - intros a (x & Hx & Q). unfold fox_dog_mapping.
    cbn [source_arguments dict_get].
    assert (Hx' : x = str_arg "fox" \/ x = str_arg "dog").
    { vm_compute in Hx. destruct Hx as [<-|[<-|[]]]; auto. }
    destruct Hx' as [->| ->]; rewrite ?Q.
    + eauto.
    + destruct (arg_eqb (str_arg "fox") a); eauto.
  - vm_compute. reflexivity.
  - intros pre a b H. exfalso.
    apply (f_equal (@rev Token)) in H. rewrite rev_app_distr in H.
    cbn [rev app] in H. vm_compute in H. discriminate H.
Defined.

(** ** A mapping that was found turns the first value into the second *)

Lemma new_mapping_images ps m :
  new_mapping ps = Ok m ->
  (forall p, In p ps -> is_str (snd p)) ->
  str_mapping m.
Proof.
  intros E H. pose proof (new_mapping_spec ps) as S. rewrite E in S.
  destruct S as (V & M & _). split; [exact V|].
  intros a b Hab. apply M in Hab. destruct Hab as (p & Hp & _ & Kb).
  apply (is_str_akey (snd p) b Kb). now apply H.
Qed.

Lemma str_mapping_pairs m p :
  str_mapping m -> In p (source_arguments m) -> is_str (snd p).
Proof.
  intros [V S] Hp. apply (S (fst p) (snd p)).
  apply (valid_maps_to_pairs m _ _ V). exists p. auto.
Qed.

Lemma visit_state_images ss o st new_states found :
  str_mapping (snd st) ->
  visit_state ss (PStr o) st = Ok (new_states, found) ->
  Forall (fun st' => str_mapping (snd st')) new_states
  /\ forall m, found = Some m -> str_mapping m.
Proof.
  destruct st as [[i0 j0] m]. cbn [snd]. intros Sm.
  unfold visit_state. cbn [py_str].
  destruct (advance _ _ i0 j0) as [i j].
  destruct (Nat.eqb i _ && Nat.eqb j _).
  { intros [= <- <-]. split; [constructor|]. now intros m' [= <-]. }
  destruct (Nat.eqb i _ || Nat.eqb j _).
  { intros [= <- <-]. split; [constructor | discriminate]. }
  destruct (nth_error ss i) as [[c|arg]|];
    try (intros [= <- <-]; split; [constructor | discriminate]).
  destruct (dict_get (source_arguments m) arg) as [mapped|].
  - destruct (String.eqb _ _); intros [= <- <-];
      (split; [|discriminate]); [|constructor].
    constructor; [exact Sm | constructor].
  - destruct (candidate_indices ss _ i j) as [indices|];
      intros [= <- <-]; (split; [|discriminate]); [|constructor].
    apply Forall_forall. intros st Hst. apply in_flat_map in Hst.
    destruct Hst as (idx & _ & Hst).
    destruct (merge m _) as [merged|e] eqn:M; [|destruct Hst].
    destruct Hst as [<-|[]]. cbn [snd].
    unfold merge in M. cbn [source_arguments] in M.
    apply (new_mapping_images _ merged M). intros p Hp.
    apply in_app_or in Hp. destruct Hp as [Hp|[<-|[]]].
    + now apply (str_mapping_pairs m).
    + eexists. reflexivity.
Qed.

Lemma search_step_images ss o s s' :
  Forall (fun st => str_mapping (snd st)) (fst s) /\ Forall str_mapping (snd s) ->
  search_step ss (PStr o) s = Ok s' ->
  Forall (fun st => str_mapping (snd st)) (fst s')
  /\ Forall str_mapping (snd s').
Proof.
  destruct s as [[|st states] found]; intros [Hs Hf]; unfold search_step;
    cbn [fst snd] in *.
  - intros [= <-]. split; assumption.
  - inversion Hs as [|? ? Hst Hstates]; subst.
    destruct (visit_state ss (PStr o) st) as [[new_states saved]|e] eqn:V;
      cbn [bind fst snd]; [|discriminate].
    intros [= <-].
    destruct (visit_state_images ss o st new_states saved Hst V) as [Hn Hm].
    split; cbn [fst snd].
    + apply Forall_app. split; [|exact Hstates]. now apply Forall_rev.
    + destruct saved as [m|]; [|exact Hf].
      apply mset_add_Forall; [now apply Hm | exact Hf].
Qed.

(** The mappings that [map_to_primitive] returns for a value over
    string arguments map to string arguments. *)
Lemma map_to_primitive_images v o ms m :
  str_arguments v ->
  map_to_primitive v (PStr o) = Ok ms -> In m ms -> str_mapping m.
Proof.
  intros Sa E Hin. unfold map_to_primitive in E.
  destruct (negb _); [discriminate|].
  destruct (py_eqb _ _).
  - destruct (new_mapping _) as [m0|e] eqn:E0; cbn [bind] in E;
      [|discriminate].
    injection E as <-. destruct Hin as [<-|[]].
    apply (new_mapping_images _ m0 E0). intros p Hp.
    apply in_map_iff in Hp. destruct Hp as (a & <- & Ha). cbn [snd].
    apply Sa. exists a. split; [exact Ha | apply arg_eqb_refl].
  - destruct (sv_arguments v) as [|a0 args].
    { injection E as <-. destruct Hin. }
    destruct (map_to_primitive_search v (PStr o)) as [final|e] eqn:S;
      cbn [bind] in E; [|discriminate].
    injection E as <-. unfold map_to_primitive_search in S.
    apply (search_loop_invariant
             (fun s => Forall (fun st => str_mapping (snd st)) (fst s)
                       /\ Forall str_mapping (snd s))) in S.
    + exact (proj1 (Forall_forall _ _) (proj2 S) m Hin).
    + intros s s'. apply search_step_images.
    + split; cbn [fst snd]; [|constructor].
      constructor; [|constructor]. cbn [snd].
      split; [apply valid_empty_mapping|].
      intros a b H. now apply maps_to_empty in H.
Qed.

(** Applying a mapping that aligns [v] with [w] to [v] gives the value
    of [w]. *)
Lemma sv_aligned_from_mapping m v w :
  sv_original_type v = TStr ->
  str_images m ->
  sv_aligned m v w ->
  exists v',
    sv_from_mapping v m = Ok v'
    /\ sv_original_value v' = sv_original_value w
    /\ sv_parts v' = map (map_part m) (sv_parts v).
Proof.
  intros T Si [Hc Hs]. unfold sv_from_mapping.
  rewrite str_join_str_parts.
  - rewrite T. cbn [py_construct bind]. eexists.
    split; [reflexivity|]. split; [exact Hs | reflexivity].
  - intros b Hb. apply in_map_iff in Hb. destruct Hb as (p & Ep & Hp).
    destruct p as [s|a]; cbn [map_part] in Ep; [discriminate|].
    destruct (Hc a Hp) as (b' & D). rewrite D in Ep. injection Ep as <-.
    apply (Si a b'). exists b'. split; [exact D | reflexivity].
Qed.

(** X23.  Mapping and applying compose: for a value the program built
    over string arguments, every mapping that [map_to_primitive] returns
    for a string [o] is accepted by [from_mapping], and the value it
    gives has the original value [o] and the parts of the first value
    with each argument replaced by its image. *)
Theorem map_to_primitive_from_mapping :
  forall v o ms m,
    sv_built v ->
    str_arguments v ->
    map_to_primitive v (PStr o) = Ok ms ->
    In m ms ->
    exists v',
      sv_from_mapping v m = Ok v'
      /\ sv_original_value v' = PStr o
      /\ sv_parts v' = map (map_part m) (sv_parts v).
Proof.
  intros v o ms m B Sa E Hin.
  assert (T : sv_original_type v = TStr).
  { unfold map_to_primitive in E. cbn [type_of] in E.
    destruct (sv_original_type v); try discriminate E. reflexivity. }
  destruct (map_to_primitive_images v o ms m Sa E Hin) as [_ Si].
  destruct (map_to_primitive_alignment v o ms m B E Hin) as (_ & Hc & Hs).
  apply (sv_aligned_from_mapping m v (mkSV (PStr o) TStr [] [])
           T Si).
  split; [|cbn [sv_original_value]; now rewrite Hs].
  intros a Ha. apply Hc, (sv_built_inv v B). exists a.
  split; [exact Ha | apply arg_eqb_refl].
Qed.

Lemma map_to_primitive_from_mapping_witness :
  exists ms m v',
    map_to_primitive fox_dog_value (PStr "+vulpine+++canine+") = Ok ms
    /\ In m ms
    /\ sv_from_mapping fox_dog_value m = Ok v'
    /\ sv_original_value v' = PStr "+vulpine+++canine+"
    /\ sv_parts v' = map (map_part m) (sv_parts fox_dog_value).
Proof.
  assert (exists ms m,
            map_to_primitive fox_dog_value (PStr "+vulpine+++canine+")
            = Ok ms /\ In m ms)
    as (ms & m & E & Hin).
  { eexists. eexists. split; [vm_compute; reflexivity | now left]. }
  assert (Sa : str_arguments fox_dog_value).
  { intros a (x & Hx & Q). apply arg_eqb_akey in Q.
    apply (is_str_akey x a Q). vm_compute in Hx.
    destruct Hx as [<-|[<-|[]]]; eexists; reflexivity. }
  destruct (map_to_primitive_from_mapping fox_dog_value
              "+vulpine+++canine+" ms m (sv_built_new _ _) Sa E Hin)
    as (v' & H).
  exists ms, m, v'. split; [exact E|]. split; [exact Hin | exact H].
Defined.

Lemma mapM_In {A B : Type} (f : A -> result B) l ys y :
  mapM f l = Ok ys -> In y ys -> exists x, In x l /\ f x = Ok y.
Proof.
  intros E. apply mapM_Forall2 in E.
  induction E as [|x y' l ys Hxy _ IH]; intros []; subst.
  - exists x. split; [now left | exact Hxy].
  - destruct (IH H) as (x' & Hx' & E'). exists x'. split; [now right|exact E'].
Qed.

Lemma cartesian_from {A : Type} (t : list A) L x :
  in_cartesian t L -> In x t -> exists l, In l L /\ In x l.
Proof.
  unfold in_cartesian. induction 1 as [|y l t L Hy _ IH]; intros [].
  - subst. exists l. split; [now left | exact Hy].
  - destruct (IH H) as (l' & Hl' & Hx). exists l'. split; [now right|exact Hx].
Qed.

Lemma all_combinations_images L m :
  (forall l x, In l L -> In x l -> str_mapping x) ->
  In m (all_combinations L) -> str_mapping m.
Proof.
  intros H Hin. apply all_combinations_In in Hin.
  destruct Hin as (t & Ht & E). unfold merge_all in E.
  apply (new_mapping_images _ m E). intros p Hp.
  apply in_concat in Hp. destruct Hp as (ps & Hps & Hp).
  apply in_map_iff in Hps. destruct Hps as (ti & <- & Hti).
  destruct (cartesian_from t L ti Ht Hti) as (l & Hl & Hx).
  apply (str_mapping_pairs ti); [|exact Hp]. now apply (H l).
Qed.

Section FieldsImages.

Variable item_map :
  FileContentChange -> FileContentChange ->
  result (list ConfigurationTaskArgumentMapping).

Hypothesis item_map_images :
  forall x y ms m,
    str_arguments (content x) -> string_valued (content y) ->
    item_map x y = Ok ms -> In m ms -> str_mapping m.

Lemma fields_map_to_other_images fs gs ms m :
  Forall str_arguments_field fs ->
  Forall string_field gs ->
  fields_map_to_other item_map fs gs = Ok ms ->
  In m ms ->
  str_mapping m.
Proof.
  intros Hf Hg E Hin. unfold fields_map_to_other in E.
  set (records := combine fs gs) in E.
  destruct (existsb _ records); [injection E as <-; destruct Hin|].
  destruct (existsb _ records); [injection E as <-; destruct Hin|].
  match type of E with
  | bind (mapM ?f records) _ = _ =>
      destruct (mapM f records) as [synthetic|e] eqn:Es
  end; cbn [bind] in E; [|discriminate].
  match type of E with
  | bind (mapM ?f records) _ = _ =>
      destruct (mapM f records) as [sequences|e] eqn:Eq
  end; cbn [bind] in E; [|discriminate].
  injection E as <-.
  assert (Rec : forall f g, In (f, g) records ->
                  str_arguments_field f /\ string_field g).
  { intros f g Hr. split.
    - apply (proj1 (Forall_forall _ _) Hf). now apply (in_combine_l _ _ _ _ Hr).
    - apply (proj1 (Forall_forall _ _) Hg). now apply (in_combine_r _ _ _ _ Hr). }
  revert Hin. apply all_combinations_images.
  intros l x Hl Hx. apply in_app_or in Hl. destruct Hl as [Hl|Hl];
    apply in_concat in Hl; destruct Hl as (y & Hy & Hl).
  - destruct (mapM_In _ _ _ _ Es Hy) as ([f g] & Hr & Ey).
    destruct (Rec f g Hr) as [Sf Sg].
    destruct f as [v| |], g as [w| |]; try (injection Ey as <-; destruct Hl).
    cbn [str_arguments_field string_field] in Sf, Sg.
    destruct Sg as [o Ho]. rewrite Ho in Ey.
    destruct (map_to_primitive v (PStr o)) as [ms0|e] eqn:Em;
      cbn [bind] in Ey; [|discriminate].
    injection Ey as <-. destruct Hl as [<-|[]].
    now apply (map_to_primitive_images v o ms0 x).
  - destruct (mapM_In _ _ _ _ Eq Hy) as ([f g] & Hr & Ey).
    destruct (Rec f g Hr) as [Sf Sg].
    destruct f as [|l1|], g as [|l2|]; try (injection Ey as <-; destruct Hl).
    cbn [str_arguments_field string_field] in Sf, Sg.
    destruct (mapM (fun cd => item_map (fst cd) (snd cd)) (combine l1 l2))
      as [items|e] eqn:Ei; cbn [bind] in Ey; [|discriminate].
    injection Ey as <-. destruct Hl as [<-|[]].
    revert Hx. apply all_combinations_images.
    intros l' x' Hl' Hx'.
    destruct (mapM_In _ _ _ _ Ei Hl') as ([c d] & Hcd & Ecd).
    cbn [fst snd] in Ecd.
    apply (item_map_images c d l' x'); try assumption.
    + apply (proj1 (Forall_forall _ _) Sf). now apply (in_combine_l _ _ _ _ Hcd).
    + apply (proj1 (Forall_forall _ _) Sg). now apply (in_combine_r _ _ _ _ Hcd).
Qed.

End FieldsImages.

Lemma fcc_map_to_other_images x y ms m :
  str_arguments (content x) -> string_valued (content y) ->
  fcc_map_to_other x y = Ok ms -> In m ms -> str_mapping m.
Proof.
  intros Sx Sy E Hin. unfold fcc_map_to_other in E.
  apply (fields_map_to_other_images (fun _ _ => Ok [])) with
    (fs := fcc_fields x) (gs := fcc_fields y) (ms := ms); try assumption.
  - intros ? ? ms' m' _ _ [= <-] [].
  - unfold fcc_fields. constructor; [exact I|]. constructor; [exact Sx|].
    constructor.
  - unfold fcc_fields. constructor; [exact I|]. constructor; [exact Sy|].
    constructor.
Qed.

Lemma built_string_type v :
  sv_built v -> string_valued v -> sv_original_type v = TStr.
Proof.
  intros B [s E]. rewrite <- (sv_built_type v B), E. reflexivity.
Qed.

Lemma fccs_from_mapping m l1 : forall l2,
  str_images m ->
  Forall (fun c => sv_built (content c)) l1 ->
  Forall (fun c => string_valued (content c)) l1 ->
  Forall2 (fcc_aligned m) l1 l2 ->
  exists l',
    mapM (fun c => fcc_from_mapping c m) l1 = Ok l'
    /\ forall pool,
         map (fun c => fcc_from_arguments c pool) l'
         = map (fun c => fcc_from_arguments c pool) l2.
Proof.
  induction l1 as [|c l1 IH]; intros l2 Si B S A;
    inversion A as [|? d ? l2' [At Av] A']; subst.
  - exists []. split; reflexivity.
  - inversion B as [|? ? Bc B']; subst. inversion S as [|? ? Sc S']; subst.
    destruct (IH l2' Si B' S' A') as (l' & E & H).
    destruct (sv_aligned_from_mapping m (content c) (content d)
                (built_string_type _ Bc Sc) Si Av) as (v' & Ev & Hv & _).
    cbn [mapM]. unfold fcc_from_mapping at 1. rewrite Ev. cbn [bind].
    rewrite E. cbn [bind]. eexists. split; [reflexivity|].
    intros pool. cbn [map]. rewrite H. f_equal.
    unfold fcc_from_arguments. cbn [change_type content].
    now rewrite At, Hv.
Qed.



(** ** [from_mapping] with the empty mapping *)

Lemma aset_add_str a s :
  is_str a -> Forall is_str s -> Forall is_str (aset_add a s).
Proof.
  intros Ha Hs. unfold aset_add. destruct (existsb _ s); [exact Hs|].
  apply Forall_app. split; [exact Hs|]. now constructor.
Qed.

Lemma fold_aset_add_str l : forall s,
  Forall is_str l -> Forall is_str s ->
  Forall is_str (fold_left (fun s a => aset_add a s) l s).
Proof.
  induction l as [|a l IH]; intros s Hl Hs; [exact Hs|].
  inversion Hl; subst. cbn [fold_left]. apply IH; [assumption|].
  now apply aset_add_str.
Qed.

Lemma fold_versions_str (l : list string) : forall s,
  Forall is_str s ->
  Forall is_str
    (fold_left (fun s version => aset_add (Arg (PStr version)) s) l s).
Proof.
  induction l as [|v l IH]; intros s Hs; [exact Hs|].
  cbn [fold_left]. apply IH. apply aset_add_str; [|exact Hs].
  eexists. reflexivity.
Qed.

Lemma path_replacements_str ov_str arguments :
  Forall is_str (path_replacements ov_str arguments).
Proof.
  unfold path_replacements.
  assert (forall acc, Forall is_str acc ->
            Forall is_str
              (fold_left
                 (fun new_args arg =>
                    match arg_original_value arg with
                    | PStr original =>
                        if str_contains "." original
                        then
                          if str_contains
                               (replace_char "."%char "/"%char original)
                               ov_str
                          then aset_add
                                 (mkArg (PStr (replace_char "."%char "/"%char
                                                 original))
                                        _undo_path_replacement
                                        (Some original)) new_args
                          else new_args
                        else new_args
                    | _ => new_args
                    end)
                 arguments acc)) as H.
  { induction arguments as [|a l IH]; intros acc Hacc; [exact Hacc|].
    cbn [fold_left]. apply IH.
    destruct (arg_original_value a) as [original| | |]; try exact Hacc.
    destruct (str_contains "." original); [|exact Hacc].
    destruct (str_contains _ ov_str); [|exact Hacc].
    apply aset_add_str; [eexists; reflexivity | exact Hacc]. }
  apply H. constructor.
Qed.

Lemma sort_by_length_desc_str l :
  Forall is_str l -> Forall is_str (sort_by_length_desc l).
Proof.
  unfold sort_by_length_desc. induction 1 as [|x l Hx _ IH]; [constructor|].
  cbn [fold_right]. revert IH.
  generalize (fold_right insert_by_length [] l). intros s Hs.
  induction s as [|y s IHs]; cbn [insert_by_length].
  - now constructor.
  - inversion Hs; subst.
    destruct (Nat.leb _ _); constructor; auto.
Qed.

Lemma str_parts_app l1 l2 :
  str_parts l1 -> str_parts l2 -> str_parts (l1 ++ l2).
Proof.
  intros H1 H2 a Ha. apply in_app_or in Ha. destruct Ha; auto.
Qed.

Lemma str_parts_lit s : str_parts [Lit s].
Proof. intros a [H|[]]. discriminate H. Qed.

Lemma str_parts_arg a : is_str a -> str_parts [ArgPart a].
Proof. intros H b [[= <-]|[]]. exact H. Qed.

Lemma split_loop_str_parts argument : forall fuel sep after new_parts,
  is_str argument -> str_parts new_parts ->
  str_parts (split_loop fuel argument sep after new_parts).
Proof.
  induction fuel as [|fuel IH]; intros sep after new_parts Ha Hp;
    cbn [split_loop]; [exact Hp|].
  destruct (str_nonempty sep); [|exact Hp].
  destruct (str_partition (arg_value argument) after) as [[before sep'] after'].
  apply IH; [exact Ha|].
  apply str_parts_app; [|apply str_parts_lit].
  apply str_parts_app; [exact Hp | now apply str_parts_arg].
Qed.

Lemma split_part_str_parts argument new_parts part :
  is_str argument -> str_parts new_parts -> str_parts [part] ->
  str_parts (split_part argument new_parts part).
Proof.
  intros Ha Hn Hp. destruct part as [s|a]; cbn [split_part].
  - destruct (str_partition (arg_value argument) s) as [[before sep] after].
    apply split_loop_str_parts; [exact Ha|].
    apply str_parts_app; [exact Hn | apply str_parts_lit].
  - now apply str_parts_app.
Qed.

Lemma split_on_argument_str_parts parts argument :
  is_str argument -> str_parts parts ->
  str_parts (split_on_argument parts argument).
Proof.
  intros Ha Hp. unfold split_on_argument.
  destruct (str_nonempty (arg_value argument)); [|exact Hp].
  intros a Hin. apply filter_In in Hin. destruct Hin as [Hin _].
  revert a Hin.
  assert (forall acc, str_parts acc ->
            str_parts (fold_left (split_part argument) parts acc)) as H.
  { induction parts as [|p parts IH]; intros acc Hacc; [exact Hacc|].
    cbn [fold_left]. apply IH.
    - intros a Hin. apply Hp. now right.
    - apply split_part_str_parts; [exact Ha | exact Hacc|].
      intros a [Hin|[]]. apply Hp. now left. }
  apply H. intros a [].
Qed.

(** The parts of a value built over string arguments hold string
    arguments only: the constructor adds the string arguments for version
    numbers and for paths. *)
Lemma new_SyntheticValue_str_parts original_value pool :
  Forall is_str pool ->
  str_parts (sv_parts (new_SyntheticValue original_value pool)).
Proof.
  intros Hp. unfold new_SyntheticValue. cbn [sv_parts].
  match goal with
  | |- str_parts (fold_left split_on_argument ?args ?parts) =>
      assert (Ha : Forall is_str args);
      [|assert (Hs : str_parts parts);
        [|revert Ha Hs; generalize args, parts]]
  end.
  - apply sort_by_length_desc_str. apply fold_aset_add_str.
    + apply path_replacements_str.
    + apply fold_versions_str. unfold aset_of_list.
      apply fold_aset_add_str; [exact Hp|constructor].
  - destruct (str_nonempty _); [apply str_parts_lit | intros a []].
  - intros args. induction args as [|a args IH]; intros parts Ha Hs;
      [exact Hs|].
    inversion Ha; subst. cbn [fold_left]. apply IH; [assumption|].
    now apply split_on_argument_str_parts.
Qed.

Lemma sv_from_mapping_empty s pool :
  Forall is_str pool ->
  sv_from_mapping (new_SyntheticValue (PStr s) pool) empty_mapping
  = Ok (new_SyntheticValue (PStr s) pool).
Proof.
  intros Hp. unfold sv_from_mapping.
  rewrite map_part_unrelated by reflexivity.
  rewrite str_join_str_parts by now apply new_SyntheticValue_str_parts.
  rewrite new_SyntheticValue_str. reflexivity.
Qed.

Lemma fccs_from_mapping_empty pool cs :
  Forall is_str pool ->
  Forall (fun c => string_valued (content c)) cs ->
  mapM (fun c => fcc_from_mapping c empty_mapping)
       (map (fun c => fcc_from_arguments c pool) cs)
  = Ok (map (fun c => fcc_from_arguments c pool) cs).
Proof.
  intros Hp. induction 1 as [|c cs [s Hc] _ IH]; [reflexivity|].
  cbn [map mapM]. rewrite IH. unfold fcc_from_mapping, fcc_from_arguments.
  cbn [content change_type].
  rewrite Hc, (sv_from_mapping_empty s pool Hp). reflexivity.
Qed.

Lemma change_from_mapping_empty pool c :
  Forall is_str pool -> lifted_change pool c ->
  change_from_mapping c empty_mapping = Ok c.
Proof.
  intros Hp (c0 & Sc & ->). unfold string_change in Sc.
  destruct c0; cbn [change_fields] in Sc;
    repeat match goal with
           | H : Forall string_field (_ :: _) |- _ =>
               let H1 := fresh "Hf" in
               let H2 := fresh "Hr" in
               inversion H as [|? ? H1 H2]; clear H; subst;
               cbn [string_field] in H1
           | H : Forall string_field [] |- _ => clear H
           | H : string_valued ?v |- _ =>
               let s := fresh "s" in
               let E := fresh "E" in
               destruct H as [s E]
           end;
    cbn [change_from_arguments change_from_mapping];
    repeat match goal with
           | E : sv_original_value _ = PStr _ |- _ => rewrite E; clear E
           end;
    rewrite ?(sv_from_mapping_empty _ pool Hp); cbn [bind];
    try reflexivity.
  rewrite (fccs_from_mapping_empty pool changes Hp) by assumption.
  reflexivity.
Qed.

(** X25.  [from_mapping] with the empty mapping changes nothing: called
    on a task that the constructor built from a tuple of words and
    changes of string values, it returns that task, with the same
    arguments and the same changes. *)
Theorem task_from_mapping_empty :
  forall system executable words changes t,
    Forall string_change changes ->
    new_ConfigurationTask system executable (ASequence words) changes = Ok t ->
    task_from_mapping t empty_mapping = Ok t.
Proof.
  intros system executable words changes t Hc E.
  unfold new_ConfigurationTask in E. cbn [bind] in E. injection E as <-.
  set (pool := aset_of_list (map (fun w => Arg (PStr w)) words)).
  assert (Hp : Forall is_str pool).
  { unfold pool, aset_of_list. apply fold_aset_add_str; [|constructor].
    apply Forall_forall. intros x Hx. apply in_map_iff in Hx.
    destruct Hx as (w & <- & _). eexists. reflexivity. }
  unfold task_from_mapping.
  cbn [task_arguments task_changes task_system task_executable].
  assert (W : forall ws,
            mapM (map_word empty_mapping) ws
            = Ok (map (fun w => (w, Arg (PStr w))) ws)).
  { induction ws as [|w ws IH]; [reflexivity|].
    cbn [mapM map]. rewrite IH. reflexivity. }
  rewrite W. cbn [bind fst snd]. rewrite !map_map. cbn [fst snd].
  rewrite map_id. fold pool.
  set (cs := cset_of_list (map (fun c => change_from_arguments c pool)
                               changes)).
  assert (L : Forall (lifted_change pool) cs)
    by now apply constructed_changes.
  assert (M : mapM (fun c => change_from_mapping c empty_mapping) cs = Ok cs).
  { clear -L Hp. induction L as [|c cs Hc _ IH]; [reflexivity|].
    cbn [mapM]. rewrite (change_from_mapping_empty pool c Hp Hc), IH.
    reflexivity. }
  rewrite M. cbn [bind].
  rewrite (cset_of_list_id pool cs (cset_of_list_NoDup _) L).
  reflexivity.
Qed.

Lemma task_from_mapping_empty_witness :
  exists t,
    new_ConfigurationTask SHELL "touch" (ASequence ["a"]) [FileAdd tmp_a]
    = Ok t
    /\ task_from_mapping t empty_mapping = Ok t.
Proof.
  eexists. split; [reflexivity|].
  apply (task_from_mapping_empty SHELL "touch" ["a"] [FileAdd tmp_a]).
  - constructor; [apply string_change_tmp | constructor].
  - reflexivity.
Defined.
